(** * TriglavTactician: a shallow embedding of the engine core

    The development follows the C++ sources file by file:
    chess_utils (bit primitives, attack tables, sliding attacks),
    chess_board (position, snapshot, attack test, FEN reader),
    chess_moves (move encoding, move list, generator),
    chess_game (MakeMove, parseMove) and evaluation (Evaluate,
    searchPosition).

    Conventions.
    - [U64] values are integers in [0, 2^64); operations that can leave
      that range in C++ (shifts to the left, subtraction, complement) are
      reduced modulo 2^64 explicitly.
    - [unsigned int] fields are integers in [0, 2^32) with explicit
      wrap-around; [int] values of [Evaluate] are 32-bit two's complement.
    - [char] is the signed 8-bit type of the x86-64 build: the bytes of a
      string read as values in [-128, 128).
    - A computation that aborts ([assert]) or leaves the defined behaviour
      of C++ (an array index outside its array, a shift count outside
      0..63, a read behind the end of a string) yields [None]. *)

From Stdlib Require Import String Ascii.
From Stdlib Require Import ZArith List Lia Bool.
Import ListNotations.
Local Open Scope Z_scope.

(** ** The error monad of aborting computations *)

Definition bind {A B : Type} (m : option A) (k : A -> option B) : option B :=
  match m with
  | Some a => k a
  | None => None
  end.

Notation "x <- m ;; k" := (bind m (fun x => k))
  (at level 61, m at next level, right associativity).
Notation "' pat <- m ;; k" := (bind m (fun x => match x with pat => k end))
  (at level 61, pat pattern, m at next level, right associativity).

(** ** chess_utils.h: machine integers *)

Module U64.

Definition modulus : Z := 2 ^ 64.
Definition max : Z := 2 ^ 64 - 1.

(** Reduction of an integer to the 64-bit unsigned range. *)
Definition wrap (z : Z) : Z := z mod modulus.

Definition in_range (z : Z) : Prop := 0 <= z < modulus.

(** [x << n] on a 64-bit word, for a shift count in 0..63. *)
Definition shl (x n : Z) : Z := wrap (Z.shiftl x n).
(** [x >> n] on a 64-bit word. *)
Definition shr (x n : Z) : Z := Z.shiftr x n.
(** [~x] on a 64-bit word. *)
Definition not (x : Z) : Z := Z.lxor x max.
(** [x - y] on 64-bit words. *)
Definition sub (x y : Z) : Z := wrap (x - y).
(** [x * y] on 64-bit words. *)
Definition mul (x y : Z) : Z := wrap (x * y).

End U64.

Module U32.
Definition modulus : Z := 2 ^ 32.
Definition wrap (z : Z) : Z := z mod modulus.
Definition in_range (z : Z) : Prop := 0 <= z < modulus.
End U32.

(** ** chess_utils.h: enumerations *)

(** enum Piece *)
Definition WP : Z := 0.
Definition WN : Z := 1.
Definition WB : Z := 2.
Definition WR : Z := 3.
Definition WQ : Z := 4.
Definition WK : Z := 5.
Definition BP : Z := 6.
Definition BN : Z := 7.
Definition BB : Z := 8.
Definition BR : Z := 9.
Definition BQ : Z := 10.
Definition BK : Z := 11.
Definition EMPTY : Z := 12.

(** enum Square: a8 = 0 ... h8 = 7, a7 = 8 ... h1 = 63, no_sq = 64. *)
Definition a8 : Z := 0.
Definition c8 : Z := 2.
Definition d8 : Z := 3.
Definition e8 : Z := 4.
Definition f8 : Z := 5.
Definition g8 : Z := 6.
Definition h8 : Z := 7.
Definition a7 : Z := 8.
Definition h7 : Z := 15.
Definition a2 : Z := 48.
Definition h2 : Z := 55.
Definition a1 : Z := 56.
Definition c1 : Z := 58.
Definition d1 : Z := 59.
Definition e1 : Z := 60.
Definition f1 : Z := 61.
Definition g1 : Z := 62.
Definition h1 : Z := 63.
Definition no_sq : Z := 64.

(** enum { white, black, both } *)
Definition white : Z := 0.
Definition black : Z := 1.
Definition both : Z := 2.

(** enum { WK_c = 1, WQ_c = 2, BK_c = 4, BQ_c = 8 } *)
Definition WK_c : Z := 1.
Definition WQ_c : Z := 2.
Definition BK_c : Z := 4.
Definition BQ_c : Z := 8.

(** enum { UP, DOWN, LEFT, RIGHT, UPLEFT, UPRIGHT, DOWNLEFT, DOWNRIGHT } *)
Inductive Dir : Type :=
  | UP | DOWN | LEFT | RIGHT | UPLEFT | UPRIGHT | DOWNLEFT | DOWNRIGHT.

Definition all_dirs : list Dir :=
  [UP; DOWN; LEFT; RIGHT; UPLEFT; UPRIGHT; DOWNLEFT; DOWNRIGHT].

Definition Dir_eqb (a b : Dir) : bool :=
  match a, b with
  | UP, UP | DOWN, DOWN | LEFT, LEFT | RIGHT, RIGHT
  | UPLEFT, UPLEFT | UPRIGHT, UPRIGHT
  | DOWNLEFT, DOWNLEFT | DOWNRIGHT, DOWNRIGHT => true
  | _, _ => false
  end.

(** ** chess_utils.h: single-bit operations

    The square is in 0..63 at every call of the sources that is
    modelled with these functions; the two calls whose square the source
    does not bound are guarded with [valid_shift] where they occur. *)

Definition bit (square : Z) : Z := Z.shiftl 1 square.
Definition set_bit (bitboard square : Z) : Z := Z.lor bitboard (bit square).
Definition get_bit (bitboard square : Z) : bool :=
  negb (Z.land bitboard (bit square) =? 0).
Definition pop_bit (bitboard square : Z) : Z :=
  Z.land bitboard (U64.not (bit square)).

Definition valid_shift (n : Z) : bool := (0 <=? n) && (n <? 64).

(** Truth value of a 64-bit word in a condition. *)
Definition nonzero (x : Z) : bool := negb (x =? 0).

(** ** chess_utils.cpp: bit scans

    [bitScanForward] returns the index of the least significant set bit
    (count of trailing zeros), [bitScanReverse] that of the most
    significant one (63 minus the count of leading zeros); both assert
    that their argument is not zero. *)

Fixpoint scan_up (fuel : nat) (i : Z) (bb : Z) : Z :=
  match fuel with
  | O => i
  | S f => if Z.testbit bb i then i else scan_up f (i + 1) bb
  end.

Fixpoint scan_down (fuel : nat) (i : Z) (bb : Z) : Z :=
  match fuel with
  | O => i
  | S f => if Z.testbit bb i then i else scan_down f (i - 1) bb
  end.

Definition bitScanForward (bb : Z) : option Z :=
  if bb =? 0 then None else Some (scan_up 64 0 bb).

Definition bitScanReverse (bb : Z) : option Z :=
  if bb =? 0 then None else Some (scan_down 64 63 bb).

(** ** chess_utils.h: constants *)

Definition NOT_FILE_A : Z := 18374403900871474942.
Definition NOT_FILE_H : Z := 9187201950435737471.
Definition NOT_FILE_HG : Z := 4557430888798830399.
Definition NOT_FILE_AB : Z := 18229723555195321596.

Definition WHITE_PROMOTIONS : list Z := [WQ; WR; WB; WN].
Definition BLACK_PROMOTIONS : list Z := [BQ; BR; BB; BN].

Definition CASTLING_RIGHTS : list Z :=
  [ 7; 15; 15; 15;  3; 15; 15; 11;
   15; 15; 15; 15; 15; 15; 15; 15;
   15; 15; 15; 15; 15; 15; 15; 15;
   15; 15; 15; 15; 15; 15; 15; 15;
   15; 15; 15; 15; 15; 15; 15; 15;
   15; 15; 15; 15; 15; 15; 15; 15;
   15; 15; 15; 15; 15; 15; 15; 15;
   13; 15; 15; 15; 12; 15; 15; 14].

(** ** Arrays: reads and writes with the index checked *)

Definition aget (a : list Z) (i : Z) : option Z :=
  if i <? 0 then None else nth_error a (Z.to_nat i).

Fixpoint list_set (a : list Z) (n : nat) (v : Z) : list Z :=
  match a, n with
  | [], _ => []
  | _ :: t, O => v :: t
  | h :: t, S m => h :: list_set t m v
  end.

Definition aset (a : list Z) (i v : Z) : option (list Z) :=
  if (0 <=? i) && (i <? Z.of_nat (length a))
  then Some (list_set a (Z.to_nat i) v)
  else None.

(** [f(a[i])] for an [f] that updates its reference argument. *)
Definition amod (a : list Z) (i : Z) (f : Z -> Z) : option (list Z) :=
  v <- aget a i ;; aset a i (f v).

(** The squares 0..63 in increasing order. *)
Definition squares : list Z := map Z.of_nat (seq 0 64).

(** ** chess_utils.cpp: ray tables ([initGenerateRays]) *)

Definition gen_ray (d : Dir) (square : Z) : Z :=
  let row := square / 8 in
  let col := square mod 8 in
  let shift_right m := Z.land (U64.shr m 1) NOT_FILE_H in
  let shift_left m := Z.land (U64.shl m 1) NOT_FILE_A in
  match d with
  | DOWN => U64.shl 0x0101010101010100 square
  | UP => U64.shr 0x0080808080808080 (63 - square)
  | RIGHT =>
      U64.mul 2 (U64.sub (U64.shl 1 (Z.lor square 7)) (U64.shl 1 square))
  | LEFT => U64.sub (U64.shl 1 square) (U64.shl 1 (Z.land square 56))
  | DOWNLEFT =>
      U64.shl (Nat.iter (Z.to_nat (7 - col)) shift_right 0x102040810204000)
              (row * 8)
  | DOWNRIGHT =>
      U64.shl (Nat.iter (Z.to_nat col) shift_left 0x8040201008040200)
              (row * 8)
  | UPLEFT =>
      U64.shr (Nat.iter (Z.to_nat (7 - col)) shift_right 0x40201008040201)
              ((7 - row) * 8)
  | UPRIGHT =>
      U64.shr (Nat.iter (Z.to_nat col) shift_left 0x2040810204080)
              ((7 - row) * 8)
  end.

(** The global [rays[8][64]] after [initGenerateRays]. *)
Definition initGenerateRays : list (list Z) :=
  map (fun d => map (gen_ray d) squares) all_dirs.

Definition rays_table : list (list Z) := Eval vm_compute in initGenerateRays.

Definition dir_index (d : Dir) : nat :=
  match d with
  | UP => 0 | DOWN => 1 | LEFT => 2 | RIGHT => 3
  | UPLEFT => 4 | UPRIGHT => 5 | DOWNLEFT => 6 | DOWNRIGHT => 7
  end%nat.

(** [rays[d][square]], for a square in 0..63. *)
Definition rays (d : Dir) (square : Z) : Z :=
  nth (Z.to_nat square) (nth (dir_index d) rays_table []) 0.

(** ** chess_utils.cpp: leaper attacks *)

Definition generatePawnAttacks (color square : Z) : Z :=
  let attacks := 0 in
  let bitboard := set_bit 0 square in
  if color =? 0 then
    let attacks :=
      if nonzero (Z.land (U64.shr bitboard 7) NOT_FILE_A)
      then Z.lor attacks (U64.shr bitboard 7) else attacks in
    let attacks :=
      if nonzero (Z.land (U64.shr bitboard 9) NOT_FILE_H)
      then Z.lor attacks (U64.shr bitboard 9) else attacks in
    attacks
  else
    let attacks :=
      if nonzero (Z.land (U64.shl bitboard 7) NOT_FILE_H)
      then Z.lor attacks (U64.shl bitboard 7) else attacks in
    let attacks :=
      if nonzero (Z.land (U64.shl bitboard 9) NOT_FILE_A)
      then Z.lor attacks (U64.shl bitboard 9) else attacks in
    attacks.

Definition generateKingAttacks (square : Z) : Z :=
  let bitboard := set_bit 0 square in
  let step (cond : Z) (target : Z) (attacks : Z) :=
    if nonzero cond then Z.lor attacks target else attacks in
  let attacks := 0 in
  let attacks := step (U64.shr bitboard 8) (U64.shr bitboard 8) attacks in
  let attacks :=
    step (Z.land (U64.shr bitboard 9) NOT_FILE_H) (U64.shr bitboard 9) attacks in
  let attacks :=
    step (Z.land (U64.shr bitboard 7) NOT_FILE_A) (U64.shr bitboard 7) attacks in
  let attacks :=
    step (Z.land (U64.shr bitboard 1) NOT_FILE_H) (U64.shr bitboard 1) attacks in
  let attacks := step (U64.shl bitboard 8) (U64.shl bitboard 8) attacks in
  let attacks :=
    step (Z.land (U64.shl bitboard 9) NOT_FILE_A) (U64.shl bitboard 9) attacks in
  let attacks :=
    step (Z.land (U64.shl bitboard 7) NOT_FILE_H) (U64.shl bitboard 7) attacks in
  let attacks :=
    step (Z.land (U64.shl bitboard 1) NOT_FILE_A) (U64.shl bitboard 1) attacks in
  attacks.

Definition generateKnightAttacks (square : Z) : Z :=
  let bitboard := set_bit 0 square in
  let step (cond : Z) (target : Z) (attacks : Z) :=
    if nonzero cond then Z.lor attacks target else attacks in
  let attacks := 0 in
  let attacks :=
    step (Z.land (U64.shr bitboard 17) NOT_FILE_H) (U64.shr bitboard 17) attacks in
  let attacks :=
    step (Z.land (U64.shr bitboard 15) NOT_FILE_A) (U64.shr bitboard 15) attacks in
  let attacks :=
    step (Z.land (U64.shr bitboard 10) NOT_FILE_HG) (U64.shr bitboard 10) attacks in
  let attacks :=
    step (Z.land (U64.shr bitboard 6) NOT_FILE_AB) (U64.shr bitboard 6) attacks in
  let attacks :=
    step (Z.land (U64.shl bitboard 17) NOT_FILE_A) (U64.shl bitboard 17) attacks in
  let attacks :=
    step (Z.land (U64.shl bitboard 15) NOT_FILE_H) (U64.shl bitboard 15) attacks in
  let attacks :=
    step (Z.land (U64.shl bitboard 10) NOT_FILE_AB) (U64.shl bitboard 10) attacks in
  let attacks :=
    step (Z.land (U64.shl bitboard 6) NOT_FILE_HG) (U64.shl bitboard 6) attacks in
  attacks.

(** The global leaper tables after [initLeapersAttacks]. *)
Definition pawn_attacks_table : list (list Z) :=
  Eval vm_compute in
    [map (generatePawnAttacks white) squares;
     map (generatePawnAttacks black) squares].
Definition knight_attacks_table : list Z :=
  Eval vm_compute in map generateKnightAttacks squares.
Definition king_attacks_table : list Z :=
  Eval vm_compute in map generateKingAttacks squares.

(** [pawn_attacks[color][square]], for a color in 0..1 and a square in 0..63. *)
Definition pawn_attacks (color square : Z) : Z :=
  nth (Z.to_nat square) (nth (Z.to_nat color) pawn_attacks_table []) 0.
Definition knight_attacks (square : Z) : Z :=
  nth (Z.to_nat square) knight_attacks_table 0.
Definition king_attacks (square : Z) : Z :=
  nth (Z.to_nat square) king_attacks_table 0.

(** ** chess_utils.cpp: sliding attacks *)

(** One direction of [getBishopMoves] / [getRooksMoves]:
    [attacks |= rays[d][square];
     if (rays[d][square] & blockers) {
       blockerIndex = scan(rays[d][square] & blockers);
       attacks &= ~rays[d][blockerIndex]; }] *)
Definition slide (d : Dir) (scan : Z -> option Z)
    (square blockers attacks : Z) : option Z :=
  let attacks := Z.lor attacks (rays d square) in
  if nonzero (Z.land (rays d square) blockers) then
    blockerIndex <- scan (Z.land (rays d square) blockers) ;;
    Some (Z.land attacks (U64.not (rays d blockerIndex)))
  else Some attacks.

Definition getBishopMoves (square blockers : Z) : option Z :=
  let attacks := 0 in
  attacks <- slide UPLEFT bitScanReverse square blockers attacks ;;
  attacks <- slide UPRIGHT bitScanReverse square blockers attacks ;;
  attacks <- slide DOWNRIGHT bitScanForward square blockers attacks ;;
  attacks <- slide DOWNLEFT bitScanForward square blockers attacks ;;
  Some attacks.

Definition getRooksMoves (square blockers : Z) : option Z :=
  let attacks := 0 in
  attacks <- slide UP bitScanReverse square blockers attacks ;;
  attacks <- slide DOWN bitScanForward square blockers attacks ;;
  attacks <- slide RIGHT bitScanForward square blockers attacks ;;
  attacks <- slide LEFT bitScanReverse square blockers attacks ;;
  Some attacks.

Definition getQueensMoves (square blockers : Z) : option Z :=
  r <- getRooksMoves square blockers ;;
  b <- getBishopMoves square blockers ;;
  Some (Z.lor r b).


(** ** chess_utils.cpp: characters *)

(** The code of a character constant. *)
Definition ch (c : Ascii.ascii) : Z := Z.of_N (Ascii.N_of_ascii c).
Arguments ch c%_char.

(** The value of a byte read through [char]: the type is signed on the
    x86-64 build, so the bytes from 128 on read as -128 .. -1.  The
    character constants of the code are below 128, where [ch] is their
    value. *)
Definition char_value (c : Ascii.ascii) : Z :=
  if ch c <? 128 then ch c else ch c - 256.

(** [s[p]] for a NUL-terminated string: the terminator is readable, the
    bytes behind it are not. *)
Definition char_at (s : String.string) (p : Z) : option Z :=
  if p <? 0 then None
  else match String.get (Z.to_nat p) s with
       | Some c => Some (char_value c)
       | None => if p =? Z.of_nat (String.length s) then Some 0 else None
       end.

Definition charToPieceEnum (pieceChar : Z) : Z :=
  if pieceChar =? ch "P" then WP
  else if pieceChar =? ch "N" then WN
  else if pieceChar =? ch "B" then WB
  else if pieceChar =? ch "R" then WR
  else if pieceChar =? ch "Q" then WQ
  else if pieceChar =? ch "K" then WK
  else if pieceChar =? ch "p" then BP
  else if pieceChar =? ch "n" then BN
  else if pieceChar =? ch "b" then BB
  else if pieceChar =? ch "r" then BR
  else if pieceChar =? ch "q" then BQ
  else if pieceChar =? ch "k" then BK
  else EMPTY.

(** ** chess_board.h: the position *)

Record ChessBoard : Type := mkBoard {
  bitboards : list Z;        (* U64 bitboards[12] *)
  occupancy : list Z;        (* U64 occupancy[3] *)
  bitboards_copy : list Z;   (* U64 bitboards_copy[12] *)
  occupancy_copy : list Z;   (* U64 occupancy_copy[3] *)
  color : Z;
  color_copy : Z;
  enpassant : Z;
  enpassant_copy : Z;
  castling : Z;
  castling_copy : Z;
  num_moves : Z
}.

Definition with_bitboards (b : ChessBoard) (v : list Z) : ChessBoard :=
  mkBoard v (occupancy b) (bitboards_copy b) (occupancy_copy b)
          (color b) (color_copy b) (enpassant b) (enpassant_copy b)
          (castling b) (castling_copy b) (num_moves b).

Definition with_occupancy (b : ChessBoard) (v : list Z) : ChessBoard :=
  mkBoard (bitboards b) v (bitboards_copy b) (occupancy_copy b)
          (color b) (color_copy b) (enpassant b) (enpassant_copy b)
          (castling b) (castling_copy b) (num_moves b).

Definition with_color (b : ChessBoard) (v : Z) : ChessBoard :=
  mkBoard (bitboards b) (occupancy b) (bitboards_copy b) (occupancy_copy b)
          v (color_copy b) (enpassant b) (enpassant_copy b)
          (castling b) (castling_copy b) (num_moves b).

Definition with_enpassant (b : ChessBoard) (v : Z) : ChessBoard :=
  mkBoard (bitboards b) (occupancy b) (bitboards_copy b) (occupancy_copy b)
          (color b) (color_copy b) v (enpassant_copy b)
          (castling b) (castling_copy b) (num_moves b).

Definition with_castling (b : ChessBoard) (v : Z) : ChessBoard :=
  mkBoard (bitboards b) (occupancy b) (bitboards_copy b) (occupancy_copy b)
          (color b) (color_copy b) (enpassant b) (enpassant_copy b)
          v (castling_copy b) (num_moves b).

Definition with_num_moves (b : ChessBoard) (v : Z) : ChessBoard :=
  mkBoard (bitboards b) (occupancy b) (bitboards_copy b) (occupancy_copy b)
          (color b) (color_copy b) (enpassant b) (enpassant_copy b)
          (castling b) (castling_copy b) v.

(** [bitboards[piece]] and [occupancy[c]] for an index that is a constant
    of the source (always inside the array). *)
Definition bb (b : ChessBoard) (piece : Z) : Z :=
  nth (Z.to_nat piece) (bitboards b) 0.
Definition occ (b : ChessBoard) (c : Z) : Z :=
  nth (Z.to_nat c) (occupancy b) 0.

(** The types of the fields: array sizes and integer ranges. *)
Definition wf_board (b : ChessBoard) : Prop :=
  List.length (bitboards b) = 12%nat /\
  List.length (occupancy b) = 3%nat /\
  Forall U64.in_range (bitboards b) /\
  Forall U64.in_range (occupancy b) /\
  U32.in_range (color b) /\
  U32.in_range (enpassant b) /\
  U32.in_range (castling b) /\
  U32.in_range (num_moves b).

(** ** chess_board.cpp: state management *)

Definition copyBoard (b : ChessBoard) : ChessBoard :=
  mkBoard (bitboards b) (occupancy b) (bitboards b) (occupancy b)
          (color b) (color b) (enpassant b) (enpassant b)
          (castling b) (castling b) (num_moves b).

Definition revertBoard (b : ChessBoard) : ChessBoard :=
  mkBoard (bitboards_copy b) (occupancy_copy b)
          (bitboards_copy b) (occupancy_copy b)
          (color_copy b) (color_copy b)
          (enpassant_copy b) (enpassant_copy b)
          (castling_copy b) (castling_copy b) (num_moves b).

(** [resetBoard] clears the twelve bitboards and their copies, and the
    white and black occupancies and their copies: its second loop runs
    over [color < both], so [occupancy[both]] and [occupancy_copy[both]]
    keep their values. *)
Definition resetBoard (b : ChessBoard) : ChessBoard :=
  mkBoard (repeat 0 12)
          [0; 0; nth 2 (occupancy b) 0]
          (repeat 0 12)
          [0; 0; nth 2 (occupancy_copy b) 0]
          0 both no_sq no_sq 0 0 0.

(** ** chess_board.cpp: attack test *)

Definition isSquareAttacked (b : ChessBoard) (square color : Z)
  : option bool :=
  if nonzero (if color =? white
              then Z.land (pawn_attacks black square) (bb b WP)
              else Z.land (pawn_attacks white square) (bb b BP))
  then Some true
  else if nonzero (Z.land (knight_attacks square)
                          (if color =? white then bb b WN else bb b BN))
  then Some true
  else
    bm <- getBishopMoves square (occ b both) ;;
    if nonzero (Z.land bm (if color =? white then bb b WB else bb b BB))
    then Some true
    else
      rm <- getRooksMoves square (occ b both) ;;
      if nonzero (Z.land rm (if color =? white then bb b WR else bb b BR))
      then Some true
      else
        qm <- getQueensMoves square (occ b both) ;;
        if nonzero (Z.land qm (if color =? white then bb b WQ else bb b BQ))
        then Some true
        else if nonzero (Z.land (king_attacks square)
                                (if color =? white then bb b WK else bb b BK))
        then Some true
        else Some false.

Definition isThereCheck (b : ChessBoard) (color : Z) : option bool :=
  square <- (if color =? white then bitScanForward (bb b WK)
             else bitScanForward (bb b BK)) ;;
  isSquareAttacked b square (Z.lxor color 1).

(** ** chess_board.cpp: the FEN reader *)

Definition is_letter (c : Z) : bool :=
  ((ch "a" <=? c) && (c <=? ch "z")) || ((ch "A" <=? c) && (c <=? ch "Z")).
Definition is_digit (c : Z) : bool := (ch "0" <=? c) && (c <=? ch "9").

(** The loop over the twelve bitboards that looks for a piece on a square:
    the last bitboard that has the bit wins, -1 when none has it. *)
Definition piece_on (bbs : list Z) (square : Z) : Z :=
  fold_left
    (fun piece bb_piece =>
       if get_bit (nth (Z.to_nat bb_piece) bbs 0) square
       then bb_piece else piece)
    (map Z.of_nat (seq 0 12)) (-1).

(** The loop [for (file = 0; file < 8; file++)] of one rank.  The body
    changes [file] itself, so the loop is not bounded by eight rounds;
    every round either advances [file] or the position in the string. *)
Fixpoint parse_files (fuel : nat) (fen : String.string) (rank file p : Z)
    (bbs : list Z) : option (list Z * Z) :=
  if file <? 8 then
    match fuel with
    | O => None
    | S fuel' =>
        let square := rank * 8 + file in
        c <- char_at fen p ;;
        '(bbs, p) <-
          (if is_letter c then
             bbs' <- amod bbs (charToPieceEnum c) (fun x => set_bit x square) ;;
             Some (bbs', p + 1)
           else Some (bbs, p)) ;;
        c <- char_at fen p ;;
        let '(file, p) :=
          if is_digit c then
            let offset := c - ch "0" in
            let file := if piece_on bbs square =? -1 then file - 1 else file in
            (file + offset, p + 1)
          else (file, p) in
        c <- char_at fen p ;;
        let p := if c =? ch "/" then p + 1 else p in
        parse_files fuel' fen rank (file + 1) p bbs
    end
  else Some (bbs, p).

Fixpoint parse_ranks (ranks : list Z) (fen : String.string) (p : Z)
    (bbs : list Z) : option (list Z * Z) :=
  match ranks with
  | [] => Some (bbs, p)
  | rank :: rest =>
      '(bbs, p) <- parse_files (9 + String.length fen) fen rank 0 p bbs ;;
      parse_ranks rest fen p bbs
  end.

(** The loop over the castling field, which runs until it reads a blank. *)
Fixpoint parse_castling (fuel : nat) (fen : String.string) (p : Z)
    (castling : Z) : option (Z * Z) :=
  match fuel with
  | O => None
  | S fuel' =>
      c <- char_at fen p ;;
      if c =? ch " " then Some (castling, p)
      else
        let castling :=
          if c =? ch "K" then Z.lor castling WK_c
          else if c =? ch "Q" then Z.lor castling WQ_c
          else if c =? ch "k" then Z.lor castling BK_c
          else if c =? ch "q" then Z.lor castling BQ_c
          else castling in
        parse_castling fuel' fen (p + 1) castling
  end.

Definition parseFEN (b : ChessBoard) (fen : String.string)
  : option ChessBoard :=
  let b := resetBoard b in
  '(bbs, p) <- parse_ranks (map Z.of_nat (seq 0 8)) fen 0 (bitboards b) ;;
  let b := with_bitboards b bbs in
  let p := p + 1 in
  c <- char_at fen p ;;
  let b := with_color b (if c =? ch "w" then white else black) in
  let p := p + 2 in
  '(castling, p) <- parse_castling (2 + String.length fen) fen p (castling b) ;;
  let b := with_castling b castling in
  let p := p + 1 in
  c <- char_at fen p ;;
  b <- (if negb (c =? ch "-") then
          c1 <- char_at fen (p + 1) ;;
          let file := c - ch "a" in
          let rank := 8 - (c1 - ch "0") in
          Some (with_enpassant b (U32.wrap (rank * 8 + file)))
        else Some (with_enpassant b no_sq)) ;;
  let occ_white :=
    fold_left (fun o piece => Z.lor o (bb b piece))
              [WP; WN; WB; WR; WQ; WK] (occ b white) in
  let occ_black :=
    fold_left (fun o piece => Z.lor o (bb b piece))
              [BP; BN; BB; BR; BQ; BK] (occ b black) in
  Some (with_occupancy b [occ_white; occ_black; Z.lor occ_white occ_black]).

(** The board of a default-constructed [ChessBoard]. *)
Definition empty_board : ChessBoard :=
  mkBoard (repeat 0 12) [0; 0; 0] (repeat 0 12) [0; 0; 0]
          0 both no_sq no_sq 0 0 0.

Definition start_fen : String.string :=
  "rnbqkbnr/pppppppp/8/8/8/8/PPPPPPPP/RNBQKBNR w KQkq - 0 1"%string.

(** ** chess_moves.h: move encoding *)

Definition get_move_source (move : Z) : Z := Z.land move 0x3f.
Definition get_move_target (move : Z) : Z := Z.shiftr (Z.land move 0xfc0) 6.
Definition get_move_piece (move : Z) : Z := Z.shiftr (Z.land move 0xf000) 12.
Definition get_move_promoted (move : Z) : Z :=
  Z.shiftr (Z.land move 0xf0000) 16.
Definition get_move_capture (move : Z) : Z := Z.land move 0x100000.
Definition get_move_double (move : Z) : Z := Z.land move 0x200000.
Definition get_move_enpassant (move : Z) : Z := Z.land move 0x400000.
Definition get_move_castling (move : Z) : Z := Z.land move 0x800000.

Definition encode_move
    (from to piece promoted capture double_p enpassant castling : Z) : Z :=
  Z.lor (Z.lor (Z.lor (Z.lor (Z.lor (Z.lor (Z.lor
    from
    (Z.shiftl to 6))
    (Z.shiftl piece 12))
    (Z.shiftl promoted 16))
    (Z.shiftl capture 20))
    (Z.shiftl double_p 21))
    (Z.shiftl enpassant 22))
    (Z.shiftl castling 23).

(** ** chess_moves.h: the move list

    [moves] and [moves_count] are the members of the class; [log] holds
    the lines that [add_move] has written to the standard output. *)

Record Moves : Type := mkMoves {
  moves : list Z;          (* int moves[265] *)
  moves_count : Z;         (* unsigned int moves_count *)
  log : list string
}.

Definition MOVES_SIZE : nat := 265.

Definition wf_moves (m : Moves) : Prop :=
  List.length (moves m) = MOVES_SIZE /\ 0 <= moves_count m.

Definition full_message : string :=
  "Array is full. Cannot add more moves."%string.

Definition add_move (st : Moves) (move : Z) : Moves :=
  if moves_count st <? 256 then
    mkMoves (list_set (moves st) (Z.to_nat (moves_count st)) move)
            (U32.wrap (moves_count st + 1))
            (log st)
  else
    mkMoves (moves st) (moves_count st) (log st ++ [full_message]).

(** [moves_count = 0] *)
Definition reset_count (st : Moves) : Moves :=
  mkMoves (moves st) 0 (log st).

(** The moves that a generation has produced: the first [moves_count]
    slots of the array. *)
Definition generated (st : Moves) : list Z :=
  firstn (Z.to_nat (moves_count st)) (moves st).

(** ** chess_moves.cpp: the generator *)

(** The loop
    [while (bitboard) { sq = bitScanForward(bitboard); body;
                        pop_bit(bitboard, sq); }]
    over the set bits of a 64-bit word; a word has at most 64 of them. *)
Fixpoint for_bits {S : Type} (fuel : nat) (bitboard : Z)
    (body : Z -> S -> option S) (st : S) : option S :=
  if nonzero bitboard then
    match fuel with
    | O => None
    | Datatypes.S fuel' =>
        sq <- bitScanForward bitboard ;;
        st <- body sq st ;;
        for_bits fuel' (pop_bit bitboard sq) body st
    end
  else Some st.

(** [for (int i = 0; i < 4; ++i) add_move(encode_move(..., promotions[i], ...))] *)
Definition add_promotions (st : Moves) (from to piece : Z)
    (promotions : list Z) (capture : Z) : Moves :=
  fold_left
    (fun st promoted =>
       add_move st (encode_move from to piece promoted capture 0 0 0))
    promotions st.

(** The three parts of the body of the loop over the pawns: pushes,
    captures, en passant. *)
Definition pawn_pushes (color : Z) (occupancy : list Z)
    (from_square : Z) (st : Moves) : Moves :=
  let piece := if color =? white then WP else BP in
  let direction := if color =? white then -8 else 8 in
  let promotions :=
    if color =? white then WHITE_PROMOTIONS else BLACK_PROMOTIONS in
  let to_square := from_square + direction in
  let is_move_push_allowed :=
    if color =? white then negb (to_square <? a8)
    else negb (to_square >? h1) in
  if is_move_push_allowed && negb (get_bit (nth 2 occupancy 0) to_square)
  then
    let is_promotion_allowed :=
      if color =? white then (from_square >=? a7) && (from_square <=? h7)
      else (from_square >=? a2) && (from_square <=? h2) in
    if is_promotion_allowed then
      add_promotions st from_square to_square piece promotions 0
    else
      let st :=
        add_move st (encode_move from_square to_square piece 0 0 0 0 0) in
      let is_double_allowed :=
        if color =? white then (from_square >=? a2) && (from_square <=? h2)
        else (from_square >=? a7) && (from_square <=? h7) in
      if is_double_allowed
         && negb (get_bit (nth 2 occupancy 0) (to_square + direction))
      then add_move st (encode_move from_square (to_square + direction)
                                    piece 0 0 1 0 0)
      else st
  else st.

Definition pawn_captures (color : Z) (occupancy : list Z)
    (from_square : Z) (st : Moves) : option Moves :=
  let piece := if color =? white then WP else BP in
  let promotions :=
    if color =? white then WHITE_PROMOTIONS else BLACK_PROMOTIONS in
  let attacks :=
    Z.land (pawn_attacks color from_square)
           (nth (Z.to_nat (Z.lxor color 1)) occupancy 0) in
  for_bits 64 attacks
    (fun to_square st =>
       let is_promotion_allowed :=
         if color =? white then (from_square >=? a7) && (from_square <=? h7)
         else (from_square >=? a2) && (from_square <=? h2) in
       Some (if is_promotion_allowed then
               add_promotions st from_square to_square piece promotions 1
             else
               add_move st (encode_move from_square to_square
                                        piece 0 1 0 0 0)))
    st.

Definition pawn_enpassant (board : ChessBoard) (color : Z)
    (from_square : Z) (st : Moves) : option Moves :=
  let piece := if color =? white then WP else BP in
  if negb (enpassant board =? no_sq) then
    if valid_shift (enpassant board) then
      let enpassant_attacks :=
        Z.land (pawn_attacks color from_square) (bit (enpassant board)) in
      if nonzero enpassant_attacks then
        target_enpassant <- bitScanForward enpassant_attacks ;;
        Some (add_move st (encode_move from_square target_enpassant
                                       piece 0 1 0 1 0))
      else Some st
    else None
  else Some st.

Definition pawn_body (board : ChessBoard) (color : Z) (occupancy : list Z)
    (from_square : Z) (st : Moves) : option Moves :=
  let st := pawn_pushes color occupancy from_square st in
  st <- pawn_captures color occupancy from_square st ;;
  pawn_enpassant board color from_square st.

Definition generateMovesPawns (board : ChessBoard) (color : Z)
    (occupancy : list Z) (st : Moves) : option Moves :=
  let bitboard := if color =? white then bb board WP else bb board BP in
  for_bits 64 bitboard (pawn_body board color occupancy) st.

(** The inner loop of the kings and of the pieces: one move per target
    square, a capture when the target holds an opposing piece. *)
Definition target_body (from_square piece enemy : Z)
    (to_square : Z) (st : Moves) : option Moves :=
  Some (if negb (get_bit enemy to_square)
        then add_move st (encode_move from_square to_square piece 0 0 0 0 0)
        else add_move st (encode_move from_square to_square piece 0 1 0 0 0)).

(** The king moves proper: the loop over the kings of the side. *)
Definition king_steps (board : ChessBoard) (color : Z)
    (occupancy : list Z) (st : Moves) : option Moves :=
  let bitboard := if color =? white then bb board WK else bb board BK in
  let piece := if color =? white then WK else BK in
  for_bits 64 bitboard
    (fun from_square st =>
       let attacks :=
         Z.land (king_attacks from_square)
                (if color =? white then U64.not (nth 0 occupancy 0)
                 else U64.not (nth 1 occupancy 0)) in
       for_bits 64 attacks
         (target_body from_square piece
            (if color =? white then nth 1 occupancy 0
             else nth 0 occupancy 0))
         st)
    st.

(** King-side castling: right held, f and g empty, e and f not attacked;
    the move goes from [f - 1] to [f + 1]. *)
Definition castle_kingside (board : ChessBoard) (color : Z) (st : Moves)
  : option Moves :=
  let piece := if color =? white then WK else BK in
  let square_kings_side := if color =? white then f1 else f8 in
  if nonzero (Z.land (castling board)
                     (if color =? white then WK_c else BK_c)) then
    if negb (get_bit (occ board both) square_kings_side)
       && negb (get_bit (occ board both) (square_kings_side + 1)) then
      origin <- isSquareAttacked board (square_kings_side - 1)
                                 (Z.lxor color 1) ;;
      if negb origin then
        crossed <- isSquareAttacked board square_kings_side
                                    (Z.lxor color 1) ;;
        if negb crossed then
          Some (add_move st (encode_move (square_kings_side - 1)
                                         (square_kings_side + 1)
                                         piece 0 0 0 0 1))
        else Some st
      else Some st
    else Some st
  else Some st.

(** Queen-side castling: right held, d, c and b empty, e and d not
    attacked; the move goes from [d + 1] to [d - 1]. *)
Definition castle_queenside (board : ChessBoard) (color : Z) (st : Moves)
  : option Moves :=
  let piece := if color =? white then WK else BK in
  let square_queens_side := if color =? white then d1 else d8 in
  if nonzero (Z.land (castling board)
                     (if color =? white then WQ_c else BQ_c)) then
    if negb (get_bit (occ board both) square_queens_side)
       && negb (get_bit (occ board both) (square_queens_side - 1))
       && negb (get_bit (occ board both) (square_queens_side - 2)) then
      origin <- isSquareAttacked board (square_queens_side + 1)
                                 (Z.lxor color 1) ;;
      if negb origin then
        crossed <- isSquareAttacked board square_queens_side
                                    (Z.lxor color 1) ;;
        if negb crossed then
          Some (add_move st (encode_move (square_queens_side + 1)
                                         (square_queens_side - 1)
                                         piece 0 0 0 0 1))
        else Some st
      else Some st
    else Some st
  else Some st.

Definition generateMovesKings (board : ChessBoard) (color : Z)
    (occupancy : list Z) (st : Moves) : option Moves :=
  st <- king_steps board color occupancy st ;;
  st <- castle_kingside board color st ;;
  castle_queenside board color st.

(** The [switch (piece)] of [generateMovesPiece]; the function is called
    with the knights, bishops, rooks and queens only. *)
Definition piece_attacks (piece from_square blockers : Z) : option Z :=
  if (piece =? WN) || (piece =? BN) then Some (knight_attacks from_square)
  else if (piece =? WB) || (piece =? BB)
  then getBishopMoves from_square blockers
  else if (piece =? WR) || (piece =? BR)
  then getRooksMoves from_square blockers
  else if (piece =? WQ) || (piece =? BQ)
  then getQueensMoves from_square blockers
  else None.

Definition generateMovesPiece (board : ChessBoard) (occupancy : list Z)
    (piece : Z) (st : Moves) : option Moves :=
  let bitboard := bb board piece in
  for_bits 64 bitboard
    (fun from_square st =>
       attacks <- piece_attacks piece from_square (nth 2 occupancy 0) ;;
       let attacks :=
         Z.land attacks
                (if piece <? 6 then U64.not (nth 0 occupancy 0)
                 else U64.not (nth 1 occupancy 0)) in
       for_bits 64 attacks
         (target_body from_square piece
            (if piece <? 6 then nth 1 occupancy 0 else nth 0 occupancy 0))
         st)
    st.

Definition generate_moves (st : Moves) (board : ChessBoard) : option Moves :=
  let st := reset_count st in
  let occupancy := occupancy board in
  if color board =? white then
    st <- generateMovesPawns board white occupancy st ;;
    st <- generateMovesKings board white occupancy st ;;
    st <- generateMovesPiece board occupancy WN st ;;
    st <- generateMovesPiece board occupancy WB st ;;
    st <- generateMovesPiece board occupancy WR st ;;
    generateMovesPiece board occupancy WQ st
  else
    st <- generateMovesPawns board black occupancy st ;;
    st <- generateMovesKings board black occupancy st ;;
    st <- generateMovesPiece board occupancy BN st ;;
    st <- generateMovesPiece board occupancy BB st ;;
    st <- generateMovesPiece board occupancy BR st ;;
    generateMovesPiece board occupancy BQ st.

(** A move list whose array holds [fill] in every slot. *)
Definition moves_filled (fill : Z) : Moves :=
  mkMoves (repeat fill MOVES_SIZE) 0 [].

(** ** chess_game.cpp: MakeMove *)

(** The loop over the six bitboards of the opponent that removes the
    captured piece: the first bitboard that holds the target square
    loses it, and the loop stops there. *)
Fixpoint remove_captured (pieces : list Z) (bbs : list Z) (to_square : Z)
  : list Z :=
  match pieces with
  | [] => bbs
  | piece :: rest =>
      if get_bit (nth (Z.to_nat piece) bbs 0) to_square
      then list_set bbs (Z.to_nat piece)
                    (pop_bit (nth (Z.to_nat piece) bbs 0) to_square)
      else remove_captured rest bbs to_square
  end.

(** [f(a[i])] for an index that the source keeps inside the array. *)
Definition lmod (a : list Z) (i : Z) (f : Z -> Z) : list Z :=
  list_set a (Z.to_nat i) (f (nth (Z.to_nat i) a 0)).

(** The steps of [MakeMove] between the snapshot and the legality
    check, in their order. *)

(** [pop_bit(bitboards[piece], from); set_bit(bitboards[piece], to)] and
    the same on the occupancy of the mover. *)
Definition move_piece (board : ChessBoard) (piece side from_square to_square : Z)
  : option ChessBoard :=
  bbs <- amod (bitboards board) piece
              (fun x => set_bit (pop_bit x from_square) to_square) ;;
  let board := with_bitboards board bbs in
  Some (with_occupancy board
          (lmod (occupancy board) side
                (fun x => set_bit (pop_bit x from_square) to_square))).

(** [if (capture)]: the captured piece leaves its bitboard and the
    occupancy of the opponent. *)
Definition capture_piece (board : ChessBoard) (side to_square : Z)
  : ChessBoard :=
  let range := if side =? 0 then 6 else 0 in
  let board :=
    with_bitboards board
      (remove_captured (map (fun i => range + Z.of_nat i) (seq 0 6))
                       (bitboards board) to_square) in
  with_occupancy board
    (lmod (occupancy board) (Z.lxor side 1) (fun x => pop_bit x to_square)).

(** [if (promoted)]: the pawn on the target becomes the promoted piece. *)
Definition promote (board : ChessBoard) (piece promoted to_square : Z)
  : option ChessBoard :=
  bbs <- amod (bitboards board) piece (fun x => pop_bit x to_square) ;;
  bbs <- amod bbs promoted (fun x => set_bit x to_square) ;;
  Some (with_bitboards board bbs).

(** [if (enpassant)]: the pawn behind the target is removed and the
    en-passant square cleared. *)
Definition capture_enpassant (board : ChessBoard) (side to_square : Z)
  : option ChessBoard :=
  let victim := if side =? white then to_square + 8 else to_square - 8 in
  if valid_shift victim then
    Some (with_enpassant
            (with_bitboards board
               (lmod (bitboards board) (if side =? white then BP else WP)
                     (fun x => pop_bit x victim)))
            no_sq)
  else None.

(** [if (castling) switch (to_square)]: the rook of the castling side
    moves next to the king. *)
Definition castle_rook (board : ChessBoard) (to_square : Z) : ChessBoard :=
  if to_square =? g1 then
    with_bitboards board
      (lmod (bitboards board) WR (fun x => set_bit (pop_bit x h1) f1))
  else if to_square =? c1 then
    with_bitboards board
      (lmod (bitboards board) WR (fun x => set_bit (pop_bit x a1) d1))
  else if to_square =? g8 then
    with_bitboards board
      (lmod (bitboards board) BR (fun x => set_bit (pop_bit x h8) f8))
  else if to_square =? c8 then
    with_bitboards board
      (lmod (bitboards board) BR (fun x => set_bit (pop_bit x a8) d8))
  else board.

(** [castling &= CASTLING_RIGHTS[from]; castling &= CASTLING_RIGHTS[to]] *)
Definition update_rights (board : ChessBoard) (from_square to_square : Z)
  : ChessBoard :=
  let board :=
    with_castling board
      (Z.land (castling board) (nth (Z.to_nat from_square) CASTLING_RIGHTS 0)) in
  with_castling board
    (Z.land (castling board) (nth (Z.to_nat to_square) CASTLING_RIGHTS 0)).

(** The three occupancies, reset and rebuilt from the piece bitboards. *)
Definition rebuild_occupancy (board : ChessBoard) : ChessBoard :=
  let occ_white :=
    fold_left (fun o piece => Z.lor o (bb board piece))
              [WP; WN; WB; WR; WQ; WK] 0 in
  let occ_black :=
    fold_left (fun o piece => Z.lor o (bb board piece))
              [BP; BN; BB; BR; BQ; BK] 0 in
  with_occupancy board [occ_white; occ_black; Z.lor occ_white occ_black].

(** The first part of [MakeMove], from the snapshot to the rebuilt
    occupancies. *)
Definition MakeMove_update (board : ChessBoard) (move : Z)
  : option ChessBoard :=
  let board := copyBoard board in
  let from_square := get_move_source move in
  let to_square := get_move_target move in
  let piece := get_move_piece move in
  let promoted := get_move_promoted move in
  let capture := get_move_capture move in
  let enpassant_flag := get_move_enpassant move in
  let castling_flag := get_move_castling move in
  let side := if piece <? 6 then white else black in
  board <- move_piece board piece side from_square to_square ;;
  let board :=
    if nonzero capture then capture_piece board side to_square else board in
  board <-
    (if nonzero promoted then promote board piece promoted to_square
     else Some board) ;;
  board <-
    (if nonzero enpassant_flag then capture_enpassant board side to_square
     else Some board) ;;
  let board :=
    if nonzero castling_flag then castle_rook board to_square else board in
  let board := update_rights board from_square to_square in
  Some (rebuild_occupancy board).

(** [MakeMove] returns the board and whether the move was accepted. *)
Definition MakeMove (board : ChessBoard) (move : Z)
  : option (ChessBoard * bool) :=
  let from_square := get_move_source move in
  let piece := get_move_piece move in
  let double_p := get_move_double move in
  let side := if piece <? 6 then white else black in
  board <- MakeMove_update board move ;;
  (* Check if move is legal *)
  check <- isThereCheck board side ;;
  if check then
    (* Undo move, revert to previous board *)
    Some (revertBoard board, false)
  else
    (* Update enpassant square if it is double pawn move *)
    let board :=
      if nonzero double_p then
        with_enpassant board
          (U32.wrap (if side =? white then from_square - 8
                     else from_square + 8))
      else with_enpassant board no_sq in
    (* Update color *)
    let board := with_color board (Z.lxor (color board) 1) in
    (* Update move counter *)
    let board := with_num_moves board (U32.wrap (num_moves board + 1)) in
    Some (board, true).

(** ** chess_game.cpp: parseMove *)

(** [move_str[4] == c], read only when the promoted piece is of the kind
    that the letter names. *)
Definition promotion_letter (move_str : string) (kind : bool) (c : Z)
  : option bool :=
  if kind then c4 <- char_at move_str 4 ;; Some (c4 =? c) else Some false.

(** The loop [for (auto &move : moves.moves)] of [parseMove]: it runs over
    every slot of the array. *)
Fixpoint match_move (slots : list Z) (move_str : string)
    (from_square to_square : Z) : option Z :=
  match slots with
  | [] => Some 0
  | move :: rest =>
      if (from_square =? get_move_source move)
         && (to_square =? get_move_target move) then
        let promoted_piece := get_move_promoted move in
        if nonzero promoted_piece then
          q <- promotion_letter move_str
                 ((promoted_piece =? WQ) || (promoted_piece =? BQ)) (ch "q") ;;
          if q then Some move else
          r <- promotion_letter move_str
                 ((promoted_piece =? WR) || (promoted_piece =? BR)) (ch "r") ;;
          if r then Some move else
          b <- promotion_letter move_str
                 ((promoted_piece =? WB) || (promoted_piece =? BB)) (ch "b") ;;
          if b then Some move else
          n <- promotion_letter move_str
                 ((promoted_piece =? WN) || (promoted_piece =? BN)) (ch "n") ;;
          if n then Some move else
          match_move rest move_str from_square to_square
        else Some move
      else match_move rest move_str from_square to_square
  end.

Definition parseMove (st : Moves) (board : ChessBoard) (move_str : string)
  : option (Moves * Z) :=
  st <- generate_moves st board ;;
  c0 <- char_at move_str 0 ;;
  c1 <- char_at move_str 1 ;;
  let from_square := (c0 - ch "a") + (8 - (c1 - ch "0")) * 8 in
  c2 <- char_at move_str 2 ;;
  c3 <- char_at move_str 3 ;;
  let to_square := (c2 - ch "a") + (8 - (c3 - ch "0")) * 8 in
  move <- match_move (moves st) move_str from_square to_square ;;
  Some (st, move).

(** ** evaluation.cpp: static evaluation *)

Module I32.
(** Reduction of an integer to the 32-bit two's complement range. *)
Definition wrap (z : Z) : Z := (z + 2 ^ 31) mod 2 ^ 32 - 2 ^ 31.
Definition add (x y : Z) : Z := wrap (x + y).
Definition sub (x y : Z) : Z := wrap (x - y).
Definition neg (x : Z) : Z := wrap (- x).
Definition in_range (z : Z) : Prop := - 2 ^ 31 <= z < 2 ^ 31.
End I32.

(** The tables of evaluation.h ([material_score], the five piece-square
    tables and [MIRROR_SCORE]) are not part of the sources at hand; the
    evaluation takes them as parameters, each table as the function from
    an index to its entry. *)
Record EvalTables : Type := mkTables {
  material_score : Z -> Z;
  PAWN_SCORE : Z -> Z;
  KNIGHT_SCORE : Z -> Z;
  BISHOP_SCORE : Z -> Z;
  ROOK_SCORE : Z -> Z;
  KING_SCORE : Z -> Z;
  MIRROR_SCORE : Z -> Z
}.

Section Evaluation.

Variable T : EvalTables.

(** The positional term of the [switch (piece)]: added for the white
    pieces, subtracted on the mirrored square for the black ones, absent
    for the queens. *)
Definition positional (piece square score : Z) : Z :=
  if piece =? WP then I32.add score (PAWN_SCORE T square)
  else if piece =? WN then I32.add score (KNIGHT_SCORE T square)
  else if piece =? WB then I32.add score (BISHOP_SCORE T square)
  else if piece =? WR then I32.add score (ROOK_SCORE T square)
  else if piece =? WK then I32.add score (KING_SCORE T square)
  else if piece =? BP
  then I32.sub score (PAWN_SCORE T (MIRROR_SCORE T square))
  else if piece =? BN
  then I32.sub score (KNIGHT_SCORE T (MIRROR_SCORE T square))
  else if piece =? BB
  then I32.sub score (BISHOP_SCORE T (MIRROR_SCORE T square))
  else if piece =? BR
  then I32.sub score (ROOK_SCORE T (MIRROR_SCORE T square))
  else if piece =? BK
  then I32.sub score (KING_SCORE T (MIRROR_SCORE T square))
  else score.

Definition eval_body (piece square score : Z) : option Z :=
  Some (positional piece square (I32.add score (material_score T piece))).

(** The sum over the twelve bitboards, before the change of sign. *)
Fixpoint eval_pieces (pieces : list Z) (board : ChessBoard) (score : Z)
  : option Z :=
  match pieces with
  | [] => Some score
  | bb_piece :: rest =>
      score <- for_bits 64 (bb board bb_piece) (eval_body bb_piece) score ;;
      eval_pieces rest board score
  end.

Definition Evaluate (board : ChessBoard) : option Z :=
  score <- eval_pieces (map Z.of_nat (seq 0 12)) board 0 ;;
  Some (if color board =? white then score else I32.neg score).

End Evaluation.

(** ** evaluation.cpp: the iterative-deepening driver

    [searchPosition] is modelled over an arbitrary search: [World] is
    everything the search reads and writes (the working copy of the game,
    the node counter, the killer, history and principal-variation tables,
    the clock), [NegaMax] is the search at a window and a depth, and
    [IsTimeOut] the reading of the clock. *)

Inductive Event : Type :=
  | SearchCall (alpha beta depth : Z)        (* a call of NegaMax *)
  | InfoLine (score depth nodes : Z) (pv : list Z)
  | BestMove (move : Z).

Section Search.

Variable World : Type.
Variable NegaMax : World -> Z -> Z -> Z -> Z * World.
Variable IsTimeOut : World -> bool * World.
Variable reset_counters : World -> World.   (* num_nodes = 0; ply = 0 *)
Variable num_nodes : World -> Z.
Variable pv_line : World -> list Z.         (* pv_table[0][0 .. pv_length[0]-1] *)
Variable pv_first : World -> Z.             (* pv_table[0][0] *)

(** The loop [for (curr_depth = 1; curr_depth <= depth; curr_depth++)].
    Every round ends in the increment of [curr_depth], also the round
    that leaves through [continue]; the loop therefore makes at most
    [depth] rounds, which is the fuel given by [searchPosition]. *)
Fixpoint search_loop (rounds : nat) (curr_depth depth alpha beta : Z)
    (w : World) (out : list Event) : World * list Event :=
  match rounds with
  | O => (w, out)
  | S rounds' =>
      if curr_depth <=? depth then
        let '(timeout, w) := IsTimeOut w in
        if timeout then (w, out)
        else
          let '(score, w) := NegaMax w alpha beta curr_depth in
          let out := out ++ [SearchCall alpha beta curr_depth] in
          if (score <=? alpha) || (score >=? beta) then
            (* alpha = -50000; beta = 50000; continue; *)
            search_loop rounds' (curr_depth + 1) depth (-50000) 50000 w out
          else
            let out :=
              out ++ [InfoLine score curr_depth (num_nodes w) (pv_line w)] in
            search_loop rounds' (curr_depth + 1) depth
                        (score - 50) (score + 50) w out
      else (w, out)
  end.

(** [searchPosition] returns the world after the search, the events in
    their order, and the value stored in [game.best_move]. *)
Definition searchPosition (w : World) (depth : Z)
  : World * list Event * Z :=
  let w := reset_counters w in
  let '(w, out) :=
    search_loop (Z.to_nat depth) 1 depth (-50000) 50000 w [] in
  (w, out ++ [BestMove (pv_first w)], pv_first w).

End Search.

(** The depths of the calls of the search, in their order. *)
Fixpoint call_depths (out : list Event) : list Z :=
  match out with
  | [] => []
  | SearchCall _ _ d :: rest => d :: call_depths rest
  | _ :: rest => call_depths rest
  end.

Fixpoint info_depths (out : list Event) : list Z :=
  match out with
  | [] => []
  | InfoLine _ d _ _ :: rest => d :: info_depths rest
  | _ :: rest => info_depths rest
  end.

(** ** Sequences of moves and the occupancy invariant *)

(** The calls [MakeMove(m1); MakeMove(m2); ...] on one board, each result
    ignored, as [parsePosition] makes them. *)
Fixpoint play (board : ChessBoard) (ms : list Z) : option ChessBoard :=
  match ms with
  | [] => Some board
  | m :: rest =>
      '(board, _) <- MakeMove board m ;;
      play board rest
  end.

Definition union (bbs : list Z) (pieces : list Z) : Z :=
  fold_left (fun o piece => Z.lor o (nth (Z.to_nat piece) bbs 0)) pieces 0.

(** The occupancies are the unions of the piece bitboards. *)
Definition occupancy_consistent (b : ChessBoard) : Prop :=
  occ b white = union (bitboards b) [WP; WN; WB; WR; WQ; WK] /\
  occ b black = union (bitboards b) [BP; BN; BB; BR; BQ; BK] /\
  occ b both = Z.lor (occ b white) (occ b black).

(** The fields of the position that the claims about make and unmake
    compare: all of them but the snapshot and the move counter. *)
Definition same_position (b1 b2 : ChessBoard) : Prop :=
  bitboards b1 = bitboards b2 /\
  occupancy b1 = occupancy b2 /\
  color b1 = color b2 /\
  enpassant b1 = enpassant b2 /\
  castling b1 = castling b2.

(** The part of a board that a make leaves alone until it decides: the
    snapshot, the side to move and the move counter. *)
Definition kept (b : ChessBoard) :=
  (bitboards_copy b, occupancy_copy b, color_copy b, enpassant_copy b,
   castling_copy b, num_moves b, color b).

(** ** Concrete positions and moves *)

Definition force {A : Type} (default : A) (o : option A) : A :=
  match o with
  | Some a => a
  | None => default
  end.

Definition board_of_fen (fen : string) : ChessBoard :=
  force empty_board (parseFEN empty_board fen).

Definition moves_of (b : ChessBoard) : Moves :=
  force (moves_filled 0) (generate_moves (moves_filled 0) b).

Definition board_after (b : ChessBoard) (m : Z) : ChessBoard :=
  fst (force (empty_board, false) (MakeMove b m)).

(** The standard starting position and the double push e2e4. *)
Definition start_board : ChessBoard := Eval vm_compute in board_of_fen start_fen.
Definition start_moves : Moves := Eval vm_compute in moves_of start_board.
Definition e2e4 : Z := Eval vm_compute in encode_move 52 36 WP 0 0 1 0 0.
Definition start_e2e4 : ChessBoard :=
  Eval vm_compute in board_after (copyBoard start_board) e2e4.

(** White king on e1 in check by a rook on e2; the king move e1d2 stays
    on the rank of the rook. *)
Definition check_fen : string := "4k3/8/8/8/8/8/4r3/4K3 w - - 0 1"%string.
Definition check_board : ChessBoard := Eval vm_compute in board_of_fen check_fen.
Definition check_moves : Moves := Eval vm_compute in moves_of check_board.
Definition e1d2 : Z := Eval vm_compute in encode_move 60 51 WK 0 0 0 0 0.
Definition check_e1d2 : ChessBoard :=
  Eval vm_compute in board_after check_board e1d2.

(** ** Reference definitions for the loops over set bits *)

(** The squares of a bitboard, in increasing order. *)
Definition bits_of (bitboard : Z) : list Z :=
  filter (Z.testbit bitboard) squares.

(** A body run over a list of squares, stopping at the first abort. *)
Fixpoint foldM {S : Type} (body : Z -> S -> option S) (l : list Z) (st : S)
  : option S :=
  match l with
  | [] => Some st
  | sq :: rest => st <- body sq st ;; foldM body rest st
  end.

(** The integers [i], [i + 1], ... , [i + n - 1]. *)
Fixpoint zrange (i : Z) (n : nat) : list Z :=
  match n with
  | O => []
  | S n' => i :: zrange (i + 1) n'
  end.

(** ** Reference definitions for the generator *)

(** [st'] is [st] after the calls [add_move(m)] for the moves [m] of some
    list whose members all satisfy [P]. *)
Definition adds (P : Z -> Prop) (st st' : Moves) : Prop :=
  exists ms, Forall P ms /\ st' = fold_left add_move ms st.

(** The side for which [generate_moves] generates: white when the color
    field is [white], black otherwise. *)
Definition side_to_move (b : ChessBoard) : Z :=
  if color b =? white then white else black.

Definition king_of (side : Z) : Z := if side =? white then WK else BK.
Definition king_home (side : Z) : Z := if side =? white then e1 else e8.

(** The conditions under which the generator emits the king-side
    castling move of a side: the right is held, the two squares between
    king and rook are empty, and the test of the king's own square and of
    the square it crosses finds no attack by the opponent. *)
Definition kingside_conditions (b : ChessBoard) (side : Z) : Prop :=
  Z.land (castling b) (if side =? white then WK_c else BK_c) <> 0 /\
  get_bit (occ b both) (king_home side + 1) = false /\
  get_bit (occ b both) (king_home side + 2) = false /\
  isSquareAttacked b (king_home side) (Z.lxor side 1) = Some false /\
  isSquareAttacked b (king_home side + 1) (Z.lxor side 1) = Some false.

(** The same for the queen side, with three squares between king and
    rook. *)
Definition queenside_conditions (b : ChessBoard) (side : Z) : Prop :=
  Z.land (castling b) (if side =? white then WQ_c else BQ_c) <> 0 /\
  get_bit (occ b both) (king_home side - 1) = false /\
  get_bit (occ b both) (king_home side - 2) = false /\
  get_bit (occ b both) (king_home side - 3) = false /\
  isSquareAttacked b (king_home side) (Z.lxor side 1) = Some false /\
  isSquareAttacked b (king_home side - 1) (Z.lxor side 1) = Some false.

Definition kingside_castle (side : Z) : Z :=
  encode_move (king_home side) (king_home side + 2) (king_of side) 0 0 0 0 1.
Definition queenside_castle (side : Z) : Z :=
  encode_move (king_home side) (king_home side - 2) (king_of side) 0 0 0 0 1.

(** What the generator can put into the list for a side: a move without
    the castling flag, or one of the two castling moves under its
    conditions. *)
Inductive emitted (b : ChessBoard) (side : Z) : Z -> Prop :=
  | emitted_plain (m : Z) : get_move_castling m = 0 -> emitted b side m
  | emitted_kingside :
      kingside_conditions b side -> emitted b side (kingside_castle side)
  | emitted_queenside :
      queenside_conditions b side -> emitted b side (queenside_castle side).

(** The fields of an encoded move: the arguments of the generator are a
    square, a square, a piece, a piece and four flags. *)
Definition fields_ok (f t p pr c d e k : Z) : Prop :=
  0 <= f < 64 /\ 0 <= t < 64 /\ 0 <= p < 16 /\ 0 <= pr < 16 /\
  0 <= c <= 1 /\ 0 <= d <= 1 /\ 0 <= e <= 1 /\ 0 <= k <= 1.

(** The sizes and ranges that the type of [Moves] and the bound of
    [add_move] give: 265 slots, a count of at most 256. *)
Definition moves_ok (st : Moves) : Prop :=
  List.length (moves st) = MOVES_SIZE /\ 0 <= moves_count st <= 256.

Definition all_in_range (l : list Z) : bool :=
  forallb (fun x => (0 <=? x) && (x <? U64.modulus)) l.

(** Kings and rooks on their home squares, all four castling rights. *)
Definition castle_fen : string := "r3k2r/8/8/8/8/8/8/R3K2R w KQkq - 0 1"%string.
Definition castle_board : ChessBoard :=
  Eval vm_compute in board_of_fen castle_fen.
Definition castle_moves : Moves := Eval vm_compute in moves_of castle_board.
Definition e1g1 : Z := Eval vm_compute in kingside_castle white.
Definition e1c1 : Z := Eval vm_compute in queenside_castle white.

(** ** Reference definitions for the evaluation *)

(** Every entry of the evaluation tables is at most [M] in absolute
    value. *)
Definition tables_bounded (T : EvalTables) (M : Z) : Prop :=
  forall i,
    Z.abs (material_score T i) <= M /\
    Z.abs (PAWN_SCORE T i) <= M /\
    Z.abs (KNIGHT_SCORE T i) <= M /\
    Z.abs (BISHOP_SCORE T i) <= M /\
    Z.abs (ROOK_SCORE T i) <= M /\
    Z.abs (KING_SCORE T i) <= M.

(** [b'] is [b] with the side to move flipped and nothing else changed. *)
Definition flipped (b b' : ChessBoard) : Prop :=
  (color b = white \/ color b = black) /\
  b' = with_color b (Z.lxor (color b) 1).

(** A sample instance of the tables: the usual material values, flat
    piece-square tables but for the pawns, and the vertical mirror. *)
Definition sample_tables : EvalTables :=
  mkTables
    (fun piece =>
       nth (Z.to_nat piece)
           [100; 300; 350; 500; 1000; 10000;
            -100; -300; -350; -500; -1000; -10000] 0)
    (fun square => if (square >=? 24) && (square <? 40) then 10 else 0)
    (fun _ => 0) (fun _ => 0) (fun _ => 0) (fun _ => 0)
    (fun square => Z.lxor square 56).

(** ** Concrete searches and stale move lists *)

(** A search that returns 0 at depth 1 and 50 at every other depth; its
    world counts the calls. *)
Definition stub_NegaMax (w : Z) (alpha beta depth : Z) : Z * Z :=
  (if depth =? 1 then 0 else 50, w + 1).
Definition stub_IsTimeOut (w : Z) : bool * Z := (false, w).

Definition stub_search (depth : Z) : Z * list Event * Z :=
  searchPosition Z stub_NegaMax stub_IsTimeOut (fun _ => 0)
                 (fun w => w) (fun _ => []) (fun _ => 0) 0 depth.

(** The two kings alone, white to move. *)
Definition kings_fen : string := "4k3/8/8/8/8/8/8/4K3 w - - 0 1"%string.
Definition kings_board : ChessBoard := Eval vm_compute in board_of_fen kings_fen.
(** The knight move g1f3 of the starting position. *)
Definition g1f3 : Z := Eval vm_compute in encode_move 62 45 WN 0 0 0 0 0.
(** The move list after [parseMove] on the kings alone, with the list of
    the starting position as the list of before. *)
Definition kings_after_start : Moves :=
  Eval vm_compute in
    fst (force (moves_filled 0, 0)
               (parseMove start_moves kings_board "g1f3"%string)).
Definition kings_g1f3 : ChessBoard :=
  Eval vm_compute in board_after kings_board g1f3.

(** The decidable form of [wf_board]. *)
Definition u32b (z : Z) : bool := (0 <=? z) && (z <? U32.modulus).
Definition wf_boardb (b : ChessBoard) : bool :=
  (List.length (bitboards b) =? 12)%nat &&
  (List.length (occupancy b) =? 3)%nat &&
  all_in_range (bitboards b) && all_in_range (occupancy b) &&
  u32b (color b) && u32b (enpassant b) && u32b (castling b) &&
  u32b (num_moves b).

(** ** Reference definitions for the sliding attacks *)

(** A square of the board. *)
Definition on_board (x : Z) : Prop := 0 <= x < 64.

(** The step of a direction on the board, as (rows, files): up is toward
    rank 8, which is row 0; left is toward file a, which is file 0. *)
Definition dir_step (d : Dir) : Z * Z :=
  match d with
  | UP => (-1, 0)
  | DOWN => (1, 0)
  | LEFT => (0, -1)
  | RIGHT => (0, 1)
  | UPLEFT => (-1, -1)
  | UPRIGHT => (-1, 1)
  | DOWNLEFT => (1, -1)
  | DOWNRIGHT => (1, 1)
  end.

(** The squares met when stepping from (row, col) to the edge of the
    board, the nearest first. *)
Fixpoint walk (fuel : nat) (dr dc row col : Z) : list Z :=
  match fuel with
  | O => []
  | S fuel' =>
      let row' := row + dr in
      let col' := col + dc in
      if (0 <=? row') && (row' <? 8) && (0 <=? col') && (col' <? 8)
      then (row' * 8 + col') :: walk fuel' dr dc row' col'
      else []
  end.

(** The open ray from a square in a direction: the origin excluded, the
    nearest square first. *)
Definition ray_squares (d : Dir) (square : Z) : list Z :=
  let '(dr, dc) := dir_step d in
  walk 7 dr dc (square / 8) (square mod 8).

(** The bitboard of a list of squares. *)
Fixpoint of_squares (l : list Z) : Z :=
  match l with
  | [] => 0
  | x :: rest => set_bit (of_squares rest) x
  end.

(** The nearest blocker on a ray: the first square of the ray that is
    occupied. *)
Definition first_blocker (blockers : Z) (ray : list Z) : option Z :=
  find (Z.testbit blockers) ray.

(** The squares of a ray up to its nearest blocker, the blocker
    included; the whole ray when no square of it is occupied. *)
Fixpoint until_blocker (blockers : Z) (ray : list Z) : list Z :=
  match ray with
  | [] => []
  | x :: rest =>
      if Z.testbit blockers x then [x] else x :: until_blocker blockers rest
  end.

(** The attack set of one direction. *)
Definition ray_attack (d : Dir) (square blockers : Z) : Z :=
  of_squares (until_blocker blockers (ray_squares d square)).

(** The directions whose squares come in increasing bit order. *)
Definition forward (d : Dir) : bool :=
  match d with
  | DOWN | RIGHT | DOWNLEFT | DOWNRIGHT => true
  | UP | LEFT | UPLEFT | UPRIGHT => false
  end.

(** The scan that the sources use in a direction. *)
Definition scan (d : Dir) : Z -> option Z :=
  if forward d then bitScanForward else bitScanReverse.

(** A square [u] lies strictly beyond the square [t] in a direction. *)
Definition beyond (d : Dir) (t u : Z) : bool :=
  if forward d then t <? u else u <? t.

(** A list of squares is a ray of the table in a direction: every square
    is on the board, the later squares lie strictly beyond it, and its
    table entry is the bitboard of the later squares. *)
Fixpoint ray_ok (d : Dir) (l : list Z) : bool :=
  match l with
  | [] => true
  | t :: post =>
      (0 <=? t) && (t <? 64) && forallb (beyond d t) post
      && (rays d t =? of_squares post) && ray_ok d post
  end.

(** The check of the whole table against the geometry. *)
Definition rays_checked : bool :=
  forallb
    (fun d =>
       forallb
         (fun sq => ray_ok d (ray_squares d sq)
                    && (rays d sq =? of_squares (ray_squares d sq)))
         squares)
    all_dirs.

(** The rays of two different directions from one square do not meet. *)
Definition rays_disjoint_checked : bool :=
  forallb
    (fun d =>
       forallb
         (fun d' =>
            Dir_eqb d d'
            || forallb (fun sq => Z.land (rays d sq) (rays d' sq) =? 0) squares)
         all_dirs)
    all_dirs.

(** ** Reference definitions for the attack test and castling *)

Definition rook_attacks (square blockers : Z) : Z :=
  Z.lor (Z.lor (Z.lor (ray_attack UP square blockers)
                      (ray_attack DOWN square blockers))
               (ray_attack RIGHT square blockers))
        (ray_attack LEFT square blockers).

Definition bishop_attacks (square blockers : Z) : Z :=
  Z.lor (Z.lor (Z.lor (ray_attack UPLEFT square blockers)
                      (ray_attack UPRIGHT square blockers))
               (ray_attack DOWNRIGHT square blockers))
        (ray_attack DOWNLEFT square blockers).

(** The value of the attack test: some piece of the color attacks the
    square, the sliding pieces along the walks of their rays. *)
Definition attacked_by (b : ChessBoard) (square color : Z) : bool :=
  nonzero (if color =? white
           then Z.land (pawn_attacks black square) (bb b WP)
           else Z.land (pawn_attacks white square) (bb b BP))
  || nonzero (Z.land (knight_attacks square)
                     (if color =? white then bb b WN else bb b BN))
  || nonzero (Z.land (bishop_attacks square (occ b both))
                     (if color =? white then bb b WB else bb b BB))
  || nonzero (Z.land (rook_attacks square (occ b both))
                     (if color =? white then bb b WR else bb b BR))
  || nonzero (Z.land (Z.lor (rook_attacks square (occ b both))
                            (bishop_attacks square (occ b both)))
                     (if color =? white then bb b WQ else bb b BQ))
  || nonzero (Z.land (king_attacks square)
                     (if color =? white then bb b WK else bb b BK)).

(** No square carries more than one piece. *)
Definition pieces_disjoint (b : ChessBoard) : Prop :=
  forall i j : nat,
    (i < 12)%nat -> (j < 12)%nat -> i <> j ->
    Z.land (nth i (bitboards b) 0) (nth j (bitboards b) 0) = 0.

(** The square that the king crosses in a castling move. *)
Definition crossing (m : Z) : Z :=
  (get_move_source m + get_move_target m) / 2.

(** White may castle king-side, the king's own square and f1 are safe,
    but a black rook on g2 attacks the destination g1. *)
Definition guarded_fen : string := "4k3/8/8/8/8/8/6r1/4K2R w K - 0 1"%string.
Definition guarded_board : ChessBoard :=
  Eval vm_compute in board_of_fen guarded_fen.
Definition guarded_moves : Moves := Eval vm_compute in moves_of guarded_board.
Definition guarded_e1g1 : ChessBoard :=
  Eval vm_compute in board_after guarded_board e1g1.
Definition castle_e1g1 : ChessBoard :=
  Eval vm_compute in board_after castle_board e1g1.

(** The same, with the white king on a1 instead of e1: the castling right
    is still set, as [parseFEN] takes it from the string. *)
Definition stray_fen : string := "4k3/8/8/8/8/8/6r1/K6R w K - 0 1"%string.
Definition stray_board : ChessBoard :=
  Eval vm_compute in board_of_fen stray_fen.
Definition stray_moves : Moves := Eval vm_compute in moves_of stray_board.
Definition stray_e1g1 : ChessBoard :=
  Eval vm_compute in board_after stray_board e1g1.

(** * Further code of the engine *)

(** ** chess_utils.h, chess_utils.cpp: the bit scans of other compilers *)

Definition INDEX_64_REVERSE : list Z :=
  [0; 47; 1; 56; 48; 27; 2; 60;
   57; 49; 41; 37; 28; 16; 3; 61;
   54; 58; 35; 52; 50; 42; 21; 44;
   38; 32; 29; 23; 17; 11; 4; 62;
   46; 55; 26; 59; 40; 36; 15; 53;
   34; 51; 20; 43; 31; 22; 10; 45;
   25; 39; 14; 33; 19; 30; 9; 24;
   13; 18; 8; 12; 7; 6; 5; 63].

Definition INDEX_64_FORWARD : list Z :=
  [0; 1; 48; 2; 57; 49; 28; 3;
   61; 58; 50; 42; 38; 29; 17; 4;
   62; 55; 59; 36; 53; 51; 43; 22;
   45; 39; 33; 30; 24; 18; 12; 5;
   63; 47; 56; 27; 60; 41; 37; 16;
   54; 35; 52; 21; 44; 32; 23; 11;
   46; 26; 40; 15; 34; 20; 31; 10;
   25; 14; 19; 9; 13; 8; 7; 6].

Definition debruijn64 : Z := 0x03f79d71b4cb0a89.

(** [-x] on a 64-bit word. *)
Definition U64_neg (x : Z) : Z := U64.wrap (- x).

(** The branch of [bitScanForward] for a compiler that is neither GCC nor
    MSVC: the lowest set bit is isolated and multiplied with the De Bruijn
    constant, and the top six bits of the product index the table. *)
Definition bitScanForward_fallback (bb : Z) : option Z :=
  if bb =? 0 then None
  else aget INDEX_64_FORWARD
         (U64.shr (U64.mul (Z.land bb (U64_neg bb)) debruijn64) 58).

(** The same branch of [bitScanReverse]: the bits below the highest set
    bit are filled first. *)
Definition bitScanReverse_fallback (bb : Z) : option Z :=
  if bb =? 0 then None
  else
    let bb := Z.lor bb (U64.shr bb 1) in
    let bb := Z.lor bb (U64.shr bb 2) in
    let bb := Z.lor bb (U64.shr bb 4) in
    let bb := Z.lor bb (U64.shr bb 8) in
    let bb := Z.lor bb (U64.shr bb 16) in
    let bb := Z.lor bb (U64.shr bb 32) in
    aget INDEX_64_REVERSE (U64.shr (U64.mul bb debruijn64) 58).

(** ** chess_utils.cpp: [countBits] *)

(** The number of set bits of a 64-bit word, as [__builtin_popcountll]
    and [__popcnt64] return it. *)
Definition countBits (bitboard : Z) : Z :=
  Z.of_nat (List.length (bits_of bitboard)).

(** The loop of the third branch of [countBits]:
    [while (bitboard) { count++; bitboard &= bitboard - 1; }]. *)
Fixpoint countBits_loop (fuel : nat) (bitboard count : Z) : option Z :=
  if nonzero bitboard then
    match fuel with
    | O => None
    | S fuel' =>
        countBits_loop fuel' (Z.land bitboard (U64.sub bitboard 1)) (count + 1)
    end
  else Some count.

Definition countBits_fallback (bitboard : Z) : option Z :=
  countBits_loop 64 bitboard 0.

(** ** Reference definitions for the leaper tables *)

(** Row (0 is rank 8) and file (0 is file a) of a square. *)
Definition row_of (square : Z) : Z := square / 8.
Definition file_of (square : Z) : Z := square mod 8.

(** [t] is a knight's jump away from [s]. *)
Definition knight_jump (s t : Z) : bool :=
  let dr := Z.abs (row_of s - row_of t) in
  let df := Z.abs (file_of s - file_of t) in
  ((dr =? 1) && (df =? 2)) || ((dr =? 2) && (df =? 1)).

(** [t] is next to [s], in a line or diagonally. *)
Definition king_step (s t : Z) : bool :=
  let dr := Z.abs (row_of s - row_of t) in
  let df := Z.abs (file_of s - file_of t) in
  (dr <=? 1) && (df <=? 1) && negb (s =? t).

(** [t] is one row ahead of [s] for the color, on a neighbouring file:
    ahead is toward row 0 for white and toward row 7 for black. *)
Definition pawn_capture_step (color s t : Z) : bool :=
  (row_of t =? (if color =? white then row_of s - 1 else row_of s + 1))
  && (Z.abs (file_of s - file_of t) =? 1).

(** Two functions agree on all pairs of squares. *)
Definition agree_on_squares (f g : Z -> Z -> bool) : bool :=
  forallb (fun s => forallb (fun t => Bool.eqb (f s t) (g s t)) squares)
          squares.

(** The move that the fields of a move encode again: the flags are kept
    as masks by the decoders and go back to bit 0 for the encoder. *)
Definition reencode (move : Z) : Z :=
  encode_move (get_move_source move) (get_move_target move)
              (get_move_piece move) (get_move_promoted move)
              (Z.shiftr (get_move_capture move) 20)
              (Z.shiftr (get_move_double move) 21)
              (Z.shiftr (get_move_enpassant move) 22)
              (Z.shiftr (get_move_castling move) 23).

(** ** Reference definitions for the boards that the engine reaches *)

(** The sizes and ranges of [wf_board], a side to move that is one of the
    two colors, and castling rights within their four bits. *)
Definition board_ok (b : ChessBoard) : Prop :=
  wf_board b /\ (color b = white \/ color b = black) /\ 0 <= castling b < 16.

(** The home squares of the king and of the rook of a castling right. *)
Definition right_squares (right : Z) : list Z :=
  if right =? WK_c then [e1; h1]
  else if right =? WQ_c then [e1; a1]
  else if right =? BK_c then [e8; h8]
  else if right =? BQ_c then [e8; a8]
  else [].

Definition all_rights : list Z := [WK_c; WQ_c; BK_c; BQ_c].

(** Whether a square is one of a list. *)
Definition among (square : Z) (l : list Z) : bool := existsb (Z.eqb square) l.

(** Arrays of a fixed length whose words are in the 64-bit range. *)
Definition words (n : nat) (a : list Z) : Prop :=
  List.length a = n /\ Forall U64.in_range a.

(** The scalar fields of the position. *)
Definition scalars (b : ChessBoard) : Z * Z * Z * Z :=
  (color b, enpassant b, castling b, num_moves b).

(** The two arrays of the position have their sizes and 64-bit words. *)
Definition arrays_ok (b : ChessBoard) : Prop :=
  words 12 (bitboards b) /\ words 3 (occupancy b).

(** The bitboards while [parseFEN] fills them: twelve 64-bit words, no
    square on two of them, and nothing yet on the squares from [cur] on. *)
Definition placed (cur : Z) (bbs : list Z) : Prop :=
  words 12 bbs /\
  (forall i j : nat, (i < 12)%nat -> (j < 12)%nat -> i <> j ->
     Z.land (nth i bbs 0) (nth j bbs 0) = 0) /\
  (forall (i : nat) (k : Z), cur <= k -> Z.testbit (nth i bbs 0) k = false).

Definition with_occupancy_copy (b : ChessBoard) (v : list Z) : ChessBoard :=
  mkBoard (bitboards b) (occupancy b) (bitboards_copy b) v
          (color b) (color_copy b) (enpassant b) (enpassant_copy b)
          (castling b) (castling_copy b) (num_moves b).

(** ** chess_game_ter.cpp: [countLegalMoves] *)

(** The loop over the generated moves: snapshot, make, and on an accepted
    move count it and restore. *)
Fixpoint count_legal (ms : list Z) (board : ChessBoard) (legal_moves : Z)
  : option (ChessBoard * Z) :=
  match ms with
  | [] => Some (board, legal_moves)
  | move :: rest =>
      let board := copyBoard board in
      '(board, ok) <- MakeMove board move ;;
      if ok : bool then count_legal rest (revertBoard board) (legal_moves + 1)
      else count_legal rest board legal_moves
  end.

(** [countLegalMoves] returns the move list, the board and the count. *)
Definition countLegalMoves (st : Moves) (board : ChessBoard)
  : option (Moves * ChessBoard * Z) :=
  st <- generate_moves st board ;;
  '(board, legal_moves) <- count_legal (generated st) board 0 ;;
  Some (st, board, legal_moves).

(** ** chess_game.h: [undoLastMove] *)

Definition undoLastMove (board : ChessBoard) : ChessBoard :=
  if negb (num_moves board =? 0) then revertBoard board else board.

(** ** Reference definitions for make and unmake *)

(** The starting position with the move counter at its last value,
    2^32 - 1, and the board after e2e4 there. *)
Definition late_board : ChessBoard :=
  Eval vm_compute in with_num_moves start_board (2 ^ 32 - 1).
Definition late_e2e4 : ChessBoard :=
  Eval vm_compute in board_after late_board e2e4.

(** Whether [MakeMove] accepts a move on a board. *)
Definition accepts (board : ChessBoard) (move : Z) : bool :=
  match MakeMove board move with
  | Some (_, ok) => ok
  | None => false
  end.

(** The result of [MakeMove] with another move counter. *)
Definition renumber (n : Z) (r : ChessBoard * bool) : ChessBoard * bool :=
  (with_num_moves (fst r) (if snd r then U32.wrap (n + 1) else n), snd r).

(** ** chess_utils.cpp: the names of the squares *)

Definition square_to_position : list string :=
  ["a8"; "b8"; "c8"; "d8"; "e8"; "f8"; "g8"; "h8";
   "a7"; "b7"; "c7"; "d7"; "e7"; "f7"; "g7"; "h7";
   "a6"; "b6"; "c6"; "d6"; "e6"; "f6"; "g6"; "h6";
   "a5"; "b5"; "c5"; "d5"; "e5"; "f5"; "g5"; "h5";
   "a4"; "b4"; "c4"; "d4"; "e4"; "f4"; "g4"; "h4";
   "a3"; "b3"; "c3"; "d3"; "e3"; "f3"; "g3"; "h3";
   "a2"; "b2"; "c2"; "d2"; "e2"; "f2"; "g2"; "h2";
   "a1"; "b1"; "c1"; "d1"; "e1"; "f1"; "g1"; "h1"; "no_sq"]%string.

(** [square_to_position[square]], for an index inside the table. *)
Definition square_name (square : Z) : string :=
  nth (Z.to_nat square) square_to_position EmptyString.

(** ** evaluation.cpp: [print_move]

    The text that [print_move] writes for a move without promoted piece.
    For a move with one, the call hands the table entry, a pointer, to
    the conversion [%c]: what is written then is not defined. *)
Definition print_move (move : Z) : option string :=
  if nonzero (get_move_promoted move) then None
  else Some (square_name (get_move_source move)
             ++ square_name (get_move_target move))%string.

(** ** Reference definitions for [parseMove] *)

(** The square that [parseMove] computes from a file letter and a rank
    digit. *)
Definition square_of_chars (c0 c1 : Z) : Z :=
  (c0 - ch "a") + (8 - (c1 - ch "0")) * 8.

(** The fifth character names the kind of the promoted piece. *)
Definition letter_fits (c4 promoted : Z) : bool :=
  (((promoted =? WQ) || (promoted =? BQ)) && (c4 =? ch "q"))
  || (((promoted =? WR) || (promoted =? BR)) && (c4 =? ch "r"))
  || (((promoted =? WB) || (promoted =? BB)) && (c4 =? ch "b"))
  || (((promoted =? WN) || (promoted =? BN)) && (c4 =? ch "n")).

(** A slot of the move list fits the squares and the fifth character of
    a move string. *)
Definition fits (from_square to_square c4 move : Z) : bool :=
  (from_square =? get_move_source move)
  && (to_square =? get_move_target move)
  && (if nonzero (get_move_promoted move)
      then letter_fits c4 (get_move_promoted move) else true).

(** A move string that starts with the byte 255. *)
Definition high_g8f6 : string :=
  String (Ascii.ascii_of_nat 255) "+f6"%string.

(** ** evaluation.cpp: move ordering

    The globals that [scoreMove] reads: the ply and the killer and
    history tables, [int killer_moves[2][64]] and
    [int history_moves[12][64]].  The table [MVV_LVA] of evaluation.h is
    not part of the sources at hand and is a parameter, as the function
    from its two indices to its entry. *)
Record SearchTables : Type := mkSearchTables {
  ply : Z;
  killer_moves : list (list Z);
  history_moves : list (list Z)
}.

(** [a[i][j]], with both indices checked. *)
Definition aget2 (a : list (list Z)) (i j : Z) : option Z :=
  if i <? 0 then None
  else match nth_error a (Z.to_nat i) with
       | Some row => aget row j
       | None => None
       end.

(** The loop of [scoreMove] over the six bitboards of the opponent: the
    first one that holds the target square names the victim, and without
    one the victim stays what it was set to. *)
Fixpoint find_victim (pieces : list Z) (bbs : list Z) (to_square target : Z)
  : Z :=
  match pieces with
  | [] => target
  | piece :: rest =>
      if get_bit (nth (Z.to_nat piece) bbs 0) to_square then piece
      else find_victim rest bbs to_square target
  end.

Definition scoreMove (MVV_LVA : Z -> Z -> Z) (g : SearchTables)
    (board : ChessBoard) (move : Z) : option Z :=
  if nonzero (get_move_capture move) then
    let target := WP in
    let to_square := get_move_target move in
    let range := if color board =? 0 then 6 else 0 in
    let target :=
      find_victim (map (fun i => range + Z.of_nat i) (seq 0 6))
                  (bitboards board) to_square target in
    Some (I32.add (MVV_LVA (get_move_piece move) target) 10000)
  else
    k0 <- aget2 (killer_moves g) 0 (ply g) ;;
    if k0 =? move then Some 9000
    else
      k1 <- aget2 (killer_moves g) 1 (ply g) ;;
      if k1 =? move then Some 8000
      else aget2 (history_moves g) (get_move_piece move)
                 (get_move_target move).

(** [f] on every element of a list, stopping at the first abort. *)
Fixpoint mapM {A B : Type} (f : A -> option B) (l : list A)
  : option (list B) :=
  match l with
  | [] => Some []
  | x :: rest => y <- f x ;; ys <- mapM f rest ;; Some (y :: ys)
  end.

(** [temp = a[i]; a[i] = a[j]; a[j] = temp]. *)
Definition swap (a : list Z) (i j : nat) : list Z :=
  let temp := nth i a 0 in
  let a := list_set a i (nth j a 0) in
  list_set a j temp.

(** The body of the inner loop of [sortMoves] on the two arrays. *)
Definition sort_step (current_move : nat) (st : list Z * list Z)
    (next_move : nat) : list Z * list Z :=
  let '(move_scores, moves) := st in
  if nth current_move move_scores 0 <? nth next_move move_scores 0
  then (swap move_scores current_move next_move,
        swap moves current_move next_move)
  else st.

(** [for (next_move = current_move + 1; next_move < n; next_move++)] *)
Definition sort_inner (n : nat) (st : list Z * list Z) (current_move : nat)
  : list Z * list Z :=
  fold_left (sort_step current_move)
            (seq (current_move + 1) (n - (current_move + 1))) st.

(** [for (current_move = 0; current_move < n; current_move++)] *)
Definition sort_loops (n : nat) (st : list Z * list Z) : list Z * list Z :=
  fold_left (sort_inner n) (seq 0 n) st.

(** [sortMoves] with the scores of a function of the move; the count is
    within the array. *)
Definition sort_by (score : Z -> option Z) (st : Moves) : option Moves :=
  let n := Z.to_nat (moves_count st) in
  move_scores <- mapM score (firstn n (moves st)) ;;
  let '(_, sorted) := sort_loops n (move_scores, moves st) in
  Some (mkMoves sorted (moves_count st) (log st)).

Definition sortMoves (MVV_LVA : Z -> Z -> Z) (g : SearchTables)
    (board : ChessBoard) (st : Moves) : option Moves :=
  sort_by (scoreMove MVV_LVA g board) st.

(** ** Reference definitions for the order of the moves *)

(** No later element is greater than an earlier one. *)
Definition descending (l : list Z) : Prop :=
  forall i j : nat, (i <= j < length l)%nat -> nth j l 0 <= nth i l 0.

(** A sample instance of the missing table (the more valuable the victim
    and the less valuable the attacker, the higher the entry) and of the
    globals at the start of a search. *)
Definition sample_MVV_LVA (attacker victim : Z) : Z :=
  100 * (victim mod 6 + 1) + 5 - attacker mod 6.
Definition sample_search_tables : SearchTables :=
  mkSearchTables 0 (repeat (repeat 0 64) 2) (repeat (repeat 0 64) 12).

(** ** Reference definitions: the moves that the rules of movement allow *)

Definition pawn_of (side : Z) : Z := if side =? white then WP else BP.
(** One step ahead for a pawn: toward rank 8 for white, rank 1 for black. *)
Definition forward_step (side : Z) : Z := if side =? white then -8 else 8.
(** The rank before the last one, from which a pawn promotes. *)
Definition promotion_rank (side from_square : Z) : bool :=
  if side =? white then (a7 <=? from_square) && (from_square <=? h7)
  else (a2 <=? from_square) && (from_square <=? h2).
(** The rank on which the pawns start. *)
Definition start_rank (side from_square : Z) : bool :=
  if side =? white then (a2 <=? from_square) && (from_square <=? h2)
  else (a7 <=? from_square) && (from_square <=? h7).
Definition promotions_of (side : Z) : list Z :=
  if side =? white then WHITE_PROMOTIONS else BLACK_PROMOTIONS.
(** The promoted piece of a pawn move: one of the four of the side on
    the promotion rank, none elsewhere. *)
Definition promoted_ok (side from_square promoted : Z) : Prop :=
  if promotion_rank side from_square then In promoted (promotions_of side)
  else promoted = 0.
(** The pieces of a side other than its pawns. *)
Definition officers (side : Z) : list Z :=
  if side =? white then [WN; WB; WR; WQ; WK] else [BN; BB; BR; BQ; BK].
(** The squares that a piece other than a pawn attacks from a square. *)
Definition attack_set (piece from_square blockers : Z) : option Z :=
  if (piece =? WK) || (piece =? BK) then Some (king_attacks from_square)
  else piece_attacks piece from_square blockers.

(** The pseudo-legal moves of a side on a board, as encoded moves: pawn
    pushes, double pushes, pawn captures, en-passant captures, the moves
    of the other pieces within their attack sets onto squares that the
    side does not occupy, and the castling moves under their conditions.
    The capture flag of a piece move says whether the opponent occupies
    the target. *)
Inductive pseudo_legal (b : ChessBoard) (side : Z) : Z -> Prop :=
  | pl_push (f pr : Z) :
      0 <= f < 64 -> Z.testbit (bb b (pawn_of side)) f = true ->
      0 <= f + forward_step side < 64 ->
      Z.testbit (occ b both) (f + forward_step side) = false ->
      promoted_ok side f pr ->
      pseudo_legal b side
        (encode_move f (f + forward_step side) (pawn_of side) pr 0 0 0 0)
  | pl_double (f : Z) :
      0 <= f < 64 -> Z.testbit (bb b (pawn_of side)) f = true ->
      start_rank side f = true ->
      Z.testbit (occ b both) (f + forward_step side) = false ->
      Z.testbit (occ b both) (f + forward_step side + forward_step side)
        = false ->
      pseudo_legal b side
        (encode_move f (f + forward_step side + forward_step side)
                     (pawn_of side) 0 0 1 0 0)
  | pl_capture (f t pr : Z) :
      0 <= f < 64 -> Z.testbit (bb b (pawn_of side)) f = true ->
      0 <= t < 64 -> Z.testbit (pawn_attacks side f) t = true ->
      Z.testbit (occ b (Z.lxor side 1)) t = true ->
      promoted_ok side f pr ->
      pseudo_legal b side (encode_move f t (pawn_of side) pr 1 0 0 0)
  | pl_enpassant (f : Z) :
      0 <= f < 64 -> Z.testbit (bb b (pawn_of side)) f = true ->
      0 <= enpassant b < 64 ->
      Z.testbit (pawn_attacks side f) (enpassant b) = true ->
      pseudo_legal b side
        (encode_move f (enpassant b) (pawn_of side) 0 1 0 1 0)
  | pl_piece (p f t attacks : Z) :
      In p (officers side) ->
      0 <= f < 64 -> Z.testbit (bb b p) f = true ->
      0 <= t < 64 ->
      attack_set p f (occ b both) = Some attacks ->
      Z.testbit attacks t = true ->
      Z.testbit (occ b side) t = false ->
      pseudo_legal b side
        (encode_move f t p 0
           (if Z.testbit (occ b (Z.lxor side 1)) t then 1 else 0) 0 0 0)
  | pl_kingside :
      kingside_conditions b side ->
      pseudo_legal b side (kingside_castle side)
  | pl_queenside :
      queenside_conditions b side ->
      pseudo_legal b side (queenside_castle side).

(** ** Reference definitions for the effect of a move *)

(** [color = (piece < 6) ? white : black] of [MakeMove]. *)
Definition mover (move : Z) : Z :=
  if get_move_piece move <? 6 then white else black.

(** The piece that stands on the target square after a move: the promoted
    piece of a promotion, the moving piece otherwise. *)
Definition landing (move : Z) : Z :=
  if get_move_promoted move =? 0 then get_move_piece move
  else get_move_promoted move.

(** The square of the pawn that an en-passant capture takes: one row
    behind the target, seen from the capturing side. *)
Definition victim_square (side to_square : Z) : Z :=
  if side =? white then to_square + 8 else to_square - 8.

(** The pieces after a move that is not a castling move, square by
    square: the source is empty, the target holds the landing piece alone,
    an en-passant capture takes the pawn of the opponent from the victim
    square, and every other square is as before. *)
Definition after_move (b : ChessBoard) (move piece square : Z) : bool :=
  if square =? get_move_source move then false
  else if square =? get_move_target move then piece =? landing move
  else if nonzero (get_move_enpassant move)
          && (square =? victim_square (mover move) (get_move_target move))
          && (piece =? pawn_of (Z.lxor (mover move) 1))
  then false
  else Z.testbit (bb b piece) square.

(** The rook of a side and the squares it leaves and reaches in a
    castling move to a target square of the king. *)
Definition rook_of (side : Z) : Z := if side =? white then WR else BR.
Definition rook_from (to_square : Z) : Z :=
  if to_square =? g1 then h1 else if to_square =? c1 then a1
  else if to_square =? g8 then h8 else a8.
Definition rook_to (to_square : Z) : Z :=
  if to_square =? g1 then f1 else if to_square =? c1 then d1
  else if to_square =? g8 then f8 else d8.

(** The pieces after a castling move: the king on its target, the rook
    next to it on the other side, their home squares empty. *)
Definition after_castling (b : ChessBoard) (move piece square : Z) : bool :=
  if (square =? get_move_source move)
     || (square =? rook_from (get_move_target move)) then false
  else if square =? get_move_target move then piece =? get_move_piece move
  else if square =? rook_to (get_move_target move)
  then piece =? rook_of (mover move)
  else Z.testbit (bb b piece) square.

(** White to move with a pawn on e5 beside a black pawn on d5 that has
    just made its double step. *)
Definition passant_fen : string := "4k3/8/8/3pP3/8/8/8/4K3 w - d6 0 1"%string.
Definition passant_board : ChessBoard :=
  Eval vm_compute in board_of_fen passant_fen.
Definition passant_moves : Moves := Eval vm_compute in moves_of passant_board.
Definition e5d6 : Z := Eval vm_compute in encode_move 28 19 WP 0 1 0 1 0.
Definition passant_e5d6 : ChessBoard :=
  Eval vm_compute in board_after passant_board e5d6.

(** ** Reference definition for the attack test *)

Definition knight_of (side : Z) : Z := if side =? white then WN else BN.
Definition bishop_of (side : Z) : Z := if side =? white then WB else BB.
Definition queen_of (side : Z) : Z := if side =? white then WQ else BQ.

Definition straight : list Dir := [UP; DOWN; RIGHT; LEFT].
Definition diagonal : list Dir := [UPLEFT; UPRIGHT; DOWNRIGHT; DOWNLEFT].

(** There is a free line between [square] and [s] in one of the
    directions: walking from [square], [s] is reached and no occupied
    square comes before it. *)
Definition in_sight (dirs : list Dir) (blockers square s : Z) : bool :=
  existsb (fun d =>
             existsb (Z.eqb s) (until_blocker blockers (ray_squares d square)))
          dirs.

(** A piece of the color stands on [s] and attacks [square]: a pawn one
    row ahead of it on a neighbouring file, a knight a jump away, a king
    next to it, a bishop or queen with a free diagonal line, a rook or
    queen with a free straight line. *)
Definition attacker (b : ChessBoard) (color square s : Z) : bool :=
  (Z.testbit (bb b (pawn_of color)) s && pawn_capture_step color s square)
  || (Z.testbit (bb b (knight_of color)) s && knight_jump s square)
  || (Z.testbit (bb b (king_of color)) s && king_step s square)
  || ((Z.testbit (bb b (bishop_of color)) s
       || Z.testbit (bb b (queen_of color)) s)
      && in_sight diagonal (occ b both) square s)
  || ((Z.testbit (bb b (rook_of color)) s
       || Z.testbit (bb b (queen_of color)) s)
      && in_sight straight (occ b both) square s).

(** ** Reference definition for what the generator puts into the list *)

(** [st'] is [st] after a run of [add_move] calls, one of them with the
    move [m]. *)
Definition has_added (m : Z) (st st' : Moves) : Prop :=
  exists ms, st' = fold_left add_move ms st /\ In m ms.

(** ** Reference definitions for the positions of a game *)

(** The side of the castling right of bit [i] (bits 0 and 1 are white's
    king and queen side, bits 2 and 3 black's), and the home square of its
    rook. *)
Definition right_side (i : Z) : Z := if i <? 2 then white else black.
Definition right_rook_home (i : Z) : Z :=
  if i =? 0 then h1 else if i =? 1 then a1 else if i =? 2 then h8 else a8.

(** A castling right is only held while the king and the rook of the
    right stand on their home squares. *)
Definition rights_sound (b : ChessBoard) : Prop :=
  forall i, 0 <= i < 4 -> Z.testbit (castling b) i = true ->
    Z.testbit (bb b (king_of (right_side i))) (king_home (right_side i))
      = true /\
    Z.testbit (bb b (rook_of (right_side i))) (right_rook_home i) = true.

(** The en-passant square, when there is one, is a square of the board
    and empty. *)
Definition enpassant_sound (b : ChessBoard) : Prop :=
  enpassant b = no_sq \/
  (0 <= enpassant b < 64 /\ Z.testbit (occ b both) (enpassant b) = false).

Definition position_ok (b : ChessBoard) : Prop :=
  board_ok b /\ occupancy_consistent b /\ pieces_disjoint b /\
  rights_sound b /\ enpassant_sound b.

(** The boards of a game from a board: each one comes from the one before
    by a move of its generated list that [MakeMove] accepts. *)
Inductive game (b : ChessBoard) : ChessBoard -> Prop :=
  | game_start : game b b
  | game_move (b1 : ChessBoard) (st st' : Moves) (m : Z) (b2 : ChessBoard) :
      game b b1 ->
      List.length (moves st) = MOVES_SIZE ->
      generate_moves st b1 = Some st' -> In m (generated st') ->
      MakeMove b1 m = Some (b2, true) ->
      game b b2.

(** ** chess_timer.cpp and the search of evaluation.cpp *)

(** [thinking_time_ms] and [start_point] of the class [Timer]; the time
    point is counted in milliseconds. *)
Record Timer : Type := mkTimer {
  thinking_time_ms : Z;
  start_point : Z
}.

(** [a[i][j] = v], with both indices checked. *)
Fixpoint row_set (a : list (list Z)) (n : nat) (row : list Z)
  : list (list Z) :=
  match a, n with
  | [], _ => []
  | _ :: t, O => row :: t
  | h :: t, S m => h :: row_set t m row
  end.

Definition aset2 (a : list (list Z)) (i j v : Z) : option (list (list Z)) :=
  if i <? 0 then None
  else match nth_error a (Z.to_nat i) with
       | Some row => row <- aset row j v ;; Some (row_set a (Z.to_nat i) row)
       | None => None
       end.

(** [for (n_ply = ply + 1; n_ply < pv_length[ply + 1]; n_ply++)
       pv_table[ply][n_ply] = pv_table[ply + 1][n_ply];]
    The second index leaves the array after at most 64 rounds. *)
Fixpoint pv_copy (fuel : nat) (n_ply limit ply : Z) (pv : list (list Z))
  : option (list (list Z)) :=
  if n_ply <? limit then
    match fuel with
    | O => None
    | S fuel' =>
        v <- aget2 pv (ply + 1) n_ply ;;
        pv <- aset2 pv ply n_ply v ;;
        pv_copy fuel' (n_ply + 1) limit ply pv
    end
  else Some pv.

Section Searching.

(** The clock is what [std::chrono::high_resolution_clock::now()] reads,
    in milliseconds, together with the clock after the reading.  The
    tables of evaluation.h are parameters as before. *)
Variable Clock : Type.
Variable now : Clock -> Z * Clock.
Variable T : EvalTables.
Variable MVV_LVA : Z -> Z -> Z.

Definition StartTimer (remaining_time_ms increment_time_ms : Z) (c : Clock)
  : Timer * Clock :=
  let thinking := Z.max (Z.quot remaining_time_ms 20) increment_time_ms in
  let '(t, c) := now c in
  (mkTimer thinking t, c).

Definition IsTimeOut (timer : Timer) (c : Clock) : bool * Clock :=
  let '(t, c) := now c in
  (t - start_point timer >? thinking_time_ms timer, c).

(** The globals of evaluation.cpp ([ply], [killer_moves] and
    [history_moves] in [tables]), the clock and the standard output. *)
Record World : Type := mkWorld {
  tables : SearchTables;
  num_nodes : Z;                (* U64 num_nodes *)
  pv_length : list Z;           (* int pv_length[64] *)
  pv_table : list (list Z);     (* int pv_table[64][64] *)
  clock : Clock;
  output : list string
}.

Definition with_tables (w : World) (v : SearchTables) : World :=
  mkWorld v (num_nodes w) (pv_length w) (pv_table w) (clock w) (output w).
Definition with_ply (w : World) (v : Z) : World :=
  with_tables w (mkSearchTables v (killer_moves (tables w))
                                (history_moves (tables w))).
Definition with_killer_moves (w : World) (v : list (list Z)) : World :=
  with_tables w (mkSearchTables (ply (tables w)) v
                                (history_moves (tables w))).
Definition with_history_moves (w : World) (v : list (list Z)) : World :=
  with_tables w (mkSearchTables (ply (tables w))
                                (killer_moves (tables w)) v).
Definition with_nodes (w : World) (v : Z) : World :=
  mkWorld (tables w) v (pv_length w) (pv_table w) (clock w) (output w).
Definition with_pv_length (w : World) (v : list Z) : World :=
  mkWorld (tables w) (num_nodes w) v (pv_table w) (clock w) (output w).
Definition with_pv_table (w : World) (v : list (list Z)) : World :=
  mkWorld (tables w) (num_nodes w) (pv_length w) v (clock w) (output w).
Definition with_clock (w : World) (v : Clock) : World :=
  mkWorld (tables w) (num_nodes w) (pv_length w) (pv_table w) v (output w).
Definition with_output (w : World) (v : list string) : World :=
  mkWorld (tables w) (num_nodes w) (pv_length w) (pv_table w) (clock w) v.

(** [game.moves.generate_moves(game.board)] on the copy of the game that
    a search function holds: the lines that [add_move] writes go to the
    standard output of the world. *)
Definition generate_in (w : World) (st : Moves) (board : ChessBoard)
  : option (Moves * World) :=
  st <- generate_moves (mkMoves (moves st) (moves_count st) (output w))
                       board ;;
  Some (st, with_output w (log st)).

(** [quSearch]; the game is passed by value, as the board, the move list
    and the timer.  The fuel bounds the depth of the recursion; [None] is
    an abort or the end of the fuel. *)
Fixpoint quSearch (fuel : nat) (w : World) (timer : Timer)
    (board : ChessBoard) (st : Moves) (alpha beta : Z)
  : option (Z * World) :=
  match fuel with
  | O => None
  | S fuel' =>
      let w := with_nodes w (U64.wrap (num_nodes w + 1)) in
      eval <- Evaluate T board ;;
      if eval >=? beta then Some (beta, w)
      else
        let alpha := if eval >? alpha then eval else alpha in
        '(st, w) <- generate_in w st board ;;
        st <- sortMoves MVV_LVA (tables w) board st ;;
        (fix loop (ms : list Z) (board : ChessBoard) (alpha : Z) (w : World)
             {struct ms} : option (Z * World) :=
           match ms with
           | [] => Some (alpha, w)
           | move :: rest =>
               let '(timeout, c) := IsTimeOut timer (clock w) in
               let w := with_clock w c in
               if timeout then Some (alpha, w)
               else if nonzero (get_move_capture move) then
                 let board := copyBoard board in
                 let w := with_ply w (I32.add (ply (tables w)) 1) in
                 '(board, ok) <- MakeMove board move ;;
                 if negb ok then
                   loop rest board alpha
                        (with_ply w (I32.sub (ply (tables w)) 1))
                 else
                   '(r, w) <- quSearch fuel' w timer board st
                                       (I32.neg beta) (I32.neg alpha) ;;
                   let score := I32.neg r in
                   let board := revertBoard board in
                   let w := with_ply w (I32.sub (ply (tables w)) 1) in
                   if score >=? beta then Some (beta, w)
                   else loop rest board
                             (if score >? alpha then score else alpha) w
               else loop rest board alpha w
           end) (generated st) board alpha w
  end.

(** The end of [NegaMax] behind its loop. *)
Definition negamax_result (in_check : bool) (legal_moves alpha : Z)
    (w : World) : Z * World :=
  if legal_moves =? 0 then
    if in_check then (I32.add (-49000) (ply (tables w)), w) else (0, w)
  else (alpha, w).

(** The updates of [NegaMax] at a beta cutoff and at a new best move. *)
Definition store_killer (w : World) (move : Z) : option World :=
  if negb (nonzero (get_move_capture move)) then
    k0 <- aget2 (killer_moves (tables w)) 0 (ply (tables w)) ;;
    km <- aset2 (killer_moves (tables w)) 1 (ply (tables w)) k0 ;;
    km <- aset2 km 0 (ply (tables w)) move ;;
    Some (with_killer_moves w km)
  else Some w.

Definition store_best (w : World) (move depth : Z) : option World :=
  w <- (if negb (nonzero (get_move_capture move)) then
          h <- aget2 (history_moves (tables w)) (get_move_piece move)
                     (get_move_target move) ;;
          hm <- aset2 (history_moves (tables w)) (get_move_piece move)
                      (get_move_target move) (I32.add h depth) ;;
          Some (with_history_moves w hm)
        else Some w) ;;
  let p := ply (tables w) in
  pv <- aset2 (pv_table w) p p move ;;
  limit <- aget (pv_length w) (p + 1) ;;
  pv <- pv_copy 64 (p + 1) limit p pv ;;
  pvl <- aset (pv_length w) p limit ;;
  Some (with_pv_length (with_pv_table w pv) pvl).

Fixpoint NegaMax (fuel : nat) (w : World) (timer : Timer)
    (board : ChessBoard) (st : Moves) (alpha beta depth : Z)
  : option (Z * World) :=
  match fuel with
  | O => None
  | S fuel' =>
      pvl <- aset (pv_length w) (ply (tables w)) (ply (tables w)) ;;
      let w := with_pv_length w pvl in
      if depth =? 0 then quSearch fuel' w timer board st alpha beta
      else
        in_check <- isThereCheck board (color board) ;;
        let depth := if in_check then I32.add depth 1 else depth in
        '(st, w) <- generate_in w st board ;;
        st <- sortMoves MVV_LVA (tables w) board st ;;
        let w := with_nodes w (U64.wrap (num_nodes w + 1)) in
        (fix loop (ms : list Z) (board : ChessBoard)
             (alpha legal_moves : Z) (w : World)
             {struct ms} : option (Z * World) :=
           match ms with
           | [] => Some (negamax_result in_check legal_moves alpha w)
           | move :: rest =>
               let board := copyBoard board in
               let w := with_ply w (I32.add (ply (tables w)) 1) in
               let '(timeout, c) := IsTimeOut timer (clock w) in
               let w := with_clock w c in
               if timeout
               then Some (negamax_result in_check legal_moves alpha w)
               else
                 '(board, ok) <- MakeMove board move ;;
                 if negb ok then
                   loop rest board alpha legal_moves
                        (with_ply w (I32.sub (ply (tables w)) 1))
                 else
                   let legal_moves := I32.add legal_moves 1 in
                   '(r, w) <- NegaMax fuel' w timer board st
                                      (I32.neg beta) (I32.neg alpha)
                                      (I32.sub depth 1) ;;
                   let score := I32.neg r in
                   let board := revertBoard board in
                   let w := with_ply w (I32.sub (ply (tables w)) 1) in
                   if score >=? beta then
                     w <- store_killer w move ;;
                     Some (beta, w)
                   else if score >? alpha then
                     w <- store_best w move depth ;;
                     loop rest board score legal_moves w
                   else loop rest board alpha legal_moves w
           end) (generated st) board alpha 0 w
  end.

End Searching.

Arguments mkWorld {Clock} tables num_nodes pv_length pv_table clock output.
Arguments tables {Clock} w.
Arguments num_nodes {Clock} w.
Arguments pv_length {Clock} w.
Arguments pv_table {Clock} w.
Arguments clock {Clock} w.
Arguments output {Clock} w.
Arguments with_tables {Clock} w v.
Arguments with_ply {Clock} w v.
Arguments with_killer_moves {Clock} w v.
Arguments with_history_moves {Clock} w v.
Arguments with_nodes {Clock} w v.
Arguments with_pv_length {Clock} w v.
Arguments with_pv_table {Clock} w v.
Arguments with_clock {Clock} w v.
Arguments with_output {Clock} w v.
Arguments generate_in {Clock} w st board.
Arguments negamax_result {Clock} in_check legal_moves alpha w.
Arguments store_killer {Clock} w move.
Arguments store_best {Clock} w move depth.
Arguments StartTimer {Clock} now remaining_time_ms increment_time_ms c.
Arguments IsTimeOut {Clock} now timer c.
Arguments quSearch {Clock} now T MVV_LVA fuel w timer board st alpha beta.
Arguments NegaMax {Clock} now T MVV_LVA fuel w timer board st alpha beta depth.

(** ** Reference definitions for the search *)

(** The arrays of the search have their declared sizes:
    [killer_moves[2][64]], [history_moves[12][64]], [pv_length[64]] and
    [pv_table[64][64]]. *)
Definition grid (rows cols : nat) (a : list (list Z)) : Prop :=
  List.length a = rows /\ Forall (fun r => List.length r = cols) a.

Definition search_arrays_ok {Clock : Type} (w : World Clock) : Prop :=
  grid 2 64 (killer_moves (tables w)) /\
  grid 12 64 (history_moves (tables w)) /\
  List.length (pv_length w) = 64%nat /\
  grid 64 64 (pv_table w).

(** A clock that is read 100 seconds later each time, the timer that
    [StartTimer] sets on it for a remaining time of one second (a thinking
    time of 50 ms), and the globals at the start of a search with the
    clock after that reading. *)
Definition late_clock (c : Z) : Z * Z := (c, c + 100000).
Definition short_timer : Timer := fst (StartTimer late_clock 1000 0 0).
Definition sample_world : World Z :=
  mkWorld sample_search_tables 0 (repeat 0 64) (repeat (repeat 0 64) 64)
          (snd (StartTimer late_clock 1000 0 0)) [].

(** * Bits of 64-bit words *)

Lemma in_range_bits_high (x k : Z) :
  U64.in_range x -> 64 <= k -> Z.testbit x k = false.
Proof.
  unfold U64.in_range, U64.modulus. intros [H0 H1] Hk.
  destruct (Z.eq_dec x 0) as [->|Hx]; [apply Z.bits_0|].
  apply Z.bits_above_log2; [lia|].
  assert (Z.log2 x < 64) by (apply Z.log2_lt_pow2; lia). lia.
Qed.

Lemma in_range_lt (x k : Z) :
  U64.in_range x -> Z.testbit x k = true -> (k <? 64) = true.
Proof.
  intros Hx H. destruct (Z.ltb_spec k 64) as [|L]; [reflexivity|].
  rewrite (in_range_bits_high x k Hx L) in H. discriminate.
Qed.

Lemma in_range_of_bits (x : Z) :
  0 <= x -> (forall k, 64 <= k -> Z.testbit x k = false) -> U64.in_range x.
Proof.
  unfold U64.in_range, U64.modulus. intros H0 H. split; [exact H0|].
  destruct (Z.eq_dec x 0) as [->|Hx]; [lia|].
  apply Z.log2_lt_pow2; [lia|].
  destruct (Z_lt_le_dec (Z.log2 x) 64) as [L|L]; [exact L|].
  specialize (H (Z.log2 x) L). rewrite Z.bit_log2 in H by lia. discriminate.
Qed.

Lemma testbit_bit (sq k : Z) : 0 <= sq -> Z.testbit (bit sq) k = (sq =? k).
Proof.
  intros H. unfold bit. rewrite Z.shiftl_1_l. apply Z.pow2_bits_eqb. exact H.
Qed.

Lemma testbit_max (k : Z) : 0 <= k -> Z.testbit U64.max k = (k <? 64).
Proof.
  intros H. change U64.max with (Z.ones 64).
  apply Z.testbit_ones_nonneg; lia.
Qed.

Lemma testbit_not (x k : Z) :
  0 <= k -> Z.testbit (U64.not x) k = xorb (Z.testbit x k) (k <? 64).
Proof.
  intros H. unfold U64.not. rewrite Z.lxor_spec, testbit_max by exact H.
  reflexivity.
Qed.

Lemma testbit_set_bit (x sq k : Z) :
  0 <= sq -> Z.testbit (set_bit x sq) k = Z.testbit x k || (sq =? k).
Proof.
  intros H. unfold set_bit. rewrite Z.lor_spec, testbit_bit by exact H.
  reflexivity.
Qed.

Lemma testbit_pop_bit (x sq k : Z) :
  U64.in_range x -> 0 <= sq ->
  Z.testbit (pop_bit x sq) k = Z.testbit x k && negb (sq =? k).
Proof.
  intros Hx H. unfold pop_bit. rewrite Z.land_spec.
  destruct (Z_lt_le_dec k 0) as [N|N].
  - rewrite !Z.testbit_neg_r by exact N. reflexivity.
  - rewrite testbit_not, testbit_bit by assumption.
    destruct (Z.ltb_spec k 64) as [L|L].
    + rewrite xorb_true_r. reflexivity.
    + rewrite (in_range_bits_high x k Hx L). reflexivity.
Qed.

Lemma get_bit_spec (x sq : Z) :
  0 <= sq -> get_bit x sq = Z.testbit x sq.
Proof.
  intros H. unfold get_bit.
  destruct (Z.testbit x sq) eqn:E.
  - destruct (Z.eqb_spec (Z.land x (bit sq)) 0) as [Z0|]; [|reflexivity].
    assert (F : Z.testbit (Z.land x (bit sq)) sq = false)
      by (rewrite Z0; apply Z.bits_0).
    rewrite Z.land_spec, E, testbit_bit, Z.eqb_refl in F by exact H.
    discriminate.
  - destruct (Z.eqb_spec (Z.land x (bit sq)) 0) as [|NZ]; [reflexivity|].
    exfalso. apply NZ. apply Z.bits_inj'. intros k Hk.
    rewrite Z.land_spec, testbit_bit, Z.bits_0 by exact H.
    destruct (Z.eqb_spec sq k) as [->|]; [rewrite E|rewrite andb_false_r];
      reflexivity.
Qed.

Lemma land_in_range (x y : Z) :
  U64.in_range x -> 0 <= y -> U64.in_range (Z.land x y).
Proof.
  intros Hx Hy. apply in_range_of_bits.
  - apply Z.land_nonneg. left. apply Hx.
  - intros k Hk. rewrite Z.land_spec, (in_range_bits_high x k Hx Hk).
    reflexivity.
Qed.

Lemma land_in_range_r (x y : Z) :
  0 <= x -> U64.in_range y -> U64.in_range (Z.land x y).
Proof. intros Hx Hy. rewrite Z.land_comm. apply land_in_range; assumption. Qed.

Lemma lor_in_range (x y : Z) :
  U64.in_range x -> U64.in_range y -> U64.in_range (Z.lor x y).
Proof.
  intros Hx Hy. apply in_range_of_bits.
  - apply Z.lor_nonneg. split; [apply Hx | apply Hy].
  - intros k Hk.
    rewrite Z.lor_spec, (in_range_bits_high x k Hx Hk),
      (in_range_bits_high y k Hy Hk).
    reflexivity.
Qed.

Lemma bit_in_range (sq : Z) : 0 <= sq < 64 -> U64.in_range (bit sq).
Proof.
  intros H. apply in_range_of_bits.
  - unfold bit. rewrite Z.shiftl_1_l. apply Z.pow_nonneg. lia.
  - intros k Hk. rewrite testbit_bit by lia.
    destruct (Z.eqb_spec sq k); [lia | reflexivity].
Qed.

Lemma not_in_range (x : Z) : U64.in_range x -> U64.in_range (U64.not x).
Proof.
  intros Hx. apply in_range_of_bits.
  - unfold U64.not. apply Z.lxor_nonneg. unfold U64.max.
    split; intros _; [lia | apply Hx].
  - intros k Hk. rewrite testbit_not by lia.
    rewrite (in_range_bits_high x k Hx Hk).
    destruct (Z.ltb_spec k 64); [lia | reflexivity].
Qed.

Lemma set_bit_in_range (x sq : Z) :
  U64.in_range x -> 0 <= sq < 64 -> U64.in_range (set_bit x sq).
Proof.
  intros Hx H. apply lor_in_range; [exact Hx | apply bit_in_range; exact H].
Qed.

Lemma pop_bit_in_range (x sq : Z) :
  U64.in_range x -> U64.in_range (pop_bit x sq).
Proof.
  intros Hx. apply land_in_range; [exact Hx|].
  unfold U64.not, bit. apply Z.lxor_nonneg.
  unfold U64.max. split; intros _; [lia|].
  apply Z.shiftl_nonneg. lia.
Qed.

Lemma nonzero_true (x : Z) : nonzero x = true <-> x <> 0.
Proof.
  unfold nonzero. destruct (Z.eqb_spec x 0); simpl; split; intros; try lia;
    try discriminate; try reflexivity; congruence.
Qed.

Lemma nonzero_false (x : Z) : nonzero x = false <-> x = 0.
Proof.
  unfold nonzero. destruct (Z.eqb_spec x 0); simpl; split; intros; try lia;
    try discriminate; try reflexivity; congruence.
Qed.

(** A word of the 64-bit range that is not zero has a set bit in 0..63. *)
Lemma in_range_has_bit (x : Z) :
  U64.in_range x -> x <> 0 -> exists j, 0 <= j < 64 /\ Z.testbit x j = true.
Proof.
  unfold U64.in_range, U64.modulus. intros [H0 H1] Hx.
  exists (Z.log2 x). split.
  - split; [apply Z.log2_nonneg | apply Z.log2_lt_pow2; lia].
  - apply Z.bit_log2. lia.
Qed.

(** ** The bit scans *)

Lemma scan_up_spec (bb : Z) (fuel : nat) (i j : Z) :
  i <= j < i + Z.of_nat fuel -> Z.testbit bb j = true ->
  i <= scan_up fuel i bb <= j /\
  Z.testbit bb (scan_up fuel i bb) = true /\
  forall k, i <= k < scan_up fuel i bb -> Z.testbit bb k = false.
Proof.
  revert i. induction fuel as [|fuel IH]; intros i Hj Hb; [lia|].
  cbn [scan_up]. destruct (Z.testbit bb i) eqn:E.
  - split; [lia|]. split; [exact E|]. intros k Hk. lia.
  - assert (i <> j) by (intros ->; congruence).
    destruct (IH (i + 1)) as (R1 & R2 & R3); [lia | exact Hb |].
    split; [lia|]. split; [exact R2|].
    intros k Hk. destruct (Z.eq_dec k i) as [->|]; [exact E|].
    apply R3. lia.
Qed.

Lemma scan_down_spec (bb : Z) (fuel : nat) (i j : Z) :
  i - Z.of_nat fuel < j <= i -> Z.testbit bb j = true ->
  j <= scan_down fuel i bb <= i /\
  Z.testbit bb (scan_down fuel i bb) = true /\
  forall k, scan_down fuel i bb < k <= i -> Z.testbit bb k = false.
Proof.
  revert i. induction fuel as [|fuel IH]; intros i Hj Hb; [lia|].
  cbn [scan_down]. destruct (Z.testbit bb i) eqn:E.
  - split; [lia|]. split; [exact E|]. intros k Hk. lia.
  - assert (i <> j) by (intros ->; congruence).
    destruct (IH (i - 1)) as (R1 & R2 & R3); [lia | exact Hb |].
    split; [lia|]. split; [exact R2|].
    intros k Hk. destruct (Z.eq_dec k i) as [->|]; [exact E|].
    apply R3. lia.
Qed.

(** [bitScanForward] finds the lowest set bit. *)
Lemma bitScanForward_spec (bb : Z) :
  U64.in_range bb -> bb <> 0 ->
  exists sq, bitScanForward bb = Some sq /\ 0 <= sq < 64 /\
             Z.testbit bb sq = true /\
             forall k, 0 <= k < sq -> Z.testbit bb k = false.
Proof.
  intros Hr Hz. destruct (in_range_has_bit bb Hr Hz) as (j & Hj & Hb).
  unfold bitScanForward. destruct (Z.eqb_spec bb 0); [contradiction|].
  destruct (scan_up_spec bb 64 0 j) as (R1 & R2 & R3); [lia | exact Hb |].
  eexists. split; [reflexivity|]. split; [lia|]. split; [exact R2|].
  intros k Hk. apply R3. lia.
Qed.

(** [bitScanReverse] finds the highest set bit. *)
Lemma bitScanReverse_spec (bb : Z) :
  U64.in_range bb -> bb <> 0 ->
  exists sq, bitScanReverse bb = Some sq /\ 0 <= sq < 64 /\
             Z.testbit bb sq = true /\
             forall k, sq < k -> Z.testbit bb k = false.
Proof.
  intros Hr Hz. destruct (in_range_has_bit bb Hr Hz) as (j & Hj & Hb).
  unfold bitScanReverse. destruct (Z.eqb_spec bb 0); [contradiction|].
  destruct (scan_down_spec bb 64 63 j) as (R1 & R2 & R3); [lia | exact Hb |].
  eexists. split; [reflexivity|]. split; [lia|]. split; [exact R2|].
  intros k Hk. destruct (Z_lt_le_dec 63 k) as [L|L].
  - apply in_range_bits_high; [exact Hr | lia].
  - apply R3. lia.
Qed.

Lemma bitScanForward_Some (bb sq : Z) :
  U64.in_range bb -> bitScanForward bb = Some sq ->
  0 <= sq < 64 /\ Z.testbit bb sq = true /\
  forall k, 0 <= k < sq -> Z.testbit bb k = false.
Proof.
  intros Hr H.
  assert (Hz : bb <> 0).
  { intros ->. discriminate. }
  destruct (bitScanForward_spec bb Hr Hz) as (sq' & E & R).
  rewrite E in H. injection H as <-. exact R.
Qed.

Lemma bitScanReverse_Some (bb sq : Z) :
  U64.in_range bb -> bitScanReverse bb = Some sq ->
  0 <= sq < 64 /\ Z.testbit bb sq = true /\
  forall k, sq < k -> Z.testbit bb k = false.
Proof.
  intros Hr H.
  assert (Hz : bb <> 0).
  { intros ->. discriminate. }
  destruct (bitScanReverse_spec bb Hr Hz) as (sq' & E & R).
  rewrite E in H. injection H as <-. exact R.
Qed.

(** ** The loop over the set bits *)

Lemma squares_zrange : squares = zrange 0 64.
Proof. reflexivity. Qed.

Lemma In_zrange (i : Z) (n : nat) (k : Z) :
  In k (zrange i n) <-> i <= k < i + Z.of_nat n.
Proof.
  revert i. induction n as [|n IH]; intros i; cbn [zrange In].
  - lia.
  - rewrite IH. lia.
Qed.

Lemma In_squares (k : Z) : In k squares <-> 0 <= k < 64.
Proof. rewrite squares_zrange, In_zrange. lia. Qed.

Lemma In_bits_of (bb k : Z) :
  In k (bits_of bb) <-> 0 <= k < 64 /\ Z.testbit bb k = true.
Proof. unfold bits_of. rewrite filter_In, In_squares. reflexivity. Qed.

Lemma filter_zrange_none (f : Z -> bool) (i : Z) (n : nat) :
  (forall k, i <= k < i + Z.of_nat n -> f k = false) ->
  filter f (zrange i n) = [].
Proof.
  revert i. induction n as [|n IH]; intros i H; cbn [zrange filter].
  - reflexivity.
  - rewrite (H i) by lia. apply IH. intros k Hk. apply H. lia.
Qed.

Lemma filter_zrange_ext (f g : Z -> bool) (i : Z) (n : nat) :
  (forall k, i <= k < i + Z.of_nat n -> f k = g k) ->
  filter f (zrange i n) = filter g (zrange i n).
Proof.
  revert i. induction n as [|n IH]; intros i H; cbn [zrange filter].
  - reflexivity.
  - rewrite (H i) by lia. rewrite (IH (i + 1)); [reflexivity|].
    intros k Hk. apply H. lia.
Qed.

(** The first square that passes a filter splits the range. *)
Lemma filter_zrange_first (f : Z -> bool) (n : nat) (i sq : Z) :
  i <= sq < i + Z.of_nat n -> f sq = true ->
  (forall k, i <= k < sq -> f k = false) ->
  filter f (zrange i n) =
  sq :: filter f (zrange (sq + 1) (Z.to_nat (i + Z.of_nat n - sq - 1))).
Proof.
  revert i. induction n as [|n IH]; intros i Hsq Hf Hlow; [lia|].
  cbn [zrange filter]. destruct (Z.eq_dec i sq) as [->|Hne].
  - rewrite Hf. f_equal. f_equal. f_equal. lia.
  - rewrite (Hlow i) by lia. rewrite (IH (i + 1)); [|lia|exact Hf|].
    + f_equal. f_equal. f_equal. lia.
    + intros k Hk. apply Hlow. lia.
Qed.

Lemma for_bits_zrange {S : Type} (body : Z -> S -> option S) (fuel : nat) :
  forall (n : nat) (i bb : Z) (st : S),
    (n <= fuel)%nat -> i + Z.of_nat n = 64 -> 0 <= i ->
    U64.in_range bb ->
    (forall k, 0 <= k < i -> Z.testbit bb k = false) ->
    for_bits fuel bb body st = foldM body (filter (Z.testbit bb) (zrange i n)) st.
Proof.
  induction fuel as [|fuel IH]; intros n i bb st Hn Hi H0 Hr Hlow.
  - assert (n = 0%nat) by lia. subst n. cbn [zrange filter foldM for_bits].
    destruct (nonzero bb) eqn:E; [|reflexivity].
    apply nonzero_true in E.
    destruct (in_range_has_bit bb Hr E) as (j & Hj & Hb).
    rewrite Hlow in Hb by lia. discriminate.
  - cbn [for_bits]. destruct (nonzero bb) eqn:E.
    + apply nonzero_true in E.
      destruct (bitScanForward_spec bb Hr E) as (sq & Esq & Hsq & Hb & Hmin).
      rewrite Esq. cbn [bind].
      assert (Hge : i <= sq).
      { destruct (Z_lt_le_dec sq i) as [L|L]; [|exact L].
        rewrite Hlow in Hb by lia. discriminate. }
      rewrite (filter_zrange_first (Z.testbit bb) n i sq);
        [|lia|exact Hb|intros k Hk; apply Hmin; lia].
      cbn [foldM]. destruct (body sq st) as [st'|]; [|reflexivity].
      cbn [bind].
      rewrite (IH (Z.to_nat (i + Z.of_nat n - sq - 1)) (sq + 1));
        try lia.
      * f_equal. apply filter_zrange_ext. intros k Hk.
        rewrite testbit_pop_bit by (assumption || lia).
        destruct (Z.eqb_spec sq k); [lia|]. rewrite andb_true_r. reflexivity.
      * apply pop_bit_in_range. exact Hr.
      * intros k Hk. rewrite testbit_pop_bit by (assumption || lia).
        destruct (Z.eq_dec k sq) as [->|Hne].
        -- rewrite Z.eqb_refl. apply andb_false_r.
        -- rewrite Hmin by lia. reflexivity.
    + apply nonzero_false in E. subst bb.
      rewrite filter_zrange_none; [reflexivity|].
      intros k _. apply Z.bits_0.
Qed.

(** The loop over a bitboard runs its body on the squares of the
    bitboard in increasing order; 64 rounds of fuel are enough. *)
Lemma for_bits_fold {S : Type} (body : Z -> S -> option S) (bb : Z) (st : S) :
  U64.in_range bb ->
  for_bits 64 bb body st = foldM body (bits_of bb) st.
Proof.
  intros Hr. unfold bits_of. rewrite squares_zrange.
  apply for_bits_zrange; try lia. exact Hr.
Qed.

Lemma foldM_inv {S : Type} (I : S -> Prop) (body : Z -> S -> option S)
    (l : list Z) :
  (forall sq s s', In sq l -> I s -> body sq s = Some s' -> I s') ->
  forall st st', I st -> foldM body l st = Some st' -> I st'.
Proof.
  induction l as [|sq l IH]; intros Hbody st st' Hst H; cbn [foldM] in H.
  - injection H as <-. exact Hst.
  - destruct (body sq st) as [s1|] eqn:E; [|discriminate]. cbn [bind] in H.
    apply (IH (fun q s s' Hq => Hbody q s s' (or_intror Hq)) s1 st');
      [|exact H].
    apply (Hbody sq st s1); [left; reflexivity | exact Hst | exact E].
Qed.

Lemma foldM_total {S : Type} (body : Z -> S -> option S) (l : list Z) :
  (forall sq s, In sq l -> exists s', body sq s = Some s') ->
  forall st, exists st', foldM body l st = Some st'.
Proof.
  induction l as [|sq l IH]; intros Hbody st; cbn [foldM].
  - eauto.
  - destruct (Hbody sq st (or_introl eq_refl)) as (s1 & E). rewrite E.
    cbn [bind]. apply IH. intros q s Hq. apply Hbody. right. exact Hq.
Qed.

(** An invariant of the body, on the squares of the bitboard, is an
    invariant of the loop. *)
Lemma for_bits_inv {S : Type} (I : S -> Prop) (body : Z -> S -> option S)
    (bb : Z) (st st' : S) :
  U64.in_range bb ->
  (forall sq s s', 0 <= sq < 64 -> Z.testbit bb sq = true ->
                   I s -> body sq s = Some s' -> I s') ->
  I st -> for_bits 64 bb body st = Some st' -> I st'.
Proof.
  intros Hr Hbody Hst H. rewrite for_bits_fold in H by exact Hr.
  apply (foldM_inv I body (bits_of bb)) with (st := st); try assumption.
  intros sq s s' Hin. apply In_bits_of in Hin. destruct Hin as [H1 H2].
  apply Hbody; assumption.
Qed.

Lemma for_bits_total {S : Type} (body : Z -> S -> option S) (bb : Z) (st : S) :
  U64.in_range bb ->
  (forall sq s, 0 <= sq < 64 -> Z.testbit bb sq = true ->
                exists s', body sq s = Some s') ->
  exists st', for_bits 64 bb body st = Some st'.
Proof.
  intros Hr Hbody. rewrite for_bits_fold by exact Hr.
  apply foldM_total. intros sq s Hin. apply In_bits_of in Hin.
  destruct Hin as [H1 H2]. apply Hbody; assumption.
Qed.

(** * Make and unmake *)

Lemma bind_Some {A B : Type} (m : option A) (k : A -> option B) (r : B) :
  bind m k = Some r -> exists a, m = Some a /\ k a = Some r.
Proof.
  destruct m as [a|]; simpl; intros H; [eauto | discriminate].
Qed.

(** Inversion of a monadic equation, one bind at a time. *)
Ltac inv_bind H :=
  let a := fresh "v" in
  let E := fresh "E" in
  apply bind_Some in H; destruct H as (a & E & H).

Lemma kept_move_piece b piece side f t b' :
  move_piece b piece side f t = Some b' -> kept b' = kept b.
Proof.
  unfold move_piece. intros H. inv_bind H. injection H as <-. reflexivity.
Qed.

Lemma kept_capture_piece b side t : kept (capture_piece b side t) = kept b.
Proof. reflexivity. Qed.

Lemma kept_promote b piece promoted t b' :
  promote b piece promoted t = Some b' -> kept b' = kept b.
Proof.
  unfold promote. intros H. inv_bind H. inv_bind H. injection H as <-.
  reflexivity.
Qed.

Lemma kept_capture_enpassant b side t b' :
  capture_enpassant b side t = Some b' -> kept b' = kept b.
Proof.
  unfold capture_enpassant. destruct (valid_shift _); [|discriminate].
  intros H. injection H as <-. reflexivity.
Qed.

Lemma kept_castle_rook b t : kept (castle_rook b t) = kept b.
Proof.
  unfold castle_rook.
  repeat match goal with |- context [if ?c then _ else _] => destruct c end;
    reflexivity.
Qed.

Lemma kept_update_rights b f t : kept (update_rights b f t) = kept b.
Proof. reflexivity. Qed.

Lemma kept_rebuild_occupancy b : kept (rebuild_occupancy b) = kept b.
Proof. reflexivity. Qed.

Lemma MakeMove_update_kept (b : ChessBoard) (m : Z) (b2 : ChessBoard) :
  MakeMove_update b m = Some b2 -> kept b2 = kept (copyBoard b).
Proof.
  unfold MakeMove_update. intros H.
  inv_bind H. inv_bind H. inv_bind H. injection H as <-.
  rewrite kept_rebuild_occupancy, kept_update_rights.
  assert (K0 : kept v = kept (copyBoard b))
    by (eapply kept_move_piece; eassumption).
  assert (K1 : kept v0 = kept (copyBoard b)).
  { destruct (nonzero (get_move_promoted m)).
    - apply kept_promote in E0. rewrite E0.
      destruct (nonzero (get_move_capture m)); [rewrite kept_capture_piece|];
        exact K0.
    - injection E0 as <-.
      destruct (nonzero (get_move_capture m)); [rewrite kept_capture_piece|];
        exact K0. }
  assert (K2 : kept v1 = kept (copyBoard b)).
  { destruct (nonzero (get_move_enpassant m)).
    - apply kept_capture_enpassant in E1. congruence.
    - injection E1 as <-. exact K1. }
  destruct (nonzero (get_move_castling m)); [rewrite kept_castle_rook|];
    exact K2.
Qed.

(** A rejected make returns the board of before the call, an accepted one
    a board on which [revertBoard] gives it back, the move counter
    excepted. *)
Lemma MakeMove_rejected (b : ChessBoard) (m : Z) (b' : ChessBoard) :
  MakeMove b m = Some (b', false) ->
  same_position b' b /\ num_moves b' = num_moves b.
Proof.
  unfold MakeMove. intros H. inv_bind H. inv_bind H.
  apply MakeMove_update_kept in E. unfold kept in E. cbn in E.
  destruct v0; [|discriminate].
  injection H as <-. unfold same_position. cbn.
  injection E as -> -> -> -> -> -> _. repeat split; reflexivity.
Qed.

Lemma MakeMove_accepted (b : ChessBoard) (m : Z) (b' : ChessBoard) :
  MakeMove b m = Some (b', true) ->
  same_position (revertBoard b') b /\
  num_moves (revertBoard b') = U32.wrap (num_moves b + 1).
Proof.
  unfold MakeMove. intros H. inv_bind H. inv_bind H.
  apply MakeMove_update_kept in E. unfold kept in E. cbn in E.
  destruct v0; [discriminate|].
  injection H as <-. unfold same_position.
  injection E as E1 E2 E3 E4 E5 E6 E7.
  destruct (nonzero (get_move_double m)); cbn;
    rewrite E1, E2, E3, E4, E5, E6; repeat split; reflexivity.
Qed.

(** ** The occupancy invariant *)

Lemma rebuild_occupancy_consistent (b : ChessBoard) :
  occupancy_consistent (rebuild_occupancy b).
Proof. unfold occupancy_consistent. cbn. repeat split; reflexivity. Qed.

Lemma occupancy_consistent_ext (b1 b2 : ChessBoard) :
  bitboards b1 = bitboards b2 -> occupancy b1 = occupancy b2 ->
  occupancy_consistent b2 -> occupancy_consistent b1.
Proof.
  unfold occupancy_consistent, occ. intros -> ->. exact (fun H => H).
Qed.

Lemma MakeMove_update_consistent (b : ChessBoard) (m : Z) (b2 : ChessBoard) :
  MakeMove_update b m = Some b2 -> occupancy_consistent b2.
Proof.
  unfold MakeMove_update. intros H.
  inv_bind H. inv_bind H. inv_bind H. injection H as <-.
  apply rebuild_occupancy_consistent.
Qed.

Lemma MakeMove_consistent (b : ChessBoard) (m : Z) (b' : ChessBoard) (r : bool) :
  occupancy_consistent b -> MakeMove b m = Some (b', r) ->
  occupancy_consistent b'.
Proof.
  intros Hb H. destruct r.
  - unfold MakeMove in H. inv_bind H. inv_bind H.
    destruct v0; [discriminate|]. injection H as <-.
    apply MakeMove_update_consistent in E.
    apply (occupancy_consistent_ext _ v); [| |exact E];
      destruct (nonzero (get_move_double m)); reflexivity.
  - apply MakeMove_rejected in H. destruct H as ((H1 & H2 & _) & _).
    apply (occupancy_consistent_ext _ b); assumption.
Qed.

Lemma parseFEN_consistent (b0 : ChessBoard) (fen : string) (b : ChessBoard) :
  parseFEN b0 fen = Some b -> occupancy_consistent b.
Proof.
  unfold parseFEN. intros H.
  inv_bind H. destruct v as [bbs p].
  inv_bind H. inv_bind H. destruct v0 as [cr p'].
  inv_bind H. inv_bind H. injection H as <-.
  assert (Hv : bitboards v1 = bbs /\ occupancy v1 = [0; 0; nth 2 (occupancy b0) 0]).
  { destruct (negb _).
    - inv_bind E3. injection E3 as <-. split; reflexivity.
    - injection E3 as <-. split; reflexivity. }
  destruct Hv as [Hb Ho].
  unfold occupancy_consistent, occ, bb, union. cbn. rewrite Hb, Ho. cbn.
  repeat split; reflexivity.
Qed.

Lemma play_consistent (ms : list Z) (b b' : ChessBoard) :
  occupancy_consistent b -> play b ms = Some b' -> occupancy_consistent b'.
Proof.
  revert b. induction ms as [|m ms IH]; intros b Hb H; cbn in H.
  - injection H as <-. exact Hb.
  - inv_bind H. destruct v as [b1 r].
    apply (IH b1); [|exact H].
    eapply MakeMove_consistent; eassumption.
Qed.

(** * The claims about make and unmake *)

(** C1. For every board and every move that [generate_moves] has produced
    for it: when [MakeMove] does not accept the move, the twelve piece
    bitboards, the three occupancies, the side to move, the en-passant
    square, the castling rights and the move counter are those of before
    the call. *)
Theorem MakeMove_rejected_restores
    (st st' : Moves) (b b' : ChessBoard) (m : Z) :
  generate_moves st b = Some st' ->
  In m (generated st') ->
  MakeMove b m = Some (b', false) ->
  bitboards b' = bitboards b /\
  occupancy b' = occupancy b /\
  color b' = color b /\
  enpassant b' = enpassant b /\
  castling b' = castling b /\
  num_moves b' = num_moves b.
Proof.
  intros _ _ H. apply MakeMove_rejected in H.
  destruct H as ((H1 & H2 & H3 & H4 & H5) & H6).
  repeat split; assumption.
Qed.

Lemma MakeMove_rejected_restores_witness :
  generate_moves (moves_filled 0) check_board = Some check_moves /\
  In e1d2 (generated check_moves) /\
  MakeMove check_board e1d2 = Some (check_e1d2, false) /\
  bitboards check_e1d2 = bitboards check_board /\
  num_moves check_e1d2 = num_moves check_board.
Proof.
  assert (H1 : generate_moves (moves_filled 0) check_board = Some check_moves)
    by (vm_compute; reflexivity).
  assert (H2 : In e1d2 (generated check_moves))
    by (vm_compute; repeat (try (left; reflexivity); right)).
  assert (H3 : MakeMove check_board e1d2 = Some (check_e1d2, false))
    by (vm_compute; reflexivity).
  pose proof (MakeMove_rejected_restores _ _ _ _ _ H1 H2 H3) as H.
  split; [exact H1|]. split; [exact H2|]. split; [exact H3|].
  split; [exact (proj1 H) | exact (proj2 (proj2 (proj2 (proj2 (proj2 H)))))].
Defined.

(** C2, as the code has it.  After snapshot ([copyBoard]), an accepted
    [MakeMove] and restore ([revertBoard]) the twelve piece bitboards, the
    three occupancies, the side to move, the en-passant square and the
    castling rights are those of before the snapshot; the move counter
    [num_moves] is not part of the snapshot and is one higher. *)
Theorem snapshot_make_restore (b b' : ChessBoard) (m : Z) :
  MakeMove (copyBoard b) m = Some (b', true) ->
  bitboards (revertBoard b') = bitboards b /\
  occupancy (revertBoard b') = occupancy b /\
  color (revertBoard b') = color b /\
  enpassant (revertBoard b') = enpassant b /\
  castling (revertBoard b') = castling b /\
  num_moves (revertBoard b') = U32.wrap (num_moves b + 1).
Proof.
  intros H. apply MakeMove_accepted in H.
  destruct H as ((H1 & H2 & H3 & H4 & H5) & H6).
  repeat split; assumption.
Qed.

Lemma snapshot_make_restore_witness :
  MakeMove (copyBoard start_board) e2e4 = Some (start_e2e4, true) /\
  bitboards (revertBoard start_e2e4) = bitboards start_board /\
  num_moves (revertBoard start_e2e4) = 1.
Proof.
  assert (H : MakeMove (copyBoard start_board) e2e4 = Some (start_e2e4, true))
    by (vm_compute; reflexivity).
  pose proof (snapshot_make_restore _ _ _ H) as R.
  split; [exact H|].
  split; [exact (proj1 R) | exact (proj2 (proj2 (proj2 (proj2 (proj2 R)))))].
Defined.

(** C2, as stated, fails on the move counter: from the starting position,
    snapshot, the legal move e2e4 and restore leave [num_moves] at 1, where
    it was 0 before the snapshot. *)
Lemma snapshot_make_restore_num_moves :
  parseFEN empty_board start_fen = Some start_board /\
  In e2e4 (generated start_moves) /\
  MakeMove (copyBoard start_board) e2e4 = Some (start_e2e4, true) /\
  num_moves start_board = 0 /\
  num_moves (revertBoard start_e2e4) = 1 /\
  num_moves (revertBoard start_e2e4) <> num_moves start_board.
Proof.
  repeat split; try (vm_compute; reflexivity).
  - vm_compute. repeat (try (left; reflexivity); right).
  - vm_compute. discriminate.
Qed.

(** C3. After [parseFEN] on a record that it reads to its end, and after
    every later call of [MakeMove], accepted or not, the white occupancy
    is the union of the six white piece bitboards, the black occupancy
    that of the six black ones, and the occupancy of both their union. *)
Theorem occupancy_invariant
    (b0 : ChessBoard) (fen : string) (ms : list Z) (b b' : ChessBoard) :
  parseFEN b0 fen = Some b ->
  play b ms = Some b' ->
  occupancy_consistent b /\ occupancy_consistent b'.
Proof.
  intros H1 H2. apply parseFEN_consistent in H1. split; [exact H1|].
  eapply play_consistent; eassumption.
Qed.

Lemma occupancy_invariant_witness :
  occupancy_consistent start_board /\
  occupancy_consistent
    (force empty_board (play start_board [e2e4; e1d2; e2e4])).
Proof.
  apply (occupancy_invariant empty_board start_fen [e2e4; e1d2; e2e4]);
    vm_compute; reflexivity.
Defined.

(** * The move encoding *)

Lemma testbit_small (x m n : Z) :
  0 <= x < 2 ^ m -> 0 <= m <= n -> Z.testbit x n = false.
Proof.
  intros Hx Hm. destruct (Z.eq_dec x 0) as [->|Hz]; [apply Z.bits_0|].
  apply Z.bits_above_log2; [lia|].
  assert (Z.log2 x < m) by (apply Z.log2_lt_pow2; lia). lia.
Qed.

Lemma testbit_flag (x n : Z) : 0 <= x <= 1 -> n <> 0 -> Z.testbit x n = false.
Proof.
  intros Hx Hn. destruct (Z_lt_le_dec n 0); [apply Z.testbit_neg_r; lia|].
  apply (testbit_small x 1 n); lia.
Qed.

Lemma encode_move_testbit (f t p pr c d e k n : Z) :
  fields_ok f t p pr c d e k -> 0 <= n ->
  Z.testbit (encode_move f t p pr c d e k) n =
  if n <? 6 then Z.testbit f n
  else if n <? 12 then Z.testbit t (n - 6)
  else if n <? 16 then Z.testbit p (n - 12)
  else if n <? 20 then Z.testbit pr (n - 16)
  else if n =? 20 then Z.testbit c 0
  else if n =? 21 then Z.testbit d 0
  else if n =? 22 then Z.testbit e 0
  else if n =? 23 then Z.testbit k 0
  else false.
Proof.
  intros (Hf & Ht & Hp & Hpr & Hc & Hd & He & Hk) Hn.
  unfold encode_move. rewrite !Z.lor_spec, !Z.shiftl_spec by exact Hn.
  assert (Lf : 6 <= n -> Z.testbit f n = false)
    by (intros; apply (testbit_small f 6); lia).
  assert (Lt : n < 6 \/ 12 <= n -> Z.testbit t (n - 6) = false).
  { intros [L|L]; [apply Z.testbit_neg_r; lia|].
    apply (testbit_small t 6); lia. }
  assert (Lp : n < 12 \/ 16 <= n -> Z.testbit p (n - 12) = false).
  { intros [L|L]; [apply Z.testbit_neg_r; lia|].
    apply (testbit_small p 4); lia. }
  assert (Lpr : n < 16 \/ 20 <= n -> Z.testbit pr (n - 16) = false).
  { intros [L|L]; [apply Z.testbit_neg_r; lia|].
    apply (testbit_small pr 4); lia. }
  assert (Lc : n <> 20 -> Z.testbit c (n - 20) = false)
    by (intros; apply testbit_flag; lia).
  assert (Ld : n <> 21 -> Z.testbit d (n - 21) = false)
    by (intros; apply testbit_flag; lia).
  assert (Le : n <> 22 -> Z.testbit e (n - 22) = false)
    by (intros; apply testbit_flag; lia).
  assert (Lk : n <> 23 -> Z.testbit k (n - 23) = false)
    by (intros; apply testbit_flag; lia).
  destruct (Z.ltb_spec n 6);
    [rewrite Lt, Lp, Lpr, Lc, Ld, Le, Lk by lia; rewrite !orb_false_r;
     reflexivity|].
  destruct (Z.ltb_spec n 12);
    [rewrite Lf, Lp, Lpr, Lc, Ld, Le, Lk by lia; rewrite !orb_false_r;
     reflexivity|].
  destruct (Z.ltb_spec n 16);
    [rewrite Lf, Lt, Lpr, Lc, Ld, Le, Lk by lia; rewrite !orb_false_r;
     reflexivity|].
  destruct (Z.ltb_spec n 20);
    [rewrite Lf, Lt, Lp, Lc, Ld, Le, Lk by lia; rewrite !orb_false_r;
     reflexivity|].
  destruct (Z.eqb_spec n 20) as [->|];
    [rewrite Lf, Lt, Lp, Lpr, Ld, Le, Lk by lia; rewrite !orb_false_r;
     reflexivity|].
  destruct (Z.eqb_spec n 21) as [->|];
    [rewrite Lf, Lt, Lp, Lpr, Lc, Le, Lk by lia; rewrite !orb_false_r;
     reflexivity|].
  destruct (Z.eqb_spec n 22) as [->|];
    [rewrite Lf, Lt, Lp, Lpr, Lc, Ld, Lk by lia; rewrite !orb_false_r;
     reflexivity|].
  destruct (Z.eqb_spec n 23) as [->|];
    [rewrite Lf, Lt, Lp, Lpr, Lc, Ld, Le by lia; reflexivity|].
  rewrite Lf, Lt, Lp, Lpr, Lc, Ld, Le, Lk by lia. reflexivity.
Qed.

Lemma testbit_pow2_mask (x m n : Z) :
  0 <= m -> 0 <= n ->
  Z.testbit (Z.land x (2 ^ m)) n = Z.testbit x n && (m =? n).
Proof.
  intros Hm Hn. rewrite Z.land_spec, Z.pow2_bits_eqb by exact Hm. reflexivity.
Qed.

Lemma get_move_castling_encode (f t p pr c d e k : Z) :
  fields_ok f t p pr c d e k ->
  get_move_castling (encode_move f t p pr c d e k) = Z.shiftl k 23.
Proof.
  intros H. unfold get_move_castling. apply Z.bits_inj'. intros n Hn.
  change 0x800000 with (2 ^ 23).
  rewrite testbit_pow2_mask, encode_move_testbit, Z.shiftl_spec
    by (assumption || lia).
  destruct (Z.eqb_spec 23 n) as [<-|Hne].
  - cbn. apply andb_true_r.
  - rewrite andb_false_r. symmetry.
    destruct H as (_ & _ & _ & _ & _ & _ & _ & Hk).
    apply testbit_flag; lia.
Qed.

Lemma get_move_castling_plain (f t p pr c d e : Z) :
  fields_ok f t p pr c d e 0 ->
  get_move_castling (encode_move f t p pr c d e 0) = 0.
Proof. intros H. rewrite get_move_castling_encode by exact H. reflexivity. Qed.

Lemma get_move_source_encode (f t p pr c d e k : Z) :
  fields_ok f t p pr c d e k ->
  get_move_source (encode_move f t p pr c d e k) = f.
Proof.
  intros H. unfold get_move_source. apply Z.bits_inj'. intros n Hn.
  change 0x3f with (Z.ones 6).
  rewrite Z.land_spec, Z.testbit_ones_nonneg, encode_move_testbit
    by (assumption || lia).
  destruct (Z.ltb_spec n 6) as [L|L].
  - apply andb_true_r.
  - rewrite andb_false_r. symmetry.
    destruct H as (Hf & _). apply (testbit_small f 6); lia.
Qed.

Lemma get_move_target_encode (f t p pr c d e k : Z) :
  fields_ok f t p pr c d e k ->
  get_move_target (encode_move f t p pr c d e k) = t.
Proof.
  intros H. unfold get_move_target. apply Z.bits_inj'. intros n Hn.
  rewrite Z.shiftr_spec by exact Hn.
  change 0xfc0 with (Z.shiftl (Z.ones 6) 6).
  rewrite Z.land_spec, Z.shiftl_spec, Z.testbit_ones_nonneg,
    encode_move_testbit by (assumption || lia).
  replace (n + 6 - 6) with n by lia.
  destruct (Z.ltb_spec (n + 6) 6) as [L|L]; [lia|].
  destruct (Z.ltb_spec (n + 6) 12) as [L1|L1];
    destruct (Z.ltb_spec n 6) as [L2|L2]; try lia.
  - apply andb_true_r.
  - rewrite andb_false_r. symmetry.
    destruct H as (_ & Ht & _). apply (testbit_small t 6); lia.
Qed.

Lemma get_move_piece_encode (f t p pr c d e k : Z) :
  fields_ok f t p pr c d e k ->
  get_move_piece (encode_move f t p pr c d e k) = p.
Proof.
  intros H. unfold get_move_piece. apply Z.bits_inj'. intros n Hn.
  rewrite Z.shiftr_spec by exact Hn.
  change 0xf000 with (Z.shiftl (Z.ones 4) 12).
  rewrite Z.land_spec, Z.shiftl_spec, Z.testbit_ones_nonneg,
    encode_move_testbit by (assumption || lia).
  replace (n + 12 - 12) with n by lia.
  destruct (Z.ltb_spec (n + 12) 6) as [L|L]; [lia|].
  destruct (Z.ltb_spec (n + 12) 12) as [L0|L0]; [lia|].
  destruct (Z.ltb_spec (n + 12) 16) as [L1|L1];
    destruct (Z.ltb_spec n 4) as [L2|L2]; try lia.
  - apply andb_true_r.
  - rewrite andb_false_r. symmetry.
    destruct H as (_ & _ & Hp & _). apply (testbit_small p 4); lia.
Qed.

(** * The move list *)

Lemma length_list_set (a : list Z) (n : nat) (v : Z) :
  List.length (list_set a n v) = List.length a.
Proof.
  revert n. induction a as [|h t IH]; intros [|n]; cbn; try reflexivity.
  rewrite IH. reflexivity.
Qed.

Lemma nth_list_set_eq (a : list Z) (n : nat) (v d : Z) :
  (n < List.length a)%nat -> nth n (list_set a n v) d = v.
Proof.
  revert n. induction a as [|h t IH]; intros [|n] H; cbn in *; try lia.
  apply IH. lia.
Qed.

Lemma nth_list_set_neq (a : list Z) (n i : nat) (v d : Z) :
  n <> i -> nth i (list_set a n v) d = nth i a d.
Proof.
  revert n i. induction a as [|h t IH]; intros [|n] [|i] H; cbn;
    try reflexivity; try lia.
  apply IH. lia.
Qed.

Lemma firstn_list_set (a : list Z) (n : nat) (v : Z) :
  (n < List.length a)%nat ->
  firstn (S n) (list_set a n v) = firstn n a ++ [v].
Proof.
  revert n. induction a as [|h t IH]; intros [|n] H; cbn in *; try lia.
  - reflexivity.
  - f_equal. apply IH. lia.
Qed.

Lemma length_generated (st : Moves) :
  moves_ok st -> List.length (generated st) = Z.to_nat (moves_count st).
Proof.
  intros [L C]. unfold generated. rewrite length_firstn, L.
  unfold MOVES_SIZE. lia.
Qed.

Lemma U32_wrap_small (z : Z) : 0 <= z < 2 ^ 32 -> U32.wrap z = z.
Proof. intros H. unfold U32.wrap, U32.modulus. apply Z.mod_small. exact H. Qed.

(** [add_move] below the bound: the move goes to slot [moves_count], the
    count goes up by one, the other slots stay. *)
Lemma add_move_room (st : Moves) (m : Z) :
  moves_ok st -> moves_count st < 256 ->
  moves (add_move st m) = list_set (moves st) (Z.to_nat (moves_count st)) m /\
  moves_count (add_move st m) = moves_count st + 1 /\
  log (add_move st m) = log st /\
  generated (add_move st m) = generated st ++ [m] /\
  moves_ok (add_move st m).
Proof.
  intros [L C] H. unfold add_move.
  destruct (Z.ltb_spec (moves_count st) 256) as [_|]; [|lia].
  cbn [moves moves_count log]. rewrite U32_wrap_small by lia.
  repeat (split; [reflexivity|]). split.
  - unfold generated. cbn [moves moves_count].
    replace (Z.to_nat (moves_count st + 1))
      with (S (Z.to_nat (moves_count st))) by lia.
    apply firstn_list_set. rewrite L. unfold MOVES_SIZE. lia.
  - split; cbn [moves moves_count]; [|lia].
    rewrite length_list_set. exact L.
Qed.

(** [add_move] at the bound: array and count stay, one line is printed. *)
Lemma add_move_full (st : Moves) (m : Z) :
  256 <= moves_count st ->
  moves (add_move st m) = moves st /\
  moves_count (add_move st m) = moves_count st /\
  log (add_move st m) = log st ++ [full_message].
Proof.
  intros H. unfold add_move.
  destruct (Z.ltb_spec (moves_count st) 256) as [|_]; [lia|].
  repeat split; reflexivity.
Qed.

Lemma add_move_ok (st : Moves) (m : Z) :
  moves_ok st -> moves_ok (add_move st m).
Proof.
  intros H. destruct (Z_lt_le_dec (moves_count st) 256) as [L|L].
  - apply add_move_room; assumption.
  - destruct (add_move_full st m L) as (E1 & E2 & _).
    destruct H as [H1 H2]. split; [rewrite E1 | rewrite E2]; assumption.
Qed.

Lemma add_move_high_slots (st : Moves) (m : Z) (i : nat) :
  moves_ok st -> (256 <= i)%nat ->
  nth i (moves (add_move st m)) 0 = nth i (moves st) 0.
Proof.
  intros H Hi. destruct (Z_lt_le_dec (moves_count st) 256) as [L|L].
  - destruct (add_move_room st m H L) as (E & _). rewrite E.
    apply nth_list_set_neq. destruct H as [_ C]. lia.
  - destruct (add_move_full st m L) as (E & _). rewrite E. reflexivity.
Qed.

Lemma fold_add_move_ok (ms : list Z) (st : Moves) :
  moves_ok st -> moves_ok (fold_left add_move ms st).
Proof.
  revert st. induction ms as [|m ms IH]; intros st H; cbn [fold_left].
  - exact H.
  - apply IH. apply add_move_ok. exact H.
Qed.

Lemma fold_add_move_high_slots (ms : list Z) (st : Moves) (i : nat) :
  moves_ok st -> (256 <= i)%nat ->
  nth i (moves (fold_left add_move ms st)) 0 = nth i (moves st) 0.
Proof.
  revert st. induction ms as [|m ms IH]; intros st H Hi; cbn [fold_left].
  - reflexivity.
  - rewrite IH by (try apply add_move_ok; assumption).
    apply add_move_high_slots; assumption.
Qed.

(** The list after a run of [add_move] calls holds the moves of before,
    then the added ones, up to the bound of 256; the rest is dropped. *)
Lemma fold_add_move_generated (ms : list Z) (st : Moves) :
  moves_ok st ->
  generated (fold_left add_move ms st) = firstn 256 (generated st ++ ms).
Proof.
  revert st. induction ms as [|m ms IH]; intros st H; cbn [fold_left].
  - rewrite app_nil_r. symmetry. apply firstn_all2.
    rewrite length_generated by exact H. destruct H as [_ C]. lia.
  - rewrite IH by (apply add_move_ok; exact H).
    destruct (Z_lt_le_dec (moves_count st) 256) as [L|L].
    + destruct (add_move_room st m H L) as (_ & _ & _ & E & _).
      rewrite E, <- app_assoc. reflexivity.
    + destruct (add_move_full st m L) as (E1 & E2 & _).
      unfold generated at 1. rewrite E1, E2. fold (generated st).
      assert (Hl : List.length (generated st) = 256%nat).
      { rewrite length_generated by exact H. destruct H as [_ C]. lia. }
      rewrite !firstn_app, Hl. cbn [Nat.sub firstn]. reflexivity.
Qed.

Lemma reset_count_ok (st : Moves) :
  List.length (moves st) = MOVES_SIZE -> moves_ok (reset_count st).
Proof. intros H. split; cbn; [exact H | lia]. Qed.

Lemma In_firstn {A : Type} (n : nat) (l : list A) (x : A) :
  In x (firstn n l) -> In x l.
Proof.
  revert l. induction n as [|n IH]; intros [|h t] H; cbn in H;
    try contradiction.
  destruct H as [->|H]; [left; reflexivity | right; apply IH; exact H].
Qed.

(** After a run of [add_move] calls on a list that has been reset, every
    move of the list is one of the added moves. *)
Lemma adds_generated (P : Z -> Prop) (st st' : Moves) (m : Z) :
  moves_ok st -> moves_count st = 0 ->
  adds P st st' -> In m (generated st') -> P m.
Proof.
  intros H C (ms & HP & ->) Hin.
  rewrite fold_add_move_generated in Hin by exact H.
  assert (G : generated st = []).
  { unfold generated. rewrite C. reflexivity. }
  rewrite G in Hin. cbn [app] in Hin.
  apply In_firstn in Hin. rewrite Forall_forall in HP. apply HP. exact Hin.
Qed.

Lemma adds_refl (P : Z -> Prop) (st : Moves) : adds P st st.
Proof. exists []. split; [constructor | reflexivity]. Qed.

Lemma adds_trans (P : Z -> Prop) (st1 st2 st3 : Moves) :
  adds P st1 st2 -> adds P st2 st3 -> adds P st1 st3.
Proof.
  intros (l1 & H1 & ->) (l2 & H2 & ->). exists (l1 ++ l2). split.
  - apply Forall_app. split; assumption.
  - rewrite fold_left_app. reflexivity.
Qed.

Lemma adds_one (P : Z -> Prop) (st : Moves) (m : Z) :
  P m -> adds P st (add_move st m).
Proof.
  intros H. exists [m]. split; [|reflexivity].
  constructor; [exact H | constructor].
Qed.

Lemma adds_step (P : Z -> Prop) (st1 st2 : Moves) (m : Z) :
  adds P st1 st2 -> P m -> adds P st1 (add_move st2 m).
Proof.
  intros H Hm. eapply adds_trans; [exact H | apply adds_one; exact Hm].
Qed.

Lemma adds_ok (P : Z -> Prop) (st st' : Moves) :
  moves_ok st -> adds P st st' -> moves_ok st'.
Proof. intros H (ms & _ & ->). apply fold_add_move_ok. exact H. Qed.

Lemma adds_weaken (P Q : Z -> Prop) (st st' : Moves) :
  (forall m, P m -> Q m) -> adds P st st' -> adds Q st st'.
Proof.
  intros HPQ (ms & H & ->). exists ms. split; [|reflexivity].
  eapply Forall_impl; eassumption.
Qed.

(** * The attack tables hold 64-bit words *)

Lemma in_range_0 : U64.in_range 0.
Proof. unfold U64.in_range, U64.modulus. lia. Qed.

Lemma all_in_range_Forall (l : list Z) :
  all_in_range l = true -> Forall U64.in_range l.
Proof.
  unfold all_in_range. rewrite forallb_forall, Forall_forall.
  intros H x Hx. specialize (H x Hx). unfold U64.in_range. lia.
Qed.

Lemma u32b_spec (z : Z) : u32b z = true -> U32.in_range z.
Proof. unfold u32b, U32.in_range. lia. Qed.

Lemma wf_boardb_spec (b : ChessBoard) : wf_boardb b = true -> wf_board b.
Proof.
  unfold wf_boardb, wf_board. intros H.
  repeat (apply andb_true_iff in H; destruct H as [H ?]).
  apply Nat.eqb_eq in H.
  repeat split;
    try (apply all_in_range_Forall; assumption);
    try (apply u32b_spec; assumption);
    try (apply Nat.eqb_eq; assumption); exact H.
Qed.

Lemma nth_in_range (l : list Z) (n : nat) :
  Forall U64.in_range l -> U64.in_range (nth n l 0).
Proof.
  intros H. destruct (nth_in_or_default n l 0) as [Hin | ->].
  - rewrite Forall_forall in H. apply H. exact Hin.
  - exact in_range_0.
Qed.

Lemma rays_in_range (d : Dir) (sq : Z) : U64.in_range (rays d sq).
Proof.
  unfold rays. apply nth_in_range. apply all_in_range_Forall.
  destruct d; vm_compute; reflexivity.
Qed.

Lemma pawn_attacks_in_range (c sq : Z) : U64.in_range (pawn_attacks c sq).
Proof.
  unfold pawn_attacks. apply nth_in_range.
  destruct (Z.to_nat c) as [|[|n]].
  - apply all_in_range_Forall. vm_compute. reflexivity.
  - apply all_in_range_Forall. vm_compute. reflexivity.
  - destruct n; constructor.
Qed.

Lemma knight_attacks_in_range (sq : Z) : U64.in_range (knight_attacks sq).
Proof.
  unfold knight_attacks. apply nth_in_range. apply all_in_range_Forall.
  vm_compute. reflexivity.
Qed.

Lemma king_attacks_in_range (sq : Z) : U64.in_range (king_attacks sq).
Proof.
  unfold king_attacks. apply nth_in_range. apply all_in_range_Forall.
  vm_compute. reflexivity.
Qed.

Lemma not_nonneg (x : Z) : 0 <= x -> 0 <= U64.not x.
Proof.
  intros H. unfold U64.not. apply Z.lxor_nonneg. unfold U64.max.
  split; intros _; [lia | exact H].
Qed.

(** ** The sliding attacks return, and return 64-bit words *)

Lemma slide_in_range (d : Dir) (scan : Z -> option Z) (sq B a r : Z) :
  U64.in_range a -> slide d scan sq B a = Some r -> U64.in_range r.
Proof.
  intros Ha. unfold slide.
  destruct (nonzero (Z.land (rays d sq) B)).
  - intros H. inv_bind H. injection H as <-.
    apply land_in_range.
    + apply lor_in_range; [exact Ha | apply rays_in_range].
    + apply not_nonneg. apply rays_in_range.
  - intros H. injection H as <-.
    apply lor_in_range; [exact Ha | apply rays_in_range].
Qed.

Lemma slide_total_forward (d : Dir) (sq B a : Z) :
  0 <= B -> exists r, slide d bitScanForward sq B a = Some r.
Proof.
  intros HB. unfold slide.
  destruct (nonzero (Z.land (rays d sq) B)) eqn:E; [|eauto].
  apply nonzero_true in E.
  destruct (bitScanForward_spec (Z.land (rays d sq) B)) as (i & Ei & _).
  - apply land_in_range; [apply rays_in_range | exact HB].
  - exact E.
  - rewrite Ei. cbn [bind]. eauto.
Qed.

Lemma slide_total_reverse (d : Dir) (sq B a : Z) :
  0 <= B -> exists r, slide d bitScanReverse sq B a = Some r.
Proof.
  intros HB. unfold slide.
  destruct (nonzero (Z.land (rays d sq) B)) eqn:E; [|eauto].
  apply nonzero_true in E.
  destruct (bitScanReverse_spec (Z.land (rays d sq) B)) as (i & Ei & _).
  - apply land_in_range; [apply rays_in_range | exact HB].
  - exact E.
  - rewrite Ei. cbn [bind]. eauto.
Qed.

Lemma getBishopMoves_total (sq B : Z) :
  0 <= B -> exists r, getBishopMoves sq B = Some r /\ U64.in_range r.
Proof.
  intros HB. unfold getBishopMoves.
  destruct (slide_total_reverse UPLEFT sq B 0 HB) as (r1 & E1).
  destruct (slide_total_reverse UPRIGHT sq B r1 HB) as (r2 & E2).
  destruct (slide_total_forward DOWNRIGHT sq B r2 HB) as (r3 & E3).
  destruct (slide_total_forward DOWNLEFT sq B r3 HB) as (r4 & E4).
  rewrite E1; cbn [bind]. rewrite E2; cbn [bind].
  rewrite E3; cbn [bind]. rewrite E4; cbn [bind].
  exists r4. split; [reflexivity|].
  eapply slide_in_range; [|exact E4].
  eapply slide_in_range; [|exact E3].
  eapply slide_in_range; [|exact E2].
  eapply slide_in_range; [|exact E1]. exact in_range_0.
Qed.

Lemma getRooksMoves_total (sq B : Z) :
  0 <= B -> exists r, getRooksMoves sq B = Some r /\ U64.in_range r.
Proof.
  intros HB. unfold getRooksMoves.
  destruct (slide_total_reverse UP sq B 0 HB) as (r1 & E1).
  destruct (slide_total_forward DOWN sq B r1 HB) as (r2 & E2).
  destruct (slide_total_forward RIGHT sq B r2 HB) as (r3 & E3).
  destruct (slide_total_reverse LEFT sq B r3 HB) as (r4 & E4).
  rewrite E1; cbn [bind]. rewrite E2; cbn [bind].
  rewrite E3; cbn [bind]. rewrite E4; cbn [bind].
  exists r4. split; [reflexivity|].
  eapply slide_in_range; [|exact E4].
  eapply slide_in_range; [|exact E3].
  eapply slide_in_range; [|exact E2].
  eapply slide_in_range; [|exact E1]. exact in_range_0.
Qed.

Lemma getQueensMoves_total (sq B : Z) :
  0 <= B -> exists r, getQueensMoves sq B = Some r /\ U64.in_range r.
Proof.
  intros HB. unfold getQueensMoves.
  destruct (getRooksMoves_total sq B HB) as (r & Er & Hr).
  destruct (getBishopMoves_total sq B HB) as (b & Eb & Hb).
  rewrite Er, Eb. cbn [bind]. exists (Z.lor r b).
  split; [reflexivity | apply lor_in_range; assumption].
Qed.

Lemma getBishopMoves_in_range (sq B r : Z) :
  getBishopMoves sq B = Some r -> U64.in_range r.
Proof.
  unfold getBishopMoves. intros H.
  inv_bind H. inv_bind H. inv_bind H. inv_bind H. injection H as <-.
  eapply slide_in_range; [|exact E2].
  eapply slide_in_range; [|exact E1].
  eapply slide_in_range; [|exact E0].
  eapply slide_in_range; [|exact E]. exact in_range_0.
Qed.

Lemma getRooksMoves_in_range (sq B r : Z) :
  getRooksMoves sq B = Some r -> U64.in_range r.
Proof.
  unfold getRooksMoves. intros H.
  inv_bind H. inv_bind H. inv_bind H. inv_bind H. injection H as <-.
  eapply slide_in_range; [|exact E2].
  eapply slide_in_range; [|exact E1].
  eapply slide_in_range; [|exact E0].
  eapply slide_in_range; [|exact E]. exact in_range_0.
Qed.

Lemma getQueensMoves_in_range (sq B r : Z) :
  getQueensMoves sq B = Some r -> U64.in_range r.
Proof.
  unfold getQueensMoves. intros H. inv_bind H. inv_bind H.
  injection H as <-. apply lor_in_range.
  - exact (getRooksMoves_in_range _ _ _ E).
  - exact (getBishopMoves_in_range _ _ _ E0).
Qed.

(** The attack test returns on every board with 64-bit occupancies. *)
Lemma isSquareAttacked_total (b : ChessBoard) (sq c : Z) :
  0 <= occ b both -> exists r, isSquareAttacked b sq c = Some r.
Proof.
  intros HB. unfold isSquareAttacked.
  destruct (nonzero _); [eauto|]. destruct (nonzero _); [eauto|].
  destruct (getBishopMoves_total sq (occ b both) HB) as (bm & -> & _).
  cbn [bind]. destruct (nonzero _); [eauto|].
  destruct (getRooksMoves_total sq (occ b both) HB) as (rm & -> & _).
  cbn [bind]. destruct (nonzero _); [eauto|].
  destruct (getQueensMoves_total sq (occ b both) HB) as (qm & -> & _).
  cbn [bind]. destruct (nonzero _); [eauto|]. destruct (nonzero _); eauto.
Qed.

(** * The generator emits plain moves and guarded castling moves *)

Ltac bools :=
  repeat match goal with
         | H : _ && _ = true |- _ =>
             apply andb_true_iff in H; destruct H
         | H : negb _ = true |- _ => apply negb_true_iff in H
         | H : negb _ = false |- _ => apply negb_false_iff in H
         | H : (_ <? _) = true |- _ => apply Z.ltb_lt in H
         | H : (_ <? _) = false |- _ => apply Z.ltb_ge in H
         | H : (_ <=? _) = true |- _ => apply Z.leb_le in H
         | H : (_ <=? _) = false |- _ => apply Z.leb_gt in H
         | H : (_ >=? _) = true |- _ => rewrite Z.geb_leb in H
         | H : (_ >=? _) = false |- _ => rewrite Z.geb_leb in H
         | H : (_ >? _) = true |- _ => rewrite Z.gtb_ltb in H
         | H : (_ >? _) = false |- _ => rewrite Z.gtb_ltb in H
         | H : (_ =? _) = true |- _ => apply Z.eqb_eq in H
         | H : (_ =? _) = false |- _ => apply Z.eqb_neq in H
         end.

Ltac squares_unfold :=
  unfold a8, c8, d8, e8, f8, g8, h8, a7, h7, a2, h2, a1, c1, d1, e1, f1, g1,
    h1, no_sq, WP, WN, WB, WR, WQ, WK, BP, BN, BB, BR, BQ, BK, white, black,
    both in *.

Ltac case_if E :=
  lazymatch goal with
  | |- adds _ _ (if ?c then _ else _) => destruct c eqn:E
  end.

Section Emitted.

Variable b : ChessBoard.
Variable s : Z.

Lemma emitted_fields (f t p pr c d e : Z) :
  fields_ok f t p pr c d e 0 ->
  emitted b s (encode_move f t p pr c d e 0).
Proof.
  intros H. apply emitted_plain. apply get_move_castling_plain. exact H.
Qed.

Lemma add_promotions_adds (st : Moves) (f t p : Z) (promotions : list Z)
    (c : Z) :
  0 <= f < 64 -> 0 <= t < 64 -> 0 <= p < 16 -> 0 <= c <= 1 ->
  Forall (fun pr => 0 <= pr < 16) promotions ->
  adds (emitted b s) st (add_promotions st f t p promotions c).
Proof.
  intros Hf Ht Hp Hc Hpr. unfold add_promotions.
  exists (map (fun pr => encode_move f t p pr c 0 0 0) promotions). split.
  - rewrite Forall_map. eapply Forall_impl; [|exact Hpr].
    intros pr H. cbn beta in H. apply emitted_fields. unfold fields_ok. lia.
  - generalize st. induction promotions as [|pr l IH]; intros st0; cbn.
    + reflexivity.
    + apply IH. inversion Hpr; assumption.
Qed.

Lemma promotions_ok (color : Z) :
  Forall (fun pr => 0 <= pr < 16)
         (if color =? white then WHITE_PROMOTIONS else BLACK_PROMOTIONS).
Proof.
  destruct (color =? white); unfold WHITE_PROMOTIONS, BLACK_PROMOTIONS;
    squares_unfold; repeat constructor; lia.
Qed.

Lemma pawn_piece_ok (color : Z) : 0 <= (if color =? white then WP else BP) < 16.
Proof. destruct (color =? white); squares_unfold; lia. Qed.

Lemma pawn_pushes_adds (color : Z) (occupancy : list Z) (from : Z)
    (st : Moves) :
  0 <= from < 64 ->
  adds (emitted b s) st (pawn_pushes color occupancy from st).
Proof.
  intros Hf. unfold pawn_pushes.
  pose proof (promotions_ok color) as Hpr.
  pose proof (pawn_piece_ok color) as Hp.
  destruct (color =? white);
    (case_if Epush; [|apply adds_refl]);
    (case_if Epromo;
     [apply add_promotions_adds; try assumption; squares_unfold; bools; lia|]);
    (case_if Edouble;
     [apply adds_step;
      [apply adds_one|]; apply emitted_fields; unfold fields_ok;
      squares_unfold; bools; lia
     |apply adds_one; apply emitted_fields; unfold fields_ok;
      squares_unfold; bools; lia]).
Qed.

Lemma nth_nonneg (l : list Z) (n : nat) :
  Forall U64.in_range l -> 0 <= nth n l 0.
Proof. intros H. apply (nth_in_range l n H). Qed.

Lemma pawn_captures_adds (color : Z) (occupancy : list Z) (from : Z)
    (st st' : Moves) :
  Forall U64.in_range occupancy -> 0 <= from < 64 ->
  pawn_captures color occupancy from st = Some st' ->
  adds (emitted b s) st st'.
Proof.
  intros Ho Hf. unfold pawn_captures.
  pose proof (promotions_ok color) as Hpr.
  pose proof (pawn_piece_ok color) as Hp.
  apply (for_bits_inv (adds (emitted b s) st)).
  - apply land_in_range; [apply pawn_attacks_in_range|].
    apply nth_nonneg. exact Ho.
  - intros t s1 s2 Ht _ H1 H2. injection H2 as <-.
    eapply adds_trans; [exact H1|].
    destruct (if color =? white then _ else _) at 1.
    + apply add_promotions_adds; try assumption; lia.
    + apply adds_one. apply emitted_fields. unfold fields_ok. lia.
  - apply adds_refl.
Qed.

Lemma pawn_enpassant_adds (color : Z) (from : Z) (st st' : Moves) :
  0 <= from < 64 ->
  pawn_enpassant b color from st = Some st' ->
  adds (emitted b s) st st'.
Proof.
  intros Hf. unfold pawn_enpassant.
  pose proof (pawn_piece_ok color) as Hp.
  destruct (negb (enpassant b =? no_sq));
    [|intros H; injection H as <-; apply adds_refl].
  destruct (valid_shift (enpassant b)) eqn:Ev; [|discriminate].
  destruct (nonzero _) eqn:En;
    [|intros H; injection H as <-; apply adds_refl].
  intros H. inv_bind H. injection H as <-.
  apply bitScanForward_Some in E.
  - apply adds_one. apply emitted_fields. unfold fields_ok. lia.
  - apply land_in_range; [apply pawn_attacks_in_range|].
    unfold bit. apply Z.shiftl_nonneg. lia.
Qed.

Lemma generateMovesPawns_adds (color : Z) (occupancy : list Z)
    (st st' : Moves) :
  wf_board b -> Forall U64.in_range occupancy ->
  generateMovesPawns b color occupancy st = Some st' ->
  adds (emitted b s) st st'.
Proof.
  intros Hb Ho. unfold generateMovesPawns.
  apply (for_bits_inv (adds (emitted b s) st)).
  - destruct Hb as (_ & _ & Hbb & _).
    destruct (color =? white); apply nth_in_range; exact Hbb.
  - intros from s1 s2 Hf _ H1 H2. unfold pawn_body in H2.
    inv_bind H2.
    eapply adds_trans; [exact H1|].
    eapply adds_trans; [apply pawn_pushes_adds; exact Hf|].
    eapply adds_trans; [apply (pawn_captures_adds _ _ _ _ _ Ho Hf E)|].
    apply (pawn_enpassant_adds _ _ _ _ Hf H2).
  - apply adds_refl.
Qed.

Lemma target_body_adds (from piece enemy : Z) (attacks : Z) (st st' : Moves) :
  U64.in_range attacks -> 0 <= from < 64 -> 0 <= piece < 16 ->
  for_bits 64 attacks (target_body from piece enemy) st = Some st' ->
  adds (emitted b s) st st'.
Proof.
  intros Ha Hf Hp.
  apply (for_bits_inv (adds (emitted b s) st)).
  - exact Ha.
  - intros t s1 s2 Ht _ H1 H2. unfold target_body in H2.
    injection H2 as <-. eapply adds_trans; [exact H1|].
    destruct (negb (get_bit enemy t)); apply adds_one; apply emitted_fields;
      unfold fields_ok; lia.
  - apply adds_refl.
Qed.

Lemma king_steps_adds (color : Z) (occupancy : list Z) (st st' : Moves) :
  wf_board b -> Forall U64.in_range occupancy ->
  king_steps b color occupancy st = Some st' ->
  adds (emitted b s) st st'.
Proof.
  intros Hb Ho. unfold king_steps.
  apply (for_bits_inv (adds (emitted b s) st)).
  - destruct Hb as (_ & _ & Hbb & _).
    destruct (color =? white); apply nth_in_range; exact Hbb.
  - intros from s1 s2 Hf _ H1 H2.
    eapply adds_trans; [exact H1|].
    apply target_body_adds in H2; [exact H2| |exact Hf|].
    + apply land_in_range; [apply king_attacks_in_range|].
      destruct (color =? white); apply not_nonneg; apply nth_nonneg; exact Ho.
    + destruct (color =? white); squares_unfold; lia.
  - apply adds_refl.
Qed.

Lemma piece_attacks_in_range (piece from blockers a : Z) :
  piece_attacks piece from blockers = Some a -> U64.in_range a.
Proof.
  unfold piece_attacks.
  destruct (_ || _).
  { intros H. injection H as <-. apply knight_attacks_in_range. }
  destruct (_ || _); [apply getBishopMoves_in_range|].
  destruct (_ || _); [apply getRooksMoves_in_range|].
  destruct (_ || _); [apply getQueensMoves_in_range|discriminate].
Qed.

Lemma generateMovesPiece_adds (occupancy : list Z) (piece : Z)
    (st st' : Moves) :
  wf_board b -> Forall U64.in_range occupancy -> 0 <= piece < 16 ->
  generateMovesPiece b occupancy piece st = Some st' ->
  adds (emitted b s) st st'.
Proof.
  intros Hb Ho Hp. unfold generateMovesPiece.
  apply (for_bits_inv (adds (emitted b s) st)).
  - destruct Hb as (_ & _ & Hbb & _). apply nth_in_range. exact Hbb.
  - intros from s1 s2 Hf _ H1 H2. inv_bind H2.
    eapply adds_trans; [exact H1|].
    apply piece_attacks_in_range in E.
    apply target_body_adds in H2; [exact H2| |exact Hf|exact Hp].
    apply land_in_range; [exact E|].
    destruct (piece <? 6); apply not_nonneg; apply nth_nonneg; exact Ho.
  - apply adds_refl.
Qed.

Lemma castle_kingside_adds (st st' : Moves) :
  castle_kingside b s st = Some st' -> adds (emitted b s) st st'.
Proof.
  unfold castle_kingside. intros H.
  destruct (nonzero _) eqn:E1 in H;
    [|injection H as <-; apply adds_refl].
  destruct (_ && _) eqn:E2 in H; [|injection H as <-; apply adds_refl].
  inv_bind H. destruct v; cbn [negb] in H;
    [injection H as <-; apply adds_refl|].
  inv_bind H. destruct v; cbn [negb] in H;
    [injection H as <-; apply adds_refl|].
  injection H as <-. apply adds_one.
  apply nonzero_true in E1. apply andb_true_iff in E2. destruct E2 as [E2 E3].
  apply negb_true_iff in E2, E3.
  assert (K : kingside_conditions b s).
  { unfold kingside_conditions, king_home.
    destruct (s =? white); repeat split; assumption. }
  apply emitted_kingside in K. unfold kingside_castle, king_home, king_of in K.
  destruct (s =? white); exact K.
Qed.

Lemma castle_queenside_adds (st st' : Moves) :
  castle_queenside b s st = Some st' -> adds (emitted b s) st st'.
Proof.
  unfold castle_queenside. intros H.
  destruct (nonzero _) eqn:E1 in H;
    [|injection H as <-; apply adds_refl].
  destruct (_ && _) eqn:E2 in H; [|injection H as <-; apply adds_refl].
  inv_bind H. destruct v; cbn [negb] in H;
    [injection H as <-; apply adds_refl|].
  inv_bind H. destruct v; cbn [negb] in H;
    [injection H as <-; apply adds_refl|].
  injection H as <-. apply adds_one.
  apply nonzero_true in E1. apply andb_true_iff in E2. destruct E2 as [E2 E4].
  apply andb_true_iff in E2. destruct E2 as [E2 E3].
  apply negb_true_iff in E2, E3, E4.
  assert (K : queenside_conditions b s).
  { unfold queenside_conditions, king_home.
    destruct (s =? white); repeat split; assumption. }
  apply emitted_queenside in K.
  unfold queenside_castle, king_home, king_of in K.
  destruct (s =? white); exact K.
Qed.

Lemma generateMovesKings_adds (occupancy : list Z) (st st' : Moves) :
  wf_board b -> Forall U64.in_range occupancy ->
  generateMovesKings b s occupancy st = Some st' ->
  adds (emitted b s) st st'.
Proof.
  intros Hb Ho H. unfold generateMovesKings in H.
  inv_bind H. inv_bind H.
  eapply adds_trans; [apply (king_steps_adds _ _ _ _ Hb Ho E)|].
  eapply adds_trans; [apply (castle_kingside_adds _ _ E0)|].
  apply (castle_queenside_adds _ _ H).
Qed.

End Emitted.

Ltac piece_adds b side Hb Ho E :=
  apply (generateMovesPiece_adds b side _ _ _ _ Hb Ho) in E;
  [exact E | squares_unfold; lia].

(** Every generation is a run of [add_move] calls on the reset list, each
    with a plain move or with a castling move whose conditions hold. *)
Lemma generate_moves_adds (b : ChessBoard) (st st' : Moves) :
  wf_board b -> generate_moves st b = Some st' ->
  adds (emitted b (side_to_move b)) (reset_count st) st'.
Proof.
  intros Hb H. unfold generate_moves in H. unfold side_to_move.
  assert (Ho : Forall U64.in_range (occupancy b)) by apply Hb.
  destruct (color b =? white);
    inv_bind H; inv_bind H; inv_bind H; inv_bind H; inv_bind H.
  - eapply adds_trans;
      [apply (generateMovesPawns_adds b white _ _ _ _ Hb Ho E)|].
    eapply adds_trans;
      [apply (generateMovesKings_adds b white _ _ _ Hb Ho E0)|].
    eapply adds_trans; [piece_adds b white Hb Ho E1|].
    eapply adds_trans; [piece_adds b white Hb Ho E2|].
    eapply adds_trans; [piece_adds b white Hb Ho E3|].
    piece_adds b white Hb Ho H.
  - eapply adds_trans;
      [apply (generateMovesPawns_adds b black _ _ _ _ Hb Ho E)|].
    eapply adds_trans;
      [apply (generateMovesKings_adds b black _ _ _ Hb Ho E0)|].
    eapply adds_trans; [piece_adds b black Hb Ho E1|].
    eapply adds_trans; [piece_adds b black Hb Ho E2|].
    eapply adds_trans; [piece_adds b black Hb Ho E3|].
    piece_adds b black Hb Ho H.
Qed.

(** The moves of a generated list are plain moves or castling moves
    whose conditions hold. *)
Lemma generated_emitted (b : ChessBoard) (st st' : Moves) (m : Z) :
  wf_board b -> List.length (moves st) = MOVES_SIZE ->
  generate_moves st b = Some st' -> In m (generated st') ->
  emitted b (side_to_move b) m.
Proof.
  intros Hb Hl H Hin. apply generate_moves_adds in H; [|exact Hb].
  apply (adds_generated _ (reset_count st) st' m); try assumption.
  - apply reset_count_ok. exact Hl.
  - reflexivity.
Qed.

Lemma generate_moves_ok (b : ChessBoard) (st st' : Moves) :
  wf_board b -> List.length (moves st) = MOVES_SIZE ->
  generate_moves st b = Some st' ->
  moves_ok st' /\
  forall i, (256 <= i)%nat -> nth i (moves st') 0 = nth i (moves st) 0.
Proof.
  intros Hb Hl H. apply generate_moves_adds in H; [|exact Hb].
  destruct H as (ms & _ & ->). split.
  - apply fold_add_move_ok. apply reset_count_ok. exact Hl.
  - intros i Hi. rewrite fold_add_move_high_slots; [reflexivity| |exact Hi].
    apply reset_count_ok. exact Hl.
Qed.

(** * The claims about the move list and the castling encoding *)

(** C10. On a list that [generate_moves] has reset, after any run of
    [add_move] calls the count is at most 256 and the slots from index 256
    on hold what they held before; a further [add_move] below the bound
    stores the move at index [moves_count] and raises the count by one,
    and at the bound it leaves array and count alone and prints its
    message.  [add_move] is a total function: it does not abort.  A whole
    generation is such a run. *)
Theorem add_move_bounded (st : Moves) (ms : list Z) (m : Z) :
  List.length (moves st) = MOVES_SIZE ->
  let st1 := fold_left add_move ms (reset_count st) in
  0 <= moves_count st1 <= 256 /\
  List.length (moves st1) = MOVES_SIZE /\
  (forall i, (256 <= i)%nat -> nth i (moves st1) 0 = nth i (moves st) 0) /\
  (moves_count st1 < 256 ->
   moves (add_move st1 m) =
     list_set (moves st1) (Z.to_nat (moves_count st1)) m /\
   nth (Z.to_nat (moves_count st1)) (moves (add_move st1 m)) 0 = m /\
   moves_count (add_move st1 m) = moves_count st1 + 1 /\
   log (add_move st1 m) = log st1) /\
  (moves_count st1 = 256 ->
   moves (add_move st1 m) = moves st1 /\
   moves_count (add_move st1 m) = 256 /\
   log (add_move st1 m) = log st1 ++ [full_message]) /\
  (forall b st', wf_board b -> generate_moves st b = Some st' ->
     0 <= moves_count st' <= 256 /\
     forall i, (256 <= i)%nat -> nth i (moves st') 0 = nth i (moves st) 0).
Proof.
  intros Hl st1.
  assert (Hr : moves_ok (reset_count st)) by (apply reset_count_ok; exact Hl).
  assert (H1 : moves_ok st1) by (apply fold_add_move_ok; exact Hr).
  split; [apply H1|]. split; [apply H1|]. split.
  { intros i Hi. unfold st1.
    rewrite fold_add_move_high_slots by assumption. reflexivity. }
  split.
  { intros Hc. destruct (add_move_room st1 m H1 Hc) as (E1 & E2 & E3 & _).
    split; [exact E1|]. split; [|split; assumption].
    rewrite E1. apply nth_list_set_eq. destruct H1 as [L C]. rewrite L.
    unfold MOVES_SIZE. lia. }
  split.
  { intros Hc. destruct (add_move_full st1 m) as (E1 & E2 & E3); [lia|].
    split; [exact E1|]. split; [lia | exact E3]. }
  intros b st' Hb H.
  destruct (generate_moves_ok b st st' Hb Hl H) as [[_ C] Hs].
  split; assumption.
Qed.

Lemma add_move_bounded_witness :
  0 <= moves_count
         (fold_left add_move (repeat 7 300) (reset_count (moves_filled 0)))
    <= 256.
Proof.
  exact (proj1 (add_move_bounded (moves_filled 0) (repeat 7 300) 7 eq_refl)).
Defined.

(** C8, as the code has it.  Every castling move of a generated list has
    the home square of the king of the side to move as its source (e1 or
    e8: the f-square minus one, the d-square plus one), the square two
    files from it as its target, and that king as its piece; the source
    is the square of the king whenever the king stands on its home
    square. *)
Theorem castling_source_is_king_home
    (b : ChessBoard) (st st' : Moves) (m : Z) :
  wf_board b -> List.length (moves st) = MOVES_SIZE ->
  generate_moves st b = Some st' ->
  In m (generated st') ->
  get_move_castling m <> 0 ->
  get_move_source m = king_home (side_to_move b) /\
  (get_move_target m = king_home (side_to_move b) + 2 \/
   get_move_target m = king_home (side_to_move b) - 2) /\
  get_move_piece m = king_of (side_to_move b) /\
  (bb b (king_of (side_to_move b)) = bit (king_home (side_to_move b)) ->
   bitScanForward (bb b (king_of (side_to_move b))) = Some (get_move_source m)).
Proof.
  intros Hb Hl H Hin Hc.
  pose proof (generated_emitted b st st' m Hb Hl H Hin) as He.
  assert (Hf : forall t, t = king_home (side_to_move b) + 2 \/
                         t = king_home (side_to_move b) - 2 ->
               fields_ok (king_home (side_to_move b)) t
                         (king_of (side_to_move b)) 0 0 0 0 1).
  { intros t Ht. unfold fields_ok, king_home, king_of in *.
    destruct (side_to_move b =? white); squares_unfold; lia. }
  assert (Hsrc : get_move_source m = king_home (side_to_move b) /\
                 (get_move_target m = king_home (side_to_move b) + 2 \/
                  get_move_target m = king_home (side_to_move b) - 2) /\
                 get_move_piece m = king_of (side_to_move b)).
  { inversion He as [m' H0 | K | K]; subst.
    - contradiction.
    - unfold kingside_castle.
      rewrite get_move_source_encode, get_move_target_encode,
        get_move_piece_encode by (apply Hf; left; reflexivity).
      split; [reflexivity|]. split; [left|]; reflexivity.
    - unfold queenside_castle.
      rewrite get_move_source_encode, get_move_target_encode,
        get_move_piece_encode by (apply Hf; right; reflexivity).
      split; [reflexivity|]. split; [right|]; reflexivity. }
  destruct Hsrc as (S1 & S2 & S3).
  split; [exact S1|]. split; [exact S2|]. split; [exact S3|].
  intros Hk. rewrite Hk, S1. unfold king_home.
  destruct (side_to_move b =? white); reflexivity.
Qed.

Lemma castling_source_is_king_home_witness :
  get_move_source e1g1 = e1 /\
  bitScanForward (bb castle_board WK) = Some (get_move_source e1g1).
Proof.
  assert (Hb : wf_board castle_board)
    by (apply wf_boardb_spec; vm_compute; reflexivity).
  assert (H : generate_moves (moves_filled 0) castle_board = Some castle_moves)
    by (vm_compute; reflexivity).
  assert (Hin : In e1g1 (generated castle_moves))
    by (vm_compute; repeat (try (left; reflexivity); right)).
  assert (Hc : get_move_castling e1g1 <> 0) by (vm_compute; discriminate).
  destruct (castling_source_is_king_home castle_board (moves_filled 0)
              castle_moves e1g1 Hb eq_refl H Hin Hc) as (S1 & _ & _ & S4).
  split; [exact S1 | exact (S4 eq_refl)].
Defined.

(** C8, as stated, fails: with kings and rooks on their home squares and
    white to move, the generated king-side castling move has the source
    60 = e1, and e1 is the square of the white king. *)
Lemma castling_source_on_king_square :
  parseFEN empty_board castle_fen = Some castle_board /\
  generate_moves (moves_filled 0) castle_board = Some castle_moves /\
  In e1g1 (generated castle_moves) /\
  get_move_castling e1g1 <> 0 /\
  bitScanForward (bb castle_board WK) = Some e1 /\
  get_move_source e1g1 = e1.
Proof.
  split; [vm_compute; reflexivity|].
  split; [vm_compute; reflexivity|].
  split; [vm_compute; repeat (try (left; reflexivity); right)|].
  split; [vm_compute; discriminate|].
  split; vm_compute; reflexivity.
Qed.

(** * The iterative-deepening driver *)

Lemma call_depths_app (l1 l2 : list Event) :
  call_depths (l1 ++ l2) = call_depths l1 ++ call_depths l2.
Proof.
  induction l1 as [|e l1 IH]; cbn; [reflexivity|].
  destruct e; cbn; rewrite IH; reflexivity.
Qed.

Lemma zrange_snoc (i : Z) (n : nat) :
  zrange i (S n) = zrange i n ++ [i + Z.of_nat n].
Proof.
  revert i. induction n as [|n IH]; intros i.
  - cbn. f_equal. lia.
  - change (zrange i (S (S n))) with (i :: zrange (i + 1) (S n)).
    rewrite IH. cbn [zrange app]. f_equal. f_equal. f_equal. lia.
Qed.

Lemma zrange_cons (i : Z) (n : nat) :
  i :: zrange (i + 1) n = zrange i (S n).
Proof. reflexivity. Qed.

Lemma NoDup_zrange (i : Z) (n : nat) : NoDup (zrange i n).
Proof.
  revert i. induction n as [|n IH]; intros i; cbn [zrange]; constructor.
  - rewrite In_zrange. lia.
  - apply IH.
Qed.

Section SearchProofs.

Variable World : Type.
Variable NegaMax : World -> Z -> Z -> Z -> Z * World.
Variable IsTimeOut : World -> bool * World.
Variable reset_counters : World -> World.
Variable num_nodes : World -> Z.
Variable pv_line : World -> list Z.
Variable pv_first : World -> Z.

(** The loop calls the search at the depths [curr_depth],
    [curr_depth + 1], ... : one call per depth, whatever the calls
    return. *)
Lemma search_loop_depths (rounds : nat) :
  forall (curr_depth depth alpha beta : Z) (w : World) (out : list Event),
  exists k : nat,
    (k <= rounds)%nat /\
    call_depths
      (snd (search_loop World NegaMax IsTimeOut num_nodes pv_line
                        rounds curr_depth depth alpha beta w out)) =
    call_depths out ++ zrange curr_depth k.
Proof.
  induction rounds as [|rounds IH]; intros d depth alpha beta w out.
  - exists 0%nat. cbn. rewrite app_nil_r. split; [lia | reflexivity].
  - cbn [search_loop]. destruct (d <=? depth).
    + destruct (IsTimeOut w) as [timeout w1].
      destruct timeout.
      * exists 0%nat. cbn. rewrite app_nil_r. split; [lia | reflexivity].
      * destruct (NegaMax w1 alpha beta d) as [score w2].
        destruct ((score <=? alpha) || (score >=? beta)).
        -- destruct (IH (d + 1) depth (-50000) 50000 w2
                        (out ++ [SearchCall alpha beta d])) as (k & Hk & E).
           exists (S k). split; [lia|]. rewrite E, call_depths_app.
           cbn [call_depths]. rewrite <- app_assoc. reflexivity.
        -- destruct (IH (d + 1) depth (score - 50) (score + 50) w2
                        ((out ++ [SearchCall alpha beta d]) ++
                         [InfoLine score d (num_nodes w2) (pv_line w2)]))
             as (k & Hk & E).
           exists (S k). split; [lia|]. rewrite E, !call_depths_app.
           cbn [call_depths]. rewrite app_nil_r, <- app_assoc. reflexivity.
    + exists 0%nat. cbn. rewrite app_nil_r. split; [lia | reflexivity].
Qed.

End SearchProofs.

(** C6 (the retry of the same depth).  Whatever the search returns, the
    driver calls it at the depths 1, 2, ..., k for some k up to the depth
    limit, once each: after a score outside the window the next call is
    at the next depth, and no depth is searched a second time. *)
Theorem searchPosition_one_call_per_depth
    (World : Type)
    (NegaMax : World -> Z -> Z -> Z -> Z * World)
    (IsTimeOut : World -> bool * World)
    (reset_counters : World -> World)
    (num_nodes : World -> Z) (pv_line : World -> list Z)
    (pv_first : World -> Z) (w : World) (depth : Z) :
  let out :=
    snd (fst (searchPosition World NegaMax IsTimeOut reset_counters
                             num_nodes pv_line pv_first w depth)) in
  (exists k : nat, (k <= Z.to_nat depth)%nat /\
                   call_depths out = zrange 1 k) /\
  NoDup (call_depths out).
Proof.
  intros out.
  assert (H : exists k : nat, (k <= Z.to_nat depth)%nat /\
                              call_depths out = zrange 1 k).
  { unfold out, searchPosition.
    destruct (search_loop_depths World NegaMax IsTimeOut num_nodes pv_line
                (Z.to_nat depth) 1 depth (-50000) 50000
                (reset_counters w) []) as (k & Hk & E).
    destruct (search_loop _ _ _ _ _ _ _ _ _ _ _ _) as [w' out'].
    cbn [fst snd] in *. exists k. split; [exact Hk|].
    rewrite call_depths_app, E. cbn. apply app_nil_r. }
  split; [exact H|]. destruct H as (k & _ & ->). apply NoDup_zrange.
Qed.

(** The driver on a search that answers 50 at depth 2, outside the
    window [-50, 50] set after the depth-1 score 0: the next call is at
    depth 3 with the full window, and depth 2 has no info line. *)
Example searchPosition_fail_high :
  snd (fst (stub_search 3)) =
  [SearchCall (-50000) 50000 1; InfoLine 0 1 1 [];
   SearchCall (-50) 50 2;
   SearchCall (-50000) 50000 3; InfoLine 50 3 3 [];
   BestMove 0].
Proof. reflexivity. Qed.

(** * The move parser *)

(** C7 (stale slots).  [parseMove] compares the string with all 265
    slots of the array.  With the move list of the starting position as
    the list of before, the generation for the two kings alone fills five
    slots; the string g1f3 matches none of these five moves, and
    [parseMove] returns the knight move g1f3 that an earlier generation
    left in slot 18, not the sentinel 0.  [MakeMove] accepts that move
    and puts a white knight on f3. *)
Theorem parseMove_returns_stale_move :
  generate_moves (moves_filled 0) start_board = Some start_moves /\
  parseMove start_moves kings_board "g1f3" = Some (kings_after_start, g1f3) /\
  moves_count kings_after_start = 5 /\
  ~ In g1f3 (generated kings_after_start) /\
  (forall m, In m (generated kings_after_start) ->
             get_move_source m <> get_move_source g1f3) /\
  g1f3 <> 0 /\
  nth 18 (moves kings_after_start) 0 = g1f3 /\
  MakeMove kings_board g1f3 = Some (kings_g1f3, true) /\
  bb kings_board WN = 0 /\ bb kings_g1f3 WN = bit 45.
Proof.
  split; [vm_compute; reflexivity|].
  split; [vm_compute; reflexivity|].
  split; [reflexivity|].
  split.
  { vm_compute. intros H.
    repeat (destruct H as [H|H]; [discriminate H|]). exact H. }
  split.
  { intros m H. vm_compute in H.
    repeat (destruct H as [<-|H]; [vm_compute; discriminate|]).
    contradiction. }
  split; [vm_compute; discriminate|].
  split; [vm_compute; reflexivity|].
  split; [vm_compute; reflexivity|].
  split; vm_compute; reflexivity.
Qed.

(** * The static evaluation *)

Lemma I32_wrap_small (z : Z) : - 2 ^ 31 <= z < 2 ^ 31 -> I32.wrap z = z.
Proof.
  intros H. unfold I32.wrap. rewrite Z.mod_small by lia. lia.
Qed.

Section EvaluationProofs.

Variable T : EvalTables.
Variable M : Z.
Hypothesis HT : tables_bounded T M.

Lemma M_nonneg : 0 <= M.
Proof. destruct (HT 0) as (H & _). lia. Qed.

Lemma positional_bound (piece square score B : Z) :
  Z.abs score <= B -> B + M < 2 ^ 31 ->
  Z.abs (positional T piece square score) <= B + M.
Proof.
  intros Hs HB. pose proof M_nonneg as HM. unfold positional.
  pose proof (HT square) as (_ & P1 & P2 & P3 & P4 & P5).
  pose proof (HT (MIRROR_SCORE T square)) as (_ & Q1 & Q2 & Q3 & Q4 & Q5).
  apply Z.abs_le in Hs, P1, P2, P3, P4, P5, Q1, Q2, Q3, Q4, Q5.
  apply Z.abs_le.
  repeat match goal with
         | |- context [if ?c then _ else _] => destruct c
         end;
    unfold I32.add, I32.sub; try rewrite I32_wrap_small; lia.
Qed.

Lemma eval_body_bound (piece square score s' B : Z) :
  Z.abs score <= B -> B + 2 * M < 2 ^ 31 ->
  eval_body T piece square score = Some s' ->
  Z.abs s' <= B + 2 * M.
Proof.
  intros Hs HB H. pose proof M_nonneg as HM. unfold eval_body in H.
  injection H as <-.
  pose proof (HT piece) as (P0 & _).
  replace (B + 2 * M) with ((B + M) + M) by lia.
  apply positional_bound; [|lia].
  apply Z.abs_le in Hs, P0. apply Z.abs_le.
  unfold I32.add. rewrite I32_wrap_small; lia.
Qed.

(** A loop of at most [fuel] rounds moves the score by at most
    [fuel * 2M]. *)
Lemma for_bits_eval_bound (piece : Z) (fuel : nat) :
  forall (bitboard score s' B : Z),
    Z.abs score <= B -> B + Z.of_nat fuel * (2 * M) < 2 ^ 31 ->
    for_bits fuel bitboard (eval_body T piece) score = Some s' ->
    Z.abs s' <= B + Z.of_nat fuel * (2 * M).
Proof.
  pose proof M_nonneg as HM.
  induction fuel as [|fuel IH]; intros bitboard score s' B Hs HB H;
    cbn [for_bits] in H.
  - destruct (nonzero bitboard); [discriminate|]. injection H as <-. lia.
  - destruct (nonzero bitboard); [|injection H as <-; nia].
    inv_bind H. inv_bind H.
    apply (eval_body_bound _ _ _ _ B Hs) in E0; [|nia].
    apply (IH _ _ _ (B + 2 * M) E0) in H; nia.
Qed.

Lemma eval_pieces_bound (board : ChessBoard) (pieces : list Z) :
  forall (score s' B : Z),
    Z.abs score <= B ->
    B + Z.of_nat (List.length pieces) * (128 * M) < 2 ^ 31 ->
    eval_pieces T pieces board score = Some s' ->
    Z.abs s' <= B + Z.of_nat (List.length pieces) * (128 * M).
Proof.
  pose proof M_nonneg as HM.
  induction pieces as [|p pieces IH]; intros score s' B Hs HB H;
    cbn [eval_pieces] in H.
  - injection H as <-. cbn. lia.
  - inv_bind H. cbn [List.length] in *.
    apply (for_bits_eval_bound p 64 _ _ _ B Hs) in E; [|lia].
    apply (IH _ _ (B + 64 * (2 * M)) E) in H; lia.
Qed.

Lemma eval_pieces_total (board : ChessBoard) (pieces : list Z) :
  Forall U64.in_range (bitboards board) ->
  forall score, exists s', eval_pieces T pieces board score = Some s'.
Proof.
  intros Hb. induction pieces as [|p pieces IH]; intros score;
    cbn [eval_pieces].
  - eauto.
  - destruct (for_bits_total (eval_body T p) (bb board p) score)
      as (s1 & E).
    + apply nth_in_range. exact Hb.
    + intros sq s _ _. unfold eval_body. eauto.
    + rewrite E. cbn [bind]. apply IH.
Qed.

Lemma eval_pieces_with_color (board : ChessBoard) (c : Z) (pieces : list Z) :
  forall score,
    eval_pieces T pieces (with_color board c) score =
    eval_pieces T pieces board score.
Proof.
  induction pieces as [|p pieces IH]; intros score; cbn [eval_pieces].
  - reflexivity.
  - change (bb (with_color board c) p) with (bb board p).
    destruct (for_bits 64 (bb board p) (eval_body T p) score); cbn [bind];
      [apply IH | reflexivity].
Qed.

End EvaluationProofs.

(** C9.  With evaluation tables whose entries are at most 1000000 in
    absolute value, [Evaluate] returns on every board (so on every board
    with one king of each color), and on the board that differs in the
    side to move only it returns the negated score. *)
Theorem Evaluate_flip (T : EvalTables) (b b' : ChessBoard) :
  tables_bounded T 1000000 ->
  wf_board b ->
  flipped b b' ->
  exists v, Evaluate T b = Some v /\ Evaluate T b' = Some (- v).
Proof.
  intros HT Hb [Hc ->].
  assert (Hbb : Forall U64.in_range (bitboards b)) by apply Hb.
  destruct (eval_pieces_total T b (map Z.of_nat (seq 0 12)) Hbb 0)
    as (score & E).
  assert (L : List.length (map Z.of_nat (seq 0 12)) = 12%nat) by reflexivity.
  assert (Hs : Z.abs score < 2 ^ 31).
  { pose proof (eval_pieces_bound T 1000000 HT b
                  (map Z.of_nat (seq 0 12)) 0 score 0) as Hs.
    rewrite L in Hs. specialize (Hs ltac:(lia) ltac:(lia) E). lia. }
  unfold Evaluate. rewrite eval_pieces_with_color, E. cbn [bind].
  assert (Hn : I32.neg score = - score).
  { unfold I32.neg. apply I32_wrap_small. lia. }
  destruct Hc as [Hc|Hc]; rewrite Hc; cbn.
  - exists score. rewrite Hn. split; reflexivity.
  - exists (I32.neg score). rewrite Hn. split; [reflexivity|].
    f_equal. lia.
Qed.

Lemma sample_tables_bounded : tables_bounded sample_tables 1000000.
Proof.
  intros i. unfold sample_tables.
  cbn [material_score PAWN_SCORE KNIGHT_SCORE BISHOP_SCORE ROOK_SCORE
       KING_SCORE].
  split.
  { destruct (nth_in_or_default (Z.to_nat i)
                [100; 300; 350; 500; 1000; 10000;
                 -100; -300; -350; -500; -1000; -10000] 0) as [H | ->];
      [|lia].
    cbn [In] in H. repeat (destruct H as [<-|H]; [lia|]). contradiction. }
  split; [destruct (_ && _); lia|].
  repeat (split; [lia|]). lia.
Qed.

Lemma Evaluate_flip_witness :
  exists v, Evaluate sample_tables start_board = Some v /\
            Evaluate sample_tables (with_color start_board black) = Some (- v).
Proof.
  apply (Evaluate_flip sample_tables start_board).
  - exact sample_tables_bounded.
  - apply wf_boardb_spec. vm_compute. reflexivity.
  - split; [left; reflexivity | reflexivity].
Defined.

(** * Sliding attacks against the walk along the ray *)

(** ** Bitboards of lists of squares *)

Lemma testbit_of_squares (l : list Z) (k : Z) :
  Forall on_board l ->
  Z.testbit (of_squares l) k = existsb (Z.eqb k) l.
Proof.
  induction l as [|x r IH]; intros H; cbn [of_squares existsb].
  - apply Z.bits_0.
  - inversion H as [|? ? Hx Hr]; subst.
    rewrite testbit_set_bit by apply Hx.
    rewrite IH by exact Hr. rewrite (Z.eqb_sym x k). apply orb_comm.
Qed.

Lemma of_squares_in_range (l : list Z) :
  Forall on_board l -> U64.in_range (of_squares l).
Proof.
  induction l as [|x r IH]; intros H; cbn [of_squares].
  - exact in_range_0.
  - inversion H; subst. apply set_bit_in_range; [apply IH|]; assumption.
Qed.

Lemma existsb_eqb_In (k : Z) (l : list Z) :
  existsb (Z.eqb k) l = true <-> In k l.
Proof.
  rewrite existsb_exists. split.
  - intros (x & Hx & E). apply Z.eqb_eq in E. subst. exact Hx.
  - intros H. exists k. split; [exact H | apply Z.eqb_refl].
Qed.

(** ** What the check of a ray gives *)

Lemma ray_ok_cons (d : Dir) (t : Z) (post : list Z) :
  ray_ok d (t :: post) = true ->
  on_board t /\ forallb (beyond d t) post = true /\
  rays d t = of_squares post /\ ray_ok d post = true.
Proof.
  cbn [ray_ok]. intros H.
  repeat (apply andb_true_iff in H; destruct H as [H ?]).
  unfold on_board.
  split; [lia|]. split; [assumption|]. split; [lia | assumption].
Qed.

Lemma ray_ok_on_board (d : Dir) (l : list Z) :
  ray_ok d l = true -> Forall on_board l.
Proof.
  induction l as [|t post IH]; intros H; constructor;
    apply ray_ok_cons in H; destruct H as (H1 & _ & _ & H4);
    [exact H1 | apply IH; exact H4].
Qed.

Lemma beyond_irrefl (d : Dir) (t : Z) : beyond d t t = false.
Proof. unfold beyond. destruct (forward d); apply Z.ltb_irrefl. Qed.

Lemma ray_ok_head_fresh (d : Dir) (t : Z) (post : list Z) :
  ray_ok d (t :: post) = true -> existsb (Z.eqb t) post = false.
Proof.
  intros H. apply ray_ok_cons in H. destruct H as (_ & H & _).
  destruct (existsb (Z.eqb t) post) eqn:E; [|reflexivity].
  apply existsb_eqb_In in E. rewrite forallb_forall in H.
  specialize (H t E). rewrite beyond_irrefl in H. discriminate.
Qed.

(** The table entry of a square of a ray lies within the ray. *)
Lemma ray_ok_inside (d : Dir) (l : list Z) (t k : Z) :
  ray_ok d l = true -> In t l ->
  Z.testbit (rays d t) k = true -> existsb (Z.eqb k) l = true.
Proof.
  induction l as [|x r IH]; intros H Hin Hk; [contradiction|].
  pose proof (ray_ok_cons d x r H) as (_ & _ & Hx & Hr).
  cbn [existsb]. apply orb_true_iff. right.
  destruct Hin as [->|Hin].
  - rewrite Hx, testbit_of_squares in Hk; [exact Hk|].
    apply (ray_ok_on_board d). exact Hr.
  - apply IH; assumption.
Qed.

(** ** The scan finds the head of a ray that is occupied *)

Lemma land_head_bits (d : Dir) (x : Z) (r : list Z) (B k : Z) :
  ray_ok d (x :: r) = true ->
  Z.testbit (Z.land (of_squares (x :: r)) B) k = true ->
  k = x \/ beyond d x k = true.
Proof.
  intros H Hk. pose proof (ray_ok_on_board d _ H) as Hb.
  rewrite Z.land_spec, testbit_of_squares in Hk by exact Hb.
  apply andb_true_iff in Hk. destruct Hk as [Hk _]. cbn [existsb] in Hk.
  apply orb_true_iff in Hk. destruct Hk as [Hk|Hk].
  - left. apply Z.eqb_eq. exact Hk.
  - right. apply existsb_eqb_In in Hk.
    apply ray_ok_cons in H. destruct H as (_ & H & _).
    rewrite forallb_forall in H. apply H. exact Hk.
Qed.

Lemma scan_head (d : Dir) (x : Z) (r : list Z) (B : Z) :
  ray_ok d (x :: r) = true -> U64.in_range B ->
  Z.testbit B x = true ->
  scan d (Z.land (of_squares (x :: r)) B) = Some x.
Proof.
  intros H HB Hx. pose proof (ray_ok_on_board d _ H) as Hb.
  set (X := Z.land (of_squares (x :: r)) B).
  assert (HX : U64.in_range X).
  { apply land_in_range; [apply of_squares_in_range; exact Hb | apply HB]. }
  assert (Hbit : Z.testbit X x = true).
  { unfold X. rewrite Z.land_spec, testbit_of_squares by exact Hb.
    cbn [existsb]. rewrite Z.eqb_refl, Hx. reflexivity. }
  assert (Hnz : X <> 0).
  { intros E. rewrite E, Z.bits_0 in Hbit. discriminate. }
  unfold scan, beyond in *. destruct (forward d) eqn:Ef.
  - destruct (bitScanForward_spec X HX Hnz) as (sq & E & Hsq & Hs & Hmin).
    rewrite E. f_equal.
    destruct (land_head_bits d x r B sq H Hs) as [->|Hbe]; [reflexivity|].
    unfold beyond in Hbe. rewrite Ef in Hbe. apply Z.ltb_lt in Hbe.
    inversion Hb as [|? ? Hx0 _]; subst.
    rewrite Hmin in Hbit by (unfold on_board in Hx0; lia). discriminate.
  - destruct (bitScanReverse_spec X HX Hnz) as (sq & E & Hsq & Hs & Hmax).
    rewrite E. f_equal.
    destruct (land_head_bits d x r B sq H Hs) as [->|Hbe]; [reflexivity|].
    unfold beyond in Hbe. rewrite Ef in Hbe. apply Z.ltb_lt in Hbe.
    rewrite Hmax in Hbit by lia. discriminate.
Qed.

(** A free head does not count among the blockers of the ray. *)
Lemma land_skip_head (x : Z) (r : list Z) (B : Z) :
  0 <= x -> Z.testbit B x = false ->
  Z.land (of_squares (x :: r)) B = Z.land (of_squares r) B.
Proof.
  intros Hx Hb. cbn [of_squares]. apply Z.bits_inj'. intros k Hk.
  rewrite !Z.land_spec, testbit_set_bit by exact Hx.
  destruct (Z.eqb_spec x k) as [->|].
  - rewrite Hb, !andb_false_r. reflexivity.
  - rewrite orb_false_r. reflexivity.
Qed.

(** ** One direction *)

(** On a ray of the table: without a blocker the blockers miss the ray
    and the walk takes all of it; with a nearest blocker the scan of the
    direction finds it, and the ray without the table entry of the
    blocker is the walk up to the blocker. *)
Lemma walk_scan (d : Dir) (l : list Z) (B : Z) :
  ray_ok d l = true -> U64.in_range B ->
  match first_blocker B l with
  | None =>
      Z.land (of_squares l) B = 0 /\ until_blocker B l = l
  | Some t =>
      scan d (Z.land (of_squares l) B) = Some t /\
      In t l /\ Z.testbit B t = true /\
      of_squares (until_blocker B l) =
        Z.land (of_squares l) (U64.not (rays d t))
  end.
Proof.
  intros H HB. induction l as [|x r IH]; cbn [first_blocker find].
  - split; reflexivity.
  - pose proof (ray_ok_on_board d _ H) as Hb.
    pose proof (ray_ok_cons d x r H) as (Hx & Hbey & Hray & Hr).
    pose proof (ray_ok_on_board d _ Hr) as Hbr.
    cbn [until_blocker]. destruct (Z.testbit B x) eqn:Ex.
    + split; [apply scan_head; assumption|].
      split; [left; reflexivity|]. split; [exact Ex|].
      rewrite Hray. apply Z.bits_inj'. intros k Hk.
      rewrite Z.land_spec, testbit_not by exact Hk.
      rewrite !testbit_of_squares
        by (assumption || (constructor; [exact Hx | constructor])).
      cbn [existsb]. rewrite orb_false_r.
      destruct (Z.eqb_spec k x) as [->|Hne].
      * rewrite (ray_ok_head_fresh d x r H). cbn.
        destruct (Z.ltb_spec x 64); [reflexivity | unfold on_board in Hx; lia].
      * cbn. destruct (existsb (Z.eqb k) r) eqn:Ek; [|reflexivity].
        apply existsb_eqb_In in Ek. rewrite Forall_forall in Hbr.
        specialize (Hbr k Ek). unfold on_board in Hbr.
        destruct (Z.ltb_spec k 64); [reflexivity | lia].
    + rewrite land_skip_head by (assumption || apply Hx).
      specialize (IH Hr). fold (first_blocker B r).
      destruct (first_blocker B r) as [t|].
      * destruct IH as (I1 & I2 & I3 & I4).
        split; [exact I1|]. split; [right; exact I2|]. split; [exact I3|].
        cbn [of_squares]. rewrite I4. apply Z.bits_inj'. intros k Hk.
        rewrite Z.land_spec, !testbit_set_bit, Z.land_spec by apply Hx.
        rewrite testbit_not by exact Hk.
        destruct (Z.eqb_spec x k) as [<-|Hne].
        -- rewrite !orb_true_r.
           destruct (Z.testbit (rays d t) x) eqn:Et.
           ++ apply (ray_ok_inside d r t x Hr I2) in Et.
              rewrite (ray_ok_head_fresh d x r H) in Et. discriminate.
           ++ cbn. destruct (Z.ltb_spec x 64);
                [reflexivity | unfold on_board in Hx; lia].
        -- rewrite !orb_false_r. reflexivity.
      * destruct IH as (I1 & I2). split; [exact I1|]. rewrite I2.
        reflexivity.
Qed.

(** ** The table against the geometry *)

Lemma In_all_dirs (d : Dir) : In d all_dirs.
Proof. destruct d; cbn; tauto. Qed.

Lemma rays_ok (d : Dir) (sq : Z) :
  0 <= sq < 64 ->
  ray_ok d (ray_squares d sq) = true /\
  rays d sq = of_squares (ray_squares d sq).
Proof.
  intros Hsq. assert (H : rays_checked = true) by (vm_compute; reflexivity).
  unfold rays_checked in H. rewrite forallb_forall in H.
  specialize (H d (In_all_dirs d)). rewrite forallb_forall in H.
  specialize (H sq (proj2 (In_squares sq) Hsq)).
  apply andb_true_iff in H. destruct H as [H1 H2].
  split; [exact H1 | apply Z.eqb_eq; exact H2].
Qed.

Lemma Dir_eqb_false (d d' : Dir) : d <> d' -> Dir_eqb d d' = false.
Proof. destruct d, d'; intros H; try reflexivity; contradiction. Qed.

Lemma rays_disjoint (d d' : Dir) (sq : Z) :
  d <> d' -> 0 <= sq < 64 -> Z.land (rays d sq) (rays d' sq) = 0.
Proof.
  intros Hd Hsq.
  assert (H : rays_disjoint_checked = true) by (vm_compute; reflexivity).
  unfold rays_disjoint_checked in H. rewrite forallb_forall in H.
  specialize (H d (In_all_dirs d)). rewrite forallb_forall in H.
  specialize (H d' (In_all_dirs d')).
  rewrite (Dir_eqb_false d d' Hd) in H. cbn [orb] in H.
  rewrite forallb_forall in H.
  apply Z.eqb_eq. apply H. apply In_squares. exact Hsq.
Qed.

(** ** The walk stays on the ray *)

Lemma In_until_blocker (B : Z) (l : list Z) (k : Z) :
  In k (until_blocker B l) -> In k l.
Proof.
  induction l as [|x r IH]; cbn [until_blocker]; [tauto|].
  destruct (Z.testbit B x); cbn [In]; intros [H|H]; auto; contradiction.
Qed.

Lemma until_blocker_on_board (B : Z) (l : list Z) :
  Forall on_board l -> Forall on_board (until_blocker B l).
Proof.
  intros H. rewrite Forall_forall in *. intros k Hk.
  apply H. apply (In_until_blocker B). exact Hk.
Qed.

Lemma ray_attack_in_range (d : Dir) (sq B : Z) :
  0 <= sq < 64 -> U64.in_range (ray_attack d sq B).
Proof.
  intros Hsq. unfold ray_attack. apply of_squares_in_range.
  apply until_blocker_on_board. apply (ray_ok_on_board d).
  apply rays_ok. exact Hsq.
Qed.

Lemma ray_attack_inside (d : Dir) (sq B k : Z) :
  0 <= sq < 64 ->
  Z.testbit (ray_attack d sq B) k = true -> Z.testbit (rays d sq) k = true.
Proof.
  intros Hsq H. destruct (rays_ok d sq Hsq) as [Hok Hr].
  pose proof (ray_ok_on_board d _ Hok) as Hb.
  unfold ray_attack in H.
  rewrite testbit_of_squares in H by (apply until_blocker_on_board; exact Hb).
  rewrite Hr, testbit_of_squares by exact Hb.
  apply existsb_eqb_In. apply existsb_eqb_In in H.
  apply (In_until_blocker B). exact H.
Qed.

Lemma land_zero_bits (x y : Z) :
  (forall k, 0 <= k -> Z.testbit x k = true -> Z.testbit y k = false) ->
  Z.land x y = 0.
Proof.
  intros H. apply Z.bits_inj'. intros k Hk.
  rewrite Z.land_spec, Z.bits_0.
  destruct (Z.testbit x k) eqn:E; [|reflexivity].
  rewrite (H k Hk E). reflexivity.
Qed.

Lemma land_zero_bit (x y k : Z) :
  Z.land x y = 0 -> Z.testbit x k = true -> Z.testbit y k = false.
Proof.
  intros H Hx.
  assert (E : Z.testbit (Z.land x y) k = false) by (rewrite H; apply Z.bits_0).
  rewrite Z.land_spec, Hx in E. exact E.
Qed.

Lemma ray_attack_disjoint (d d' : Dir) (sq B : Z) :
  d <> d' -> 0 <= sq < 64 ->
  Z.land (ray_attack d sq B) (rays d' sq) = 0.
Proof.
  intros Hd Hsq. apply land_zero_bits. intros k Hk H.
  apply (ray_attack_inside d sq B k Hsq) in H.
  apply (land_zero_bit (rays d sq)); [|exact H].
  apply rays_disjoint; assumption.
Qed.

(** ** One direction of the sources *)

Lemma scan_zero (d : Dir) : scan d 0 = None.
Proof. unfold scan. destruct (forward d); reflexivity. Qed.

Lemma slide_spec (d : Dir) (sq B a : Z) :
  0 <= sq < 64 -> U64.in_range B -> U64.in_range a ->
  Z.land a (rays d sq) = 0 ->
  slide d (scan d) sq B a = Some (Z.lor a (ray_attack d sq B)).
Proof.
  intros Hsq HB Ha Hdis. destruct (rays_ok d sq Hsq) as [Hok Hr].
  pose proof (ray_ok_on_board d _ Hok) as Hb.
  pose proof (walk_scan d _ B Hok HB) as W.
  unfold slide, ray_attack. rewrite Hr in *.
  destruct (first_blocker B (ray_squares d sq)) as [t|].
  - destruct W as (W1 & W2 & W3 & W4).
    destruct (nonzero _) eqn:En.
    + rewrite W1. cbn [bind]. f_equal. rewrite W4.
      apply Z.bits_inj'. intros k Hk.
      rewrite Z.land_spec, !Z.lor_spec, Z.land_spec, testbit_not by exact Hk.
      destruct (Z.testbit a k) eqn:Eak; [|reflexivity].
      cbn [orb]. rewrite (in_range_lt a k Ha Eak).
      destruct (Z.testbit (rays d t) k) eqn:Et; [|reflexivity].
      apply (ray_ok_inside d _ t k Hok W2) in Et.
      rewrite <- testbit_of_squares in Et by exact Hb.
      rewrite (land_zero_bit a _ k Hdis Eak) in Et. discriminate.
    + apply nonzero_false in En. rewrite En, scan_zero in W1. discriminate.
  - destruct W as (W1 & W2). rewrite W1, W2. cbn. reflexivity.
Qed.

(** ** The three sliding pieces *)

Lemma land_lor_zero (a b c : Z) :
  Z.land a c = 0 -> Z.land b c = 0 -> Z.land (Z.lor a b) c = 0.
Proof.
  intros Ha Hb. rewrite Z.land_lor_distr_l, Ha, Hb. reflexivity.
Qed.

Lemma getRooksMoves_spec (sq B : Z) :
  0 <= sq < 64 -> U64.in_range B ->
  getRooksMoves sq B =
  Some (Z.lor (Z.lor (Z.lor (ray_attack UP sq B) (ray_attack DOWN sq B))
                     (ray_attack RIGHT sq B))
              (ray_attack LEFT sq B)).
Proof.
  intros Hsq HB. unfold getRooksMoves.
  change bitScanReverse with (scan UP) at 1.
  change bitScanForward with (scan DOWN) at 1.
  change bitScanForward with (scan RIGHT) at 1.
  change bitScanReverse with (scan LEFT) at 1.
  rewrite (slide_spec UP sq B 0 Hsq HB in_range_0 (Z.land_0_l _)).
  cbn [bind]. rewrite Z.lor_0_l.
  rewrite (slide_spec DOWN sq B _ Hsq HB (ray_attack_in_range UP sq B Hsq));
    [|apply ray_attack_disjoint; [discriminate | exact Hsq]].
  cbn [bind].
  rewrite (slide_spec RIGHT sq B _ Hsq HB).
  2:{ apply lor_in_range; apply ray_attack_in_range; exact Hsq. }
  2:{ apply land_lor_zero; apply ray_attack_disjoint;
        (discriminate || exact Hsq). }
  cbn [bind].
  rewrite (slide_spec LEFT sq B _ Hsq HB).
  2:{ repeat apply lor_in_range; apply ray_attack_in_range; exact Hsq. }
  2:{ repeat apply land_lor_zero; apply ray_attack_disjoint;
        (discriminate || exact Hsq). }
  reflexivity.
Qed.

Lemma getBishopMoves_spec (sq B : Z) :
  0 <= sq < 64 -> U64.in_range B ->
  getBishopMoves sq B =
  Some (Z.lor (Z.lor (Z.lor (ray_attack UPLEFT sq B)
                            (ray_attack UPRIGHT sq B))
                     (ray_attack DOWNRIGHT sq B))
              (ray_attack DOWNLEFT sq B)).
Proof.
  intros Hsq HB. unfold getBishopMoves.
  change bitScanReverse with (scan UPLEFT) at 1.
  change bitScanReverse with (scan UPRIGHT) at 1.
  change bitScanForward with (scan DOWNRIGHT) at 1.
  change bitScanForward with (scan DOWNLEFT) at 1.
  rewrite (slide_spec UPLEFT sq B 0 Hsq HB in_range_0 (Z.land_0_l _)).
  cbn [bind]. rewrite Z.lor_0_l.
  rewrite (slide_spec UPRIGHT sq B _ Hsq HB
             (ray_attack_in_range UPLEFT sq B Hsq));
    [|apply ray_attack_disjoint; [discriminate | exact Hsq]].
  cbn [bind].
  rewrite (slide_spec DOWNRIGHT sq B _ Hsq HB).
  2:{ apply lor_in_range; apply ray_attack_in_range; exact Hsq. }
  2:{ apply land_lor_zero; apply ray_attack_disjoint;
        (discriminate || exact Hsq). }
  cbn [bind].
  rewrite (slide_spec DOWNLEFT sq B _ Hsq HB).
  2:{ repeat apply lor_in_range; apply ray_attack_in_range; exact Hsq. }
  2:{ repeat apply land_lor_zero; apply ray_attack_disjoint;
        (discriminate || exact Hsq). }
  reflexivity.
Qed.

(** What the walk of one direction is, in the words of the claim. *)
Lemma ray_attack_cases (d : Dir) (sq B : Z) :
  0 <= sq < 64 -> U64.in_range B ->
  match first_blocker B (ray_squares d sq) with
  | None => ray_attack d sq B = rays d sq
  | Some t =>
      scan d (Z.land (rays d sq) B) = Some t /\
      Z.testbit B t = true /\
      Z.testbit (ray_attack d sq B) t = true /\
      ray_attack d sq B = Z.land (rays d sq) (U64.not (rays d t))
  end.
Proof.
  intros Hsq HB. destruct (rays_ok d sq Hsq) as [Hok Hr].
  pose proof (ray_ok_on_board d _ Hok) as Hb.
  pose proof (walk_scan d _ B Hok HB) as W. rewrite Hr. unfold ray_attack.
  destruct (first_blocker B (ray_squares d sq)) as [t|].
  - destruct W as (W1 & W2 & W3 & W4).
    split; [exact W1|]. split; [exact W3|]. split; [|exact W4].
    rewrite W4, Z.land_spec, testbit_not, testbit_of_squares by
      (try exact Hb; rewrite Forall_forall in Hb; apply (Hb t W2)).
    apply andb_true_iff. split; [apply existsb_eqb_In; exact W2|].
    pose proof (ray_ok_on_board d _ Hok) as Hb'.
    rewrite Forall_forall in Hb'. specialize (Hb' t W2).
    destruct (Z.testbit (rays d t) t) eqn:Et.
    + exfalso. clear W4.
      revert W2 Et. generalize Hok. generalize (ray_squares d sq).
      induction l as [|x r IH]; intros Hl Hin Et; [contradiction|].
      pose proof (ray_ok_cons d x r Hl) as (_ & _ & Hx & Hxr).
      destruct Hin as [->|Hin].
      * rewrite Hx, testbit_of_squares in Et
          by (apply (ray_ok_on_board d); exact Hxr).
        rewrite (ray_ok_head_fresh d t r Hl) in Et. discriminate.
      * apply IH; assumption.
    + cbn. destruct (Z.ltb_spec t 64); [reflexivity|].
      unfold on_board in Hb'. lia.
  - destruct W as (_ & W2). rewrite W2. reflexivity.
Qed.

(** C4.  For a square in 0..63 and a 64-bit occupancy, the rook attacks
    are the union over up, down, right and left, and the bishop attacks
    the union over the four diagonals, of the walk from the square along
    the open ray up to the nearest blocker, the blocker included (the
    whole ray when nothing blocks); the queen attacks are the union of
    both.  The table entry of a ray is the bitboard of its squares; the
    nearest blocker is what [bitScanForward] finds in the directions
    down, right, down-left and down-right and [bitScanReverse] in the
    directions up, left, up-left and up-right; the squares the table
    holds for the blocker are removed and the blocker stays. *)
Theorem sliding_attacks_walk (sq B : Z) :
  0 <= sq < 64 -> U64.in_range B ->
  getRooksMoves sq B =
    Some (Z.lor (Z.lor (Z.lor (ray_attack UP sq B) (ray_attack DOWN sq B))
                       (ray_attack RIGHT sq B))
                (ray_attack LEFT sq B)) /\
  getBishopMoves sq B =
    Some (Z.lor (Z.lor (Z.lor (ray_attack UPLEFT sq B)
                              (ray_attack UPRIGHT sq B))
                       (ray_attack DOWNRIGHT sq B))
                (ray_attack DOWNLEFT sq B)) /\
  (exists r b, getRooksMoves sq B = Some r /\ getBishopMoves sq B = Some b /\
               getQueensMoves sq B = Some (Z.lor r b)) /\
  (forall d, rays d sq = of_squares (ray_squares d sq)) /\
  (forall d,
     match first_blocker B (ray_squares d sq) with
     | None => ray_attack d sq B = rays d sq
     | Some t =>
         (if forward d then bitScanForward else bitScanReverse)
           (Z.land (rays d sq) B) = Some t /\
         Z.testbit B t = true /\
         Z.testbit (ray_attack d sq B) t = true /\
         ray_attack d sq B = Z.land (rays d sq) (U64.not (rays d t))
     end).
Proof.
  intros Hsq HB.
  pose proof (getRooksMoves_spec sq B Hsq HB) as HR.
  pose proof (getBishopMoves_spec sq B Hsq HB) as HBi.
  split; [exact HR|]. split; [exact HBi|]. split.
  { eexists. eexists. split; [exact HR|]. split; [exact HBi|].
    unfold getQueensMoves. rewrite HR, HBi. reflexivity. }
  split.
  { intros d. apply rays_ok. exact Hsq. }
  intros d. exact (ray_attack_cases d sq B Hsq HB).
Qed.

Lemma sliding_attacks_walk_witness :
  getRooksMoves 27 (occ start_board both) =
    Some (Z.lor (Z.lor (Z.lor (ray_attack UP 27 (occ start_board both))
                              (ray_attack DOWN 27 (occ start_board both)))
                       (ray_attack RIGHT 27 (occ start_board both)))
                (ray_attack LEFT 27 (occ start_board both))).
Proof.
  apply (sliding_attacks_walk 27 (occ start_board both)).
  - lia.
  - vm_compute. split; [discriminate | reflexivity].
Defined.

(** * Castling: generation and legality *)

(** ** The attack test as a disjunction *)

Lemma isSquareAttacked_spec (b : ChessBoard) (sq c : Z) :
  0 <= sq < 64 -> U64.in_range (occ b both) ->
  isSquareAttacked b sq c = Some (attacked_by b sq c).
Proof.
  intros Hsq HB. unfold isSquareAttacked, attacked_by, getQueensMoves.
  rewrite (getBishopMoves_spec sq (occ b both) Hsq HB).
  rewrite (getRooksMoves_spec sq (occ b both) Hsq HB).
  fold (rook_attacks sq (occ b both)). fold (bishop_attacks sq (occ b both)).
  cbn [bind].
  repeat match goal with
         | |- context [if nonzero ?x then _ else _] =>
             destruct (nonzero x); cbn [orb]; try reflexivity
         end.
Qed.

(** ** Walks that see the same blockers *)

Lemma until_blocker_agree (B B' : Z) (l : list Z) :
  (forall x, In x l -> Z.testbit B' x = Z.testbit B x) ->
  until_blocker B' l = until_blocker B l.
Proof.
  induction l as [|x r IH]; intros H; cbn [until_blocker]; [reflexivity|].
  rewrite (H x (or_introl eq_refl)).
  rewrite IH; [reflexivity|]. intros y Hy. apply H. right. exact Hy.
Qed.

Lemma ray_attack_agree (d : Dir) (sq B B' : Z) :
  (forall x, In x (ray_squares d sq) -> Z.testbit B' x = Z.testbit B x) ->
  ray_attack d sq B' = ray_attack d sq B.
Proof.
  intros H. unfold ray_attack. rewrite (until_blocker_agree B B'); auto.
Qed.

(** ** The attack on the king's destination, before and after castling

    [b] is the board of before the move and [b2] the board on which
    [MakeMove] tests legality.  The king has left [home] and the rook has
    come to [n1], between [home] and the destination [sq]; [dC] is the
    direction from [sq] to [home].  The attackers and, in the other
    directions, the walks from [sq] are the same on both boards. *)
Section BeforeAndAfter.

Variables b b2 : ChessBoard.
Variables sq c home n1 : Z.
Variable dC : Dir.
Variable rest : list Z.

Hypothesis Hsq : 0 <= sq < 64.
Hypothesis Hatt :
  forall p, In p (if c =? white then [WP; WN; WB; WR; WQ; WK]
                  else [BP; BN; BB; BR; BQ; BK]) ->
            bb b2 p = bb b p.
Hypothesis Hdirs :
  forall d, d <> dC ->
    ray_attack d sq (occ b2 both) = ray_attack d sq (occ b both).
Hypothesis HdC : ray_squares dC sq = n1 :: home :: rest.
Hypothesis Hrook : In dC [UP; DOWN; RIGHT; LEFT].
Hypothesis Hn1 : Z.testbit (occ b both) n1 = false.
Hypothesis Hhome : Z.testbit (occ b both) home = true.
Hypothesis Hn1' : Z.testbit (occ b2 both) n1 = true.
Hypothesis Hr :
  Z.testbit (if c =? white then bb b WR else bb b BR) home = false.
Hypothesis Hq :
  Z.testbit (if c =? white then bb b WQ else bb b BQ) home = false.

Lemma home_on_board : on_board n1 /\ on_board home.
Proof.
  destruct (rays_ok dC sq Hsq) as [Hok _].
  apply ray_ok_on_board in Hok. rewrite HdC in Hok.
  inversion Hok as [|? ? H1 Hok']; subst.
  inversion Hok' as [|? ? H2 _]; subst. split; assumption.
Qed.

Lemma bishop_attacks_same :
  bishop_attacks sq (occ b2 both) = bishop_attacks sq (occ b both).
Proof.
  unfold bishop_attacks.
  assert (D : forall d, In d [UPLEFT; UPRIGHT; DOWNRIGHT; DOWNLEFT] ->
                        d <> dC).
  { intros d Hd E. pose proof Hrook as R. rewrite <- E in R.
    cbn in Hd, R.
    repeat (destruct Hd as [Hd|Hd];
            [rewrite <- Hd in R;
             repeat (destruct R as [R|R]; [discriminate R|]); contradiction|]).
    contradiction. }
  rewrite !Hdirs by (apply D; cbn; tauto). reflexivity.
Qed.

Lemma ray_attack_before (k : Z) :
  Z.testbit (ray_attack dC sq (occ b both)) k = (k =? n1) || (k =? home).
Proof.
  destruct home_on_board as [H1 H2].
  unfold ray_attack. rewrite HdC. cbn [until_blocker].
  rewrite Hn1, Hhome.
  rewrite testbit_of_squares by (repeat (constructor; try assumption)).
  cbn [existsb]. rewrite orb_false_r. reflexivity.
Qed.

Lemma ray_attack_after (k : Z) :
  Z.testbit (ray_attack dC sq (occ b2 both)) k = (k =? n1).
Proof.
  destruct home_on_board as [H1 H2].
  unfold ray_attack. rewrite HdC. cbn [until_blocker]. rewrite Hn1'.
  rewrite testbit_of_squares by (repeat (constructor; try assumption)).
  cbn [existsb]. rewrite orb_false_r. reflexivity.
Qed.

Lemma rook_attacks_before (k : Z) :
  Z.testbit (rook_attacks sq (occ b both)) k =
  Z.testbit (rook_attacks sq (occ b2 both)) k || (k =? home).
Proof.
  unfold rook_attacks. rewrite !Z.lor_spec.
  assert (A : forall d, d <> dC ->
              ray_attack d sq (occ b2 both) = ray_attack d sq (occ b both)).
  { exact Hdirs. }
  pose proof Hrook as R. cbn in R.
  destruct R as [E|[E|[E|[E|[]]]]].
  - rewrite (A DOWN), (A RIGHT), (A LEFT) by (rewrite <- E; discriminate).
    rewrite E, ray_attack_before, ray_attack_after.
    destruct (k =? n1), (k =? home),
      (Z.testbit (ray_attack DOWN sq (occ b both)) k),
      (Z.testbit (ray_attack RIGHT sq (occ b both)) k),
      (Z.testbit (ray_attack LEFT sq (occ b both)) k); reflexivity.
  - rewrite (A UP), (A RIGHT), (A LEFT) by (rewrite <- E; discriminate).
    rewrite E, ray_attack_before, ray_attack_after.
    destruct (k =? n1), (k =? home),
      (Z.testbit (ray_attack UP sq (occ b both)) k),
      (Z.testbit (ray_attack RIGHT sq (occ b both)) k),
      (Z.testbit (ray_attack LEFT sq (occ b both)) k); reflexivity.
  - rewrite (A UP), (A DOWN), (A LEFT) by (rewrite <- E; discriminate).
    rewrite E, ray_attack_before, ray_attack_after.
    destruct (k =? n1), (k =? home),
      (Z.testbit (ray_attack UP sq (occ b both)) k),
      (Z.testbit (ray_attack DOWN sq (occ b both)) k),
      (Z.testbit (ray_attack LEFT sq (occ b both)) k); reflexivity.
  - rewrite (A UP), (A DOWN), (A RIGHT) by (rewrite <- E; discriminate).
    rewrite E, ray_attack_before, ray_attack_after.
    destruct (k =? n1), (k =? home),
      (Z.testbit (ray_attack UP sq (occ b both)) k),
      (Z.testbit (ray_attack DOWN sq (occ b both)) k),
      (Z.testbit (ray_attack RIGHT sq (occ b both)) k); reflexivity.
Qed.

Lemma land_off_home (x x' p : Z) :
  (forall k, Z.testbit x k = Z.testbit x' k || (k =? home)) ->
  Z.testbit p home = false ->
  Z.land x' p = Z.land x p.
Proof.
  intros Hx Hp. apply Z.bits_inj'. intros k _.
  rewrite !Z.land_spec, Hx.
  destruct (Z.eqb_spec k home) as [->|].
  - rewrite Hp, !andb_false_r. reflexivity.
  - rewrite orb_false_r. reflexivity.
Qed.

(** The destination is attacked after the move exactly when it was
    attacked before it. *)
Lemma attacked_by_same : attacked_by b2 sq c = attacked_by b sq c.
Proof.
  pose proof Hatt as Ha. pose proof Hr as Hr'. pose proof Hq as Hq'.
  assert (Q : forall k,
             Z.testbit (Z.lor (rook_attacks sq (occ b both))
                              (bishop_attacks sq (occ b both))) k =
             Z.testbit (Z.lor (rook_attacks sq (occ b2 both))
                              (bishop_attacks sq (occ b both))) k
             || (k =? home)).
  { intros k. rewrite !Z.lor_spec, rook_attacks_before.
    destruct (Z.testbit (rook_attacks sq (occ b2 both)) k),
      (k =? home), (Z.testbit (bishop_attacks sq (occ b both)) k);
      reflexivity. }
  unfold attacked_by. rewrite bishop_attacks_same.
  destruct (c =? white).
  - rewrite !(Ha WP), !(Ha WN), !(Ha WB), !(Ha WR), !(Ha WQ), !(Ha WK)
      by (cbn; tauto).
    rewrite (land_off_home _ _ (bb b WR) rook_attacks_before Hr').
    rewrite (land_off_home _ _ (bb b WQ) Q Hq').
    reflexivity.
  - rewrite !(Ha BP), !(Ha BN), !(Ha BB), !(Ha BR), !(Ha BQ), !(Ha BK)
      by (cbn; tauto).
    rewrite (land_off_home _ _ (bb b BR) rook_attacks_before Hr').
    rewrite (land_off_home _ _ (bb b BQ) Q Hq').
    reflexivity.
Qed.

End BeforeAndAfter.

(** The last square of a ray never decides where the walk stops. *)
Lemma until_blocker_agree_inner (B B' : Z) (l : list Z) :
  (forall x, In x (removelast l) -> Z.testbit B' x = Z.testbit B x) ->
  until_blocker B' l = until_blocker B l.
Proof.
  induction l as [|x r IH]; intros H; [reflexivity|].
  destruct r as [|y r'].
  - cbn. destruct (Z.testbit B' x), (Z.testbit B x); reflexivity.
  - cbn [until_blocker] in *. rewrite (H x (or_introl eq_refl)).
    rewrite IH; [reflexivity|]. intros z Hz. apply H. right. exact Hz.
Qed.

Lemma ray_attack_agree_inner (d : Dir) (sq B B' : Z) :
  (forall x, In x (removelast (ray_squares d sq)) ->
             Z.testbit B' x = Z.testbit B x) ->
  ray_attack d sq B' = ray_attack d sq B.
Proof.
  intros H. unfold ray_attack. rewrite (until_blocker_agree_inner B B'); auto.
Qed.

(** ** The four castling moves through [MakeMove] *)

Lemma testbit_bit_same (sq : Z) : 0 <= sq -> Z.testbit (bit sq) sq = true.
Proof. intros H. rewrite testbit_bit by exact H. apply Z.eqb_refl. Qed.

Lemma disjoint_off (x y sq : Z) :
  0 <= sq -> Z.land x y = 0 -> y = bit sq -> Z.testbit x sq = false.
Proof.
  intros Hsq H ->. destruct (Z.testbit x sq) eqn:E; [|reflexivity].
  pose proof (land_zero_bit x (bit sq) sq H E) as F.
  rewrite testbit_bit_same in F by exact Hsq. discriminate.
Qed.

Ltac in_range_tac :=
  repeat first [ assumption
               | exact in_range_0
               | apply set_bit_in_range; [|lia]
               | apply pop_bit_in_range
               | apply bit_in_range; lia
               | apply lor_in_range ].

Ltac bits_tac :=
  rewrite ?Z.lor_spec, ?testbit_set_bit, ?testbit_pop_bit, ?Z.bits_0
    by (lia || in_range_tac).

Ltac off_squares x :=
  repeat match goal with
         | |- context [?a =? x] => destruct (Z.eqb_spec a x); [lia|]
         end.

(** One castling move: [m] goes from [home] to [tgt] with the king of
    index [kI]; the rook comes to [n1], which lies from [tgt] in the
    direction [dC]; [eR] and [eQ] are the indices of the rooks and queens
    of the opponent [opp], and [c1] .. [c4] the squares that change. *)
Ltac castle_tac m home tgt piece kI side opp n1 dC rest eR eQ c1 c2 c3 c4 :=
  let Hwf := fresh "Hwf" in let Hc := fresh "Hc" in
  let Hk := fresh "Hk" in
  intros Hwf Hc Hk;
  match goal with
  | |- exists b2, MakeMove_update ?b _ = _ /\ _ =>
      let b2 := fresh "b2" in let U := fresh "U" in
      destruct (MakeMove_update b m) as [b2|] eqn:U;
      destruct b as [bbs occs bc oc col cc ep epc ca cac n];
      destruct Hwf as (L1 & L2 & F1 & F2 & _);
      cbn [bitboards occupancy] in L1, L2, F1, F2;
      destruct bbs as [|p0 [|p1 [|p2 [|p3 [|p4 [|p5 [|p6 [|p7 [|p8 [|p9 [|p10
                      [|p11 [|]]]]]]]]]]]]]; try discriminate L1;
      destruct occs as [|o0 [|o1 [|o2 [|]]]]; try discriminate L2;
      pose proof (nth_in_range _ 0 F1) as R0;
      pose proof (nth_in_range _ 1 F1) as R1;
      pose proof (nth_in_range _ 2 F1) as R2;
      pose proof (nth_in_range _ 3 F1) as R3;
      pose proof (nth_in_range _ 4 F1) as R4;
      pose proof (nth_in_range _ 5 F1) as R5;
      pose proof (nth_in_range _ 6 F1) as R6;
      pose proof (nth_in_range _ 7 F1) as R7;
      pose proof (nth_in_range _ 8 F1) as R8;
      pose proof (nth_in_range _ 9 F1) as R9;
      pose proof (nth_in_range _ 10 F1) as R10;
      pose proof (nth_in_range _ 11 F1) as R11;
      cbn [nth] in R0, R1, R2, R3, R4, R5, R6, R7, R8, R9, R10, R11;
      assert (Hk' : nth kI [p0; p1; p2; p3; p4; p5; p6; p7; p8; p9; p10; p11]
                        0 = bit home) by exact Hk;
      cbn [nth] in Hk';
      (* the board of the legality test *)
      unfold MakeMove_update in U;
      change (get_move_source m) with home in U;
      change (get_move_target m) with tgt in U;
      change (get_move_piece m) with piece in U;
      change (get_move_promoted m) with 0 in U;
      change (get_move_capture m) with 0 in U;
      change (get_move_enpassant m) with 0 in U;
      change (get_move_castling m) with 8388608 in U;
      cbv -[Z.lor Z.land set_bit pop_bit bit] in U;
      [injection U as U|discriminate U];
      exists b2; split; [reflexivity|];
      assert (Uk : bb b2 piece = bit tgt)
        by (rewrite <- U; cbv -[Z.lor Z.land set_bit pop_bit bit];
            rewrite Hk'; reflexivity);
      assert (HB2 : U64.in_range (occ b2 both))
        by (rewrite <- U; cbv -[Z.lor Z.land set_bit pop_bit bit U64.in_range];
            in_range_tac);
      split;
      [ unfold isThereCheck;
        change (side =? white) with (piece <? 6);
        cbv iota;
        change (if piece <? 6 then bitScanForward (bb b2 WK)
                else bitScanForward (bb b2 BK))
          with (bitScanForward (bb b2 piece));
        rewrite Uk;
        change (bitScanForward (bit tgt)) with (Some tgt);
        cbn [bind];
        change (Z.lxor side 1) with opp;
        apply isSquareAttacked_spec; [lia|exact HB2]
      | ];
      let Ow := fresh "Ow" in let Ob := fresh "Ob" in
      let Oboth := fresh "Oboth" in let Hdis := fresh "Hdis" in
      intros (Ow & Ob & Oboth) Hdis;
      cbv -[Z.lor Z.land set_bit pop_bit bit] in Ow, Ob, Oboth;
      assert (O2 : exists t, occ b2 both = t /\
                             Z.testbit t n1 = true /\
                             forall x, 0 <= x -> x <> c1 -> x <> c2 ->
                                       x <> c3 -> x <> c4 ->
                               Z.testbit t x = Z.testbit o2 x)
        by (eexists; split;
            [rewrite <- U; cbv -[Z.lor Z.land set_bit pop_bit bit];
             reflexivity|];
            split;
            [bits_tac; rewrite ?Z.eqb_refl, ?orb_true_r; reflexivity|];
            let x := fresh "x" in
            intros x ? ? ? ? ?; rewrite Oboth, Ow, Ob; bits_tac;
            off_squares x; cbn [negb];
            rewrite ?andb_true_r, ?orb_false_r; reflexivity);
      let t := fresh "t" in let Agree := fresh "Agree" in
      let Ht := fresh "Ht" in let Hn := fresh "Hn" in
      destruct O2 as (t & Ht & Hn & Agree);
      rewrite <- Ht in Hn, Agree;
      apply (attacked_by_same _ b2 tgt opp home n1 dC rest);
      [ lia
      | let p := fresh "p" in let Hin := fresh "Hin" in
        intros p Hin; cbn in Hin; rewrite <- U;
        repeat (destruct Hin as [<-|Hin]; [reflexivity|]); contradiction
      | let d := fresh "d" in let Hd := fresh "Hd" in
        let x := fresh "x" in let Hin := fresh "Hin" in
        intros d Hd; apply ray_attack_agree_inner; intros x Hin;
        destruct d; try contradiction; vm_compute in Hin;
        repeat (destruct Hin as [<-|Hin]; [apply Agree; lia|]);
        contradiction
      | reflexivity
      | cbn; tauto
      | destruct Hc as (_ & C1 & _);
        rewrite get_bit_spec in C1 by (cbn; lia); exact C1
      | change (Z.testbit o2 home = true); rewrite Oboth, Ow, Ob, Hk';
        bits_tac; rewrite testbit_bit_same by lia;
        rewrite ?orb_true_r, ?orb_true_l; reflexivity
      | exact Hn
      | apply (disjoint_off _ _ home (ltac:(lia))
                 (Hdis eR kI ltac:(lia) ltac:(lia) ltac:(lia)) Hk)
      | apply (disjoint_off _ _ home (ltac:(lia))
                 (Hdis eQ kI ltac:(lia) ltac:(lia) ltac:(lia)) Hk) ]
  end.

Lemma castle_white_kingside (b : ChessBoard) :
  wf_board b -> kingside_conditions b white -> bb b WK = bit e1 ->
  exists b2, MakeMove_update b (kingside_castle white) = Some b2 /\
             isThereCheck b2 white = Some (attacked_by b2 62 black) /\
             (occupancy_consistent b -> pieces_disjoint b ->
              attacked_by b2 62 black = attacked_by b 62 black).
Proof.
  castle_tac (kingside_castle white) 60 62 5 5%nat white black 61 LEFT
             [59; 58; 57; 56] 9%nat 10%nat 60 61 62 63.
Qed.

Lemma castle_white_queenside (b : ChessBoard) :
  wf_board b -> queenside_conditions b white -> bb b WK = bit e1 ->
  exists b2, MakeMove_update b (queenside_castle white) = Some b2 /\
             isThereCheck b2 white = Some (attacked_by b2 58 black) /\
             (occupancy_consistent b -> pieces_disjoint b ->
              attacked_by b2 58 black = attacked_by b 58 black).
Proof.
  castle_tac (queenside_castle white) 60 58 5 5%nat white black 59 RIGHT
             [61; 62; 63] 9%nat 10%nat 56 58 59 60.
Qed.

Lemma castle_black_kingside (b : ChessBoard) :
  wf_board b -> kingside_conditions b black -> bb b BK = bit e8 ->
  exists b2, MakeMove_update b (kingside_castle black) = Some b2 /\
             isThereCheck b2 black = Some (attacked_by b2 6 white) /\
             (occupancy_consistent b -> pieces_disjoint b ->
              attacked_by b2 6 white = attacked_by b 6 white).
Proof.
  castle_tac (kingside_castle black) 4 6 11 11%nat black white 5 LEFT
             [3; 2; 1; 0] 3%nat 4%nat 4 5 6 7.
Qed.

Lemma castle_black_queenside (b : ChessBoard) :
  wf_board b -> queenside_conditions b black -> bb b BK = bit e8 ->
  exists b2, MakeMove_update b (queenside_castle black) = Some b2 /\
             isThereCheck b2 black = Some (attacked_by b2 2 white) /\
             (occupancy_consistent b -> pieces_disjoint b ->
              attacked_by b2 2 white = attacked_by b 2 white).
Proof.
  castle_tac (queenside_castle black) 4 2 11 11%nat black white 3 RIGHT
             [5; 6; 7] 3%nat 4%nat 0 2 3 4.
Qed.

Lemma side_to_move_cases (b : ChessBoard) :
  side_to_move b = white \/ side_to_move b = black.
Proof. unfold side_to_move. destruct (color b =? white); auto. Qed.

Lemma wf_board_occ_both (b : ChessBoard) :
  wf_board b -> U64.in_range (occ b both).
Proof. intros (_ & _ & _ & F2 & _). exact (nth_in_range _ 2 F2). Qed.

(** What [MakeMove] does with a castling move whose update and legality
    test are known. *)
Lemma MakeMove_castle (b b2 : ChessBoard) (m side : Z) (a : bool) :
  (if get_move_piece m <? 6 then white else black) = side ->
  MakeMove_update b m = Some b2 ->
  isThereCheck b2 side = Some a ->
  exists b', MakeMove b m = Some (b', negb a).
Proof.
  intros Hs U C. unfold MakeMove. cbv zeta. rewrite U. cbn [bind].
  rewrite Hs, C. cbn [bind]. destruct a; eexists; reflexivity.
Qed.

Lemma castle_board_disjoint : pieces_disjoint castle_board.
Proof.
  intros i j Hi Hj Hij.
  do 12 (destruct i as [|i];
         [do 12 (destruct j as [|j];
                 [first [reflexivity | exfalso; apply Hij; reflexivity]|]);
          lia|]).
  lia.
Qed.

Lemma guarded_board_disjoint : pieces_disjoint guarded_board.
Proof.
  intros i j Hi Hj Hij.
  do 12 (destruct i as [|i];
         [do 12 (destruct j as [|j];
                 [first [reflexivity | exfalso; apply Hij; reflexivity]|]);
          lia|]).
  lia.
Qed.

Lemma stray_board_disjoint : pieces_disjoint stray_board.
Proof.
  intros i j Hi Hj Hij.
  do 12 (destruct i as [|i];
         [do 12 (destruct j as [|j];
                 [first [reflexivity | exfalso; apply Hij; reflexivity]|]);
          lia|]).
  lia.
Qed.

(** C5, as the code has it.  A move with the castling flag in the
    generated list is one of the two castling moves of the side to move,
    and was generated under its conditions: the right is held, the squares
    between king and rook are empty, and the test of the king's home
    square and of the square next to it, which the king crosses, found no
    attack by the opponent.  The destination is not tested by the
    generator.  On a board where the only king of the side to move stands
    on its home square, the occupancies are the unions of the piece
    bitboards and no two pieces stand on one square, [MakeMove] accepts
    the move exactly when the test of the destination square on the board
    before the move finds no attack: there a castling move with an
    attacked destination is rejected, and an accepted one has none of the
    three squares attacked.  Neither the generator nor [MakeMove] checks
    that the king stands on its home square. *)
Theorem castling_only_through_safe_squares
    (b : ChessBoard) (st st' : Moves) (m : Z) :
  wf_board b -> List.length (moves st) = MOVES_SIZE ->
  generate_moves st b = Some st' ->
  In m (generated st') ->
  get_move_castling m <> 0 ->
  ((m = kingside_castle (side_to_move b) /\
    kingside_conditions b (side_to_move b)) \/
   (m = queenside_castle (side_to_move b) /\
    queenside_conditions b (side_to_move b))) /\
  isSquareAttacked b (get_move_source m) (Z.lxor (side_to_move b) 1)
    = Some false /\
  isSquareAttacked b (crossing m) (Z.lxor (side_to_move b) 1) = Some false /\
  (bb b (king_of (side_to_move b)) = bit (king_home (side_to_move b)) ->
   occupancy_consistent b -> pieces_disjoint b ->
   exists (a : bool) (b' : ChessBoard),
     isSquareAttacked b (get_move_target m) (Z.lxor (side_to_move b) 1)
       = Some a /\
     MakeMove b m = Some (b', negb a)).
Proof.
  intros Hb Hl H Hin Hc.
  pose proof (generated_emitted b st st' m Hb Hl H Hin) as He.
  pose proof (wf_board_occ_both b Hb) as HB.
  destruct (side_to_move_cases b) as [Hs|Hs]; rewrite Hs in *;
    inversion He as [m' H0 | K | K]; subst; try contradiction.
  - (* white, king side *)
    split; [left; split; [reflexivity|exact K]|].
    split; [exact (proj1 (proj2 (proj2 (proj2 K))))|].
    split; [exact (proj2 (proj2 (proj2 (proj2 K))))|].
    intros Hk Ho Hd.
    destruct (castle_white_kingside b Hb K Hk) as (b2 & U & C & A).
    specialize (A Ho Hd). exists (attacked_by b 62 black).
    destruct (MakeMove_castle b b2 (kingside_castle white) white
                (attacked_by b2 62 black) eq_refl U C) as (b' & M).
    exists b'. split; [|rewrite <- A; exact M].
    apply (isSquareAttacked_spec b 62 black); [lia|exact HB].
  - (* white, queen side *)
    split; [right; split; [reflexivity|exact K]|].
    split; [exact (proj1 (proj2 (proj2 (proj2 (proj2 K)))))|].
    split; [exact (proj2 (proj2 (proj2 (proj2 (proj2 K)))))|].
    intros Hk Ho Hd.
    destruct (castle_white_queenside b Hb K Hk) as (b2 & U & C & A).
    specialize (A Ho Hd). exists (attacked_by b 58 black).
    destruct (MakeMove_castle b b2 (queenside_castle white) white
                (attacked_by b2 58 black) eq_refl U C) as (b' & M).
    exists b'. split; [|rewrite <- A; exact M].
    apply (isSquareAttacked_spec b 58 black); [lia|exact HB].
  - (* black, king side *)
    split; [left; split; [reflexivity|exact K]|].
    split; [exact (proj1 (proj2 (proj2 (proj2 K))))|].
    split; [exact (proj2 (proj2 (proj2 (proj2 K))))|].
    intros Hk Ho Hd.
    destruct (castle_black_kingside b Hb K Hk) as (b2 & U & C & A).
    specialize (A Ho Hd). exists (attacked_by b 6 white).
    destruct (MakeMove_castle b b2 (kingside_castle black) black
                (attacked_by b2 6 white) eq_refl U C) as (b' & M).
    exists b'. split; [|rewrite <- A; exact M].
    apply (isSquareAttacked_spec b 6 white); [lia|exact HB].
  - (* black, queen side *)
    split; [right; split; [reflexivity|exact K]|].
    split; [exact (proj1 (proj2 (proj2 (proj2 (proj2 K)))))|].
    split; [exact (proj2 (proj2 (proj2 (proj2 (proj2 K)))))|].
    intros Hk Ho Hd.
    destruct (castle_black_queenside b Hb K Hk) as (b2 & U & C & A).
    specialize (A Ho Hd). exists (attacked_by b 2 white).
    destruct (MakeMove_castle b b2 (queenside_castle black) black
                (attacked_by b2 2 white) eq_refl U C) as (b' & M).
    exists b'. split; [|rewrite <- A; exact M].
    apply (isSquareAttacked_spec b 2 white); [lia|exact HB].
Qed.

Lemma castling_only_through_safe_squares_witness :
  (isSquareAttacked castle_board e1 black = Some false /\
   isSquareAttacked castle_board f1 black = Some false /\
   exists b' : ChessBoard,
     isSquareAttacked castle_board g1 black = Some false /\
     MakeMove castle_board e1g1 = Some (b', true)) /\
  (isSquareAttacked guarded_board e1 black = Some false /\
   isSquareAttacked guarded_board f1 black = Some false /\
   exists b' : ChessBoard,
     isSquareAttacked guarded_board g1 black = Some true /\
     MakeMove guarded_board e1g1 = Some (b', false)).
Proof.
  assert (Hc : get_move_castling e1g1 <> 0) by (vm_compute; discriminate).
  split.
  - assert (Hb : wf_board castle_board)
      by (apply wf_boardb_spec; vm_compute; reflexivity).
    assert (H : generate_moves (moves_filled 0) castle_board
                = Some castle_moves) by (vm_compute; reflexivity).
    assert (Hin : In e1g1 (generated castle_moves))
      by (vm_compute; repeat (try (left; reflexivity); right)).
    assert (Ho : occupancy_consistent castle_board)
      by (vm_compute; repeat split; reflexivity).
    assert (G : isSquareAttacked castle_board g1 black = Some false)
      by (vm_compute; reflexivity).
    destruct (castling_only_through_safe_squares castle_board (moves_filled 0)
                castle_moves e1g1 Hb eq_refl H Hin Hc) as (_ & S1 & S2 & S3).
    split; [exact S1|]. split; [exact S2|].
    destruct (S3 eq_refl Ho castle_board_disjoint) as (a & b' & A & M).
    assert (Ea : a = false)
      by (change (isSquareAttacked castle_board g1 black = Some a) in A;
          congruence).
    subst a. exists b'. split; [exact G | exact M].
  - assert (Hb : wf_board guarded_board)
      by (apply wf_boardb_spec; vm_compute; reflexivity).
    assert (H : generate_moves (moves_filled 0) guarded_board
                = Some guarded_moves) by (vm_compute; reflexivity).
    assert (Hin : In e1g1 (generated guarded_moves))
      by (vm_compute; repeat (try (left; reflexivity); right)).
    assert (Ho : occupancy_consistent guarded_board)
      by (vm_compute; repeat split; reflexivity).
    assert (G : isSquareAttacked guarded_board g1 black = Some true)
      by (vm_compute; reflexivity).
    destruct (castling_only_through_safe_squares guarded_board (moves_filled 0)
                guarded_moves e1g1 Hb eq_refl H Hin Hc) as (_ & S1 & S2 & S3).
    split; [exact S1|]. split; [exact S2|].
    destruct (S3 eq_refl Ho guarded_board_disjoint) as (a & b' & A & M).
    assert (Ea : a = true)
      by (change (isSquareAttacked guarded_board g1 black = Some a) in A;
          congruence).
    subst a. exists b'. split; [exact G | exact M].
Defined.

(** The destination of a castling move is not tested by the generator:
    with a black rook on g2 the king-side castling of white is generated,
    although g1 is attacked, and [MakeMove] rejects it and leaves the
    position as it was. *)
Example castling_destination_untested :
  parseFEN empty_board guarded_fen = Some guarded_board /\
  generate_moves (moves_filled 0) guarded_board = Some guarded_moves /\
  In e1g1 (generated guarded_moves) /\
  isSquareAttacked guarded_board g1 black = Some true /\
  MakeMove guarded_board e1g1 = Some (guarded_e1g1, false) /\
  same_position guarded_e1g1 guarded_board.
Proof.
  split; [vm_compute; reflexivity|].
  split; [vm_compute; reflexivity|].
  split; [vm_compute; repeat (try (left; reflexivity); right)|].
  split; [vm_compute; reflexivity|].
  split; [vm_compute; reflexivity|].
  vm_compute. repeat split; reflexivity.
Qed.

(** C5, as stated, fails on a board where the king of the side that holds
    the right does not stand on its home square.  With the white king on
    a1, a white rook on h1, the right K and a black rook on g2, the
    king-side castling of white is generated: e1 and f1 are not attacked
    and f1 and g1 are empty.  Its destination g1 is attacked by the rook,
    and [MakeMove] accepts the move: the update sets a king on g1 and
    takes the rook from h1 to f1, and the legality test looks at the
    square of the lowest set bit of the king bitboard, which is a1. *)
Theorem castling_into_attack_accepted :
  parseFEN empty_board stray_fen = Some stray_board /\
  wf_board stray_board /\
  occupancy_consistent stray_board /\
  pieces_disjoint stray_board /\
  bb stray_board WK = bit a1 /\
  generate_moves (moves_filled 0) stray_board = Some stray_moves /\
  In e1g1 (generated stray_moves) /\
  get_move_castling e1g1 <> 0 /\
  isSquareAttacked stray_board e1 black = Some false /\
  isSquareAttacked stray_board f1 black = Some false /\
  isSquareAttacked stray_board g1 black = Some true /\
  MakeMove stray_board e1g1 = Some (stray_e1g1, true) /\
  bb stray_e1g1 WK = Z.lor (bit a1) (bit g1) /\
  bb stray_e1g1 WR = bit f1.
Proof.
  split; [vm_compute; reflexivity|].
  split; [apply wf_boardb_spec; vm_compute; reflexivity|].
  split; [vm_compute; repeat split; reflexivity|].
  split; [exact stray_board_disjoint|].
  split; [vm_compute; reflexivity|].
  split; [vm_compute; reflexivity|].
  split; [vm_compute; repeat (try (left; reflexivity); right)|].
  split; [vm_compute; discriminate|].
  split; [vm_compute; reflexivity|].
  split; [vm_compute; reflexivity|].
  split; [vm_compute; reflexivity|].
  split; [vm_compute; reflexivity|].
  split; vm_compute; reflexivity.
Qed.

(** * The move encoding, both ways *)

Lemma get_move_promoted_encode (f t p pr c d e k : Z) :
  fields_ok f t p pr c d e k ->
  get_move_promoted (encode_move f t p pr c d e k) = pr.
Proof.
  intros H. unfold get_move_promoted. apply Z.bits_inj'. intros n Hn.
  rewrite Z.shiftr_spec by exact Hn.
  change 0xf0000 with (Z.shiftl (Z.ones 4) 16).
  rewrite Z.land_spec, Z.shiftl_spec, Z.testbit_ones_nonneg,
    encode_move_testbit by (assumption || lia).
  replace (n + 16 - 16) with n by lia.
  destruct (Z.ltb_spec (n + 16) 6) as [L|L]; [lia|].
  destruct (Z.ltb_spec (n + 16) 12) as [L0|L0]; [lia|].
  destruct (Z.ltb_spec (n + 16) 16) as [L3|L3]; [lia|].
  destruct (Z.ltb_spec (n + 16) 20) as [L1|L1];
    destruct (Z.ltb_spec n 4) as [L2|L2]; try lia.
  - apply andb_true_r.
  - rewrite andb_false_r. symmetry.
    destruct H as (_ & _ & _ & Hp & _). apply (testbit_small pr 4); lia.
Qed.

(** The flag that the encoder puts at bit [i] comes back as the mask
    [x << i]. *)
Lemma flag_mask_encode (f t p pr c d e k i x : Z) :
  fields_ok f t p pr c d e k ->
  20 <= i <= 23 -> 0 <= x <= 1 ->
  Z.testbit (encode_move f t p pr c d e k) i = Z.testbit x 0 ->
  Z.land (encode_move f t p pr c d e k) (2 ^ i) = Z.shiftl x i.
Proof.
  intros H Hi Hx Hb. apply Z.bits_inj'. intros n Hn.
  rewrite testbit_pow2_mask, Z.shiftl_spec by lia.
  destruct (Z.eqb_spec i n) as [<-|Hne].
  - rewrite andb_true_r, Hb. f_equal. lia.
  - rewrite andb_false_r. symmetry. apply testbit_flag; lia.
Qed.

Lemma get_move_capture_encode (f t p pr c d e k : Z) :
  fields_ok f t p pr c d e k ->
  get_move_capture (encode_move f t p pr c d e k) = Z.shiftl c 20.
Proof.
  intros H. unfold get_move_capture. change 0x100000 with (2 ^ 20).
  apply flag_mask_encode; [exact H | lia | unfold fields_ok in H; lia |].
  rewrite encode_move_testbit by (assumption || lia). reflexivity.
Qed.

Lemma get_move_double_encode (f t p pr c d e k : Z) :
  fields_ok f t p pr c d e k ->
  get_move_double (encode_move f t p pr c d e k) = Z.shiftl d 21.
Proof.
  intros H. unfold get_move_double. change 0x200000 with (2 ^ 21).
  apply flag_mask_encode; [exact H | lia | unfold fields_ok in H; lia |].
  rewrite encode_move_testbit by (assumption || lia). reflexivity.
Qed.

Lemma get_move_enpassant_encode (f t p pr c d e k : Z) :
  fields_ok f t p pr c d e k ->
  get_move_enpassant (encode_move f t p pr c d e k) = Z.shiftl e 22.
Proof.
  intros H. unfold get_move_enpassant. change 0x400000 with (2 ^ 22).
  apply flag_mask_encode; [exact H | lia | unfold fields_ok in H; lia |].
  rewrite encode_move_testbit by (assumption || lia). reflexivity.
Qed.

Lemma flag_nonzero (x i : Z) :
  0 <= x <= 1 -> 0 <= i -> (Z.shiftl x i <> 0 <-> x = 1).
Proof.
  intros Hx Hi. rewrite Z.shiftl_mul_pow2 by exact Hi.
  assert (0 < 2 ^ i) by (apply Z.pow_pos_nonneg; lia). nia.
Qed.

(** X1.  Decoding an encoded move gives the fields back: the two squares, the
    piece and the promoted piece as they were, each flag as its mask, which
    is not zero exactly when the flag was 1. *)
Theorem encode_move_decoded (f t p pr c d e k : Z) :
  0 <= f < 64 -> 0 <= t < 64 -> 0 <= p < 16 -> 0 <= pr < 16 ->
  0 <= c <= 1 -> 0 <= d <= 1 -> 0 <= e <= 1 -> 0 <= k <= 1 ->
  let m := encode_move f t p pr c d e k in
  get_move_source m = f /\ get_move_target m = t /\
  get_move_piece m = p /\ get_move_promoted m = pr /\
  get_move_capture m = c * 0x100000 /\
  get_move_double m = d * 0x200000 /\
  get_move_enpassant m = e * 0x400000 /\
  get_move_castling m = k * 0x800000 /\
  (get_move_capture m <> 0 <-> c = 1) /\
  (get_move_double m <> 0 <-> d = 1) /\
  (get_move_enpassant m <> 0 <-> e = 1) /\
  (get_move_castling m <> 0 <-> k = 1) /\
  0 <= m < 2 ^ 24.
Proof.
  intros Hf Ht Hp Hpr Hc Hd He Hk m.
  assert (H : fields_ok f t p pr c d e k) by (unfold fields_ok; tauto).
  unfold m.
  rewrite get_move_source_encode, get_move_target_encode,
    get_move_piece_encode, get_move_promoted_encode,
    get_move_capture_encode, get_move_double_encode,
    get_move_enpassant_encode, get_move_castling_encode by exact H.
  rewrite !Z.shiftl_mul_pow2 by lia.
  repeat (split; [reflexivity|]).
  repeat (split; [lia|]).
  assert (N : 0 <= encode_move f t p pr c d e k).
  { unfold encode_move. rewrite !Z.lor_nonneg, !Z.shiftl_nonneg. lia. }
  split; [exact N|].
  destruct (Z.eq_dec (encode_move f t p pr c d e k) 0) as [->|Hz]; [lia|].
  apply Z.log2_lt_pow2; [lia|].
  destruct (Z_lt_le_dec (Z.log2 (encode_move f t p pr c d e k)) 24)
    as [L|L]; [exact L|exfalso].
  assert (B : Z.testbit (encode_move f t p pr c d e k)
                        (Z.log2 (encode_move f t p pr c d e k)) = true)
    by (apply Z.bit_log2; lia).
  rewrite encode_move_testbit in B by (assumption || lia).
  repeat match type of B with
         | (if ?c then _ else _) = _ =>
             let E := fresh in
             destruct c eqn:E; [apply Z.ltb_lt in E || apply Z.eqb_eq in E; lia|]
         end.
  discriminate.
Qed.

Lemma encode_move_decoded_witness :
  get_move_source (encode_move 52 36 WP 0 0 1 0 0) = 52 /\
  get_move_target (encode_move 52 36 WP 0 0 1 0 0) = 36 /\
  get_move_double (encode_move 52 36 WP 0 0 1 0 0) <> 0.
Proof.
  pose proof (encode_move_decoded 52 36 WP 0 0 1 0 0
                ltac:(lia) ltac:(lia) ltac:(unfold WP; lia) ltac:(lia)
                ltac:(lia) ltac:(lia) ltac:(lia) ltac:(lia)) as R.
  cbv zeta in R.
  split; [exact (proj1 R)|].
  split; [exact (proj1 (proj2 R))|].
  apply (proj2 (proj2 (proj2 (proj2 (proj2 (proj2 (proj2 (proj2 (proj2 R)))))))));
    reflexivity.
Defined.

Lemma land_ones_bound (x n : Z) : 0 <= n -> 0 <= Z.land x (Z.ones n) < 2 ^ n.
Proof.
  intros Hn. rewrite Z.land_ones by exact Hn. apply Z.mod_pos_bound.
  apply Z.pow_pos_nonneg; lia.
Qed.

Lemma field_bound (x i n : Z) :
  0 <= i -> 0 <= n ->
  0 <= Z.shiftr (Z.land x (Z.shiftl (Z.ones n) i)) i < 2 ^ n.
Proof.
  intros Hi Hn.
  replace (Z.shiftr (Z.land x (Z.shiftl (Z.ones n) i)) i)
    with (Z.land (Z.shiftr x i) (Z.ones n)).
  - apply land_ones_bound. exact Hn.
  - apply Z.bits_inj'. intros k Hk.
    rewrite Z.land_spec, !Z.shiftr_spec, Z.land_spec, Z.shiftl_spec by lia.
    replace (k + i - i) with k by lia. reflexivity.
Qed.

Lemma flag_bound (x i : Z) :
  0 <= i -> 0 <= Z.shiftr (Z.land x (2 ^ i)) i <= 1.
Proof.
  intros Hi.
  replace (Z.shiftr (Z.land x (2 ^ i)) i) with (Z.b2z (Z.testbit x i)).
  - destruct (Z.testbit x i); cbn; lia.
  - apply Z.bits_inj'. intros k Hk.
    rewrite Z.shiftr_spec, testbit_pow2_mask by lia.
    destruct (Z.eqb_spec i (k + i)) as [E|E].
    + assert (k = 0) by lia. subst k. cbn [Z.add].
      rewrite andb_true_r. apply Z.b2z_bit0.
    + rewrite andb_false_r.
      destruct (Z.testbit x i); cbn; [|apply Z.bits_0].
      apply (testbit_flag 1 k); lia.
Qed.

Lemma decoded_fields_ok (m : Z) :
  fields_ok (get_move_source m) (get_move_target m) (get_move_piece m)
            (get_move_promoted m)
            (Z.shiftr (get_move_capture m) 20)
            (Z.shiftr (get_move_double m) 21)
            (Z.shiftr (get_move_enpassant m) 22)
            (Z.shiftr (get_move_castling m) 23).
Proof.
  unfold fields_ok, get_move_source, get_move_target, get_move_piece,
    get_move_promoted, get_move_capture, get_move_double,
    get_move_enpassant, get_move_castling.
  split; [exact (land_ones_bound m 6 ltac:(lia))|].
  split; [exact (field_bound m 6 6 ltac:(lia) ltac:(lia))|].
  split; [exact (field_bound m 12 4 ltac:(lia) ltac:(lia))|].
  split; [exact (field_bound m 16 4 ltac:(lia) ltac:(lia))|].
  split; [exact (flag_bound m 20 ltac:(lia))|].
  split; [exact (flag_bound m 21 ltac:(lia))|].
  split; [exact (flag_bound m 22 ltac:(lia))|].
  exact (flag_bound m 23 ltac:(lia)).
Qed.

(** X2.  Every value of 24 bits is the encoding of its own fields: encoder
    and decoders are inverse to each other on the 24-bit values. *)
Theorem decoded_move_encodes (m : Z) :
  0 <= m < 2 ^ 24 -> reencode m = m.
Proof.
  intros Hm. unfold reencode. apply Z.bits_inj'. intros n Hn.
  rewrite encode_move_testbit by (exact (decoded_fields_ok m) || exact Hn).
  unfold get_move_source, get_move_target, get_move_piece,
    get_move_promoted, get_move_capture, get_move_double,
    get_move_enpassant, get_move_castling.
  change 0x3f with (Z.ones 6).
  change 0xfc0 with (Z.shiftl (Z.ones 6) 6).
  change 0xf000 with (Z.shiftl (Z.ones 4) 12).
  change 0xf0000 with (Z.shiftl (Z.ones 4) 16).
  change 0x100000 with (2 ^ 20). change 0x200000 with (2 ^ 21).
  change 0x400000 with (2 ^ 22). change 0x800000 with (2 ^ 23).
  destruct (Z.ltb_spec n 6) as [L|L].
  { rewrite Z.land_spec, Z.testbit_ones_nonneg by lia.
    destruct (Z.ltb_spec n 6); [apply andb_true_r|lia]. }
  destruct (Z.ltb_spec n 12) as [L1|L1].
  { rewrite Z.shiftr_spec, Z.land_spec, Z.shiftl_spec,
      Z.testbit_ones_nonneg by lia.
    replace (n - 6 + 6) with n by lia.
    destruct (Z.ltb_spec (n - 6) 6); [apply andb_true_r|lia]. }
  destruct (Z.ltb_spec n 16) as [L2|L2].
  { rewrite Z.shiftr_spec, Z.land_spec, Z.shiftl_spec,
      Z.testbit_ones_nonneg by lia.
    replace (n - 12 + 12) with n by lia.
    destruct (Z.ltb_spec (n - 12) 4); [apply andb_true_r|lia]. }
  destruct (Z.ltb_spec n 20) as [L3|L3].
  { rewrite Z.shiftr_spec, Z.land_spec, Z.shiftl_spec,
      Z.testbit_ones_nonneg by lia.
    replace (n - 16 + 16) with n by lia.
    destruct (Z.ltb_spec (n - 16) 4); [apply andb_true_r|lia]. }
  destruct (Z.eqb_spec n 20) as [->|N0].
  { rewrite Z.shiftr_spec, testbit_pow2_mask by lia. apply andb_true_r. }
  destruct (Z.eqb_spec n 21) as [->|N1].
  { rewrite Z.shiftr_spec, testbit_pow2_mask by lia. apply andb_true_r. }
  destruct (Z.eqb_spec n 22) as [->|N2].
  { rewrite Z.shiftr_spec, testbit_pow2_mask by lia. apply andb_true_r. }
  destruct (Z.eqb_spec n 23) as [->|N3].
  { rewrite Z.shiftr_spec, testbit_pow2_mask by lia. apply andb_true_r. }
  symmetry. apply (testbit_small m 24); lia.
Qed.

Lemma decoded_move_encodes_witness : reencode e1g1 = e1g1.
Proof. apply decoded_move_encodes. unfold e1g1. lia. Defined.

(** * The leaper tables *)

Lemma agree_on_squares_spec (f g : Z -> Z -> bool) :
  agree_on_squares f g = true ->
  forall s t, 0 <= s < 64 -> 0 <= t < 64 -> f s t = g s t.
Proof.
  intros H s t Hs Ht. unfold agree_on_squares in H.
  rewrite forallb_forall in H. specialize (H s (proj2 (In_squares s) Hs)).
  rewrite forallb_forall in H. specialize (H t (proj2 (In_squares t) Ht)).
  apply eqb_prop. exact H.
Qed.

Lemma on_squares_spec (f : Z -> bool) :
  forallb f squares = true -> forall s, 0 <= s < 64 -> f s = true.
Proof.
  intros H s Hs. rewrite forallb_forall in H.
  exact (H s (proj2 (In_squares s) Hs)).
Qed.

(** X3.  The knight table holds, for every square, exactly the squares a
    knight's jump away: one row and two files, or two rows and one file;
    no jump leaves the board on one side and comes back on the other. *)
Theorem knight_attacks_are_jumps (s t : Z) :
  0 <= s < 64 -> 0 <= t < 64 ->
  knight_attacks s = generateKnightAttacks s /\
  Z.testbit (knight_attacks s) t = knight_jump s t.
Proof.
  intros Hs Ht.
  assert (E : knight_attacks s = generateKnightAttacks s).
  { apply Z.eqb_eq.
    apply (on_squares_spec
             (fun s => knight_attacks s =? generateKnightAttacks s));
      [vm_compute; reflexivity | exact Hs]. }
  split; [exact E|].
  apply (agree_on_squares_spec
           (fun s t => Z.testbit (knight_attacks s) t) knight_jump);
    [vm_compute; reflexivity | exact Hs | exact Ht].
Qed.

Lemma knight_attacks_are_jumps_witness :
  Z.testbit (knight_attacks g1) 45 = true /\
  Z.testbit (knight_attacks g1) 56 = false.
Proof.
  split.
  - rewrite (proj2 (knight_attacks_are_jumps g1 45 ltac:(unfold g1; lia)
                      ltac:(lia))).
    reflexivity.
  - rewrite (proj2 (knight_attacks_are_jumps g1 56 ltac:(unfold g1; lia)
                      ltac:(lia))).
    reflexivity.
Defined.

(** X4.  The king table holds, for every square, exactly the up to eight
    squares next to it. *)
Theorem king_attacks_are_steps (s t : Z) :
  0 <= s < 64 -> 0 <= t < 64 ->
  king_attacks s = generateKingAttacks s /\
  Z.testbit (king_attacks s) t = king_step s t.
Proof.
  intros Hs Ht.
  assert (E : king_attacks s = generateKingAttacks s).
  { apply Z.eqb_eq.
    apply (on_squares_spec
             (fun s => king_attacks s =? generateKingAttacks s));
      [vm_compute; reflexivity | exact Hs]. }
  split; [exact E|].
  apply (agree_on_squares_spec
           (fun s t => Z.testbit (king_attacks s) t) king_step);
    [vm_compute; reflexivity | exact Hs | exact Ht].
Qed.

Lemma king_attacks_are_steps_witness :
  Z.testbit (king_attacks h1) g1 = true /\
  Z.testbit (king_attacks h1) 56 = false.
Proof.
  split.
  - rewrite (proj2 (king_attacks_are_steps h1 g1 ltac:(unfold h1; lia)
                      ltac:(unfold g1; lia))).
    reflexivity.
  - rewrite (proj2 (king_attacks_are_steps h1 56 ltac:(unfold h1; lia)
                      ltac:(lia))).
    reflexivity.
Defined.

(** X5.  The pawn table holds, for a color and a square, the one or two
    squares diagonally ahead; and a pawn of one color on [s] attacks [t]
    exactly when a pawn of the other color on [t] would attack [s], which
    is how [isSquareAttacked] looks for attacking pawns. *)
Theorem pawn_attacks_are_diagonal (color s t : Z) :
  color = white \/ color = black ->
  0 <= s < 64 -> 0 <= t < 64 ->
  pawn_attacks color s = generatePawnAttacks color s /\
  Z.testbit (pawn_attacks color s) t = pawn_capture_step color s t /\
  Z.testbit (pawn_attacks color s) t =
    Z.testbit (pawn_attacks (Z.lxor color 1) t) s.
Proof.
  intros Hc Hs Ht.
  assert (E : forall c, c = white \/ c = black ->
                        pawn_attacks c s = generatePawnAttacks c s).
  { intros c [->| ->]; apply Z.eqb_eq.
    - apply (on_squares_spec
               (fun s => pawn_attacks white s =? generatePawnAttacks white s));
        [vm_compute; reflexivity | exact Hs].
    - apply (on_squares_spec
               (fun s => pawn_attacks black s =? generatePawnAttacks black s));
        [vm_compute; reflexivity | exact Hs]. }
  split; [exact (E color Hc)|].
  destruct Hc as [-> | ->].
  - split.
    + apply (agree_on_squares_spec
               (fun s t => Z.testbit (pawn_attacks white s) t)
               (pawn_capture_step white));
        [vm_compute; reflexivity | exact Hs | exact Ht].
    + apply (agree_on_squares_spec
               (fun s t => Z.testbit (pawn_attacks white s) t)
               (fun s t => Z.testbit (pawn_attacks black t) s));
        [vm_compute; reflexivity | exact Hs | exact Ht].
  - split.
    + apply (agree_on_squares_spec
               (fun s t => Z.testbit (pawn_attacks black s) t)
               (pawn_capture_step black));
        [vm_compute; reflexivity | exact Hs | exact Ht].
    + apply (agree_on_squares_spec
               (fun s t => Z.testbit (pawn_attacks black s) t)
               (fun s t => Z.testbit (pawn_attacks white t) s));
        [vm_compute; reflexivity | exact Hs | exact Ht].
Qed.

Lemma pawn_attacks_are_diagonal_witness :
  Z.testbit (pawn_attacks white h2) 46 = true /\
  Z.testbit (pawn_attacks white h2) 40 = false.
Proof.
  split.
  - rewrite (proj1 (proj2 (pawn_attacks_are_diagonal white h2 46
                             (or_introl eq_refl) ltac:(unfold h2; lia)
                             ltac:(lia)))).
    reflexivity.
  - rewrite (proj1 (proj2 (pawn_attacks_are_diagonal white h2 40
                             (or_introl eq_refl) ltac:(unfold h2; lia)
                             ltac:(lia)))).
    reflexivity.
Defined.

(** * The bit scans and the bit count of a compiler without builtins *)

(** ** The bits of [bb - 1] *)

Section LowestBit.

Variables bb k : Z.
Hypothesis Hk : 0 <= k.
Hypothesis Hset : Z.testbit bb k = true.
Hypothesis Hlow : forall j, 0 <= j < k -> Z.testbit bb j = false.

Lemma low_bits_zero : bb mod 2 ^ k = 0.
Proof.
  apply Z.bits_inj'. intros n Hn. rewrite Z.bits_0.
  destruct (Z_lt_le_dec n k) as [L|L].
  - rewrite Z.mod_pow2_bits_low by lia. apply Hlow. lia.
  - apply Z.mod_pow2_bits_high. lia.
Qed.

Lemma split_at_lowest : bb = 2 ^ k * Z.shiftr bb k.
Proof.
  rewrite Z.shiftr_div_pow2 by exact Hk.
  assert (P : 0 < 2 ^ k) by (apply Z.pow_pos_nonneg; lia).
  pose proof (Z.div_mod bb (2 ^ k) ltac:(lia)) as D.
  rewrite low_bits_zero in D. lia.
Qed.

Lemma odd_part : Z.shiftr bb k = 2 * (Z.shiftr bb k / 2) + 1.
Proof.
  assert (B : Z.testbit (Z.shiftr bb k) 0 = true).
  { rewrite Z.shiftr_spec by lia. exact Hset. }
  rewrite Z.bit0_odd in B.
  pose proof (Z.div_mod (Z.shiftr bb k) 2 ltac:(lia)) as D.
  rewrite Zmod_odd, B in D. exact D.
Qed.

Lemma pred_bits (n : Z) :
  0 <= n ->
  Z.testbit (Z.pred bb) n =
  if n <? k then true else if n =? k then false else Z.testbit bb n.
Proof.
  intros Hn.
  assert (P : 0 < 2 ^ k) by (apply Z.pow_pos_nonneg; lia).
  set (q := Z.shiftr bb k / 2).
  assert (E : Z.pred bb = 2 ^ k * (2 * q) + (2 ^ k - 1)).
  { rewrite split_at_lowest at 1. rewrite odd_part. fold q. lia. }
  destruct (Z.ltb_spec n k) as [L|L].
  - rewrite <- (Z.mod_pow2_bits_low (Z.pred bb) k n) by lia.
    replace (Z.pred bb mod 2 ^ k) with (Z.ones k).
    + apply Z.ones_spec_low. lia.
    + rewrite Z.ones_equiv.
      apply (Z.mod_unique_pos _ _ (2 * q)); lia.
  - replace n with ((n - k) + k) at 1 by lia.
    rewrite <- Z.div_pow2_bits by lia.
    replace (Z.pred bb / 2 ^ k) with (2 * q)
      by (apply (Z.div_unique_pos _ _ _ (2 ^ k - 1)); lia).
    assert (Eb : Z.testbit bb n = Z.testbit (2 * q + 1) (n - k)).
    { replace n with ((n - k) + k) at 1 by lia.
      rewrite <- Z.shiftr_spec by lia. rewrite odd_part at 1. fold q.
      reflexivity. }
    destruct (Z.eqb_spec n k) as [->|Hne].
    + replace (k - k) with 0 by lia. apply Z.testbit_even_0.
    + rewrite Eb. replace (n - k) with (Z.succ (n - k - 1)) by lia.
      rewrite Z.testbit_even_succ, Z.testbit_odd_succ by lia. reflexivity.
Qed.

(** [bb & -bb] has the lowest set bit of [bb] and nothing else. *)
Lemma lowest_bit_isolated : k < 64 -> Z.land bb (U64_neg bb) = bit k.
Proof.
  intros Hk64. apply Z.bits_inj'. intros n Hn.
  unfold U64_neg, U64.wrap, U64.modulus.
  rewrite Z.land_spec, testbit_bit by exact Hk.
  destruct (Z_lt_le_dec n 64) as [L|L].
  - rewrite Z.mod_pow2_bits_low, Z.bits_opp, pred_bits by lia.
    destruct (Z.ltb_spec n k) as [L1|L1].
    + rewrite andb_false_r. destruct (Z.eqb_spec k n); [lia|reflexivity].
    + destruct (Z.eqb_spec n k) as [->|Hne].
      * rewrite Hset, Z.eqb_refl. reflexivity.
      * destruct (Z.eqb_spec k n); [lia|]. apply andb_negb_r.
  - rewrite Z.mod_pow2_bits_high, andb_false_r by lia.
    destruct (Z.eqb_spec k n); [lia|reflexivity].
Qed.

(** [bb & (bb - 1)] is [bb] without its lowest set bit. *)
Lemma lowest_bit_cleared :
  U64.in_range bb -> Z.land bb (U64.sub bb 1) = pop_bit bb k.
Proof.
  intros Hr.
  assert (Hz : bb <> 0) by (intros E; rewrite E, Z.bits_0 in Hset; discriminate).
  unfold U64.sub, U64.wrap. unfold U64.in_range in Hr.
  rewrite Z.mod_small by lia.
  apply Z.bits_inj'. intros n Hn.
  rewrite Z.land_spec, testbit_pop_bit by (exact Hk || exact Hr).
  change (bb - 1) with (Z.pred bb). rewrite pred_bits by exact Hn.
  destruct (Z.ltb_spec n k) as [L1|L1].
  - rewrite Hlow by lia. reflexivity.
  - destruct (Z.eqb_spec n k) as [->|Hne].
    + rewrite Z.eqb_refl. reflexivity.
    + destruct (Z.eqb_spec k n); [lia|]. cbn [negb].
      rewrite andb_true_r. apply andb_diag.
Qed.

End LowestBit.

(** ** [bitScanForward] *)

Lemma forward_table (k : Z) :
  0 <= k < 64 ->
  aget INDEX_64_FORWARD (U64.shr (U64.mul (bit k) debruijn64) 58) = Some k.
Proof.
  intros Hk.
  pose proof (proj1 (forallb_forall
    (fun k => match aget INDEX_64_FORWARD
                      (U64.shr (U64.mul (bit k) debruijn64) 58) with
              | Some v => v =? k
              | None => false
              end) squares)
    ltac:(vm_compute; reflexivity) k (proj2 (In_squares k) Hk)) as T.
  cbv beta in T.
  destruct (aget _ _) as [v|]; [|discriminate].
  apply Z.eqb_eq in T. congruence.
Qed.

(** X6.  The De Bruijn branch of [bitScanForward] returns what the builtin
    count of trailing zeros returns, on every 64-bit word; on zero both
    stop at the assertion. *)
Theorem bitScanForward_fallback_agrees (bb : Z) :
  U64.in_range bb -> bitScanForward_fallback bb = bitScanForward bb.
Proof.
  intros Hr. unfold bitScanForward_fallback.
  destruct (Z.eqb_spec bb 0) as [->|Hz]; [reflexivity|].
  destruct (bitScanForward_spec bb Hr Hz) as (sq & E & Hsq & Hb & Hlow).
  rewrite E, (lowest_bit_isolated bb sq) by (assumption || lia).
  apply forward_table. exact Hsq.
Qed.

Lemma bitScanForward_fallback_agrees_witness :
  bitScanForward_fallback (occ start_board both) = Some 0 /\
  bitScanForward (occ start_board both) = Some 0.
Proof.
  assert (Hr : U64.in_range (occ start_board both))
    by (vm_compute; split; [discriminate|reflexivity]).
  split; [|reflexivity].
  rewrite (bitScanForward_fallback_agrees _ Hr). reflexivity.
Defined.

(** ** [bitScanReverse] *)

Section HighestBit.

Variables bb k : Z.
Hypothesis Hk : 0 <= k.
Hypothesis Hset : Z.testbit bb k = true.
Hypothesis Hhigh : forall j, k < j -> Z.testbit bb j = false.

(** A word whose bits from [k - s] to [k] are set and that has no bit
    above [k]. *)
Let filled (s x : Z) : Prop :=
  (forall i, 0 <= i -> k - s <= i <= k -> Z.testbit x i = true) /\
  (forall i, k < i -> Z.testbit x i = false).

Lemma filled_start : filled 0 bb.
Proof.
  split; [|exact Hhigh]. intros i Hi Hr.
  replace i with k by lia. exact Hset.
Qed.

Lemma filled_step (s x : Z) :
  0 <= s -> filled s x ->
  filled (2 * s + 1) (Z.lor x (U64.shr x (s + 1))).
Proof.
  intros Hs [F1 F2]. unfold U64.shr. split.
  - intros i Hi Hr. rewrite Z.lor_spec, Z.shiftr_spec by exact Hi.
    destruct (Z_lt_le_dec i (k - s)) as [L|L].
    + rewrite (F1 (i + (s + 1))) by lia. apply orb_true_r.
    + rewrite (F1 i) by lia. reflexivity.
  - intros i Hi. rewrite Z.lor_spec, Z.shiftr_spec by lia.
    rewrite (F2 i), (F2 (i + (s + 1))) by lia. reflexivity.
Qed.

Lemma filled_ones (x : Z) : k < 64 -> filled 63 x -> x = Z.ones (k + 1).
Proof.
  intros Hk64 [F1 F2]. apply Z.bits_inj'. intros n Hn.
  rewrite Z.testbit_ones_nonneg by lia.
  destruct (Z.ltb_spec n (k + 1)) as [L|L].
  - apply F1; lia.
  - apply F2. lia.
Qed.

Lemma bits_filled :
  k < 64 ->
  (let bb := Z.lor bb (U64.shr bb 1) in
   let bb := Z.lor bb (U64.shr bb 2) in
   let bb := Z.lor bb (U64.shr bb 4) in
   let bb := Z.lor bb (U64.shr bb 8) in
   let bb := Z.lor bb (U64.shr bb 16) in
   let bb := Z.lor bb (U64.shr bb 32) in bb) = Z.ones (k + 1).
Proof.
  intros Hk64. cbv zeta. apply filled_ones; [exact Hk64|].
  apply (filled_step 31); [lia|].
  apply (filled_step 15); [lia|].
  apply (filled_step 7); [lia|].
  apply (filled_step 3); [lia|].
  apply (filled_step 1); [lia|].
  apply (filled_step 0); [lia|].
  exact filled_start.
Qed.

End HighestBit.

Lemma reverse_table (k : Z) :
  0 <= k < 64 ->
  aget INDEX_64_REVERSE (U64.shr (U64.mul (Z.ones (k + 1)) debruijn64) 58)
  = Some k.
Proof.
  intros Hk.
  pose proof (proj1 (forallb_forall
    (fun k => match aget INDEX_64_REVERSE
                      (U64.shr (U64.mul (Z.ones (k + 1)) debruijn64) 58) with
              | Some v => v =? k
              | None => false
              end) squares)
    ltac:(vm_compute; reflexivity) k (proj2 (In_squares k) Hk)) as T.
  cbv beta in T.
  destruct (aget _ _) as [v|]; [|discriminate].
  apply Z.eqb_eq in T. congruence.
Qed.

(** X7.  The De Bruijn branch of [bitScanReverse] returns what 63 minus the
    builtin count of leading zeros returns, on every 64-bit word; on zero
    both stop at the assertion. *)
Theorem bitScanReverse_fallback_agrees (bb : Z) :
  U64.in_range bb -> bitScanReverse_fallback bb = bitScanReverse bb.
Proof.
  intros Hr. unfold bitScanReverse_fallback.
  destruct (Z.eqb_spec bb 0) as [->|Hz]; [reflexivity|].
  destruct (bitScanReverse_spec bb Hr Hz) as (sq & E & Hsq & Hb & Hhigh).
  rewrite E. cbv zeta.
  pose proof (bits_filled bb sq (proj1 Hsq) Hb Hhigh (proj2 Hsq)) as F.
  cbv zeta in F. rewrite F.
  apply reverse_table. exact Hsq.
Qed.

Lemma bitScanReverse_fallback_agrees_witness :
  bitScanReverse_fallback (occ start_board both) = Some 63 /\
  bitScanReverse (occ start_board both) = Some 63.
Proof.
  assert (Hr : U64.in_range (occ start_board both))
    by (vm_compute; split; [discriminate|reflexivity]).
  split; [|reflexivity].
  rewrite (bitScanReverse_fallback_agrees _ Hr). reflexivity.
Defined.

(** ** [countBits] *)

Lemma countBits_loop_for_bits (fuel : nat) (bb count : Z) :
  U64.in_range bb ->
  countBits_loop fuel bb count =
  for_bits fuel bb (fun _ c => Some (c + 1)) count.
Proof.
  revert bb count. induction fuel as [|fuel IH]; intros bb count Hr;
    cbn [countBits_loop for_bits]; [reflexivity|].
  destruct (nonzero bb) eqn:N; [|reflexivity].
  apply nonzero_true in N.
  destruct (bitScanForward_spec bb Hr N) as (sq & E & Hsq & Hb & Hlow).
  rewrite E. cbn [bind].
  rewrite (lowest_bit_cleared bb sq (proj1 Hsq) Hb Hlow Hr).
  apply IH. apply pop_bit_in_range. exact Hr.
Qed.

Lemma foldM_count (l : list Z) (count : Z) :
  foldM (fun _ c => Some (c + 1)) l count = Some (count + Z.of_nat (length l)).
Proof.
  revert count. induction l as [|x l IH]; intros count; cbn [foldM length].
  - f_equal. lia.
  - cbn [bind]. rewrite IH. f_equal. lia.
Qed.

(** X8.  The loop that clears the lowest set bit until the word is zero ends
    within 64 rounds and has counted the set bits, as the builtin
    population count does. *)
Theorem countBits_fallback_agrees (bb : Z) :
  U64.in_range bb ->
  countBits_fallback bb = Some (countBits bb) /\ 0 <= countBits bb <= 64.
Proof.
  intros Hr. unfold countBits_fallback, countBits. split.
  - rewrite countBits_loop_for_bits, for_bits_fold, foldM_count by exact Hr.
    reflexivity.
  - split; [lia|]. unfold bits_of.
    pose proof (filter_length_le (Z.testbit bb) squares) as L.
    change (length squares) with 64%nat in L. lia.
Qed.

Lemma countBits_fallback_agrees_witness :
  countBits_fallback (occ start_board both) = Some 32.
Proof.
  assert (Hr : U64.in_range (occ start_board both))
    by (vm_compute; split; [discriminate|reflexivity]).
  exact (proj1 (countBits_fallback_agrees _ Hr)).
Defined.

(** * Invariants of the boards that [parseFEN] and [MakeMove] produce *)

(** ** Arrays of 64-bit words *)

Lemma Forall_list_set (P : Z -> Prop) (a : list Z) (n : nat) (v : Z) :
  Forall P a -> P v -> Forall P (list_set a n v).
Proof.
  revert n. induction a as [|x a IH]; intros n Ha Hv; cbn [list_set].
  - destruct n; constructor.
  - inversion Ha as [|? ? Hx Hr]; subst.
    destruct n; constructor; try assumption. apply IH; assumption.
Qed.

Lemma words_list_set (n : nat) (a : list Z) (k : nat) (v : Z) :
  words n a -> U64.in_range v -> words n (list_set a k v).
Proof.
  intros [L F] Hv. split.
  - rewrite length_list_set. exact L.
  - apply Forall_list_set; assumption.
Qed.

Lemma words_nth (n : nat) (a : list Z) (k : nat) :
  words n a -> U64.in_range (nth k a 0).
Proof. intros [_ F]. apply nth_in_range. exact F. Qed.

Lemma words_lmod (n : nat) (a : list Z) (i : Z) (f : Z -> Z) :
  words n a -> (forall x, U64.in_range x -> U64.in_range (f x)) ->
  words n (lmod a i f).
Proof.
  intros H Hf. unfold lmod. apply words_list_set; [exact H|].
  apply Hf. apply (words_nth n). exact H.
Qed.

Lemma words_amod (n : nat) (a a' : list Z) (i : Z) (f : Z -> Z) :
  words n a -> (forall x, U64.in_range x -> U64.in_range (f x)) ->
  amod a i f = Some a' -> words n a'.
Proof.
  intros H Hf E. unfold amod in E. inv_bind E. unfold aset in E.
  destruct (_ && _); [|discriminate]. injection E as <-.
  apply words_list_set; [exact H|]. apply Hf.
  unfold aget in E0. destruct (i <? 0); [discriminate|].
  destruct H as [_ F]. rewrite Forall_forall in F. apply F.
  eapply nth_error_In. exact E0.
Qed.

Lemma words_remove_captured (n : nat) (pieces : list Z) (a : list Z) (t : Z) :
  words n a -> words n (remove_captured pieces a t).
Proof.
  intros H. induction pieces as [|p ps IH]; cbn [remove_captured];
    [exact H|].
  destruct (get_bit _ _); [|exact IH].
  apply words_list_set; [exact H|]. apply pop_bit_in_range.
  apply (words_nth n). exact H.
Qed.

Lemma set_pop_in_range (f t x : Z) :
  0 <= t < 64 -> U64.in_range x -> U64.in_range (set_bit (pop_bit x f) t).
Proof.
  intros Ht Hx. apply set_bit_in_range; [|exact Ht].
  apply pop_bit_in_range. exact Hx.
Qed.

Lemma get_move_source_range (m : Z) : 0 <= get_move_source m < 64.
Proof. exact (proj1 (decoded_fields_ok m)). Qed.

Lemma get_move_target_range (m : Z) : 0 <= get_move_target m < 64.
Proof. exact (proj1 (proj2 (decoded_fields_ok m))). Qed.

(** ** The steps of [MakeMove] *)

Lemma move_piece_ok b piece side f t b' :
  0 <= t < 64 -> arrays_ok b ->
  move_piece b piece side f t = Some b' ->
  arrays_ok b' /\ scalars b' = scalars b.
Proof.
  intros Ht [Hb Ho] H. unfold move_piece in H. inv_bind H.
  injection H as <-. split; [|reflexivity]. split; cbn.
  - apply (words_amod 12 _ _ _ _ Hb) in E; [exact E|].
    intros x. apply set_pop_in_range. exact Ht.
  - apply words_lmod; [exact Ho|]. intros x. apply set_pop_in_range. exact Ht.
Qed.

Lemma capture_piece_ok b side t :
  arrays_ok b ->
  arrays_ok (capture_piece b side t) /\
  scalars (capture_piece b side t) = scalars b.
Proof.
  intros [Hb Ho]. split; [|reflexivity].
  split; unfold capture_piece;
    cbn [bitboards occupancy with_bitboards with_occupancy].
  - apply words_remove_captured. exact Hb.
  - apply words_lmod; [exact Ho|]. intros x. apply pop_bit_in_range.
Qed.

Lemma promote_ok b piece promoted t b' :
  0 <= t < 64 -> arrays_ok b ->
  promote b piece promoted t = Some b' ->
  arrays_ok b' /\ scalars b' = scalars b.
Proof.
  intros Ht [Hb Ho] H. unfold promote in H. inv_bind H. inv_bind H.
  injection H as <-. split; [|reflexivity]. split; cbn; [|exact Ho].
  apply (words_amod 12 _ _ _ _ Hb) in E;
    [|intros x; apply pop_bit_in_range].
  apply (words_amod 12 _ _ _ _ E) in E0; [exact E0|].
  intros x Hx. apply set_bit_in_range; assumption.
Qed.

Lemma capture_enpassant_ok b side t b' :
  arrays_ok b ->
  capture_enpassant b side t = Some b' ->
  arrays_ok b' /\
  color b' = color b /\ enpassant b' = no_sq /\
  castling b' = castling b /\ num_moves b' = num_moves b.
Proof.
  intros [Hb Ho] H. unfold capture_enpassant in H.
  destruct (valid_shift _); [|discriminate]. injection H as <-.
  split; [|repeat split]. split; cbn; [|exact Ho].
  apply words_lmod; [exact Hb|]. intros x. apply pop_bit_in_range.
Qed.

Lemma castle_rook_ok b t :
  arrays_ok b ->
  arrays_ok (castle_rook b t) /\ scalars (castle_rook b t) = scalars b.
Proof.
  intros [Hb Ho]. unfold castle_rook.
  repeat match goal with
         | |- context [if ?c then _ else _] => destruct c
         end;
    (split; [|reflexivity]); (split; cbn; [|exact Ho]);
    try exact Hb;
    (apply words_lmod; [exact Hb|]); intros x; apply set_pop_in_range;
    squares_unfold; lia.
Qed.

Lemma rebuild_occupancy_ok b :
  words 12 (bitboards b) -> arrays_ok (rebuild_occupancy b).
Proof.
  intros Hb. split; cbn; [exact Hb|]. split; [reflexivity|].
  assert (R : forall piece, U64.in_range (bb b piece))
    by (intros piece; apply (words_nth 12); exact Hb).
  repeat constructor;
    repeat first [ exact in_range_0 | apply R | apply lor_in_range ].
Qed.

(** What the first part of [MakeMove] leaves behind: arrays of the right
    sizes with 64-bit words, the side and the move counter of before, the
    castling rights masked with the table entries of the two squares of
    the move, and the en-passant square of before or none. *)
Lemma MakeMove_update_ok (b : ChessBoard) (m : Z) (b2 : ChessBoard) :
  arrays_ok b ->
  MakeMove_update b m = Some b2 ->
  arrays_ok b2 /\
  color b2 = color b /\ num_moves b2 = num_moves b /\
  castling b2 =
    Z.land (Z.land (castling b)
                   (nth (Z.to_nat (get_move_source m)) CASTLING_RIGHTS 0))
           (nth (Z.to_nat (get_move_target m)) CASTLING_RIGHTS 0) /\
  (enpassant b2 = enpassant b \/ enpassant b2 = no_sq).
Proof.
  intros Hb H. unfold MakeMove_update in H.
  pose proof (get_move_target_range m) as Ht.
  inv_bind H. inv_bind H. inv_bind H. injection H as <-.
  assert (A0 : arrays_ok (copyBoard b)) by exact Hb.
  destruct (move_piece_ok _ _ _ _ _ _ Ht A0 E) as [A1 S1].
  change (scalars (copyBoard b)) with (scalars b) in S1.
  set (b1 := if nonzero (get_move_capture m)
             then capture_piece v _ (get_move_target m) else v) in *.
  assert (A2 : arrays_ok b1 /\ scalars b1 = scalars b).
  { unfold b1. destruct (nonzero (get_move_capture m)).
    - destruct (capture_piece_ok v
                  (if get_move_piece m <? 6 then white else black)
                  (get_move_target m) A1) as [A S].
      split; [exact A | congruence].
    - split; assumption. }
  destruct A2 as [A2 S2].
  assert (A3 : arrays_ok v0 /\ scalars v0 = scalars b).
  { destruct (nonzero (get_move_promoted m)).
    - destruct (promote_ok _ _ _ _ _ Ht A2 E0) as [A S].
      split; [exact A | congruence].
    - injection E0 as <-. split; assumption. }
  destruct A3 as [A3 S3].
  assert (A4 : arrays_ok v1 /\ color v1 = color b /\
               num_moves v1 = num_moves b /\ castling v1 = castling b /\
               (enpassant v1 = enpassant b \/ enpassant v1 = no_sq)).
  { unfold scalars in S3. injection S3 as C1 C2 C3 C4.
    destruct (nonzero (get_move_enpassant m)).
    - destruct (capture_enpassant_ok _ _ _ _ A3 E1) as (A & D1 & D2 & D3 & D4).
      split; [exact A|]. repeat split; try congruence. right. exact D2.
    - injection E1 as <-. split; [exact A3|].
      repeat split; try assumption. left. exact C2. }
  destruct A4 as (A4 & C1 & C2 & C3 & C4).
  set (b4 := if nonzero (get_move_castling m)
             then castle_rook v1 (get_move_target m) else v1) in *.
  assert (A5 : arrays_ok b4 /\ scalars b4 = scalars v1).
  { unfold b4. destruct (nonzero (get_move_castling m)).
    - apply castle_rook_ok. exact A4.
    - split; [exact A4 | reflexivity]. }
  destruct A5 as [A5 S5]. unfold scalars in S5. injection S5 as D1 D2 D3 D4.
  split; [apply rebuild_occupancy_ok; exact (proj1 A5)|].
  cbn. rewrite D1, D2, D3, D4. repeat split; try assumption.
  rewrite C3. reflexivity.
Qed.

(** ** [MakeMove] *)

Lemma lxor_1_color (c : Z) :
  c = white \/ c = black -> Z.lxor c 1 = white \/ Z.lxor c 1 = black.
Proof. intros [-> | ->]; [right|left]; reflexivity. Qed.

Lemma U32_wrap_in_range (z : Z) : U32.in_range (U32.wrap z).
Proof.
  unfold U32.in_range, U32.wrap. apply Z.mod_pos_bound. reflexivity.
Qed.

Lemma bits_below_pow2 (n x : Z) :
  0 <= n -> 0 <= x -> (forall k, n <= k -> Z.testbit x k = false) ->
  x < 2 ^ n.
Proof.
  intros Hn Hx H. destruct (Z.eq_dec x 0) as [->|Hz].
  - apply Z.pow_pos_nonneg; lia.
  - apply Z.log2_lt_pow2; [lia|].
    destruct (Z_lt_le_dec (Z.log2 x) n) as [L|L]; [exact L|].
    exfalso. pose proof (Z.bit_log2 x ltac:(lia)) as B.
    rewrite (H (Z.log2 x) L) in B. discriminate.
Qed.

Lemma land_bound (x y n : Z) :
  0 <= n -> 0 <= x < 2 ^ n -> 0 <= Z.land x y < 2 ^ n.
Proof.
  intros Hn Hx. assert (N : 0 <= Z.land x y).
  { apply Z.land_nonneg. left. lia. }
  split; [exact N|]. apply bits_below_pow2; [exact Hn | exact N |].
  intros k Hk. rewrite Z.land_spec, (testbit_small x n k) by lia.
  reflexivity.
Qed.

Lemma lor_bound (x y n : Z) :
  0 <= n -> 0 <= x < 2 ^ n -> 0 <= y < 2 ^ n -> 0 <= Z.lor x y < 2 ^ n.
Proof.
  intros Hn Hx Hy. assert (N : 0 <= Z.lor x y).
  { apply Z.lor_nonneg. lia. }
  split; [exact N|]. apply bits_below_pow2; [exact Hn | exact N |].
  intros k Hk.
  rewrite Z.lor_spec, (testbit_small x n k), (testbit_small y n k) by lia.
  reflexivity.
Qed.

Lemma lxor_bound (x y n : Z) :
  0 <= n -> 0 <= x < 2 ^ n -> 0 <= y < 2 ^ n -> 0 <= Z.lxor x y < 2 ^ n.
Proof.
  intros Hn Hx Hy. assert (N : 0 <= Z.lxor x y).
  { apply Z.lxor_nonneg. lia. }
  split; [exact N|]. apply bits_below_pow2; [exact Hn | exact N |].
  intros k Hk.
  rewrite Z.lxor_spec, (testbit_small x n k), (testbit_small y n k) by lia.
  reflexivity.
Qed.

Lemma MakeMove_keeps_ok (b : ChessBoard) (m : Z) (b' : ChessBoard) (ok : bool) :
  board_ok b -> MakeMove b m = Some (b', ok) -> board_ok b'.
Proof.
  intros Hb H. destruct ok.
  - destruct Hb as ((L1 & L2 & F1 & F2 & R1 & R2 & R3 & R4) & Hc & Hr).
    unfold MakeMove in H. inv_bind H. inv_bind H.
    destruct v0; [discriminate|]. injection H as <-.
    destruct (MakeMove_update_ok b m v (conj (conj L1 F1) (conj L2 F2)) E)
      as (((M1 & M2) & (M3 & M4)) & C1 & C2 & C3 & C4).
    assert (K : 0 <= castling v < 16).
    { rewrite C3. apply (land_bound _ _ 4); [lia|].
      apply (land_bound _ _ 4); [lia|]. exact Hr. }
    assert (W : forall e, U32.in_range e ->
                board_ok (with_num_moves
                            (with_color (with_enpassant v e)
                                        (Z.lxor (color v) 1))
                            (U32.wrap (num_moves v + 1)))).
    { intros e He. split; [|split].
      - unfold wf_board. cbn.
        repeat split; try assumption; try apply U32_wrap_in_range.
        + rewrite C1. destruct Hc as [-> | ->]; cbn; lia.
        + rewrite C1. destruct Hc as [-> | ->]; cbn; reflexivity.
        + apply He.
        + apply He.
        + lia.
        + unfold U32.modulus. lia.
      - cbn. rewrite C1. apply lxor_1_color. exact Hc.
      - exact K. }
    destruct (nonzero (get_move_double m)); apply W.
    + apply U32_wrap_in_range.
    + split; [unfold no_sq; lia | reflexivity].
  - apply MakeMove_rejected in H.
    destruct H as ((H1 & H2 & H3 & H4 & H5) & H6).
    destruct Hb as ((L1 & L2 & F1 & F2 & R1 & R2 & R3 & R4) & Hc & Hr).
    unfold board_ok, wf_board. rewrite H1, H2, H3, H4, H5, H6.
    unfold U32.in_range in *.
    repeat split; try assumption; lia.
Qed.

Lemma play_keeps_ok (ms : list Z) (b b' : ChessBoard) :
  board_ok b -> play b ms = Some b' -> board_ok b'.
Proof.
  revert b. induction ms as [|m ms IH]; intros b Hb H; cbn in H.
  - injection H as <-. exact Hb.
  - inv_bind H. destruct v as [b1 r].
    apply (IH b1); [|exact H]. eapply MakeMove_keeps_ok; eassumption.
Qed.

(** ** [parseFEN] *)

Lemma placed_later (cur cur' : Z) (bbs : list Z) :
  cur <= cur' -> placed cur bbs -> placed cur' bbs.
Proof.
  intros H (W & D & E). split; [exact W|]. split; [exact D|].
  intros i k Hk. apply E. lia.
Qed.

Lemma nth_list_set (a : list Z) (n i : nat) (v : Z) :
  (n < length a)%nat ->
  nth i (list_set a n v) 0 = if Nat.eqb i n then v else nth i a 0.
Proof.
  intros Hn. destruct (Nat.eqb_spec i n) as [->|Hne].
  - apply nth_list_set_eq. exact Hn.
  - apply nth_list_set_neq. congruence.
Qed.

Lemma land_set_bit_zero (x y sq : Z) :
  0 <= sq -> Z.land x y = 0 -> Z.testbit y sq = false ->
  Z.land (set_bit x sq) y = 0.
Proof.
  intros Hsq H Hb. apply Z.bits_inj'. intros k Hk.
  rewrite Z.land_spec, testbit_set_bit, Z.bits_0 by lia.
  pose proof (f_equal (fun z => Z.testbit z k) H) as Hk'. cbv beta in Hk'.
  rewrite Z.land_spec, Z.bits_0 in Hk'.
  destruct (Z.eqb_spec sq k) as [<-|Hne].
  - rewrite Hb. apply andb_false_r.
  - rewrite orb_false_r. exact Hk'.
Qed.

(** A piece put on the square [cur], on which nothing stands yet. *)
Lemma placed_amod (cur : Z) (bbs bbs' : list Z) (piece : Z) :
  0 <= cur < 64 -> placed cur bbs ->
  amod bbs piece (fun x => set_bit x cur) = Some bbs' ->
  placed (cur + 1) bbs' /\
  exists i : nat, (i < 12)%nat /\ Z.testbit (nth i bbs' 0) cur = true.
Proof.
  intros Hcur (W & D & E) H.
  assert (W' : words 12 bbs').
  { apply (words_amod 12 _ _ _ _ W) in H; [exact H|].
    intros x Hx. apply set_bit_in_range; assumption. }
  unfold amod in H. inv_bind H. unfold aset in H.
  destruct ((0 <=? piece) && (piece <? Z.of_nat (length bbs))) eqn:B;
    [|discriminate].
  injection H as <-. apply andb_true_iff in B. destruct B as [B1 B2].
  apply Z.leb_le in B1. apply Z.ltb_lt in B2.
  destruct W as [L F]. rewrite L in B2.
  assert (Hp : (Z.to_nat piece < 12)%nat) by lia.
  assert (Ev : v = nth (Z.to_nat piece) bbs 0).
  { unfold aget in E0. destruct (piece <? 0); [discriminate|].
    symmetry. apply nth_error_nth. exact E0. }
  assert (N : forall i, nth i (list_set bbs (Z.to_nat piece) (set_bit v cur)) 0
                        = if Nat.eqb i (Z.to_nat piece) then set_bit v cur
                          else nth i bbs 0).
  { intros i. apply nth_list_set. rewrite L. exact Hp. }
  split; [split; [exact W'|split]|].
  - intros i j Hi Hj Hij. rewrite !N.
    destruct (Nat.eqb_spec i (Z.to_nat piece)) as [->|Ni];
      destruct (Nat.eqb_spec j (Z.to_nat piece)) as [->|Nj].
    + contradiction.
    + rewrite Ev. apply land_set_bit_zero; [lia| |apply E; lia].
      apply D; assumption.
    + rewrite Z.land_comm, Ev.
      apply land_set_bit_zero; [lia| |apply E; lia].
      apply D; try assumption. congruence.
    + apply D; assumption.
  - intros i k Hk. rewrite N.
    destruct (Nat.eqb_spec i (Z.to_nat piece)) as [->|Ni].
    + rewrite testbit_set_bit, Ev, E by lia.
      destruct (Z.eqb_spec cur k); [lia|reflexivity].
    + apply E. lia.
  - exists (Z.to_nat piece). split; [exact Hp|].
    rewrite N, Nat.eqb_refl, testbit_set_bit, Z.eqb_refl by lia.
    apply orb_true_r.
Qed.

Lemma piece_on_found (bbs : list Z) (square : Z) (i : nat) :
  0 <= square < 64 -> (i < 12)%nat ->
  Z.testbit (nth i bbs 0) square = true ->
  piece_on bbs square <> -1.
Proof.
  intros Hsq Hi Hb. unfold piece_on.
  assert (G : forall (l : list nat) acc,
             (0 <= acc \/ In i l) ->
             0 <= fold_left
                    (fun piece bb_piece =>
                       if get_bit (nth (Z.to_nat bb_piece) bbs 0) square
                       then bb_piece else piece)
                    (map Z.of_nat l) acc).
  { induction l as [|x l IH]; intros acc Ha; cbn [map fold_left].
    - destruct Ha as [Ha|[]]. exact Ha.
    - apply IH. rewrite Nat2Z.id.
      destruct (get_bit (nth x bbs 0) square) eqn:Gx; [left; lia|].
      destruct Ha as [Ha|[->|Hin]]; [left; exact Ha| |right; exact Hin].
      rewrite get_bit_spec, Hb in Gx by lia. discriminate. }
  specialize (G (seq 0 12) (-1)).
  assert (0 <= fold_left
                 (fun piece bb_piece =>
                    if get_bit (nth (Z.to_nat bb_piece) bbs 0) square
                    then bb_piece else piece)
                 (map Z.of_nat (seq 0 12)) (-1)); [|lia].
  apply G. right. apply in_seq. lia.
Qed.

Lemma is_digit_offset (c : Z) : is_digit c = true -> 0 <= c - ch "0" <= 9.
Proof.
  unfold is_digit. intros H. apply andb_true_iff in H. destruct H as [H1 H2].
  apply Z.leb_le in H1. apply Z.leb_le in H2.
  change (ch "0") with 48 in *. change (ch "9") with 57 in *. lia.
Qed.

(** One rank of the placement field: whatever the characters are, a piece
    goes on a square of this rank on which nothing stands yet. *)
Lemma parse_files_placed (fuel : nat) (fen : string) (rank : Z) :
  0 <= rank < 8 ->
  forall (file p : Z) (bbs : list Z) (r : list Z * Z),
    0 <= file ->
    placed (rank * 8 + Z.min file 8) bbs ->
    parse_files fuel fen rank file p bbs = Some r ->
    placed ((rank + 1) * 8) (fst r).
Proof.
  intros Hrank. induction fuel as [|fuel IH]; intros file p bbs r Hf Hp H;
    cbn [parse_files] in H.
  - destruct (Z.ltb_spec file 8) as [L|L]; [discriminate|].
    injection H as <-. cbn [fst].
    replace ((rank + 1) * 8) with (rank * 8 + Z.min file 8) by lia. exact Hp.
  - destruct (Z.ltb_spec file 8) as [L|L].
    2:{ injection H as <-. cbn [fst].
        replace ((rank + 1) * 8) with (rank * 8 + Z.min file 8) by lia.
        exact Hp. }
    replace (rank * 8 + Z.min file 8) with (rank * 8 + file) in Hp by lia.
    apply bind_Some in H. destruct H as (c & Ec & H).
    apply bind_Some in H. destruct H as ([bbs1 p1] & El & H).
    apply bind_Some in H. destruct H as (c1 & Ec1 & H).
    (* the state after the letter, if there is one *)
    assert (S1 : (placed (rank * 8 + file) bbs1 /\
                  piece_on bbs1 (rank * 8 + file) = -1 \/
                  placed (rank * 8 + file + 1) bbs1 /\
                  piece_on bbs1 (rank * 8 + file) <> -1)).
    { destruct (is_letter c).
      - apply bind_Some in El. destruct El as (bbs' & Ea & El).
        injection El as <- <-.
        destruct (placed_amod (rank * 8 + file) bbs bbs' _ ltac:(lia) Hp Ea)
          as (P1 & i & Hi & Hb).
        right. split; [exact P1|].
        apply (piece_on_found _ _ i); [lia | exact Hi | exact Hb].
      - injection El as <- <-.
        destruct (Z.eq_dec (piece_on bbs (rank * 8 + file)) (-1)) as [e|n].
        + left. split; assumption.
        + right. split; [|exact n].
          apply (placed_later (rank * 8 + file)); [lia | exact Hp]. }
    destruct (if is_digit c1 then _ else _) as [file2 p2] eqn:D.
    apply bind_Some in H. destruct H as (c2 & Ec2 & H).
    assert (F2 : 0 <= file2 + 1 /\
                 (piece_on bbs1 (rank * 8 + file) <> -1 -> file <= file2)).
    { destruct (is_digit c1) eqn:Dg.
      - apply is_digit_offset in Dg. injection D as <- <-.
        destruct (Z.eqb_spec (piece_on bbs1 (rank * 8 + file)) (-1));
          split; try lia; intros; try contradiction; lia.
      - injection D as <- <-. split; [lia|]. intros _. lia. }
    destruct F2 as [F2 F3].
    eapply (IH (file2 + 1) _ bbs1 r F2); [|exact H].
    destruct S1 as [[P1 Q1]|[P1 Q1]].
    + apply (placed_later (rank * 8 + file)); [|exact P1].
      destruct (is_digit c1) eqn:Dg.
      * apply is_digit_offset in Dg. injection D as <- <-.
        rewrite Q1, Z.eqb_refl. lia.
      * injection D as <- <-. lia.
    + specialize (F3 Q1).
      apply (placed_later (rank * 8 + file + 1)); [lia | exact P1].
Qed.

Lemma parse_ranks_placed (fen : string) (ranks : list Z) :
  forall (rank p : Z) (bbs : list Z) (r : list Z * Z),
    0 <= rank -> rank + Z.of_nat (length ranks) <= 8 ->
    ranks = zrange rank (length ranks) ->
    placed (rank * 8) bbs ->
    parse_ranks ranks fen p bbs = Some r ->
    placed 64 (fst r).
Proof.
  induction ranks as [|x ranks IH]; intros rank p bbs r H0 H8 Hr Hp H;
    cbn [parse_ranks] in H.
  - injection H as <-. cbn [fst]. cbn [length] in H8.
    apply (placed_later (rank * 8)); [lia | exact Hp].
  - cbn [length zrange] in Hr, H8. injection Hr as -> Hr.
    inv_bind H. destruct v as [bbs1 p1].
    apply (IH (rank + 1) p1 bbs1 r); try lia; try assumption.
    apply (parse_files_placed (9 + String.length fen) fen rank ltac:(lia)
             0 p bbs (bbs1, p1));
      [lia| |exact E].
    replace (rank * 8 + Z.min 0 8) with (rank * 8) by lia. exact Hp.
Qed.

Lemma placed_empty : placed 0 (repeat 0 12).
Proof.
  assert (N : forall i, nth i (repeat 0 12) 0 = 0).
  { intros i. do 12 (destruct i as [|i]; [reflexivity|]).
    destruct i; reflexivity. }
  split; [split; [reflexivity|]|split].
  - cbn [repeat].
    repeat (apply Forall_cons; [exact in_range_0|]). apply Forall_nil.
  - intros i j _ _ _. rewrite !N. reflexivity.
  - intros i k _. rewrite N. apply Z.bits_0.
Qed.

Lemma parse_castling_bound (fuel : nat) (fen : string) :
  forall (p c : Z) (r : Z * Z),
    0 <= c < 16 -> parse_castling fuel fen p c = Some r -> 0 <= fst r < 16.
Proof.
  induction fuel as [|fuel IH]; intros p c r Hc H; cbn [parse_castling] in H;
    [discriminate|].
  inv_bind H. destruct (v =? ch " "); [injection H as <-; exact Hc|].
  apply (IH _ _ r) in H; [exact H|].
  change 16 with (2 ^ 4) in *.
  repeat match goal with
         | |- context [if ?c then _ else _] => destruct c
         end;
    try exact Hc; apply lor_bound; try exact Hc; try lia;
    unfold WK_c, WQ_c, BK_c, BQ_c; lia.
Qed.

(** A board that [parseFEN] has returned: every array has its size,
    every word its range, the side is white or black, the castling rights
    are within four bits, the occupancies are the unions of the piece
    bitboards, and no square carries two pieces.  The board that was
    there before the call plays no part. *)
Lemma parseFEN_ok (b0 : ChessBoard) (fen : string) (b : ChessBoard) :
  parseFEN b0 fen = Some b ->
  board_ok b /\ pieces_disjoint b /\ num_moves b = 0.
Proof.
  intros H. pose proof (parseFEN_consistent b0 fen b H) as Hcons.
  unfold parseFEN in H.
  inv_bind H. destruct v as [bbs p].
  inv_bind H. inv_bind H. destruct v0 as [cr p'].
  inv_bind H. inv_bind H. injection H as <-.
  apply (parse_ranks_placed fen _ 0 0 _ (bbs, p)) in E;
    [|lia | cbn; lia | reflexivity | exact placed_empty].
  cbn [fst] in E. destruct E as ((L & F) & D & _).
  apply parse_castling_bound in E1; [|cbn; lia]. cbn [fst] in E1.
  assert (Hv : bitboards v1 = bbs /\ color v1 = (if v =? ch "w" then white else black) /\
               castling v1 = cr /\ num_moves v1 = 0 /\ U32.in_range (enpassant v1)).
  { destruct (negb _).
    - inv_bind E3. injection E3 as <-. cbn.
      repeat split; try reflexivity; apply U32_wrap_in_range.
    - injection E3 as <-. cbn. repeat split; try reflexivity.
      unfold no_sq. lia. }
  destruct Hv as (Hb & Hc & Hr & Hn & He).
  split; [|split].
  - split; [|split].
    + unfold wf_board. cbn. rewrite Hb, Hc, Hr, Hn.
      assert (R : forall piece, U64.in_range (bb v1 piece)).
      { intros piece. unfold bb. rewrite Hb. apply nth_in_range. exact F. }
      split; [exact L|]. split; [reflexivity|]. split; [exact F|].
      split.
      { assert (O0 : occ v1 white = 0 /\ occ v1 black = 0).
        { destruct (negb _); [inv_bind E3|]; injection E3 as <-;
            split; reflexivity. }
        destruct O0 as [-> ->].
        repeat (apply Forall_cons;
                [repeat first [ exact in_range_0 | apply R
                              | apply lor_in_range ]|]).
        apply Forall_nil. }
      unfold U32.in_range, U32.modulus in *. unfold white, black.
      repeat split; try lia; destruct (v =? ch "w"); lia.
    + cbn. rewrite Hc. destruct (v =? ch "w"); [left|right]; reflexivity.
    + cbn. rewrite Hr. exact E1.
  - unfold pieces_disjoint. cbn. rewrite Hb. exact D.
  - cbn. exact Hn.
Qed.

(** X9.  Every board that the engine reaches from a FEN record, by any
    sequence of [MakeMove] calls with any moves, accepted or not, keeps the
    sizes of its arrays and the ranges of its fields: twelve and three
    64-bit words, 32-bit scalars, a side to move that is white or black and
    castling rights within four bits. *)
Theorem reachable_boards_well_formed
    (b0 : ChessBoard) (fen : string) (ms : list Z) (b b' : ChessBoard) :
  parseFEN b0 fen = Some b ->
  play b ms = Some b' ->
  board_ok b /\ board_ok b'.
Proof.
  intros H1 H2. apply parseFEN_ok in H1. destruct H1 as (H1 & _).
  split; [exact H1|]. eapply play_keeps_ok; eassumption.
Qed.

Lemma reachable_boards_well_formed_witness :
  board_ok start_board /\ board_ok start_e2e4.
Proof.
  apply (reachable_boards_well_formed empty_board start_fen [e2e4]);
    vm_compute; reflexivity.
Defined.

(** X10.  On a board that [parseFEN] has returned no square carries two
    pieces, whatever the characters of the placement field were, and the
    move counter is zero. *)
Theorem parseFEN_one_piece_per_square
    (b0 : ChessBoard) (fen : string) (b : ChessBoard) :
  parseFEN b0 fen = Some b ->
  pieces_disjoint b /\ num_moves b = 0.
Proof. intros H. apply parseFEN_ok in H. exact (proj2 H). Qed.

Lemma parseFEN_one_piece_per_square_witness :
  pieces_disjoint guarded_board /\ num_moves guarded_board = 0.
Proof.
  apply (parseFEN_one_piece_per_square empty_board guarded_fen).
  vm_compute. reflexivity.
Defined.

(** X11.  [parseFEN] starts from [resetBoard], whose second loop stops before
    the index [both]: the board it returns is the one it returns on a
    default board, except that the third word of [occupancy_copy] is still
    the one of the board that was there before. *)
Theorem parseFEN_forgets_all_but_one_word
    (b : ChessBoard) (fen : string) :
  parseFEN b fen =
  option_map
    (fun r => with_occupancy_copy r [0; 0; nth 2 (occupancy_copy b) 0])
    (parseFEN empty_board fen).
Proof.
  unfold parseFEN.
  cbn [resetBoard empty_board bitboards occupancy castling occ
       with_bitboards with_color with_castling].
  destruct (parse_ranks _ fen 0 (repeat 0 12)) as [[bbs p]|];
    cbn [bind option_map]; [|reflexivity].
  destruct (char_at fen (p + 1)) as [c|]; cbn [bind option_map];
    [|reflexivity].
  destruct (parse_castling _ fen (p + 1 + 2) 0) as [[cr p']|];
    cbn [bind option_map]; [|reflexivity].
  destruct (char_at fen (p' + 1)) as [c'|]; cbn [bind option_map];
    [|reflexivity].
  destruct (negb (c' =? ch "-")); cbn [bind option_map]; [|reflexivity].
  destruct (char_at fen (p' + 1 + 1)) as [c1|]; cbn [bind option_map];
    reflexivity.
Qed.

(** * Castling rights *)

Lemma MakeMove_update_castling (b : ChessBoard) (m : Z) (b2 : ChessBoard) :
  MakeMove_update b m = Some b2 ->
  castling b2 =
    Z.land (Z.land (castling b)
                   (nth (Z.to_nat (get_move_source m)) CASTLING_RIGHTS 0))
           (nth (Z.to_nat (get_move_target m)) CASTLING_RIGHTS 0).
Proof.
  unfold MakeMove_update. intros H.
  apply bind_Some in H. destruct H as (b1 & E1 & H).
  apply bind_Some in H. destruct H as (b3 & E3 & H).
  apply bind_Some in H. destruct H as (b4 & E4 & H).
  injection H as <-.
  assert (C1 : castling b1 = castling b).
  { unfold move_piece in E1. apply bind_Some in E1.
    destruct E1 as (x & _ & E1). injection E1 as <-. reflexivity. }
  assert (C3 : castling b3 = castling b).
  { destruct (nonzero (get_move_promoted m)).
    - unfold promote in E3. apply bind_Some in E3.
      destruct E3 as (x & _ & E3). apply bind_Some in E3.
      destruct E3 as (y & _ & E3). injection E3 as <-.
      destruct (nonzero (get_move_capture m)); exact C1.
    - injection E3 as <-.
      destruct (nonzero (get_move_capture m)); exact C1. }
  assert (C4 : castling b4 = castling b).
  { destruct (nonzero (get_move_enpassant m)).
    - unfold capture_enpassant in E4.
      destruct (valid_shift _); [|discriminate]. injection E4 as <-.
      exact C3.
    - injection E4 as <-. exact C3. }
  cbn [rebuild_occupancy update_rights castling with_occupancy with_castling].
  f_equal. f_equal.
  destruct (nonzero (get_move_castling m)); [|exact C4].
  unfold castle_rook.
  repeat match goal with
         | |- context [if ?c then _ else _] => destruct c
         end; exact C4.
Qed.

Lemma MakeMove_castling (b : ChessBoard) (m : Z) (b' : ChessBoard) :
  MakeMove b m = Some (b', true) ->
  castling b' =
    Z.land (Z.land (castling b)
                   (nth (Z.to_nat (get_move_source m)) CASTLING_RIGHTS 0))
           (nth (Z.to_nat (get_move_target m)) CASTLING_RIGHTS 0).
Proof.
  unfold MakeMove. intros H.
  apply bind_Some in H. destruct H as (b2 & E & H).
  apply bind_Some in H. destruct H as (c & _ & H).
  destruct c; [discriminate|]. injection H as <-.
  apply MakeMove_update_castling in E. rewrite <- E.
  destruct (nonzero (get_move_double m)); reflexivity.
Qed.

(** The table entry of a square has the bit of a right exactly when the
    square is neither the king's nor the rook's home square of the
    right. *)
Lemma CASTLING_RIGHTS_bits (sq i : Z) :
  0 <= sq < 64 -> 0 <= i < 4 ->
  Z.testbit (nth (Z.to_nat sq) CASTLING_RIGHTS 0) i =
  negb (among sq (right_squares (2 ^ i))).
Proof.
  intros Hsq Hi.
  pose proof (proj1 (forallb_forall
    (fun sq => forallb
       (fun i => Bool.eqb (Z.testbit (nth (Z.to_nat sq) CASTLING_RIGHTS 0) i)
                          (negb (among sq (right_squares (2 ^ i)))))
       [0; 1; 2; 3]) squares)
    ltac:(vm_compute; reflexivity) sq (proj2 (In_squares sq) Hsq)) as T.
  cbv beta in T. rewrite forallb_forall in T.
  apply eqb_prop. apply T. cbn. lia.
Qed.

Lemma land_pow2_nonzero (x i : Z) :
  0 <= i -> (Z.land x (2 ^ i) <> 0 <-> Z.testbit x i = true).
Proof.
  intros Hi. split.
  - intros H. destruct (Z.testbit x i) eqn:E; [reflexivity|exfalso].
    apply H. apply Z.bits_inj'. intros n Hn.
    rewrite testbit_pow2_mask, Z.bits_0 by lia.
    destruct (Z.eqb_spec i n) as [<-|]; [rewrite E|rewrite andb_false_r];
      reflexivity.
  - intros H E. pose proof (f_equal (fun z => Z.testbit z i) E) as B.
    cbv beta in B.
    rewrite testbit_pow2_mask, Z.bits_0, H, Z.eqb_refl in B by lia.
    discriminate.
Qed.

(** X12.  After an accepted move a castling right is held exactly when it was
    held before and the move neither starts nor ends on the home square of
    the king or of the rook of that right: a right goes with the first
    move of its king or rook, and with the capture of its rook. *)
Theorem castling_right_survives
    (b : ChessBoard) (m : Z) (b' : ChessBoard) (right : Z) :
  MakeMove b m = Some (b', true) ->
  In right all_rights ->
  (Z.land (castling b') right <> 0 <->
   Z.land (castling b) right <> 0 /\
   among (get_move_source m) (right_squares right) = false /\
   among (get_move_target m) (right_squares right) = false).
Proof.
  intros H Hr. rewrite (MakeMove_castling b m b' H).
  pose proof (get_move_source_range m) as Hs.
  pose proof (get_move_target_range m) as Ht.
  assert (Hi : exists i, 0 <= i < 4 /\ right = 2 ^ i).
  { cbn in Hr. destruct Hr as [<-|[<-|[<-|[<-|[]]]]];
      [exists 0 | exists 1 | exists 2 | exists 3]; split; (lia || reflexivity). }
  destruct Hi as (i & Hi & ->).
  rewrite !land_pow2_nonzero by lia.
  rewrite !Z.land_spec, !CASTLING_RIGHTS_bits by assumption.
  rewrite !andb_true_iff, !negb_true_iff. tauto.
Qed.

Lemma castling_right_survives_witness :
  Z.land (castling castle_e1g1) WK_c = 0 /\
  Z.land (castling castle_e1g1) BK_c <> 0.
Proof.
  assert (M : MakeMove castle_board e1g1 = Some (castle_e1g1, true))
    by (vm_compute; reflexivity).
  split.
  - destruct (Z.eq_dec (Z.land (castling castle_e1g1) WK_c) 0) as [E|N];
      [exact E|exfalso].
    apply (castling_right_survives castle_board e1g1 castle_e1g1 WK_c M) in N;
      [|left; reflexivity].
    destruct N as (_ & N & _). vm_compute in N. discriminate.
  - apply (castling_right_survives castle_board e1g1 castle_e1g1 BK_c M).
    + right. right. left. reflexivity.
    + split; [vm_compute; discriminate|]. split; reflexivity.
Defined.

Lemma land_land_absorb (c r s : Z) :
  Z.land (Z.land (Z.land c r) s) c = Z.land (Z.land c r) s.
Proof.
  apply Z.bits_inj'. intros n _. rewrite !Z.land_spec.
  destruct (Z.testbit c n), (Z.testbit r n), (Z.testbit s n); reflexivity.
Qed.

Lemma MakeMove_rights_shrink (b : ChessBoard) (m : Z) (b' : ChessBoard)
    (ok : bool) :
  MakeMove b m = Some (b', ok) ->
  Z.land (castling b') (castling b) = castling b'.
Proof.
  intros H. destruct ok.
  - rewrite (MakeMove_castling b m b' H). apply land_land_absorb.
  - apply MakeMove_rejected in H. destruct H as ((_ & _ & _ & _ & ->) & _).
    apply Z.land_diag.
Qed.

(** X13.  Along any sequence of [MakeMove] calls, with any moves, the castling
    rights only shrink: every right held at the end was held at the
    start. *)
Theorem castling_rights_never_return
    (b : ChessBoard) (ms : list Z) (b' : ChessBoard) :
  play b ms = Some b' ->
  Z.land (castling b') (castling b) = castling b' /\
  forall right, Z.land (castling b') right <> 0 ->
                Z.land (castling b) right <> 0.
Proof.
  intros H.
  assert (S : Z.land (castling b') (castling b) = castling b').
  { revert b H. induction ms as [|m ms IH]; intros b H; cbn [play] in H.
    - injection H as <-. apply Z.land_diag.
    - apply bind_Some in H. destruct H as ([b1 ok] & E & H).
      specialize (IH b1 H). apply MakeMove_rights_shrink in E.
      apply Z.bits_inj'. intros n _. rewrite Z.land_spec.
      pose proof (f_equal (fun z => Z.testbit z n) IH) as I1.
      pose proof (f_equal (fun z => Z.testbit z n) E) as I2.
      cbv beta in I1, I2. rewrite Z.land_spec in I1, I2.
      destruct (Z.testbit (castling b') n), (Z.testbit (castling b1) n),
        (Z.testbit (castling b) n); cbn in *; congruence. }
  split; [exact S|]. intros right Hr E. apply Hr.
  rewrite <- S, <- Z.land_assoc, E. apply Z.land_0_r.
Qed.

Lemma castling_rights_never_return_witness :
  Z.land (castling castle_e1g1) (castling castle_board) = castling castle_e1g1.
Proof.
  apply (castling_rights_never_return castle_board [e1g1] castle_e1g1).
  vm_compute. reflexivity.
Defined.

(** * [MakeMove] looks at the position only *)

Lemma move_piece_num_moves b n piece side f t :
  move_piece (with_num_moves b n) piece side f t =
  option_map (fun r => with_num_moves r n) (move_piece b piece side f t).
Proof.
  unfold move_piece. cbn [bitboards with_num_moves].
  destruct (amod (bitboards b) piece _); reflexivity.
Qed.

Lemma promote_num_moves b n piece promoted t :
  promote (with_num_moves b n) piece promoted t =
  option_map (fun r => with_num_moves r n) (promote b piece promoted t).
Proof.
  unfold promote. cbn [bitboards with_num_moves].
  destruct (amod (bitboards b) piece _) as [x|]; cbn [bind]; [|reflexivity].
  destruct (amod x promoted _); reflexivity.
Qed.

Lemma capture_enpassant_num_moves b n side t :
  capture_enpassant (with_num_moves b n) side t =
  option_map (fun r => with_num_moves r n) (capture_enpassant b side t).
Proof.
  unfold capture_enpassant. destruct (valid_shift _); reflexivity.
Qed.

Lemma castle_rook_num_moves b n t :
  castle_rook (with_num_moves b n) t = with_num_moves (castle_rook b t) n.
Proof.
  unfold castle_rook.
  repeat match goal with
         | |- context [if ?c then _ else _] => destruct c
         end; reflexivity.
Qed.

Lemma MakeMove_update_num_moves (b : ChessBoard) (n m : Z) :
  MakeMove_update (with_num_moves b n) m =
  option_map (fun r => with_num_moves r n) (MakeMove_update b m).
Proof.
  unfold MakeMove_update.
  change (copyBoard (with_num_moves b n))
    with (with_num_moves (copyBoard b) n).
  rewrite move_piece_num_moves.
  destruct (move_piece (copyBoard b) _ _ _ _) as [b1|];
    cbn [option_map bind]; [|reflexivity].
  set (side := if get_move_piece m <? 6 then white else black).
  set (b2 := if nonzero (get_move_capture m)
             then capture_piece b1 side (get_move_target m) else b1).
  replace (if nonzero (get_move_capture m)
           then capture_piece (with_num_moves b1 n) side (get_move_target m)
           else with_num_moves b1 n)
    with (with_num_moves b2 n)
    by (unfold b2; destruct (nonzero (get_move_capture m)); reflexivity).
  assert (E3 : (if nonzero (get_move_promoted m)
                then promote (with_num_moves b2 n) (get_move_piece m)
                       (get_move_promoted m) (get_move_target m)
                else Some (with_num_moves b2 n)) =
               option_map (fun r => with_num_moves r n)
                 (if nonzero (get_move_promoted m)
                  then promote b2 (get_move_piece m) (get_move_promoted m)
                         (get_move_target m)
                  else Some b2)).
  { destruct (nonzero (get_move_promoted m));
      [apply promote_num_moves | reflexivity]. }
  rewrite E3. clear E3.
  destruct (if nonzero (get_move_promoted m)
            then promote b2 (get_move_piece m) (get_move_promoted m)
                   (get_move_target m)
            else Some b2) as [b3|];
    cbn [option_map bind]; [|reflexivity].
  assert (E4 : (if nonzero (get_move_enpassant m)
                then capture_enpassant (with_num_moves b3 n) side
                       (get_move_target m)
                else Some (with_num_moves b3 n)) =
               option_map (fun r => with_num_moves r n)
                 (if nonzero (get_move_enpassant m)
                  then capture_enpassant b3 side (get_move_target m)
                  else Some b3)).
  { destruct (nonzero (get_move_enpassant m));
      [apply capture_enpassant_num_moves | reflexivity]. }
  rewrite E4. clear E4.
  destruct (if nonzero (get_move_enpassant m)
            then capture_enpassant b3 side (get_move_target m)
            else Some b3) as [b4|];
    cbn [option_map bind]; [|reflexivity].
  destruct (nonzero (get_move_castling m));
    [rewrite castle_rook_num_moves|]; reflexivity.
Qed.

Lemma MakeMove_num_moves (b : ChessBoard) (n m : Z) :
  MakeMove (with_num_moves b n) m = option_map (renumber n) (MakeMove b m).
Proof.
  unfold MakeMove. rewrite MakeMove_update_num_moves.
  destruct (MakeMove_update b m) as [b2|]; cbn [option_map bind];
    [|reflexivity].
  change (isThereCheck (with_num_moves b2 n))
    with (isThereCheck b2).
  destruct (isThereCheck b2 _) as [c|]; cbn [option_map bind]; [|reflexivity].
  destruct c; cbn [option_map]; [reflexivity|].
  destruct (nonzero (get_move_double m)); reflexivity.
Qed.

Lemma MakeMove_copyBoard (b : ChessBoard) (m : Z) :
  MakeMove (copyBoard b) m = MakeMove b m.
Proof. reflexivity. Qed.

Lemma same_position_copyBoard (b1 b2 : ChessBoard) :
  same_position b1 b2 ->
  copyBoard b1 = with_num_moves (copyBoard b2) (num_moves b1).
Proof.
  intros (H1 & H2 & H3 & H4 & H5). unfold copyBoard, with_num_moves. cbn.
  rewrite H1, H2, H3, H4, H5. reflexivity.
Qed.

(** X14.  What [MakeMove] does depends on the position only: on two boards
    with the same bitboards, occupancies, side, en-passant square and
    castling rights it gives the same verdict and the same board, the move
    counter apart; the snapshot that is on the board when the call starts
    plays no part. *)
Theorem MakeMove_position_only (b1 b2 : ChessBoard) (m : Z) :
  same_position b1 b2 ->
  MakeMove b1 m = option_map (renumber (num_moves b1)) (MakeMove b2 m).
Proof.
  intros H. rewrite <- (MakeMove_copyBoard b1), <- (MakeMove_copyBoard b2).
  rewrite (same_position_copyBoard b1 b2 H). apply MakeMove_num_moves.
Qed.

Lemma MakeMove_position_only_witness :
  MakeMove (revertBoard start_e2e4) e2e4 =
  option_map (renumber 1) (MakeMove start_board e2e4).
Proof.
  apply (MakeMove_position_only (revertBoard start_e2e4) start_board e2e4).
  vm_compute. repeat split; reflexivity.
Defined.

(** * [countLegalMoves] and [undoLastMove] *)

Lemma same_position_trans (b1 b2 b3 : ChessBoard) :
  same_position b1 b2 -> same_position b2 b3 -> same_position b1 b3.
Proof.
  unfold same_position. intros (A1 & A2 & A3 & A4 & A5) (B1 & B2 & B3 & B4 & B5).
  repeat split; congruence.
Qed.

Lemma same_position_refl (b : ChessBoard) : same_position b b.
Proof. unfold same_position. repeat split; reflexivity. Qed.

Lemma U32_wrap_succ (x k : Z) :
  U32.wrap (U32.wrap (x + k) + 1) = U32.wrap (x + (k + 1)).
Proof.
  unfold U32.wrap. rewrite Z.add_mod_idemp_l by (unfold U32.modulus; lia).
  f_equal. lia.
Qed.

Lemma accepts_verdict (b : ChessBoard) (m : Z) (b' : ChessBoard) (ok : bool) :
  MakeMove b m = Some (b', ok) -> accepts b m = ok.
Proof. unfold accepts. intros ->. reflexivity. Qed.

Lemma count_legal_spec (b0 : ChessBoard) (ms : list Z) :
  forall (b : ChessBoard) (k legal : Z) (r : ChessBoard * Z),
    same_position b b0 ->
    num_moves b = U32.wrap (num_moves b0 + k) ->
    count_legal ms b legal = Some r ->
    same_position (fst r) b0 /\
    snd r = legal + Z.of_nat (length (filter (accepts b0) ms)) /\
    num_moves (fst r) =
      U32.wrap (num_moves b0 + (k + Z.of_nat (length (filter (accepts b0) ms)))).
Proof.
  induction ms as [|m ms IH]; intros b k legal r Hp Hn H;
    cbn [count_legal] in H.
  - injection H as <-. cbn [fst snd filter length].
    split; [exact Hp|]. split; [lia|]. rewrite Hn. f_equal. lia.
  - rewrite MakeMove_copyBoard in H.
    apply bind_Some in H. destruct H as ([b1 ok] & E & H).
    pose proof E as E'.
    rewrite (MakeMove_position_only b b0 m Hp) in E'.
    destruct (MakeMove b0 m) as [[c ok']|] eqn:E0; [|discriminate].
    cbn [option_map renumber fst snd] in E'. injection E' as _ Hok.
    cbn [filter]. rewrite (accepts_verdict b0 m c ok' E0), Hok.
    destruct ok.
    + destruct (MakeMove_accepted b m b1 E) as [A1 A2].
      apply (IH (revertBoard b1) (k + 1) (legal + 1) r) in H.
      * cbn [length]. destruct H as (R1 & R2 & R3).
        split; [exact R1|]. split; [lia|]. rewrite R3. f_equal. lia.
      * eapply same_position_trans; eassumption.
      * rewrite A2, Hn. apply U32_wrap_succ.
    + destruct (MakeMove_rejected b m b1 E) as [A1 A2].
      apply (IH b1 k legal r) in H; [exact H| |congruence].
      eapply same_position_trans; eassumption.
Qed.

(** X15.  [countLegalMoves] returns the number of generated moves that
    [MakeMove] accepts on the board of the call, and leaves the position
    as it was: bitboards, occupancies, side, en-passant square and castling
    rights.  The move counter is not restored: it has grown by the number
    it returns. *)
Theorem countLegalMoves_counts
    (st : Moves) (b : ChessBoard) (st' : Moves) (b' : ChessBoard) (n : Z) :
  U32.in_range (num_moves b) ->
  countLegalMoves st b = Some (st', b', n) ->
  generate_moves st b = Some st' /\
  n = Z.of_nat (length (filter (accepts b) (generated st'))) /\
  same_position b' b /\
  num_moves b' = U32.wrap (num_moves b + n).
Proof.
  intros Hr H. unfold countLegalMoves in H.
  apply bind_Some in H. destruct H as (st1 & E & H).
  apply bind_Some in H. destruct H as ([b1 k] & C & H).
  injection H as <- <- <-. split; [exact E|].
  destruct (count_legal_spec b (generated st1) b 0 0 (b1, k)
              (same_position_refl b)) as (R1 & R2 & R3); [|exact C|].
  - rewrite Z.add_0_r. symmetry. apply U32_wrap_small. exact Hr.
  - cbn [fst snd] in R1, R2, R3. split; [lia|]. split; [exact R1|].
    rewrite R3, R2. reflexivity.
Qed.

Lemma countLegalMoves_counts_witness :
  exists st' b',
    countLegalMoves (moves_filled 0) check_board = Some (st', b', 3) /\
    same_position b' check_board /\ num_moves b' = 3.
Proof.
  destruct (countLegalMoves (moves_filled 0) check_board)
    as [[[st' b'] n]|] eqn:E; [|vm_compute in E; discriminate].
  assert (Hn : n = 3).
  { assert (V : option_map snd
                  (countLegalMoves (moves_filled 0) check_board) = Some 3)
      by (vm_compute; reflexivity).
    rewrite E in V. injection V as V. exact V. }
  subst n.
  destruct (countLegalMoves_counts (moves_filled 0) check_board st' b' 3
              ltac:(vm_compute; split; [discriminate|reflexivity]) E)
    as (_ & _ & R3 & R4).
  exists st', b'. split; [reflexivity|]. split; [exact R3 | exact R4].
Defined.

Lemma MakeMove_rejected_snapshot (b : ChessBoard) (m : Z) (b' : ChessBoard) :
  MakeMove b m = Some (b', false) -> revertBoard b' = b'.
Proof.
  unfold MakeMove. intros H.
  apply bind_Some in H. destruct H as (b2 & _ & H).
  apply bind_Some in H. destruct H as (c & _ & H).
  destruct c; [|discriminate]. injection H as <-. reflexivity.
Qed.

(** X16.  [undoLastMove] goes back one accepted move and no further.  An
    accepted move counts the move counter up by one as a 32-bit value, and
    [undoLastMove] looks at nothing but that counter: where it is not 0
    after the move, which is so for every counter below 2^32 - 1 before
    it, the position of before the move is restored; where it has wrapped
    to 0, the counter having been 2^32 - 1, the board stays as the move
    has made it.  A second call changes nothing more; on a board whose
    counter is 0 the call does nothing; and since every call of
    [MakeMove] takes a new snapshot, after a rejected move the position is
    the one on which that move was tried, not the one before the last
    accepted move. *)
Theorem undoLastMove_one_level
    (b : ChessBoard) (m m2 : Z) (b1 b2 : ChessBoard) :
  MakeMove b m = Some (b1, true) ->
  num_moves b1 = U32.wrap (num_moves b + 1) /\
  (num_moves b1 <> 0 -> same_position (undoLastMove b1) b) /\
  (num_moves b1 = 0 -> undoLastMove b1 = b1) /\
  (0 <= num_moves b < 2 ^ 32 - 1 -> same_position (undoLastMove b1) b) /\
  (num_moves b = 2 ^ 32 - 1 -> undoLastMove b1 = b1) /\
  undoLastMove (undoLastMove b1) = undoLastMove b1 /\
  (num_moves b = 0 -> undoLastMove b = b) /\
  (MakeMove b1 m2 = Some (b2, false) -> same_position (undoLastMove b2) b1).
Proof.
  intros H. destruct (MakeMove_accepted b m b1 H) as [A1 A2].
  change (num_moves (revertBoard b1)) with (num_moves b1) in A2.
  assert (Undone : num_moves b1 <> 0 -> same_position (undoLastMove b1) b).
  { intros N. apply Z.eqb_neq in N. unfold undoLastMove. rewrite N.
    exact A1. }
  assert (Kept : num_moves b1 = 0 -> undoLastMove b1 = b1).
  { intros N. unfold undoLastMove. rewrite N. reflexivity. }
  split; [exact A2|]. split; [exact Undone|]. split; [exact Kept|].
  split; [|split; [|split; [|split]]].
  - intros Hn. apply Undone. rewrite A2, U32_wrap_small; lia.
  - intros Hn. apply Kept. rewrite A2, Hn. reflexivity.
  - unfold undoLastMove. destruct (num_moves b1 =? 0) eqn:Z1; cbn [negb].
    + rewrite Z1. reflexivity.
    + change (num_moves (revertBoard b1)) with (num_moves b1). rewrite Z1.
      reflexivity.
  - intros E. unfold undoLastMove. rewrite E. reflexivity.
  - intros R. destruct (MakeMove_rejected b1 m2 b2 R) as [R1 R2].
    unfold undoLastMove. rewrite R2.
    destruct (num_moves b1 =? 0); cbn [negb]; [exact R1|].
    rewrite (MakeMove_rejected_snapshot b1 m2 b2 R). exact R1.
Qed.

Lemma undoLastMove_one_level_witness :
  same_position (undoLastMove start_e2e4) start_board /\
  (num_moves late_e2e4 = 0 /\ undoLastMove late_e2e4 = late_e2e4).
Proof.
  split.
  - refine (proj1 (proj2 (proj2 (proj2
      (undoLastMove_one_level start_board e2e4 0 start_e2e4 start_e2e4 _))))
      _).
    + vm_compute. reflexivity.
    + vm_compute. split; [discriminate|reflexivity].
  - split; [reflexivity|].
    refine (proj1 (proj2 (proj2 (proj2 (proj2
      (undoLastMove_one_level late_board e2e4 0 late_e2e4 late_e2e4 _)))))
      _).
    + vm_compute. reflexivity.
    + reflexivity.
Defined.

(** * Move strings *)

(** X17.  The name of a square, read the way [parseMove] reads the first two
    characters of a move string, is the square again. *)
Theorem square_name_round_trip (square : Z) :
  0 <= square < 64 ->
  exists c0 c1,
    char_at (square_name square) 0 = Some c0 /\
    char_at (square_name square) 1 = Some c1 /\
    char_at (square_name square) 2 = Some 0 /\
    square_of_chars c0 c1 = square.
Proof.
  intros H.
  pose proof (proj1 (forallb_forall
    (fun sq => match char_at (square_name sq) 0,
                     char_at (square_name sq) 1,
                     char_at (square_name sq) 2 with
               | Some c0, Some c1, Some 0 => square_of_chars c0 c1 =? sq
               | _, _, _ => false
               end) squares)
    ltac:(vm_compute; reflexivity) square (proj2 (In_squares square) H)) as T.
  cbv beta in T.
  destruct (char_at (square_name square) 0) as [c0|]; [|discriminate].
  destruct (char_at (square_name square) 1) as [c1|]; [|discriminate].
  destruct (char_at (square_name square) 2) as [[| |]|]; try discriminate.
  exists c0, c1. apply Z.eqb_eq in T. repeat split; assumption.
Qed.

Lemma square_name_round_trip_witness :
  exists c0 c1,
    char_at (square_name e1) 0 = Some c0 /\
    char_at (square_name e1) 1 = Some c1 /\
    char_at (square_name e1) 2 = Some 0 /\
    square_of_chars c0 c1 = e1.
Proof. apply square_name_round_trip. unfold e1. lia. Defined.

(** ** [parseMove] *)

(** With a readable fifth character the loop of [parseMove] returns the
    first slot that fits, or 0. *)
Lemma match_move_find (slots : list Z) (s : string) (from to c4 : Z) :
  char_at s 4 = Some c4 ->
  match_move slots s from to =
  Some (match find (fits from to c4) slots with
        | Some m => m
        | None => 0
        end).
Proof.
  intros H4. induction slots as [|m slots IH]; cbn [match_move find];
    [reflexivity|].
  unfold fits at 1.
  destruct ((from =? get_move_source m) && (to =? get_move_target m));
    cbn [andb]; [|exact IH].
  destruct (nonzero (get_move_promoted m)); [|reflexivity].
  unfold promotion_letter, letter_fits. rewrite H4.
  destruct ((get_move_promoted m =? WQ) || (get_move_promoted m =? BQ));
    cbn [bind andb orb];
    [destruct (c4 =? ch "q"); cbn [orb]; [reflexivity|]|];
    (destruct ((get_move_promoted m =? WR) || (get_move_promoted m =? BR));
     cbn [bind andb orb];
     [destruct (c4 =? ch "r"); cbn [orb]; [reflexivity|]|]);
    (destruct ((get_move_promoted m =? WB) || (get_move_promoted m =? BB));
     cbn [bind andb orb];
     [destruct (c4 =? ch "b"); cbn [orb]; [reflexivity|]|]);
    (destruct ((get_move_promoted m =? WN) || (get_move_promoted m =? BN));
     cbn [bind andb orb];
     [destruct (c4 =? ch "n"); cbn [orb]; [reflexivity|]|]);
    exact IH.
Qed.

Lemma find_firstn {A : Type} (f : A -> bool) (l : list A) (n : nat) (x : A) :
  In x (firstn n l) -> f x = true ->
  exists y, find f l = Some y /\ In y (firstn n l) /\ f y = true.
Proof.
  revert n. induction l as [|a l IH]; intros n Hin Hx.
  - rewrite firstn_nil in Hin. contradiction.
  - destruct n as [|n]; [contradiction|]. cbn [firstn find] in *.
    destruct (f a) eqn:Fa.
    + exists a. split; [reflexivity|]. split; [left; reflexivity | exact Fa].
    + destruct Hin as [->|Hin]; [congruence|].
      destruct (IH n Hin Hx) as (y & E & Hy & Fy).
      exists y. split; [exact E|]. split; [right; exact Hy | exact Fy].
Qed.

(** The characters of a printed move. *)
Lemma printed_chars (from to : Z) :
  0 <= from < 64 -> 0 <= to < 64 ->
  exists c0 c1 c2 c3,
    char_at (square_name from ++ square_name to) 0 = Some c0 /\
    char_at (square_name from ++ square_name to) 1 = Some c1 /\
    char_at (square_name from ++ square_name to) 2 = Some c2 /\
    char_at (square_name from ++ square_name to) 3 = Some c3 /\
    char_at (square_name from ++ square_name to) 4 = Some 0 /\
    square_of_chars c0 c1 = from /\ square_of_chars c2 c3 = to.
Proof.
  intros Hf Ht.
  pose proof (agree_on_squares_spec
    (fun f t =>
       let s := (square_name f ++ square_name t)%string in
       match char_at s 0, char_at s 1, char_at s 2, char_at s 3, char_at s 4
       with
       | Some c0, Some c1, Some c2, Some c3, Some 0 =>
           (square_of_chars c0 c1 =? f) && (square_of_chars c2 c3 =? t)
       | _, _, _, _, _ => false
       end)
    (fun _ _ => true) ltac:(vm_compute; reflexivity) from to Hf Ht) as T.
  cbv beta zeta in T.
  destruct (char_at _ 0) as [c0|]; [|discriminate].
  destruct (char_at _ 1) as [c1|]; [|discriminate].
  destruct (char_at _ 2) as [c2|]; [|discriminate].
  destruct (char_at _ 3) as [c3|]; [|discriminate].
  destruct (char_at _ 4) as [[| |]|]; try discriminate.
  apply andb_true_iff in T. destruct T as [T1 T2].
  apply Z.eqb_eq in T1. apply Z.eqb_eq in T2.
  exists c0, c1, c2, c3. repeat split; assumption.
Qed.

(** X19.  What [print_move] writes for a generated move, [parseMove] reads
    back on the same board as a generated move with the same two squares
    and without promoted piece. *)
Theorem printed_move_parses
    (st : Moves) (b : ChessBoard) (st' : Moves) (m : Z) (s : string) :
  generate_moves st b = Some st' ->
  In m (generated st') ->
  print_move m = Some s ->
  exists m',
    parseMove st b s = Some (st', m') /\
    In m' (generated st') /\
    get_move_source m' = get_move_source m /\
    get_move_target m' = get_move_target m /\
    get_move_promoted m' = 0.
Proof.
  intros Hg Hin Hp. unfold print_move in Hp.
  destruct (nonzero (get_move_promoted m)) eqn:Np; [discriminate|].
  injection Hp as <-.
  destruct (printed_chars (get_move_source m) (get_move_target m)
              (get_move_source_range m) (get_move_target_range m))
    as (c0 & c1 & c2 & c3 & H0 & H1 & H2 & H3 & H4 & Ef & Et).
  unfold parseMove. rewrite Hg. cbn [bind]. rewrite H0, H1, H2, H3.
  cbn [bind].
  change ((c0 - ch "a") + (8 - (c1 - ch "0")) * 8)
    with (square_of_chars c0 c1).
  change ((c2 - ch "a") + (8 - (c3 - ch "0")) * 8)
    with (square_of_chars c2 c3).
  rewrite (match_move_find _ _ _ _ 0 H4), Ef, Et. cbn [bind].
  assert (Hf : fits (get_move_source m) (get_move_target m) 0 m = true).
  { unfold fits. rewrite !Z.eqb_refl, Np. reflexivity. }
  unfold generated in Hin.
  destruct (find_firstn _ _ _ m Hin Hf) as (y & E & Hy & Fy).
  rewrite E. exists y. split; [reflexivity|]. split; [exact Hy|].
  unfold fits in Fy. apply andb_true_iff in Fy. destruct Fy as [Fy F3].
  apply andb_true_iff in Fy. destruct Fy as [F1 F2].
  apply Z.eqb_eq in F1. apply Z.eqb_eq in F2.
  split; [congruence|]. split; [congruence|].
  destruct (nonzero (get_move_promoted y)) eqn:Ny.
  - unfold letter_fits in F3.
    change (0 =? ch "q") with false in F3. change (0 =? ch "r") with false in F3.
    change (0 =? ch "b") with false in F3. change (0 =? ch "n") with false in F3.
    rewrite !andb_false_r in F3. discriminate.
  - apply nonzero_false. exact Ny.
Qed.

Lemma printed_move_parses_witness :
  exists m',
    parseMove (moves_filled 0) castle_board "e1g1" = Some (castle_moves, m') /\
    In m' (generated castle_moves) /\
    get_move_source m' = get_move_source e1g1 /\
    get_move_target m' = get_move_target e1g1 /\
    get_move_promoted m' = 0.
Proof.
  apply (printed_move_parses (moves_filled 0) castle_board castle_moves e1g1).
  - vm_compute. reflexivity.
  - vm_compute. repeat (try (left; reflexivity); right).
  - reflexivity.
Defined.

From Stdlib Require Import Permutation.

(** * The order of the moves *)

(** ** Swaps in an array *)

Lemma length_swap (a : list Z) (i j : nat) : length (swap a i j) = length a.
Proof. unfold swap. rewrite !length_list_set. reflexivity. Qed.

Lemma nth_swap (a : list Z) (i j k : nat) :
  (i < length a)%nat -> (j < length a)%nat ->
  nth k (swap a i j) 0 =
  if Nat.eqb k j then nth i a 0
  else if Nat.eqb k i then nth j a 0 else nth k a 0.
Proof.
  intros Hi Hj. unfold swap.
  rewrite nth_list_set by (rewrite length_list_set; exact Hj).
  destruct (Nat.eqb k j); [reflexivity|].
  apply nth_list_set. exact Hi.
Qed.

Lemma perm_list_set (a : list Z) (k : nat) (x : Z) :
  (k < length a)%nat ->
  Permutation (nth k a 0 :: list_set a k x) (x :: a).
Proof.
  revert k. induction a as [|h t IH]; intros [|k] H; cbn in H; try lia.
  - cbn. apply perm_swap.
  - cbn [nth list_set].
    apply (perm_trans (perm_swap _ _ _)).
    apply (perm_trans (perm_skip h (IH k ltac:(lia)))).
    apply perm_swap.
Qed.

Lemma swap_perm (a : list Z) (i j : nat) :
  (i < length a)%nat -> (j < length a)%nat -> i <> j ->
  Permutation (swap a i j) a.
Proof.
  intros Hi Hj Hij. unfold swap.
  apply (Permutation_cons_inv (a := nth j a 0)).
  pose proof (perm_list_set (list_set a i (nth j a 0)) j (nth i a 0)) as P1.
  rewrite length_list_set, nth_list_set_neq in P1 by assumption.
  apply (perm_trans (P1 Hj)). apply perm_list_set. exact Hi.
Qed.

Lemma firstn_list_set_lt (a : list Z) (k n : nat) (v : Z) :
  (k < n)%nat -> firstn n (list_set a k v) = list_set (firstn n a) k v.
Proof.
  revert k n. induction a as [|h t IH]; intros k n H.
  - destruct k; rewrite !firstn_nil; reflexivity.
  - destruct n as [|n]; [lia|]. destruct k as [|k]; cbn; [reflexivity|].
    f_equal. apply IH. lia.
Qed.

Lemma skipn_list_set_lt (a : list Z) (k n : nat) (v : Z) :
  (k < n)%nat -> skipn n (list_set a k v) = skipn n a.
Proof.
  revert k n. induction a as [|h t IH]; intros k n H.
  - destruct k; reflexivity.
  - destruct n as [|n]; [lia|]. destruct k as [|k]; cbn; [reflexivity|].
    apply IH. lia.
Qed.

Lemma nth_firstn_lt (a : list Z) (k n : nat) :
  (k < n)%nat -> nth k (firstn n a) 0 = nth k a 0.
Proof.
  revert k n. induction a as [|h t IH]; intros k n H.
  - rewrite firstn_nil. reflexivity.
  - destruct n as [|n]; [lia|]. destruct k as [|k]; cbn; [reflexivity|].
    apply IH. lia.
Qed.

Lemma firstn_swap (a : list Z) (i j n : nat) :
  (i < n)%nat -> (j < n)%nat ->
  firstn n (swap a i j) = swap (firstn n a) i j.
Proof.
  intros Hi Hj. unfold swap.
  rewrite !firstn_list_set_lt, !nth_firstn_lt by assumption. reflexivity.
Qed.

Lemma skipn_swap (a : list Z) (i j n : nat) :
  (i < n)%nat -> (j < n)%nat -> skipn n (swap a i j) = skipn n a.
Proof.
  intros Hi Hj. unfold swap. rewrite !skipn_list_set_lt by assumption.
  reflexivity.
Qed.

(** ** The two loops *)

Section Sorting.

Variable score : Z -> option Z.
Variable n : nat.
Variable moves0 : list Z.
Hypothesis Hn : (n <= length moves0)%nat.

(** What every exchange keeps: the sizes, the score of every move beside
    it, the moves of the first [n] slots as a collection, and the slots
    behind them. *)
Let paired (st : list Z * list Z) : Prop :=
  length (fst st) = n /\ length (snd st) = length moves0 /\
  (forall i, (i < n)%nat -> score (nth i (snd st) 0) = Some (nth i (fst st) 0)) /\
  Permutation (firstn n (snd st)) (firstn n moves0) /\
  skipn n (snd st) = skipn n moves0.

(** The slots before [c] hold scores that no later slot exceeds. *)
Let settled (c : nat) (sc : list Z) : Prop :=
  forall i j, (i < c)%nat -> (i <= j < n)%nat -> nth j sc 0 <= nth i sc 0.

(** The slot [c] holds a score that no slot between it and [k] exceeds. *)
Let leading (c k : nat) (sc : list Z) : Prop :=
  forall j, (c < j < k)%nat -> nth j sc 0 <= nth c sc 0.

Lemma sort_step_inv (c k : nat) (st : list Z * list Z) :
  (c < k < n)%nat ->
  paired st -> settled c (fst st) -> leading c k (fst st) ->
  paired (sort_step c st k) /\ settled c (fst (sort_step c st k)) /\
  leading c (S k) (fst (sort_step c st k)).
Proof.
  intros Hk (L1 & L2 & P & Q & R) S T. destruct st as [sc mv].
  cbn [fst snd] in *. unfold sort_step.
  unfold paired, settled, leading in *.
  destruct (Z.ltb_spec (nth c sc 0) (nth k sc 0)) as [Lt|Ge]; cbn [fst snd].
  - assert (N : forall x, nth x (swap sc c k) 0 =
                          if Nat.eqb x k then nth c sc 0
                          else if Nat.eqb x c then nth k sc 0 else nth x sc 0)
      by (intros x; apply nth_swap; lia).
    assert (M : forall x, nth x (swap mv c k) 0 =
                          if Nat.eqb x k then nth c mv 0
                          else if Nat.eqb x c then nth k mv 0 else nth x mv 0)
      by (intros x; apply nth_swap; lia).
    split; [split; [|split; [|split; [|split]]]|split].
    + rewrite length_swap. exact L1.
    + rewrite length_swap. exact L2.
    + intros i Hi. rewrite N, M.
      destruct (Nat.eqb i k); [apply P; lia|].
      destruct (Nat.eqb i c); apply P; lia.
    + rewrite firstn_swap by lia.
      assert (Lf : length (firstn n mv) = n)
        by (rewrite length_firstn; lia).
      apply (perm_trans (swap_perm (firstn n mv) c k
                           ltac:(lia) ltac:(lia) ltac:(lia))).
      exact Q.
    + rewrite skipn_swap by lia. exact R.
    + intros i j Hi Hj. rewrite !N.
      destruct (Nat.eqb_spec i k); [lia|].
      destruct (Nat.eqb_spec i c); [lia|].
      destruct (Nat.eqb_spec j k); [apply S; lia|].
      destruct (Nat.eqb_spec j c); apply S; lia.
    + intros j Hj. rewrite !N. rewrite Nat.eqb_refl.
      destruct (Nat.eqb_spec c k); [lia|].
      destruct (Nat.eqb_spec j k) as [->|Hjk]; [lia|].
      destruct (Nat.eqb_spec j c); [lia|].
      specialize (T j ltac:(lia)). lia.
  - split; [repeat split; assumption|]. split; [exact S|].
    intros j Hj. destruct (Nat.eq_dec j k) as [->|Hjk]; [lia|].
    apply T. lia.
Qed.

Lemma sort_inner_fold (c : nat) :
  forall (len k : nat) (st : list Z * list Z),
    (c < k)%nat -> (k + len = n)%nat ->
    paired st -> settled c (fst st) -> leading c k (fst st) ->
    paired (fold_left (sort_step c) (seq k len) st) /\
    settled c (fst (fold_left (sort_step c) (seq k len) st)) /\
    leading c n (fst (fold_left (sort_step c) (seq k len) st)).
Proof.
  induction len as [|len IH]; intros k st Hc Hk P S T; cbn [seq fold_left].
  - assert (E : k = n) by lia. subst k. split; [|split]; assumption.
  - destruct (sort_step_inv c k st ltac:(lia) P S T) as (P' & S' & T').
    apply IH; try assumption; lia.
Qed.

Lemma sort_inner_inv (c : nat) (st : list Z * list Z) :
  (c < n)%nat -> paired st -> settled c (fst st) ->
  paired (sort_inner n st c) /\ settled (S c) (fst (sort_inner n st c)).
Proof.
  intros Hc P S. unfold sort_inner.
  destruct (sort_inner_fold c (n - (c + 1)) (c + 1) st
              ltac:(lia) ltac:(lia) P S) as (P' & S' & T').
  { intros j Hj. lia. }
  split; [exact P'|].
  intros i j Hi Hj. destruct (Nat.eq_dec i c) as [->|Hic].
  - destruct (Nat.eq_dec j c) as [->|Hjc]; [lia|]. apply T'. lia.
  - apply S'; lia.
Qed.

Lemma sort_loops_fold :
  forall (len c : nat) (st : list Z * list Z),
    (c + len = n)%nat -> paired st -> settled c (fst st) ->
    paired (fold_left (sort_inner n) (seq c len) st) /\
    settled n (fst (fold_left (sort_inner n) (seq c len) st)).
Proof.
  induction len as [|len IH]; intros c st Hc P S; cbn [seq fold_left].
  - assert (E : c = n) by lia. subst c. split; assumption.
  - destruct (sort_inner_inv c st ltac:(lia) P S) as (P' & S').
    apply IH; try assumption; lia.
Qed.

Lemma mapM_nth (l : list Z) (sc : list Z) :
  mapM score l = Some sc ->
  length sc = length l /\
  forall i, (i < length l)%nat -> score (nth i l 0) = Some (nth i sc 0).
Proof.
  revert sc. induction l as [|x l IH]; intros sc H; cbn [mapM] in H.
  - injection H as <-. split; [reflexivity|]. cbn. intros i Hi. lia.
  - apply bind_Some in H. destruct H as (y & Ey & H).
    apply bind_Some in H. destruct H as (ys & Eys & H). injection H as <-.
    destruct (IH ys Eys) as [L N]. split; [cbn; lia|].
    intros [|i] Hi; cbn in *; [exact Ey|]. apply N. lia.
Qed.

Lemma nth_mapM (l : list Z) (sc : list Z) :
  length sc = length l ->
  (forall i, (i < length l)%nat -> score (nth i l 0) = Some (nth i sc 0)) ->
  mapM score l = Some sc.
Proof.
  revert sc. induction l as [|x l IH]; intros sc L N.
  - destruct sc; [reflexivity|discriminate].
  - destruct sc as [|y ys]; [discriminate|]. cbn [mapM].
    pose proof (N 0%nat ltac:(cbn; lia)) as N0. cbn [nth] in N0.
    rewrite N0. cbn [bind].
    rewrite (IH ys); [reflexivity | cbn in L; lia |].
    intros i Hi. apply (N (S i)). cbn. lia.
Qed.

Lemma sort_loops_sorted (sc0 : list Z) :
  mapM score (firstn n moves0) = Some sc0 ->
  let r := sort_loops n (sc0, moves0) in
  length (snd r) = length moves0 /\
  Permutation (firstn n (snd r)) (firstn n moves0) /\
  skipn n (snd r) = skipn n moves0 /\
  mapM score (firstn n (snd r)) = Some (fst r) /\
  descending (fst r).
Proof.
  intros H r. apply mapM_nth in H. destruct H as [L N].
  rewrite length_firstn, Nat.min_l in L, N by exact Hn.
  assert (P0 : paired (sc0, moves0)).
  { split; [exact L|]. split; [reflexivity|]. split; [|split].
    - intros i Hi. cbn [fst snd]. rewrite <- N by exact Hi.
      rewrite nth_firstn_lt by exact Hi. reflexivity.
    - apply Permutation_refl.
    - reflexivity. }
  destruct (sort_loops_fold n 0 (sc0, moves0) ltac:(lia) P0)
    as ((L1 & L2 & P & Q & R) & S).
  { intros i j Hi. lia. }
  fold (sort_loops n (sc0, moves0)) in L1, L2, P, Q, R, S. fold r in L1, L2, P, Q, R, S.
  split; [exact L2|]. split; [exact Q|]. split; [exact R|]. split.
  - apply nth_mapM.
    + rewrite length_firstn, Nat.min_l by lia. exact L1.
    + intros i Hi. rewrite length_firstn, Nat.min_l in Hi by lia.
      rewrite nth_firstn_lt by exact Hi. apply P. exact Hi.
  - intros i j Hij. rewrite L1 in Hij.
    destruct (Nat.eq_dec i j) as [->|Hne]; [lia|]. apply S; lia.
Qed.

End Sorting.

(** X20.  [sortMoves] puts the generated moves into an order in which no move
    has a higher score than a move before it.  It only rearranges them:
    the generated moves are the same collection as before, and the count,
    the size of the array and the slots behind the generated moves are
    untouched.  It returns whenever [scoreMove] has a score for every
    generated move. *)
Theorem sortMoves_sorts
    (MVV_LVA : Z -> Z -> Z) (g : SearchTables) (board : ChessBoard)
    (st : Moves) (scores0 : list Z) :
  moves_ok st ->
  mapM (scoreMove MVV_LVA g board) (generated st) = Some scores0 ->
  exists st' scores,
    sortMoves MVV_LVA g board st = Some st' /\
    moves_count st' = moves_count st /\
    length (moves st') = MOVES_SIZE /\
    Permutation (generated st') (generated st) /\
    skipn (Z.to_nat (moves_count st)) (moves st') =
      skipn (Z.to_nat (moves_count st)) (moves st) /\
    mapM (scoreMove MVV_LVA g board) (generated st') = Some scores /\
    descending scores.
Proof.
  intros [L C] H. unfold sortMoves, sort_by. unfold generated in H.
  rewrite H. cbn [bind].
  assert (Hn : (Z.to_nat (moves_count st) <= length (moves st))%nat)
    by (rewrite L; unfold MOVES_SIZE; lia).
  pose proof (sort_loops_sorted (scoreMove MVV_LVA g board)
                (Z.to_nat (moves_count st)) (moves st) Hn scores0 H) as R.
  cbv zeta in R.
  destruct (sort_loops _ (scores0, moves st)) as [sc mv].
  cbn [fst snd] in R. destruct R as (R1 & R2 & R3 & R4 & R5).
  exists (mkMoves mv (moves_count st) (log st)), sc.
  unfold generated. cbn [moves moves_count].
  split; [reflexivity|]. split; [reflexivity|]. split; [congruence|].
  repeat split; assumption.
Qed.

Lemma sortMoves_sorts_witness :
  exists st' scores,
    sortMoves sample_MVV_LVA sample_search_tables check_board check_moves
      = Some st' /\
    Permutation (generated st') (generated check_moves) /\
    mapM (scoreMove sample_MVV_LVA sample_search_tables check_board)
         (generated st') = Some scores /\
    descending scores.
Proof.
  destruct (sortMoves_sorts sample_MVV_LVA sample_search_tables check_board
              check_moves [0; 10400; 0; 0; 0])
    as (st' & scores & R1 & _ & _ & R4 & _ & R6 & R7).
  - split; [reflexivity | vm_compute; split; discriminate].
  - vm_compute. reflexivity.
  - exists st', scores. repeat split; assumption.
Defined.

(** * The generator emits pseudo-legal moves only *)

Lemma add_promotions_adds_all (P : Z -> Prop) (st : Moves) (f t p : Z)
    (promotions : list Z) (c : Z) :
  Forall (fun pr => P (encode_move f t p pr c 0 0 0)) promotions ->
  adds P st (add_promotions st f t p promotions c).
Proof.
  intros H. unfold add_promotions.
  exists (map (fun pr => encode_move f t p pr c 0 0 0) promotions). split.
  - rewrite Forall_map. exact H.
  - generalize st. clear H.
    induction promotions as [|pr l IH]; intros st0; cbn; [reflexivity|].
    apply IH.
Qed.

Lemma testbit_lnot_u64 (x k : Z) :
  0 <= k < 64 -> Z.testbit (U64.not x) k = negb (Z.testbit x k).
Proof.
  intros Hk. rewrite testbit_not by lia.
  destruct (Z.ltb_spec k 64); [|lia]. apply xorb_true_r.
Qed.

Section Sound.

Variable b : ChessBoard.
Hypothesis Hb : wf_board b.
Variable side : Z.
Hypothesis Hside : side = white \/ side = black.

Lemma occ_in_range (c : nat) : U64.in_range (nth c (occupancy b) 0).
Proof. apply nth_in_range. apply Hb. Qed.

Lemma bb_in_range (p : nat) : U64.in_range (nth p (bitboards b) 0).
Proof. apply nth_in_range. apply Hb. Qed.

Lemma promoted_ok_forall (f : Z) (P : Z -> Prop) :
  promotion_rank side f = true ->
  (forall pr, promoted_ok side f pr -> P pr) ->
  Forall P (if side =? white then WHITE_PROMOTIONS else BLACK_PROMOTIONS).
Proof.
  intros Hr H. apply Forall_forall. intros pr Hin. apply H.
  unfold promoted_ok. rewrite Hr. exact Hin.
Qed.

Lemma pawn_pushes_sound (from : Z) (st : Moves) :
  0 <= from < 64 -> Z.testbit (bb b (pawn_of side)) from = true ->
  adds (pseudo_legal b side) st (pawn_pushes side (occupancy b) from st).
Proof.
  intros Hf Hp. unfold pawn_pushes.
  change (nth 2 (occupancy b) 0) with (occ b both).
  change (if side =? white then WP else BP) with (pawn_of side).
  change (if side =? white then -8 else 8) with (forward_step side).
  assert (Rp : (if side =? white
                then (from >=? a7) && (from <=? h7)
                else (from >=? a2) && (from <=? h2)) = promotion_rank side from).
  { unfold promotion_rank. rewrite !Z.geb_leb. reflexivity. }
  assert (Rs : (if side =? white
                then (from >=? a2) && (from <=? h2)
                else (from >=? a7) && (from <=? h7)) = start_rank side from).
  { unfold start_rank. rewrite !Z.geb_leb. reflexivity. }
  rewrite Rp, Rs.
  case_if Epush; [|apply adds_refl].
  apply andb_true_iff in Epush. destruct Epush as [Ea Ee].
  assert (Ht : 0 <= from + forward_step side < 64).
  { unfold forward_step in *. destruct Hside as [-> | ->];
      cbn [Z.eqb white black] in *; squares_unfold; bools; lia. }
  apply negb_true_iff in Ee. rewrite get_bit_spec in Ee by lia.
  case_if Epromo.
  - apply add_promotions_adds_all.
    apply (promoted_ok_forall from); [exact Epromo|].
    intros pr Hpr. apply pl_push; assumption.
  - assert (P1 : pseudo_legal b side
                   (encode_move from (from + forward_step side) (pawn_of side)
                                0 0 0 0 0)).
    { apply pl_push; try assumption. unfold promoted_ok. rewrite Epromo.
      reflexivity. }
    case_if Edouble; [|apply adds_one; exact P1].
    apply adds_step; [apply adds_one; exact P1|].
    apply andb_true_iff in Edouble. destruct Edouble as [Es E2].
    apply negb_true_iff in E2.
    assert (Ht2 : 0 <= from + forward_step side + forward_step side).
    { unfold start_rank, forward_step in *. destruct Hside as [-> | ->];
        cbn [Z.eqb white black] in *; squares_unfold; bools; lia. }
    rewrite get_bit_spec in E2 by exact Ht2.
    apply pl_double; assumption.
Qed.

Lemma pawn_captures_sound (from : Z) (st st' : Moves) :
  0 <= from < 64 -> Z.testbit (bb b (pawn_of side)) from = true ->
  pawn_captures side (occupancy b) from st = Some st' ->
  adds (pseudo_legal b side) st st'.
Proof.
  intros Hf Hp. unfold pawn_captures.
  change (nth (Z.to_nat (Z.lxor side 1)) (occupancy b) 0)
    with (occ b (Z.lxor side 1)).
  change (if side =? white then WP else BP) with (pawn_of side).
  assert (Rp : (if side =? white
                then (from >=? a7) && (from <=? h7)
                else (from >=? a2) && (from <=? h2)) = promotion_rank side from).
  { unfold promotion_rank. rewrite !Z.geb_leb. reflexivity. }
  rewrite Rp.
  apply (for_bits_inv (adds (pseudo_legal b side) st)).
  - apply land_in_range; [apply pawn_attacks_in_range|].
    apply (occ_in_range (Z.to_nat (Z.lxor side 1))).
  - intros t s1 s2 Ht Hbit H1 H2. injection H2 as <-.
    eapply adds_trans; [exact H1|].
    rewrite Z.land_spec in Hbit. apply andb_true_iff in Hbit.
    destruct Hbit as [Ha Ho].
    destruct (promotion_rank side from) eqn:Epromo.
    + apply add_promotions_adds_all.
      apply (promoted_ok_forall from); [exact Epromo|].
      intros pr Hpr. apply pl_capture; assumption.
    + apply adds_one. apply pl_capture; try assumption.
      unfold promoted_ok. rewrite Epromo. reflexivity.
  - apply adds_refl.
Qed.

Lemma pawn_enpassant_sound (from : Z) (st st' : Moves) :
  0 <= from < 64 -> Z.testbit (bb b (pawn_of side)) from = true ->
  pawn_enpassant b side from st = Some st' ->
  adds (pseudo_legal b side) st st'.
Proof.
  intros Hf Hp. unfold pawn_enpassant.
  change (if side =? white then WP else BP) with (pawn_of side).
  destruct (negb (enpassant b =? no_sq));
    [|intros H; injection H as <-; apply adds_refl].
  destruct (valid_shift (enpassant b)) eqn:Ev; [|discriminate].
  unfold valid_shift in Ev. apply andb_true_iff in Ev.
  destruct Ev as [E0 E1]. apply Z.leb_le in E0. apply Z.ltb_lt in E1.
  destruct (nonzero _) eqn:En;
    [|intros H; injection H as <-; apply adds_refl].
  intros H. inv_bind H. injection H as <-.
  apply bitScanForward_Some in E.
  2:{ apply land_in_range; [apply pawn_attacks_in_range|].
      unfold bit. apply Z.shiftl_nonneg. lia. }
  destruct E as (Hv & Hbit & _).
  rewrite Z.land_spec, testbit_bit in Hbit by lia.
  apply andb_true_iff in Hbit. destruct Hbit as [Ha He].
  apply Z.eqb_eq in He. subst v.
  apply adds_one. apply pl_enpassant; assumption.
Qed.

Lemma generateMovesPawns_sound (st st' : Moves) :
  generateMovesPawns b side (occupancy b) st = Some st' ->
  adds (pseudo_legal b side) st st'.
Proof.
  unfold generateMovesPawns.
  replace (if side =? white then bb b WP else bb b BP)
    with (bb b (pawn_of side))
    by (unfold pawn_of; destruct (side =? white); reflexivity).
  apply (for_bits_inv (adds (pseudo_legal b side) st)).
  - apply (bb_in_range (Z.to_nat (pawn_of side))).
  - intros from s1 s2 Hf Hbit H1 H2. unfold pawn_body in H2.
    inv_bind H2.
    eapply adds_trans; [exact H1|].
    eapply adds_trans; [apply pawn_pushes_sound; [exact Hf|exact Hbit]|].
    eapply adds_trans; [apply (pawn_captures_sound _ _ _ Hf Hbit E)|].
    apply (pawn_enpassant_sound _ _ _ Hf Hbit H2).
  - apply adds_refl.
Qed.

(** The inner loop of the kings and of the other pieces. *)
Lemma target_body_sound (p from attacks : Z) (st st' : Moves) :
  In p (officers side) ->
  0 <= from < 64 -> Z.testbit (bb b p) from = true ->
  attack_set p from (occ b both) = Some attacks ->
  for_bits 64 (Z.land attacks (U64.not (occ b side)))
           (target_body from p (occ b (Z.lxor side 1))) st = Some st' ->
  adds (pseudo_legal b side) st st'.
Proof.
  intros Hp Hf Hbit Ha.
  assert (Ra : U64.in_range attacks).
  { unfold attack_set in Ha. destruct (_ || _).
    - injection Ha as <-. apply king_attacks_in_range.
    - apply piece_attacks_in_range in Ha. exact Ha. }
  apply (for_bits_inv (adds (pseudo_legal b side) st)).
  - apply land_in_range; [exact Ra|]. apply not_nonneg.
    apply (occ_in_range (Z.to_nat side)).
  - intros t s1 s2 Ht Hb1 H1 H2. unfold target_body in H2.
    injection H2 as <-. eapply adds_trans; [exact H1|].
    rewrite Z.land_spec, testbit_lnot_u64 in Hb1 by exact Ht.
    apply andb_true_iff in Hb1. destruct Hb1 as [T1 T2].
    apply negb_true_iff in T2.
    pose proof (pl_piece b side p from t attacks Hp Hf Hbit Ht Ha T1 T2) as L.
    rewrite get_bit_spec by lia.
    destruct (Z.testbit (occ b (Z.lxor side 1)) t); cbn [negb];
      apply adds_one; exact L.
  - apply adds_refl.
Qed.

Lemma own_occupancy :
  (if side =? white then U64.not (nth 0 (occupancy b) 0)
   else U64.not (nth 1 (occupancy b) 0)) = U64.not (occ b side).
Proof. destruct Hside as [-> | ->]; reflexivity. Qed.

Lemma enemy_occupancy :
  (if side =? white then nth 1 (occupancy b) 0 else nth 0 (occupancy b) 0)
  = occ b (Z.lxor side 1).
Proof. destruct Hside as [-> | ->]; reflexivity. Qed.

Lemma king_steps_sound (st st' : Moves) :
  king_steps b side (occupancy b) st = Some st' ->
  adds (pseudo_legal b side) st st'.
Proof.
  unfold king_steps. rewrite own_occupancy, enemy_occupancy.
  set (king := if side =? white then WK else BK).
  replace (if side =? white then bb b WK else bb b BK) with (bb b king)
    by (unfold king; destruct (side =? white); reflexivity).
  assert (Hk : In king (officers side)).
  { unfold king, officers. destruct (side =? white); cbn; tauto. }
  assert (Ha : forall from, attack_set king from (occ b both)
                            = Some (king_attacks from)).
  { intros from. unfold attack_set, king.
    destruct (side =? white); reflexivity. }
  apply (for_bits_inv (adds (pseudo_legal b side) st)).
  - apply (bb_in_range (Z.to_nat king)).
  - intros from s1 s2 Hf Hbit H1 H2.
    eapply adds_trans; [exact H1|].
    exact (target_body_sound king from _ s1 s2 Hk Hf Hbit (Ha from) H2).
  - apply adds_refl.
Qed.

Lemma generateMovesPiece_sound (p : Z) (st st' : Moves) :
  In p (officers side) -> p <> WK -> p <> BK ->
  generateMovesPiece b (occupancy b) p st = Some st' ->
  adds (pseudo_legal b side) st st'.
Proof.
  intros Hp Nw Nb. unfold generateMovesPiece.
  assert (Hs : (p <? 6) = (side =? white)).
  { unfold officers in Hp. destruct Hside as [-> | ->]; cbn in Hp;
      repeat (destruct Hp as [<-|Hp]; [reflexivity|]); contradiction. }
  rewrite Hs, own_occupancy, enemy_occupancy.
  change (nth 2 (occupancy b) 0) with (occ b both).
  assert (Ha : forall from, attack_set p from (occ b both)
                            = piece_attacks p from (occ b both)).
  { intros from. unfold attack_set.
    destruct (Z.eqb_spec p WK); [contradiction|].
    destruct (Z.eqb_spec p BK); [contradiction|]. reflexivity. }
  apply (for_bits_inv (adds (pseudo_legal b side) st)).
  - apply (bb_in_range (Z.to_nat p)).
  - intros from s1 s2 Hf Hbit H1 H2. inv_bind H2.
    eapply adds_trans; [exact H1|].
    rewrite <- Ha in E.
    exact (target_body_sound p from v s1 s2 Hp Hf Hbit E H2).
  - apply adds_refl.
Qed.

Lemma castle_kingside_sound (st st' : Moves) :
  castle_kingside b side st = Some st' -> adds (pseudo_legal b side) st st'.
Proof.
  unfold castle_kingside. intros H.
  destruct (nonzero _) eqn:E1 in H;
    [|injection H as <-; apply adds_refl].
  destruct (_ && _) eqn:E2 in H; [|injection H as <-; apply adds_refl].
  inv_bind H. destruct v; cbn [negb] in H;
    [injection H as <-; apply adds_refl|].
  inv_bind H. destruct v; cbn [negb] in H;
    [injection H as <-; apply adds_refl|].
  injection H as <-. apply adds_one.
  apply nonzero_true in E1. apply andb_true_iff in E2. destruct E2 as [E2 E3].
  apply negb_true_iff in E2, E3.
  assert (K : kingside_conditions b side).
  { unfold kingside_conditions, king_home.
    destruct (side =? white); repeat split; assumption. }
  apply pl_kingside in K. unfold kingside_castle, king_home, king_of in K.
  destruct (side =? white); exact K.
Qed.

Lemma castle_queenside_sound (st st' : Moves) :
  castle_queenside b side st = Some st' -> adds (pseudo_legal b side) st st'.
Proof.
  unfold castle_queenside. intros H.
  destruct (nonzero _) eqn:E1 in H;
    [|injection H as <-; apply adds_refl].
  destruct (_ && _) eqn:E2 in H; [|injection H as <-; apply adds_refl].
  inv_bind H. destruct v; cbn [negb] in H;
    [injection H as <-; apply adds_refl|].
  inv_bind H. destruct v; cbn [negb] in H;
    [injection H as <-; apply adds_refl|].
  injection H as <-. apply adds_one.
  apply nonzero_true in E1. apply andb_true_iff in E2. destruct E2 as [E2 E4].
  apply andb_true_iff in E2. destruct E2 as [E2 E3].
  apply negb_true_iff in E2, E3, E4.
  assert (K : queenside_conditions b side).
  { unfold queenside_conditions, king_home.
    destruct (side =? white); repeat split; assumption. }
  apply pl_queenside in K.
  unfold queenside_castle, king_home, king_of in K.
  destruct (side =? white); exact K.
Qed.

Lemma generateMovesKings_sound (st st' : Moves) :
  generateMovesKings b side (occupancy b) st = Some st' ->
  adds (pseudo_legal b side) st st'.
Proof.
  intros H. unfold generateMovesKings in H.
  inv_bind H. inv_bind H.
  eapply adds_trans; [apply (king_steps_sound _ _ E)|].
  eapply adds_trans; [apply (castle_kingside_sound _ _ E0)|].
  apply (castle_queenside_sound _ _ H).
Qed.

End Sound.

Ltac piece_sound b side Hb E :=
  apply (generateMovesPiece_sound b Hb side) in E;
  [exact E | (left + right); reflexivity | cbn; tauto
  | discriminate | discriminate].

(** Every generation is a run of [add_move] calls with pseudo-legal
    moves of the side to move. *)
Lemma generate_moves_sound (b : ChessBoard) (st st' : Moves) :
  wf_board b -> generate_moves st b = Some st' ->
  adds (pseudo_legal b (side_to_move b)) (reset_count st) st'.
Proof.
  intros Hb H. unfold generate_moves in H. unfold side_to_move.
  destruct (color b =? white);
    inv_bind H; inv_bind H; inv_bind H; inv_bind H; inv_bind H.
  - eapply adds_trans;
      [apply (generateMovesPawns_sound b Hb white (or_introl eq_refl) _ _ E)|].
    eapply adds_trans;
      [apply (generateMovesKings_sound b Hb white (or_introl eq_refl) _ _ E0)|].
    eapply adds_trans; [piece_sound b white Hb E1|].
    eapply adds_trans; [piece_sound b white Hb E2|].
    eapply adds_trans; [piece_sound b white Hb E3|].
    piece_sound b white Hb H.
  - eapply adds_trans;
      [apply (generateMovesPawns_sound b Hb black (or_intror eq_refl) _ _ E)|].
    eapply adds_trans;
      [apply (generateMovesKings_sound b Hb black (or_intror eq_refl) _ _ E0)|].
    eapply adds_trans; [piece_sound b black Hb E1|].
    eapply adds_trans; [piece_sound b black Hb E2|].
    eapply adds_trans; [piece_sound b black Hb E3|].
    piece_sound b black Hb H.
Qed.

(** X21.  Every generated move is a pseudo-legal move of the side to move: a
    pawn push onto an empty square (two squares from the start rank over
    two empty squares, with a promoted piece exactly from the rank before
    the last), a pawn capture of an opposing piece on a square the pawn
    attacks, an en-passant capture onto the en-passant square, a move of
    a knight, bishop, rook, queen or king within the attack set of the
    piece onto a square that its own side does not occupy, or a castling
    move under its conditions. *)
Theorem generated_moves_pseudo_legal
    (b : ChessBoard) (st st' : Moves) (m : Z) :
  wf_board b -> List.length (moves st) = MOVES_SIZE ->
  generate_moves st b = Some st' ->
  In m (generated st') ->
  pseudo_legal b (side_to_move b) m.
Proof.
  intros Hb Hl H Hin. apply generate_moves_sound in H; [|exact Hb].
  apply (adds_generated _ (reset_count st) st' m); try assumption.
  - apply reset_count_ok. exact Hl.
  - reflexivity.
Qed.

Lemma generated_moves_pseudo_legal_witness :
  pseudo_legal start_board white e2e4.
Proof.
  apply (generated_moves_pseudo_legal start_board (moves_filled 0)
           start_moves e2e4).
  - apply wf_boardb_spec. vm_compute. reflexivity.
  - reflexivity.
  - vm_compute. reflexivity.
  - vm_compute. repeat (try (left; reflexivity); right).
Defined.

(** ** What the fields of a generated move say about the board *)

Lemma promoted_ok_range (side f pr : Z) :
  promoted_ok side f pr -> 0 <= pr < 16.
Proof.
  unfold promoted_ok, promotions_of, WHITE_PROMOTIONS, BLACK_PROMOTIONS.
  destruct (promotion_rank side f); [|lia].
  destruct (side =? white); cbn; squares_unfold; lia.
Qed.

Lemma officers_range (side p : Z) : In p (officers side) -> 0 <= p < 12.
Proof.
  unfold officers. destruct (side =? white); cbn; squares_unfold; lia.
Qed.

Lemma pawn_of_range (side : Z) : 0 <= pawn_of side < 12.
Proof. unfold pawn_of. destruct (side =? white); squares_unfold; lia. Qed.

(** The fields of a pseudo-legal move that is not a castling move. *)
Lemma pseudo_legal_fields (b : ChessBoard) (side m : Z) :
  side = white \/ side = black ->
  pseudo_legal b side m -> get_move_castling m = 0 ->
  exists f t p pr c d e,
    m = encode_move f t p pr c d e 0 /\ fields_ok f t p pr c d e 0 /\
    0 <= p < 12 /\ (p <? 6) = (side =? white) /\
    Z.testbit (bb b p) f = true /\
    (e = 0 ->
     (c = 1 -> Z.testbit (occ b (Z.lxor side 1)) t = true) /\
     (c = 0 -> Z.testbit (occ b both) t = false \/
               Z.testbit (occ b (Z.lxor side 1)) t = false) /\
     (Z.testbit (occ b both) t = false \/
      Z.testbit (occ b (Z.lxor side 1)) t = true \/
      Z.testbit (occ b side) t = false)).
Proof.
  intros Hside H Hc.
  assert (Hpawn : (pawn_of side <? 6) = (side =? white))
    by (destruct Hside as [-> | ->]; reflexivity).
  assert (Hoff : forall p, In p (officers side) ->
                           (p <? 6) = (side =? white)).
  { intros p Hp. unfold officers in Hp. destruct Hside as [-> | ->];
      cbn in Hp; repeat (destruct Hp as [<-|Hp]; [reflexivity|]);
      contradiction. }
  pose proof (pawn_of_range side) as Rp.
  inversion H as [f pr Hf Hb Ht He Hpr | f Hf Hb Hs H1 H2
                 | f t pr Hf Hb Ht Ha Ho Hpr | f Hf Hb He Ha
                 | p f t attacks Hp Hf Hb Ht Ha Hbit Ho | K | K]; subst m.
  - exists f, (f + forward_step side), (pawn_of side), pr, 0, 0, 0.
    pose proof (promoted_ok_range _ _ _ Hpr).
    split; [reflexivity|]. split; [unfold fields_ok; lia|].
    split; [exact Rp|]. split; [exact Hpawn|]. split; [exact Hb|].
    intros _. split; [lia|]. split; [left; exact He | left; exact He].
  - exists f, (f + forward_step side + forward_step side), (pawn_of side),
      0, 0, 1, 0.
    assert (0 <= f + forward_step side + forward_step side < 64).
    { unfold start_rank, forward_step in *. destruct Hside as [-> | ->];
        cbn [Z.eqb white black] in *; squares_unfold; bools; lia. }
    split; [reflexivity|]. split; [unfold fields_ok; lia|].
    split; [exact Rp|]. split; [exact Hpawn|]. split; [exact Hb|].
    intros _. split; [lia|]. split; [left; exact H2 | left; exact H2].
  - exists f, t, (pawn_of side), pr, 1, 0, 0.
    pose proof (promoted_ok_range _ _ _ Hpr).
    split; [reflexivity|]. split; [unfold fields_ok; lia|].
    split; [exact Rp|]. split; [exact Hpawn|]. split; [exact Hb|].
    intros _. split; [intros _; exact Ho|]. split; [lia|].
    right. left. exact Ho.
  - exists f, (enpassant b), (pawn_of side), 0, 1, 0, 1.
    split; [reflexivity|]. split; [unfold fields_ok; lia|].
    split; [exact Rp|]. split; [exact Hpawn|]. split; [exact Hb|].
    intros E. discriminate E.
  - exists f, t, p, 0,
      (if Z.testbit (occ b (Z.lxor side 1)) t then 1 else 0), 0, 0.
    pose proof (officers_range _ _ Hp).
    split; [reflexivity|].
    split; [unfold fields_ok;
            destruct (Z.testbit (occ b (Z.lxor side 1)) t); lia|].
    split; [assumption|]. split; [apply Hoff; exact Hp|]. split; [exact Hb|].
    intros _. destruct (Z.testbit (occ b (Z.lxor side 1)) t).
    + split; [reflexivity|]. split; [lia|]. right. right. exact Ho.
    + split; [lia|]. split; [right; reflexivity|]. right. right. exact Ho.
  - exfalso. destruct Hside as [-> | ->]; vm_compute in Hc; discriminate.
  - exfalso. destruct Hside as [-> | ->]; vm_compute in Hc; discriminate.
Qed.

Lemma white_black_disjoint (b : ChessBoard) (t : Z) :
  occupancy_consistent b -> pieces_disjoint b ->
  Z.testbit (occ b white) t = true -> Z.testbit (occ b black) t = false.
Proof.
  intros (Ow & Ob & _) D. rewrite Ow, Ob. unfold union.
  cbn [fold_left]. rewrite !Z.lor_spec, Z.bits_0. cbn [orb].
  change (Z.to_nat WP) with 0%nat. change (Z.to_nat WN) with 1%nat.
  change (Z.to_nat WB) with 2%nat. change (Z.to_nat WR) with 3%nat.
  change (Z.to_nat WQ) with 4%nat. change (Z.to_nat WK) with 5%nat.
  change (Z.to_nat BP) with 6%nat. change (Z.to_nat BN) with 7%nat.
  change (Z.to_nat BB) with 8%nat. change (Z.to_nat BR) with 9%nat.
  change (Z.to_nat BQ) with 10%nat. change (Z.to_nat BK) with 11%nat.
  intros H.
  assert (G : exists i, (i < 6)%nat /\
                        Z.testbit (nth i (bitboards b) 0) t = true).
  { repeat (apply orb_true_iff in H; destruct H as [H|H]);
      [exists 0%nat | exists 1%nat | exists 2%nat | exists 3%nat
      | exists 4%nat | exists 5%nat]; (split; [lia | exact H]). }
  destruct G as (i & Hi & Hbit).
  rewrite (land_zero_bit _ _ t (D i 6%nat ltac:(lia) ltac:(lia) ltac:(lia)) Hbit),
    (land_zero_bit _ _ t (D i 7%nat ltac:(lia) ltac:(lia) ltac:(lia)) Hbit),
    (land_zero_bit _ _ t (D i 8%nat ltac:(lia) ltac:(lia) ltac:(lia)) Hbit),
    (land_zero_bit _ _ t (D i 9%nat ltac:(lia) ltac:(lia) ltac:(lia)) Hbit),
    (land_zero_bit _ _ t (D i 10%nat ltac:(lia) ltac:(lia) ltac:(lia)) Hbit),
    (land_zero_bit _ _ t (D i 11%nat ltac:(lia) ltac:(lia) ltac:(lia)) Hbit).
  reflexivity.
Qed.

Lemma own_enemy_disjoint (b : ChessBoard) (side t : Z) :
  side = white \/ side = black ->
  occupancy_consistent b -> pieces_disjoint b ->
  Z.testbit (occ b (Z.lxor side 1)) t = true ->
  Z.testbit (occ b side) t = false.
Proof.
  intros [-> | ->] Hc Hd H.
  - change (Z.lxor white 1) with black in H.
    destruct (Z.testbit (occ b white) t) eqn:E; [|reflexivity].
    rewrite (white_black_disjoint b t Hc Hd E) in H. discriminate.
  - change (Z.lxor black 1) with white in H.
    apply white_black_disjoint; assumption.
Qed.

Lemma both_covers (b : ChessBoard) (side t : Z) :
  side = white \/ side = black ->
  occupancy_consistent b ->
  Z.testbit (occ b both) t = false ->
  Z.testbit (occ b side) t = false /\
  Z.testbit (occ b (Z.lxor side 1)) t = false.
Proof.
  intros Hs (_ & _ & Ho) H. rewrite Ho, Z.lor_spec in H.
  apply orb_false_iff in H. destruct H as [H1 H2].
  destruct Hs as [-> | ->]; split; assumption.
Qed.

(** X22.  What the fields of a generated move that is not a castling move say
    about the board: the piece of the move belongs to the side to move and
    stands on the source square; and on a board with consistent
    occupancies and no two pieces on one square, for a move that is not an
    en-passant capture, the target square holds no piece of the side to
    move, and the capture flag is set exactly when it holds a piece of the
    opponent. *)
Theorem generated_move_fits_board
    (b : ChessBoard) (st st' : Moves) (m : Z) :
  wf_board b -> List.length (moves st) = MOVES_SIZE ->
  generate_moves st b = Some st' ->
  In m (generated st') ->
  get_move_castling m = 0 ->
  0 <= get_move_piece m < 12 /\
  (get_move_piece m < 6 <-> side_to_move b = white) /\
  Z.testbit (bb b (get_move_piece m)) (get_move_source m) = true /\
  (occupancy_consistent b -> pieces_disjoint b ->
   get_move_enpassant m = 0 ->
   Z.testbit (occ b (side_to_move b)) (get_move_target m) = false /\
   (get_move_capture m <> 0 <->
    Z.testbit (occ b (Z.lxor (side_to_move b) 1)) (get_move_target m) = true)).
Proof.
  intros Hb Hl H Hin Hc.
  assert (Hs : side_to_move b = white \/ side_to_move b = black)
    by (unfold side_to_move; destruct (color b =? white); auto).
  apply generate_moves_sound in H; [|exact Hb].
  assert (P : pseudo_legal b (side_to_move b) m).
  { apply (adds_generated _ (reset_count st) st' m); try assumption.
    - apply reset_count_ok. exact Hl.
    - reflexivity. }
  destruct (pseudo_legal_fields b _ m Hs P Hc)
    as (f & t & p & pr & c & d & e & -> & F & Rp & Sp & Hbit & Q).
  rewrite get_move_source_encode, get_move_target_encode,
    get_move_piece_encode, get_move_capture_encode,
    get_move_enpassant_encode by exact F.
  split; [exact Rp|]. split.
  { destruct Hs as [E|E]; rewrite E in *.
    - apply Z.ltb_lt in Sp. split; [reflexivity | intros _; exact Sp].
    - apply Z.ltb_ge in Sp. split; [lia | discriminate]. }
  split; [exact Hbit|].
  intros Hcons Hdis He.
  assert (Fe : 0 <= e <= 1) by (unfold fields_ok in F; lia).
  assert (Fc : 0 <= c <= 1) by (unfold fields_ok in F; lia).
  assert (E0 : e = 0).
  { destruct (Z.eq_dec e 0) as [E|N]; [exact E|exfalso].
    apply (proj2 (flag_nonzero e 22 Fe ltac:(lia))) in He; [exact He | lia]. }
  destruct (Q E0) as (Q1 & Q2 & Q3).
  rewrite (flag_nonzero c 20 Fc ltac:(lia)).
  assert (Own : Z.testbit (occ b (side_to_move b)) t = false).
  { destruct Q3 as [B|[En|Ow]].
    - apply (both_covers b _ t Hs Hcons B).
    - apply own_enemy_disjoint; assumption.
    - exact Ow. }
  split; [exact Own|]. split.
  - exact Q1.
  - intros En. destruct (Z.eq_dec c 1) as [E|N]; [exact E|exfalso].
    assert (C0 : c = 0) by lia.
    destruct (Q2 C0) as [B|B]; [|congruence].
    destruct (both_covers b _ t Hs Hcons B) as [_ B2].
    congruence.
Qed.

Lemma generated_move_fits_board_witness :
  Z.testbit (bb start_board WP) 52 = true /\
  Z.testbit (occ start_board white) 36 = false.
Proof.
  destruct (generated_move_fits_board start_board (moves_filled 0)
              start_moves e2e4) as (_ & _ & R3 & R4).
  - apply wf_boardb_spec. vm_compute. reflexivity.
  - reflexivity.
  - vm_compute. reflexivity.
  - vm_compute. repeat (try (left; reflexivity); right).
  - reflexivity.
  - split; [exact R3|]. refine (proj1 (R4 _ _ _)).
    + vm_compute. repeat split; reflexivity.
    + intros i j Hi Hj Hij.
      do 12 (destruct i as [|i];
             [do 12 (destruct j as [|j];
                     [first [reflexivity | exfalso; apply Hij; reflexivity]|]);
              lia|]).
      lia.
    + reflexivity.
Defined.

(** * The generator returns *)

Section Defined.

Variable b : ChessBoard.
Hypothesis Hb : wf_board b.
Hypothesis Hep : enpassant b <= 64.

Lemma occupancy_word (c : nat) : U64.in_range (nth c (occupancy b) 0).
Proof. apply nth_in_range. apply Hb. Qed.

Lemma bitboard_word (p : nat) : U64.in_range (nth p (bitboards b) 0).
Proof. apply nth_in_range. apply Hb. Qed.

Lemma pawn_captures_defined (color from : Z) (st : Moves) :
  exists st', pawn_captures color (occupancy b) from st = Some st'.
Proof.
  unfold pawn_captures. apply for_bits_total.
  - apply land_in_range; [apply pawn_attacks_in_range|].
    apply occupancy_word.
  - intros sq s _ _. eauto.
Qed.

Lemma pawn_enpassant_defined (color from : Z) (st : Moves) :
  exists st', pawn_enpassant b color from st = Some st'.
Proof.
  unfold pawn_enpassant.
  destruct (Z.eqb_spec (enpassant b) no_sq) as [E|N]; cbn [negb]; [eauto|].
  assert (V : valid_shift (enpassant b) = true).
  { unfold valid_shift. destruct Hb as (_ & _ & _ & _ & _ & [R _] & _).
    apply andb_true_iff. split; [apply Z.leb_le; exact R|].
    apply Z.ltb_lt. unfold no_sq in N. lia. }
  rewrite V. destruct (nonzero _) eqn:En; [|eauto].
  apply nonzero_true in En.
  assert (Hbit : 0 <= bit (enpassant b))
    by (unfold bit; apply Z.shiftl_nonneg; lia).
  destruct (bitScanForward_spec _
              (land_in_range _ _ (pawn_attacks_in_range color from) Hbit) En)
    as (sq & E & _).
  rewrite E. cbn [bind]. eauto.
Qed.

Lemma generateMovesPawns_defined (color : Z) (st : Moves) :
  exists st', generateMovesPawns b color (occupancy b) st = Some st'.
Proof.
  unfold generateMovesPawns. apply for_bits_total.
  - destruct (color =? white); apply bitboard_word.
  - intros from s _ _. unfold pawn_body.
    destruct (pawn_captures_defined color from
                (pawn_pushes color (occupancy b) from s)) as (s1 & E).
    rewrite E. cbn [bind]. apply pawn_enpassant_defined.
Qed.

Lemma targets_defined (from piece enemy attacks mask : Z) (st : Moves) :
  U64.in_range attacks -> 0 <= mask ->
  exists st',
    for_bits 64 (Z.land attacks mask) (target_body from piece enemy) st
    = Some st'.
Proof.
  intros Ha Hm. apply for_bits_total.
  - apply land_in_range; assumption.
  - intros sq s _ _. unfold target_body. eauto.
Qed.

Lemma own_mask_nonneg (c : bool) :
  0 <= (if c then U64.not (nth 0 (occupancy b) 0)
        else U64.not (nth 1 (occupancy b) 0)).
Proof. destruct c; apply not_nonneg; apply occupancy_word. Qed.

Lemma king_steps_defined (color : Z) (st : Moves) :
  exists st', king_steps b color (occupancy b) st = Some st'.
Proof.
  unfold king_steps. apply for_bits_total.
  - destruct (color =? white); apply bitboard_word.
  - intros from s _ _. apply targets_defined.
    + apply king_attacks_in_range.
    + apply own_mask_nonneg.
Qed.

Lemma attacked_defined (sq c : Z) :
  exists r, isSquareAttacked b sq c = Some r.
Proof. apply isSquareAttacked_total. apply (occupancy_word 2). Qed.

Lemma castle_kingside_defined (color : Z) (st : Moves) :
  exists st', castle_kingside b color st = Some st'.
Proof.
  unfold castle_kingside.
  destruct (nonzero _); [|eauto]. destruct (_ && _); [|eauto].
  destruct (attacked_defined ((if color =? white then f1 else f8) - 1)
              (Z.lxor color 1)) as (r1 & ->).
  cbn [bind]. destruct (negb r1); [|eauto].
  destruct (attacked_defined (if color =? white then f1 else f8)
              (Z.lxor color 1)) as (r2 & ->).
  cbn [bind]. destruct (negb r2); eauto.
Qed.

Lemma castle_queenside_defined (color : Z) (st : Moves) :
  exists st', castle_queenside b color st = Some st'.
Proof.
  unfold castle_queenside.
  destruct (nonzero _); [|eauto]. destruct (_ && _); [|eauto].
  destruct (attacked_defined ((if color =? white then d1 else d8) + 1)
              (Z.lxor color 1)) as (r1 & ->).
  cbn [bind]. destruct (negb r1); [|eauto].
  destruct (attacked_defined (if color =? white then d1 else d8)
              (Z.lxor color 1)) as (r2 & ->).
  cbn [bind]. destruct (negb r2); eauto.
Qed.

Lemma generateMovesKings_defined (color : Z) (st : Moves) :
  exists st', generateMovesKings b color (occupancy b) st = Some st'.
Proof.
  unfold generateMovesKings.
  destruct (king_steps_defined color st) as (s1 & ->). cbn [bind].
  destruct (castle_kingside_defined color s1) as (s2 & ->). cbn [bind].
  apply castle_queenside_defined.
Qed.

Lemma piece_attacks_defined (piece from : Z) :
  In piece [WN; WB; WR; WQ; BN; BB; BR; BQ] ->
  exists a, piece_attacks piece from (nth 2 (occupancy b) 0) = Some a /\
            U64.in_range a.
Proof.
  intros Hp. pose proof (occupancy_word 2) as [H0 _].
  set (B := nth 2 (occupancy b) 0) in *.
  assert (K : exists a, Some (knight_attacks from) = Some a /\ U64.in_range a)
    by (eexists; split; [reflexivity | apply knight_attacks_in_range]).
  pose proof (getBishopMoves_total from B H0) as Bi.
  pose proof (getRooksMoves_total from B H0) as Ro.
  pose proof (getQueensMoves_total from B H0) as Qu.
  cbn [In] in Hp.
  destruct Hp as [<-|[<-|[<-|[<-|[<-|[<-|[<-|[<-|[]]]]]]]]].
  - exact K.
  - exact Bi.
  - exact Ro.
  - exact Qu.
  - exact K.
  - exact Bi.
  - exact Ro.
  - exact Qu.
Qed.

Lemma generateMovesPiece_defined (piece : Z) (st : Moves) :
  In piece [WN; WB; WR; WQ; BN; BB; BR; BQ] ->
  exists st', generateMovesPiece b (occupancy b) piece st = Some st'.
Proof.
  intros Hp. unfold generateMovesPiece. apply for_bits_total.
  - apply bitboard_word.
  - intros from s _ _.
    destruct (piece_attacks_defined piece from Hp) as (a & -> & Ha).
    cbn [bind]. apply targets_defined; [exact Ha | apply own_mask_nonneg].
Qed.

End Defined.

(** X23.  [generate_moves] returns on every board whose arrays and fields have
    their sizes and ranges and whose en-passant square is a square of the
    board or [no_sq]: no assertion of a bit scan fails, no shift count and
    no index of the generator is out of range. *)
Theorem generate_moves_returns (st : Moves) (b : ChessBoard) :
  wf_board b -> enpassant b <= 64 ->
  exists st', generate_moves st b = Some st'.
Proof.
  intros Hb Hep. unfold generate_moves.
  destruct (color b =? white).
  - destruct (generateMovesPawns_defined b Hb Hep white (reset_count st))
      as (s1 & ->). cbn [bind].
    destruct (generateMovesKings_defined b Hb white s1) as (s2 & ->).
    cbn [bind].
    destruct (generateMovesPiece_defined b Hb WN s2 ltac:(cbn; tauto))
      as (s3 & ->). cbn [bind].
    destruct (generateMovesPiece_defined b Hb WB s3 ltac:(cbn; tauto))
      as (s4 & ->). cbn [bind].
    destruct (generateMovesPiece_defined b Hb WR s4 ltac:(cbn; tauto))
      as (s5 & ->). cbn [bind].
    apply generateMovesPiece_defined; [exact Hb | cbn; tauto].
  - destruct (generateMovesPawns_defined b Hb Hep black (reset_count st))
      as (s1 & ->). cbn [bind].
    destruct (generateMovesKings_defined b Hb black s1) as (s2 & ->).
    cbn [bind].
    destruct (generateMovesPiece_defined b Hb BN s2 ltac:(cbn; tauto))
      as (s3 & ->). cbn [bind].
    destruct (generateMovesPiece_defined b Hb BB s3 ltac:(cbn; tauto))
      as (s4 & ->). cbn [bind].
    destruct (generateMovesPiece_defined b Hb BR s4 ltac:(cbn; tauto))
      as (s5 & ->). cbn [bind].
    apply generateMovesPiece_defined; [exact Hb | cbn; tauto].
Qed.

Lemma generate_moves_returns_witness :
  exists st', generate_moves (moves_filled 0) guarded_board = Some st'.
Proof.
  apply generate_moves_returns.
  - apply wf_boardb_spec. vm_compute. reflexivity.
  - vm_compute. discriminate.
Defined.

(** * The effect of [MakeMove] on the pieces *)

(** ** The steps, bit by bit *)

Lemma amod_lmod (a a' : list Z) (i : Z) (f : Z -> Z) :
  amod a i f = Some a' ->
  0 <= i < Z.of_nat (length a) /\ a' = lmod a i f.
Proof.
  unfold amod, aget, aset, lmod. intros H.
  destruct (i <? 0) eqn:N; [discriminate|].
  destruct (nth_error a (Z.to_nat i)) as [x|] eqn:E; [|discriminate].
  cbn [bind] in H.
  destruct ((0 <=? i) && (i <? Z.of_nat (length a))) eqn:R; [|discriminate].
  injection H as <-. split; [bools; lia|].
  rewrite (nth_error_nth _ _ 0 E). reflexivity.
Qed.

Lemma nth_lmod (a : list Z) (i q : Z) (f : Z -> Z) :
  0 <= i < Z.of_nat (length a) -> 0 <= q ->
  nth (Z.to_nat q) (lmod a i f) 0 =
  if q =? i then f (nth (Z.to_nat i) a 0) else nth (Z.to_nat q) a 0.
Proof.
  intros Hi Hq. unfold lmod. rewrite nth_list_set by lia.
  destruct (Z.eqb_spec q i) as [->|N].
  - rewrite Nat.eqb_refl. reflexivity.
  - destruct (Nat.eqb_spec (Z.to_nat q) (Z.to_nat i)) as [E|_]; [lia|].
    reflexivity.
Qed.

Lemma move_piece_bits b p side f t b1 :
  words 12 (bitboards b) -> 0 <= f -> 0 <= t < 64 ->
  move_piece b p side f t = Some b1 ->
  0 <= p < 12 /\ words 12 (bitboards b1) /\
  forall q s, 0 <= q ->
    Z.testbit (bb b1 q) s =
    if q =? p then (Z.testbit (bb b p) s && negb (f =? s)) || (t =? s)
    else Z.testbit (bb b q) s.
Proof.
  intros W Hf Ht H. unfold move_piece in H. inv_bind H. injection H as <-.
  pose proof (words_amod 12 _ _ _ _ W
                (fun x => set_pop_in_range f t x Ht) E) as W1.
  apply amod_lmod in E. destruct E as [Hp ->].
  destruct W as [L F]. rewrite L in Hp.
  split; [lia|]. split; [exact W1|].
  intros q s Hq. unfold bb. cbn [bitboards with_occupancy with_bitboards].
  rewrite nth_lmod by (rewrite ?L; lia).
  destruct (q =? p); [|reflexivity].
  rewrite testbit_set_bit by lia.
  rewrite testbit_pop_bit by (try apply nth_in_range; assumption).
  reflexivity.
Qed.

(** The capture loop on bitboards of which at most one holds the target:
    afterwards none of the listed bitboards holds it, the rest is
    unchanged. *)
Lemma remove_captured_bits (ps : list Z) (bbs : list Z) (t q s : Z) :
  words 12 bbs -> 0 <= t -> 0 <= q ->
  (forall i, In i ps -> 0 <= i < 12) ->
  (forall i j, In i ps -> In j ps ->
     Z.testbit (nth (Z.to_nat i) bbs 0) t = true ->
     Z.testbit (nth (Z.to_nat j) bbs 0) t = true -> i = j) ->
  Z.testbit (nth (Z.to_nat q) (remove_captured ps bbs t) 0) s =
  Z.testbit (nth (Z.to_nat q) bbs 0) s
  && negb ((s =? t) && existsb (Z.eqb q) ps).
Proof.
  intros W Ht Hq. induction ps as [|i ps IH]; intros R U.
  - cbn. rewrite andb_false_r, andb_true_r. reflexivity.
  - cbn [remove_captured existsb].
    assert (Ri : 0 <= i < 12) by (apply R; left; reflexivity).
    rewrite get_bit_spec by exact Ht.
    destruct (Z.testbit (nth (Z.to_nat i) bbs 0) t) eqn:Bi.
    + fold (lmod bbs i (fun x => pop_bit x t)).
      rewrite nth_lmod by (destruct W as [L _]; rewrite ?L; lia).
      destruct (Z.eqb_spec q i) as [->|N].
      * rewrite testbit_pop_bit by (try apply (words_nth 12); assumption).
        rewrite orb_true_l, andb_true_r, (Z.eqb_sym t s). reflexivity.
      * rewrite orb_false_l.
        destruct (Z.eqb_spec s t) as [->|Ns];
          [|rewrite andb_false_l, andb_true_r; reflexivity].
        rewrite andb_true_l.
        destruct (existsb (Z.eqb q) ps) eqn:Ex;
          [|rewrite andb_true_r; reflexivity].
        apply existsb_exists in Ex. destruct Ex as (j & Hj & Ej).
        apply Z.eqb_eq in Ej. subst j.
        destruct (Z.testbit (nth (Z.to_nat q) bbs 0) t) eqn:Bq;
          [|reflexivity].
        exfalso. apply N. apply U; [right; exact Hj | left; reflexivity
                                    | exact Bq | exact Bi].
    + rewrite IH.
      * destruct (Z.eqb_spec q i) as [->|N]; [|reflexivity].
        rewrite orb_true_l.
        destruct (Z.eqb_spec s t) as [->|Ns]; [|reflexivity].
        rewrite Bi. reflexivity.
      * intros j Hj. apply R. right. exact Hj.
      * intros j k Hj Hk. apply U; right; assumption.
Qed.

Lemma capture_piece_bits b side t :
  words 12 (bitboards b) -> 0 <= t ->
  (forall i j, 0 <= i < 12 -> 0 <= j < 12 ->
     (if side =? 0 then 6 <=? i else i <? 6) = true ->
     (if side =? 0 then 6 <=? j else j <? 6) = true ->
     Z.testbit (bb b i) t = true -> Z.testbit (bb b j) t = true -> i = j) ->
  words 12 (bitboards (capture_piece b side t)) /\
  forall q s, 0 <= q < 12 ->
    Z.testbit (bb (capture_piece b side t) q) s =
    Z.testbit (bb b q) s
    && negb ((s =? t) && (if side =? 0 then 6 <=? q else q <? 6)).
Proof.
  intros W Ht U. split.
  { unfold capture_piece.
    cbn [bitboards occupancy with_bitboards with_occupancy].
    apply words_remove_captured. exact W. }
  intros q s Hq. unfold capture_piece, bb.
  cbn [bitboards with_occupancy with_bitboards].
  rewrite remove_captured_bits; try assumption; try lia.
  - f_equal. f_equal. f_equal.
    destruct (side =? 0); cbn [map seq existsb Z.of_nat Pos.of_succ_nat
                               Pos.succ Z.add Pos.add];
      repeat match goal with
             | |- context [q =? ?k] => destruct (Z.eqb_spec q k)
             end; cbn [orb]; bools; lia.
  - intros i Hi. destruct (side =? 0); cbn in Hi;
      repeat (destruct Hi as [<-|Hi]; [lia|]); contradiction.
  - intros i j Hi Hj. apply U.
    + destruct (side =? 0); cbn in Hi;
        repeat (destruct Hi as [<-|Hi]; [lia|]); contradiction.
    + destruct (side =? 0); cbn in Hj;
        repeat (destruct Hj as [<-|Hj]; [lia|]); contradiction.
    + destruct (side =? 0); cbn in Hi;
        repeat (destruct Hi as [<-|Hi]; [reflexivity|]); contradiction.
    + destruct (side =? 0); cbn in Hj;
        repeat (destruct Hj as [<-|Hj]; [reflexivity|]); contradiction.
Qed.

Lemma promote_bits b p pr t b' :
  words 12 (bitboards b) -> 0 <= t < 64 ->
  promote b p pr t = Some b' ->
  0 <= pr < 12 /\ words 12 (bitboards b') /\
  forall q s, 0 <= q ->
    Z.testbit (bb b' q) s =
    let x := if q =? p then Z.testbit (bb b p) s && negb (t =? s)
             else Z.testbit (bb b q) s in
    if q =? pr then x || (t =? s) else x.
Proof.
  intros W Ht H. unfold promote in H. inv_bind H. inv_bind H.
  injection H as <-.
  pose proof (words_amod 12 _ _ _ _ W
                (fun x Hx => pop_bit_in_range x t Hx) E) as W1.
  pose proof (words_amod 12 _ _ _ _ W1
                (fun x Hx => set_bit_in_range x t Hx Ht) E0) as W2.
  apply amod_lmod in E. destruct E as [Hp ->].
  apply amod_lmod in E0. destruct E0 as [Hpr ->].
  destruct W as [L F]. destruct W1 as [L1 F1].
  rewrite L in Hp. rewrite L1 in Hpr.
  split; [lia|]. split; [exact W2|].
  intros q s Hq. unfold bb. cbn [bitboards with_bitboards].
  rewrite nth_lmod by (rewrite ?L1; lia).
  assert (X : forall q, 0 <= q ->
              Z.testbit (nth (Z.to_nat q)
                             (lmod (bitboards b) p (fun x => pop_bit x t)) 0) s
              = if q =? p
                then Z.testbit (nth (Z.to_nat p) (bitboards b) 0) s
                     && negb (t =? s)
                else Z.testbit (nth (Z.to_nat q) (bitboards b) 0) s).
  { intros k Hk. rewrite nth_lmod by (rewrite ?L; lia).
    destruct (k =? p); [|reflexivity].
    apply testbit_pop_bit; [apply nth_in_range; exact F | lia]. }
  cbv zeta. destruct (q =? pr) eqn:Eq.
  - rewrite testbit_set_bit by lia. rewrite X by lia.
    apply Z.eqb_eq in Eq. subst q. reflexivity.
  - apply X. exact Hq.
Qed.

Lemma capture_enpassant_bits b side t b' :
  words 12 (bitboards b) -> side = white \/ side = black ->
  capture_enpassant b side t = Some b' ->
  0 <= victim_square side t < 64 /\ words 12 (bitboards b') /\
  forall q s, 0 <= q ->
    Z.testbit (bb b' q) s =
    if q =? pawn_of (Z.lxor side 1)
    then Z.testbit (bb b q) s && negb (victim_square side t =? s)
    else Z.testbit (bb b q) s.
Proof.
  intros W Hs H. unfold capture_enpassant in H.
  fold (victim_square side t) in H.
  destruct (valid_shift (victim_square side t)) eqn:V; [|discriminate].
  injection H as <-. unfold valid_shift in V.
  assert (Hv : 0 <= victim_square side t < 64) by (bools; lia).
  split; [exact Hv|].
  assert (P : (if side =? white then BP else WP) = pawn_of (Z.lxor side 1)).
  { destruct Hs as [-> | ->]; reflexivity. }
  split.
  { cbn [bitboards with_enpassant with_bitboards].
    apply words_lmod; [exact W|]. intros x. apply pop_bit_in_range. }
  intros q s Hq. unfold bb. cbn [bitboards with_enpassant with_bitboards].
  rewrite P. destruct W as [L F].
  rewrite nth_lmod
    by (rewrite ?L; pose proof (pawn_of_range (Z.lxor side 1)); lia).
  destruct (Z.eqb_spec q (pawn_of (Z.lxor side 1))) as [->|_];
    [|reflexivity].
  apply testbit_pop_bit; [apply nth_in_range; exact F | lia].
Qed.

(** ** A move that is not a castling move *)

Lemma bits_disjoint (b : ChessBoard) :
  pieces_disjoint b ->
  forall i j s, 0 <= i < 12 -> 0 <= j < 12 ->
    Z.testbit (bb b i) s = true -> Z.testbit (bb b j) s = true -> i = j.
Proof.
  intros D i j s Hi Hj Bi Bj.
  destruct (Z.eq_dec i j) as [E|N]; [exact E|exfalso].
  assert (Z0 : Z.land (bb b i) (bb b j) = 0)
    by (apply D; lia).
  apply (f_equal (fun z => Z.testbit z s)) in Z0.
  rewrite Z.land_spec, Bi, Bj, Z.bits_0 in Z0. discriminate.
Qed.

Lemma mover_cases (m : Z) : mover m = white \/ mover m = black.
Proof. unfold mover. destruct (_ <? _); auto. Qed.

Lemma MakeMove_update_plain (b : ChessBoard) (m : Z) (b2 : ChessBoard) :
  words 12 (bitboards b) -> pieces_disjoint b ->
  get_move_castling m = 0 ->
  Z.testbit (bb b (get_move_piece m)) (get_move_source m) = true ->
  (forall q, 0 <= q < 12 -> (q <? 6) = (get_move_piece m <? 6) ->
     Z.testbit (bb b q) (get_move_target m) = false) ->
  (get_move_capture m = 0 ->
   forall q, 0 <= q < 12 -> Z.testbit (bb b q) (get_move_target m) = false) ->
  (get_move_promoted m <> 0 -> get_move_promoted m <> get_move_piece m) ->
  MakeMove_update b m = Some b2 ->
  words 12 (bitboards b2) /\
  forall q s, 0 <= q < 12 -> 0 <= s < 64 ->
    Z.testbit (bb b2 q) s = after_move b m q s.
Proof.
  intros W D Hk Hsrc Hown Hcap Hpr H.
  pose proof (get_move_source_range m) as Rf.
  pose proof (get_move_target_range m) as Rt.
  pose proof (bits_disjoint b D) as U.
  unfold MakeMove_update in H. fold (mover m) in H.
  inv_bind H. inv_bind H. inv_bind H. injection H as <-.
  rewrite Hk in *. change (nonzero 0) with false in *. cbv iota in *.
  apply move_piece_bits in E; [|exact W | lia | lia].
  destruct E as (Rp & W1 & B1).
  change (bb (copyBoard b)) with (bb b) in B1.
  set (c1 := if nonzero (get_move_capture m)
             then capture_piece v (mover m) (get_move_target m) else v) in *.
  assert (Enemy : forall q,
            (if mover m =? 0 then 6 <=? q else q <? 6)
            = negb (Bool.eqb (q <? 6) (get_move_piece m <? 6))).
  { intros q. unfold mover.
    destruct (get_move_piece m <? 6); cbn [Z.eqb white black];
      destruct (Z.ltb_spec q 6); destruct (Z.leb_spec 6 q);
      try reflexivity; lia. }
  assert (C : words 12 (bitboards c1) /\
              forall q s, 0 <= q < 12 ->
                Z.testbit (bb c1 q) s =
                Z.testbit (bb v q) s
                && negb ((s =? get_move_target m)
                         && (nonzero (get_move_capture m)
                             && negb (Bool.eqb (q <? 6)
                                               (get_move_piece m <? 6))))).
  { subst c1. destruct (nonzero (get_move_capture m)) eqn:Nc.
    - destruct (capture_piece_bits v (mover m) (get_move_target m) W1)
        as (W2 & B2); [lia| |].
      + intros i j Hi Hj. rewrite !Enemy, !B1 by lia.
        intros Ei Ej.
        destruct (Z.eqb_spec i (get_move_piece m)) as [->|Ni];
          [rewrite eqb_reflx in Ei; discriminate|].
        destruct (Z.eqb_spec j (get_move_piece m)) as [->|Nj];
          [rewrite eqb_reflx in Ej; discriminate|].
        apply U; assumption.
      + split; [exact W2|]. intros q s Hq. rewrite B2 by exact Hq.
        rewrite Enemy. reflexivity.
    - split; [exact W1|]. intros q s Hq.
      rewrite andb_false_l, andb_false_r, andb_true_r. reflexivity. }
  clearbody c1. destruct C as (W2 & B2).
  assert (P : words 12 (bitboards v0) /\
              forall q s, 0 <= q < 12 ->
                Z.testbit (bb v0 q) s =
                if nonzero (get_move_promoted m)
                then (let x := if q =? get_move_piece m
                               then Z.testbit (bb c1 (get_move_piece m)) s
                                    && negb (get_move_target m =? s)
                               else Z.testbit (bb c1 q) s in
                      if q =? get_move_promoted m
                      then x || (get_move_target m =? s) else x)
                else Z.testbit (bb c1 q) s).
  { destruct (nonzero (get_move_promoted m)).
    - apply promote_bits in E0; [|exact W2 | lia].
      destruct E0 as (_ & W3 & B3). split; [exact W3|].
      intros q s Hq. apply B3. lia.
    - injection E0 as <-. split; [exact W2|]. reflexivity. }
  destruct P as (W3 & B3).
  assert (Q : words 12 (bitboards v1) /\
              forall q s, 0 <= q < 12 ->
                Z.testbit (bb v1 q) s =
                Z.testbit (bb v0 q) s
                && negb (nonzero (get_move_enpassant m)
                         && (s =? victim_square (mover m) (get_move_target m))
                         && (q =? pawn_of (Z.lxor (mover m) 1)))).
  { destruct (nonzero (get_move_enpassant m)).
    - apply capture_enpassant_bits in E1; [|exact W3 | apply mover_cases].
      destruct E1 as (_ & W4 & B4). split; [exact W4|].
      intros q s Hq. rewrite B4 by lia. rewrite andb_true_l.
      rewrite (Z.eqb_sym s).
      destruct (q =? pawn_of (Z.lxor (mover m) 1));
        [rewrite andb_true_r | rewrite andb_false_r, andb_true_r];
        reflexivity.
    - injection E1 as <-. split; [exact W3|]. intros q s _.
      rewrite andb_true_r. reflexivity. }
  destruct Q as (W4 & B4).
  split; [exact W4|].
  intros q s Hq Hs.
  change (bb (rebuild_occupancy
                (update_rights v1 (get_move_source m) (get_move_target m))) q)
    with (bb v1 q).
  rewrite B4, B3, !B2, !B1 by lia.
  rewrite Z.eqb_refl. unfold after_move, landing.
  set (f := get_move_source m) in *. set (t := get_move_target m) in *.
  set (p := get_move_piece m) in *. set (pr := get_move_promoted m) in *.
  assert (Hpt : Z.testbit (bb b p) t = false) by (apply Hown; [lia|reflexivity]).
  assert (Ntf : t <> f) by (intros E; rewrite E in Hpt; congruence).
  assert (Fsrc : forall k, 0 <= k < 12 -> k <> p ->
                           Z.testbit (bb b k) f = false).
  { intros k Hk' N. destruct (Z.testbit (bb b k) f) eqn:B; [|reflexivity].
    exfalso. apply N. apply (U k p f); assumption. }
  assert (Tgt : forall k, 0 <= k < 12 ->
            Z.testbit (bb b k) t
            && negb (nonzero (get_move_capture m)
                     && negb (Bool.eqb (k <? 6) (p <? 6))) = false).
  { intros k Hk'. destruct (nonzero (get_move_capture m)) eqn:Nc.
    - destruct (Bool.eqb (k <? 6) (p <? 6)) eqn:Sd.
      + apply eqb_prop in Sd. rewrite (Hown k Hk' Sd). reflexivity.
      + apply andb_false_r.
    - apply nonzero_false in Nc. rewrite (Hcap Nc k Hk'). reflexivity. }
  assert (Nv : victim_square (mover m) t <> t)
    by (unfold victim_square; destruct (mover m =? white); lia).
  change (nonzero pr) with (negb (pr =? 0)).
  destruct (Z.eqb_spec s f) as [->|Nsf].
  - destruct (Z.eqb_spec t f) as [|_]; [contradiction|].
    rewrite Z.eqb_refl. cbn [negb]. rewrite andb_false_r.
    destruct (Z.eqb_spec q p) as [->|Nq].
    + cbn [orb andb]. destruct (pr =? 0); cbn [negb];
        [reflexivity|]. cbv zeta. destruct (p =? pr); reflexivity.
    + rewrite (Fsrc q Hq Nq). cbn [orb andb].
      destruct (pr =? 0); cbn [negb]; [reflexivity|]. cbv zeta.
      destruct (q =? pr); reflexivity.
  - destruct (Z.eqb_spec f s) as [|_]; [congruence|].
    destruct (Z.eqb_spec s t) as [->|Nst].
    + rewrite Z.eqb_refl, Hpt.
      destruct (Z.eqb_spec t (victim_square (mover m) t)) as [|_];
        [congruence|].
      rewrite andb_false_r, andb_false_l.
      cbn [andb negb orb]. rewrite ?andb_true_r.
      destruct (Z.eqb_spec q p) as [->|Nq].
      * rewrite eqb_reflx. cbn [andb negb].
        rewrite ?andb_false_r, ?andb_false_l. cbn [andb negb].
        destruct (Z.eqb_spec pr 0) as [_|N0]; cbn [negb];
          [symmetry; apply Z.eqb_refl|].
        destruct (Z.eqb_spec p pr) as [E|_]; [|reflexivity].
        exfalso. apply (Hpr N0). symmetry. exact E.
      * rewrite (Tgt q Hq).
        rewrite ?andb_false_r, ?andb_false_l. cbn [andb negb].
        rewrite ?andb_true_r.
        destruct (Z.eqb_spec pr 0) as [_|N0]; cbn [negb].
        -- symmetry. apply Z.eqb_neq. exact Nq.
        -- destruct (q =? pr); reflexivity.
    + destruct (Z.eqb_spec t s) as [|_]; [congruence|].
      cbv zeta. cbn [negb andb orb]. rewrite ?andb_true_r, ?orb_false_r.
      set (ep := nonzero (get_move_enpassant m)
                 && (s =? victim_square (mover m) t)
                 && (q =? pawn_of (Z.lxor (mover m) 1))).
      destruct (Z.eqb_spec q p) as [->|Nq]; destruct (negb (pr =? 0));
        try destruct (_ =? pr);
        destruct ep; rewrite ?andb_false_r, ?andb_true_r; reflexivity.
Qed.

(** ** What a pseudo-legal move finds on the board *)

Lemma promoted_not_pawn (side f pr : Z) :
  side = white \/ side = black ->
  promoted_ok side f pr -> pr <> 0 -> pr <> pawn_of side.
Proof.
  unfold promoted_ok, promotions_of, WHITE_PROMOTIONS, BLACK_PROMOTIONS.
  intros Hs H N. destruct (promotion_rank side f); [|contradiction].
  destruct Hs as [-> | ->]; cbn in H |- *;
    repeat (destruct H as [<-|H]; [discriminate|]); contradiction.
Qed.

Lemma pseudo_legal_plain (b : ChessBoard) (side m : Z) :
  side = white \/ side = black ->
  occupancy_consistent b -> pieces_disjoint b ->
  pseudo_legal b side m -> get_move_castling m = 0 ->
  (get_move_enpassant m <> 0 ->
   Z.testbit (occ b side) (enpassant b) = false) ->
  mover m = side /\
  0 <= get_move_piece m < 12 /\
  Z.testbit (bb b (get_move_piece m)) (get_move_source m) = true /\
  Z.testbit (occ b side) (get_move_target m) = false /\
  (get_move_capture m = 0 ->
   Z.testbit (occ b (Z.lxor side 1)) (get_move_target m) = false) /\
  (get_move_promoted m <> 0 -> get_move_promoted m <> get_move_piece m) /\
  (get_move_double m <> 0 ->
   get_move_piece m = pawn_of side /\
   start_rank side (get_move_source m) = true /\
   get_move_target m
     = get_move_source m + forward_step side + forward_step side /\
   get_move_enpassant m = 0 /\
   Z.testbit (occ b both) (get_move_source m + forward_step side) = false).
Proof.
  intros Hside Hcons Hdis H Hc Hep.
  assert (Hpawn : (pawn_of side <? 6) = (side =? white))
    by (destruct Hside as [-> | ->]; reflexivity).
  assert (Hoff : forall p, In p (officers side) ->
                           (p <? 6) = (side =? white)).
  { intros p Hp. unfold officers in Hp. destruct Hside as [-> | ->];
      cbn in Hp; repeat (destruct Hp as [<-|Hp]; [reflexivity|]);
      contradiction. }
  assert (Mv : forall p, (p <? 6) = (side =? white) ->
                         (if p <? 6 then white else black) = side).
  { intros p E. rewrite E. destruct Hside as [-> | ->]; reflexivity. }
  pose proof (pawn_of_range side) as Rp.
  unfold mover.
  inversion H as [f pr Hf Hb Ht He Hpr | f Hf Hb Hs H1 H2
                 | f t pr Hf Hb Ht Ha Ho Hpr | f Hf Hb He Ha
                 | p f t attacks Hp Hf Hb Ht Ha Hbit Ho | K | K]; subst m.
  - pose proof (promoted_ok_range _ _ _ Hpr).
    assert (F : fields_ok f (f + forward_step side) (pawn_of side) pr 0 0 0 0)
      by (unfold fields_ok; lia).
    rewrite get_move_source_encode, get_move_target_encode,
      get_move_piece_encode, get_move_promoted_encode,
      get_move_capture_encode, get_move_double_encode by exact F.
    destruct (both_covers b side _ Hside Hcons He) as [B1 B2].
    split; [apply Mv; exact Hpawn|]. split; [exact Rp|].
    split; [exact Hb|]. split; [exact B1|]. split; [intros _; exact B2|].
    split; [apply promoted_not_pawn with (f := f); assumption|].
    intros N. exfalso. apply N. reflexivity.
  - assert (R2 : 0 <= f + forward_step side + forward_step side < 64).
    { unfold start_rank, forward_step in *. destruct Hside as [-> | ->];
        cbn [Z.eqb white black] in *; squares_unfold; bools; lia. }
    assert (F : fields_ok f (f + forward_step side + forward_step side)
                          (pawn_of side) 0 0 1 0 0)
      by (unfold fields_ok; lia).
    rewrite get_move_source_encode, get_move_target_encode,
      get_move_piece_encode, get_move_promoted_encode,
      get_move_capture_encode, get_move_double_encode,
      get_move_enpassant_encode by exact F.
    destruct (both_covers b side _ Hside Hcons H2) as [B1 B2].
    split; [apply Mv; exact Hpawn|]. split; [exact Rp|].
    split; [exact Hb|]. split; [exact B1|]. split; [intros _; exact B2|].
    split; [intros N; exfalso; apply N; reflexivity|].
    intros _. split; [reflexivity|]. split; [exact Hs|].
    split; [reflexivity|]. split; [reflexivity | exact H1].
  - pose proof (promoted_ok_range _ _ _ Hpr).
    assert (F : fields_ok f t (pawn_of side) pr 1 0 0 0)
      by (unfold fields_ok; lia).
    rewrite get_move_source_encode, get_move_target_encode,
      get_move_piece_encode, get_move_promoted_encode,
      get_move_capture_encode, get_move_double_encode by exact F.
    pose proof (own_enemy_disjoint b side t Hside Hcons Hdis Ho) as B1.
    split; [apply Mv; exact Hpawn|]. split; [exact Rp|].
    split; [exact Hb|]. split; [exact B1|].
    split; [intros E; vm_compute in E; discriminate|].
    split; [apply promoted_not_pawn with (f := f); assumption|].
    intros N. exfalso. apply N. reflexivity.
  - assert (F : fields_ok f (enpassant b) (pawn_of side) 0 1 0 1 0)
      by (unfold fields_ok; lia).
    rewrite get_move_enpassant_encode in Hep by exact F.
    rewrite get_move_source_encode, get_move_target_encode,
      get_move_piece_encode, get_move_promoted_encode,
      get_move_capture_encode, get_move_double_encode by exact F.
    assert (B1 : Z.testbit (occ b side) (enpassant b) = false)
      by (apply Hep; vm_compute; discriminate).
    split; [apply Mv; exact Hpawn|]. split; [exact Rp|].
    split; [exact Hb|]. split; [exact B1|].
    split; [intros E; vm_compute in E; discriminate|].
    split; [intros N; exfalso; apply N; reflexivity|].
    intros N. exfalso. apply N. reflexivity.
  - pose proof (officers_range _ _ Hp) as Ro.
    assert (F : fields_ok f t p 0
                  (if Z.testbit (occ b (Z.lxor side 1)) t then 1 else 0)
                  0 0 0)
      by (unfold fields_ok;
          destruct (Z.testbit (occ b (Z.lxor side 1)) t); lia).
    rewrite get_move_source_encode, get_move_target_encode,
      get_move_piece_encode, get_move_promoted_encode,
      get_move_capture_encode, get_move_double_encode by exact F.
    split; [apply Mv; apply Hoff; exact Hp|]. split; [exact Ro|].
    split; [exact Hb|]. split; [exact Ho|].
    split.
    { destruct (Z.testbit (occ b (Z.lxor side 1)) t); [|reflexivity].
      intros E. vm_compute in E. discriminate. }
    split; [intros N; exfalso; apply N; reflexivity|].
    intros N. exfalso. apply N. reflexivity.
  - exfalso. destruct Hside as [-> | ->]; vm_compute in Hc; discriminate.
  - exfalso. destruct Hside as [-> | ->]; vm_compute in Hc; discriminate.
Qed.

Lemma occ_side_bits (b : ChessBoard) (q t : Z) :
  occupancy_consistent b -> 0 <= q < 12 ->
  Z.testbit (bb b q) t = true ->
  Z.testbit (occ b (if q <? 6 then white else black)) t = true.
Proof.
  intros (Ow & Ob & _) Hq H. unfold bb in H.
  assert (C : q = 0 \/ q = 1 \/ q = 2 \/ q = 3 \/ q = 4 \/ q = 5 \/
              q = 6 \/ q = 7 \/ q = 8 \/ q = 9 \/ q = 10 \/ q = 11) by lia.
  repeat (destruct C as [-> | C]); try subst q;
    cbn [Z.ltb Z.compare Pos.compare Pos.compare_cont];
    rewrite ?Ow, ?Ob; unfold union; cbn [fold_left];
    rewrite !Z.lor_spec, Z.bits_0; squares_unfold;
    rewrite H; rewrite ?orb_true_r; reflexivity.
Qed.

Lemma side_free_bits (b : ChessBoard) (side t : Z) :
  side = white \/ side = black ->
  occupancy_consistent b ->
  Z.testbit (occ b side) t = false ->
  forall q, 0 <= q < 12 -> (q <? 6) = (side =? white) ->
            Z.testbit (bb b q) t = false.
Proof.
  intros Hs Hc H q Hq Sd.
  destruct (Z.testbit (bb b q) t) eqn:B; [|reflexivity].
  apply (occ_side_bits b q t Hc Hq) in B. rewrite Sd in B.
  destruct Hs as [-> | ->]; cbn [Z.eqb white black] in B; congruence.
Qed.

(** ** The accepted move *)

Lemma MakeMove_true_inv (b : ChessBoard) (m : Z) (b2 : ChessBoard) :
  MakeMove b m = Some (b2, true) ->
  exists b1,
    MakeMove_update b m = Some b1 /\
    isThereCheck b1 (mover m) = Some false /\
    bitboards b2 = bitboards b1 /\ occupancy b2 = occupancy b1 /\
    castling b2 = castling b1 /\
    color b2 = Z.lxor (color b1) 1 /\
    enpassant b2 =
      (if nonzero (get_move_double m)
       then U32.wrap (if mover m =? white then get_move_source m - 8
                      else get_move_source m + 8)
       else no_sq).
Proof.
  unfold MakeMove. fold (mover m). intros H. inv_bind H. inv_bind H.
  destruct v0; [discriminate|]. injection H as <-.
  exists v. split; [exact E|]. split; [exact E0|].
  destruct (nonzero (get_move_double m)); repeat split; reflexivity.
Qed.

Lemma after_disjoint (b2 : ChessBoard) (F : Z -> Z -> bool) :
  words 12 (bitboards b2) ->
  (forall q s, 0 <= q < 12 -> 0 <= s < 64 -> Z.testbit (bb b2 q) s = F q s) ->
  (forall i j s, 0 <= i < 12 -> 0 <= j < 12 -> 0 <= s < 64 ->
     F i s = true -> F j s = true -> i = j) ->
  pieces_disjoint b2.
Proof.
  intros W B U i j Hi Hj Hij. apply Z.bits_inj'. intros s Hs.
  rewrite Z.land_spec, Z.bits_0.
  destruct (Z_lt_le_dec s 64) as [Lt|Ge].
  - pose proof (B (Z.of_nat i) s ltac:(lia) ltac:(lia)) as Bi.
    pose proof (B (Z.of_nat j) s ltac:(lia) ltac:(lia)) as Bj.
    unfold bb in Bi, Bj. rewrite !Nat2Z.id in Bi, Bj. rewrite Bi, Bj.
    destruct (F (Z.of_nat i) s) eqn:Fi; [|reflexivity].
    destruct (F (Z.of_nat j) s) eqn:Fj; [|reflexivity].
    exfalso. apply Hij.
    apply Nat2Z.inj. apply (U _ _ s); try assumption; lia.
  - rewrite (in_range_bits_high (nth i (bitboards b2) 0) s);
      [reflexivity | apply (words_nth 12); exact W | exact Ge].
Qed.

Lemma after_move_unique (b : ChessBoard) (m : Z) :
  pieces_disjoint b ->
  forall i j s, 0 <= i < 12 -> 0 <= j < 12 -> 0 <= s < 64 ->
    after_move b m i s = true -> after_move b m j s = true -> i = j.
Proof.
  intros D i j s Hi Hj Hs. unfold after_move.
  destruct (s =? get_move_source m); [discriminate|].
  destruct (s =? get_move_target m).
  - intros Ei Ej. apply Z.eqb_eq in Ei, Ej. congruence.
  - destruct (_ && _ && (i =? _)); [discriminate|].
    destruct (_ && _ && (j =? _)); [discriminate|].
    apply (bits_disjoint b D); assumption.
Qed.

Lemma side_empty (b : ChessBoard) (side t : Z) :
  side = white \/ side = black -> occupancy_consistent b ->
  Z.testbit (occ b both) t = false -> Z.testbit (occ b side) t = false.
Proof. intros Hs Hc H. exact (proj1 (both_covers b side t Hs Hc H)). Qed.

(** What an accepted generated move that is not a castling move leaves:
    the pieces of [after_move], and the scalar fields. *)
Lemma accepted_plain
    (b : ChessBoard) (st st' : Moves) (m : Z) (b2 : ChessBoard) :
  wf_board b -> occupancy_consistent b -> pieces_disjoint b ->
  List.length (moves st) = MOVES_SIZE ->
  generate_moves st b = Some st' -> In m (generated st') ->
  get_move_castling m = 0 ->
  (get_move_enpassant m <> 0 ->
   Z.testbit (occ b (side_to_move b)) (enpassant b) = false) ->
  MakeMove b m = Some (b2, true) ->
  words 12 (bitboards b2) /\
  (forall q s, 0 <= q < 12 -> 0 <= s < 64 ->
     Z.testbit (bb b2 q) s = after_move b m q s) /\
  mover m = side_to_move b /\
  color b2 = Z.lxor (color b) 1 /\
  enpassant b2 =
    (if nonzero (get_move_double m)
     then get_move_source m + forward_step (side_to_move b) else no_sq) /\
  (get_move_double m <> 0 ->
   get_move_target m
     = get_move_source m + forward_step (side_to_move b)
       + forward_step (side_to_move b) /\
   get_move_enpassant m = 0 /\
   0 <= get_move_source m + forward_step (side_to_move b) < 64 /\
   Z.testbit (occ b both) (get_move_source m + forward_step (side_to_move b))
     = false).
Proof.
  intros Hb Hcons Hdis Hl Hg Hin Hk Hep H.
  assert (Hs : side_to_move b = white \/ side_to_move b = black)
    by (unfold side_to_move; destruct (color b =? white); auto).
  apply generate_moves_sound in Hg; [|exact Hb].
  assert (P : pseudo_legal b (side_to_move b) m).
  { apply (adds_generated _ (reset_count st) st' m); try assumption.
    - apply reset_count_ok. exact Hl.
    - reflexivity. }
  destruct (pseudo_legal_plain b _ m Hs Hcons Hdis P Hk Hep)
    as (Mv & Rp & Hsrc & Hown & Hcap & Hpr & Hd).
  apply MakeMove_true_inv in H.
  destruct H as (b1 & U & _ & Eb & Eo & _ & Ec & Ee).
  destruct Hb as (L1 & L2 & F1 & F2 & _).
  assert (W : words 12 (bitboards b)) by (split; assumption).
  assert (Sd : (get_move_piece m <? 6) = (side_to_move b =? white)).
  { unfold mover in Mv. destruct (get_move_piece m <? 6);
      rewrite <- Mv; reflexivity. }
  destruct (MakeMove_update_plain b m b1 W Hdis Hk Hsrc) as (W1 & B1);
    try assumption.
  { intros q Hq E. apply (side_free_bits b _ _ Hs Hcons Hown q Hq).
    rewrite E. exact Sd. }
  { intros N q Hq. destruct (Bool.eqb (q <? 6) (get_move_piece m <? 6)) eqn:E.
    - apply eqb_prop in E.
      apply (side_free_bits b _ _ Hs Hcons Hown q Hq). rewrite E. exact Sd.
    - apply eqb_false_iff in E.
      assert (Hs' : Z.lxor (side_to_move b) 1 = white \/
                    Z.lxor (side_to_move b) 1 = black)
        by (destruct Hs as [-> | ->]; [right | left]; reflexivity).
      apply (side_free_bits b _ _ Hs' Hcons (Hcap N) q Hq).
      rewrite Sd in E.
      destruct Hs as [R | R]; rewrite R in *;
        [change (Z.lxor white 1 =? white) with false
        |change (Z.lxor black 1 =? white) with true];
        cbn [Z.eqb white black] in E; destruct (q <? 6); congruence. }
  split; [rewrite Eb; exact W1|]. split.
  { intros q s Hq Hsq. unfold bb. rewrite Eb. apply B1; assumption. }
  split; [exact Mv|]. split.
  { rewrite Ec. f_equal.
    destruct (MakeMove_update_ok b m b1) as (_ & C & _);
      [split; split; assumption | exact U | exact C]. }
  assert (Rng : get_move_double m <> 0 ->
                0 <= get_move_source m + forward_step (side_to_move b) < 64 /\
                (mover m =? white) = (side_to_move b =? white)).
  { intros Nd. destruct (Hd Nd) as (_ & Sr & _).
    pose proof (get_move_source_range m). rewrite Mv.
    unfold start_rank, forward_step in *.
    destruct Hs as [R | R]; rewrite R in *; cbn [Z.eqb white black] in *;
      squares_unfold; bools; lia. }
  split.
  { rewrite Ee. destruct (nonzero (get_move_double m)) eqn:Nd; [|reflexivity].
    apply nonzero_true in Nd. destruct (Rng Nd) as [R1 R2].
    rewrite R2. unfold forward_step in *.
    destruct (side_to_move b =? white);
      unfold U32.wrap, U32.modulus; rewrite Z.mod_small; lia. }
  intros Nd. destruct (Hd Nd) as (_ & _ & Et & Ee0 & Emp).
  destruct (Rng Nd) as [R1 _].
  repeat split; try assumption; lia.
Qed.

(** X24.  An accepted move from the generated list that is not a castling move
    changes the pieces the way the chess move does: the source square is
    empty, the target square holds the moving piece (the promoted piece of
    a promotion) and nothing else, an en-passant capture takes the pawn of
    the opponent from the square behind the target, and every other square
    is as before.  The board after the move has again at most one piece on
    a square and consistent occupancies, the other side is to move, and
    the en-passant square is the square that a double push passed over, or
    no_sq after any other move.  For an en-passant capture this needs that
    the side to move has no piece of its own on the en-passant square of
    the board. *)
Theorem MakeMove_plays_generated_move
    (b : ChessBoard) (st st' : Moves) (m : Z) (b2 : ChessBoard) :
  wf_board b -> occupancy_consistent b -> pieces_disjoint b ->
  List.length (moves st) = MOVES_SIZE ->
  generate_moves st b = Some st' -> In m (generated st') ->
  get_move_castling m = 0 ->
  (get_move_enpassant m <> 0 ->
   Z.testbit (occ b (side_to_move b)) (enpassant b) = false) ->
  MakeMove b m = Some (b2, true) ->
  (forall q s, 0 <= q < 12 -> 0 <= s < 64 ->
     Z.testbit (bb b2 q) s = after_move b m q s) /\
  pieces_disjoint b2 /\ occupancy_consistent b2 /\
  mover m = side_to_move b /\
  color b2 = Z.lxor (color b) 1 /\
  enpassant b2 =
    (if nonzero (get_move_double m)
     then get_move_source m + forward_step (side_to_move b) else no_sq).
Proof.
  intros Hb Hcons Hdis Hl Hg Hin Hk Hep H.
  pose proof (MakeMove_consistent b m b2 true Hcons H) as Hcons2.
  destruct (accepted_plain b st st' m b2 Hb Hcons Hdis Hl Hg Hin Hk Hep H)
    as (W2 & Bits & Mv & Ec & Ee & _).
  split; [exact Bits|]. split.
  { apply (after_disjoint b2 (after_move b m)).
    - exact W2.
    - exact Bits.
    - apply after_move_unique. exact Hdis. }
  split; [exact Hcons2|]. split; [exact Mv|]. split; [exact Ec | exact Ee].
Qed.

Lemma MakeMove_plays_generated_move_witness :
  (forall q s, 0 <= q < 12 -> 0 <= s < 64 ->
     Z.testbit (bb passant_e5d6 q) s = after_move passant_board e5d6 q s) /\
  pieces_disjoint passant_e5d6 /\ occupancy_consistent passant_e5d6 /\
  mover e5d6 = side_to_move passant_board /\
  color passant_e5d6 = Z.lxor (color passant_board) 1 /\
  enpassant passant_e5d6 =
    (if nonzero (get_move_double e5d6)
     then get_move_source e5d6 + forward_step (side_to_move passant_board)
     else no_sq).
Proof.
  apply (MakeMove_plays_generated_move passant_board (moves_filled 0)
           passant_moves e5d6 passant_e5d6).
  - apply wf_boardb_spec. vm_compute. reflexivity.
  - vm_compute. repeat split; reflexivity.
  - apply (parseFEN_ok empty_board passant_fen). vm_compute. reflexivity.
  - reflexivity.
  - vm_compute. reflexivity.
  - vm_compute. repeat (try (left; reflexivity); right).
  - vm_compute. reflexivity.
  - intros _. vm_compute. reflexivity.
  - vm_compute. reflexivity.
Defined.

(** ** A castling move *)

Lemma MakeMove_update_castle (b : ChessBoard) (m : Z) (b2 : ChessBoard) :
  words 12 (bitboards b) -> pieces_disjoint b ->
  nonzero (get_move_capture m) = false ->
  nonzero (get_move_promoted m) = false ->
  nonzero (get_move_enpassant m) = false ->
  nonzero (get_move_castling m) = true ->
  (forall b', castle_rook b' (get_move_target m) =
              with_bitboards b'
                (lmod (bitboards b') (rook_of (mover m))
                   (fun x => set_bit (pop_bit x (rook_from (get_move_target m)))
                                     (rook_to (get_move_target m))))) ->
  0 <= rook_of (mover m) < 12 ->
  0 <= rook_from (get_move_target m) < 64 ->
  0 <= rook_to (get_move_target m) < 64 ->
  get_move_piece m <> rook_of (mover m) ->
  get_move_source m <> rook_to (get_move_target m) ->
  get_move_target m <> rook_to (get_move_target m) ->
  get_move_target m <> rook_from (get_move_target m) ->
  rook_to (get_move_target m) <> rook_from (get_move_target m) ->
  Z.testbit (bb b (get_move_piece m)) (get_move_source m) = true ->
  Z.testbit (bb b (rook_of (mover m))) (rook_from (get_move_target m))
    = true ->
  (forall q, 0 <= q < 12 ->
     Z.testbit (bb b q) (get_move_target m) = false) ->
  (forall q, 0 <= q < 12 ->
     Z.testbit (bb b q) (rook_to (get_move_target m)) = false) ->
  MakeMove_update b m = Some b2 ->
  words 12 (bitboards b2) /\
  forall q s, 0 <= q < 12 -> 0 <= s < 64 ->
    Z.testbit (bb b2 q) s = after_castling b m q s.
Proof.
  intros W D Hc Hpr He Hk Hcr Rr Rrf Rrt Npr Nfrt Ntrt Ntrf Nrr
         Hsrc Hrook Ht Hrt H.
  pose proof (get_move_source_range m) as Rf.
  pose proof (get_move_target_range m) as Rt.
  pose proof (bits_disjoint b D) as U.
  unfold MakeMove_update in H. fold (mover m) in H.
  rewrite Hc, Hpr, He, Hk in H.
  inv_bind H. inv_bind H. inv_bind H. injection H as <-.
  injection E0 as <-. injection E1 as <-.
  apply move_piece_bits in E; [|exact W | lia | lia].
  destruct E as (Rp & W1 & B1).
  change (bb (copyBoard b)) with (bb b) in B1.
  rewrite Hcr.
  set (f := get_move_source m) in *. set (t := get_move_target m) in *.
  set (p := get_move_piece m) in *. set (r := rook_of (mover m)) in *.
  set (rf := rook_from t) in *. set (rt := rook_to t) in *.
  split.
  { cbn [bitboards rebuild_occupancy update_rights with_castling
         with_occupancy with_bitboards].
    apply words_lmod; [exact W1|]. intros x. apply set_pop_in_range.
    exact Rrt. }
  intros q s Hq Hs. unfold bb.
  cbn [bitboards rebuild_occupancy update_rights with_castling
       with_occupancy with_bitboards].
  destruct W1 as [L1 F1].
  rewrite nth_lmod by (rewrite ?L1; lia).
  fold (bb v q). fold (bb v r).
  assert (Br : forall x,
            Z.testbit (set_bit (pop_bit (bb v r) rf) rt) x =
            (Z.testbit (bb b r) x && negb (rf =? x)) || (rt =? x)).
  { intros x. rewrite testbit_set_bit by lia.
    rewrite testbit_pop_bit by (try apply nth_in_range; try assumption; lia).
    rewrite B1 by lia.
    destruct (Z.eqb_spec r p) as [E|_]; [congruence | reflexivity]. }
  assert (Nft : f <> t)
    by (intros E; pose proof (Ht p Rp) as X; congruence).
  assert (Nfrf : f <> rf).
  { intros E. apply Npr. apply (U p r f); try assumption.
    rewrite E. exact Hrook. }
  assert (Fsrc : forall k, 0 <= k < 12 -> k <> p ->
                           Z.testbit (bb b k) f = false).
  { intros k Hk' N. destruct (Z.testbit (bb b k) f) eqn:B; [|reflexivity].
    exfalso. apply N. apply (U k p f); assumption. }
  assert (Frf : forall k, 0 <= k < 12 -> k <> r ->
                          Z.testbit (bb b k) rf = false).
  { intros k Hk' N. destruct (Z.testbit (bb b k) rf) eqn:B; [|reflexivity].
    exfalso. apply N. apply (U k r rf); assumption. }
  unfold after_castling.
  fold f t p r rf rt.
  destruct (Z.eqb_spec q r) as [->|Nqr].
  - rewrite Br.
    destruct (Z.eqb_spec s f) as [->|Nsf].
    + rewrite (Fsrc r Rr) by congruence.
      destruct (Z.eqb_spec rt f); [congruence | reflexivity].
    + destruct (Z.eqb_spec s rf) as [->|Nsrf].
      * rewrite Z.eqb_refl.
        destruct (Z.eqb_spec rt rf); [congruence|].
        rewrite andb_false_r. reflexivity.
      * cbn [orb]. destruct (Z.eqb_spec rf s); [congruence|].
        rewrite andb_true_r.
        destruct (Z.eqb_spec s t) as [->|Nst].
        -- rewrite (Ht r Rr).
           destruct (Z.eqb_spec rt t); [congruence|].
           destruct (Z.eqb_spec r p); [congruence | reflexivity].
        -- destruct (Z.eqb_spec s rt) as [->|Nsrt].
           ++ rewrite !Z.eqb_refl. apply orb_true_r.
           ++ destruct (Z.eqb_spec rt s); [congruence|].
              apply orb_false_r.
  - rewrite B1 by lia.
    destruct (Z.eqb_spec q p) as [->|Nqp].
    + destruct (Z.eqb_spec s f) as [->|Nsf].
      * rewrite Z.eqb_refl. destruct (Z.eqb_spec t f); [congruence|].
        rewrite andb_false_r. reflexivity.
      * destruct (Z.eqb_spec f s); [congruence|]. rewrite andb_true_r.
        destruct (Z.eqb_spec s rf) as [->|Nsrf].
        -- rewrite (Frf p Rp Npr).
           destruct (Z.eqb_spec t rf); [congruence | reflexivity].
        -- cbn [orb]. destruct (Z.eqb_spec s t) as [->|Nst].
           ++ rewrite !Z.eqb_refl. apply orb_true_r.
           ++ destruct (Z.eqb_spec t s); [congruence|].
              rewrite orb_false_r.
              destruct (Z.eqb_spec s rt) as [->|Nsrt]; [|reflexivity].
              rewrite (Hrt p Rp).
              destruct (Z.eqb_spec p r); [congruence | reflexivity].
    + destruct (Z.eqb_spec s f) as [->|Nsf];
        [apply Fsrc; assumption|].
      destruct (Z.eqb_spec s rf) as [->|Nsrf];
        [apply Frf; assumption|].
      cbn [orb]. destruct (Z.eqb_spec s t) as [->|Nst].
      * rewrite (Ht q Hq). reflexivity.
      * destruct (Z.eqb_spec s rt) as [->|Nsrt]; [|reflexivity].
        rewrite (Hrt q Hq). reflexivity.
Qed.

Lemma empty_square_bits (b : ChessBoard) (t : Z) :
  occupancy_consistent b -> 0 <= t ->
  get_bit (occ b both) t = false ->
  forall q, 0 <= q < 12 -> Z.testbit (bb b q) t = false.
Proof.
  intros Hc Ht H q Hq. rewrite get_bit_spec in H by exact Ht.
  destruct (both_covers b white t (or_introl eq_refl) Hc H) as [Bw Bb].
  change (Z.lxor white 1) with black in Bb.
  destruct (Z.ltb_spec q 6) as [Lt|Ge].
  - apply (side_free_bits b white t (or_introl eq_refl) Hc Bw q Hq).
    apply Z.ltb_lt in Lt. rewrite Lt. reflexivity.
  - apply (side_free_bits b black t (or_intror eq_refl) Hc Bb q Hq).
    apply Z.ltb_ge in Ge. rewrite Ge. reflexivity.
Qed.

Lemma after_castling_unique (b : ChessBoard) (m : Z) :
  pieces_disjoint b ->
  forall i j s, 0 <= i < 12 -> 0 <= j < 12 -> 0 <= s < 64 ->
    after_castling b m i s = true -> after_castling b m j s = true -> i = j.
Proof.
  intros D i j s Hi Hj Hs. unfold after_castling.
  destruct (_ || _); [discriminate|].
  destruct (s =? get_move_target m).
  - intros Ei Ej. apply Z.eqb_eq in Ei, Ej. congruence.
  - destruct (s =? rook_to _).
    + intros Ei Ej. apply Z.eqb_eq in Ei, Ej. congruence.
    + apply (bits_disjoint b D); assumption.
Qed.

(** What an accepted generated castling move leaves. *)
Lemma accepted_castle
    (b : ChessBoard) (st st' : Moves) (m : Z) (b2 : ChessBoard) :
  wf_board b -> occupancy_consistent b -> pieces_disjoint b ->
  List.length (moves st) = MOVES_SIZE ->
  generate_moves st b = Some st' -> In m (generated st') ->
  get_move_castling m <> 0 ->
  Z.testbit (bb b (king_of (side_to_move b))) (king_home (side_to_move b))
    = true ->
  Z.testbit (bb b (rook_of (side_to_move b))) (rook_from (get_move_target m))
    = true ->
  MakeMove b m = Some (b2, true) ->
  words 12 (bitboards b2) /\
  (forall q s, 0 <= q < 12 -> 0 <= s < 64 ->
     Z.testbit (bb b2 q) s = after_castling b m q s) /\
  mover m = side_to_move b /\
  get_move_piece m = king_of (side_to_move b) /\
  get_move_source m = king_home (side_to_move b) /\
  color b2 = Z.lxor (color b) 1 /\
  enpassant b2 = no_sq.
Proof.
  intros Hb Hcons Hdis Hl Hg Hin Hk Hking Hrook H.
  pose proof (generated_emitted b st st' m Hb Hl Hg Hin) as He.
  apply MakeMove_true_inv in H.
  destruct H as (b1 & U & _ & Eb & Eo & _ & Ec & Ee).
  destruct Hb as (L1 & L2 & F1 & F2 & _).
  assert (W : words 12 (bitboards b)) by (split; assumption).
  assert (C : color b1 = color b).
  { destruct (MakeMove_update_ok b m b1) as (_ & C & _);
      [split; split; assumption | exact U | exact C]. }
  assert (X : (words 12 (bitboards b1) /\
               forall q s, 0 <= q < 12 -> 0 <= s < 64 ->
                 Z.testbit (bb b1 q) s = after_castling b m q s) /\
              mover m = side_to_move b /\
              get_move_piece m = king_of (side_to_move b) /\
              get_move_source m = king_home (side_to_move b) /\
              nonzero (get_move_double m) = false).
  { destruct (side_to_move_cases b) as [Hs|Hs]; rewrite Hs in *;
      inversion He as [m' H0 | K | K]; subst; try contradiction.
    - destruct K as (_ & K1 & K2 & _).
      split; [|repeat split; reflexivity].
      apply MakeMove_update_castle; try assumption; try reflexivity;
        try (vm_compute; intuition congruence);
        try (apply empty_square_bits; [exact Hcons | vm_compute; congruence
                                       | assumption]).
    - destruct K as (_ & K1 & K2 & _).
      split; [|repeat split; reflexivity].
      apply MakeMove_update_castle; try assumption; try reflexivity;
        try (vm_compute; intuition congruence);
        try (apply empty_square_bits; [exact Hcons | vm_compute; congruence
                                       | assumption]).
    - destruct K as (_ & K1 & K2 & _).
      split; [|repeat split; reflexivity].
      apply MakeMove_update_castle; try assumption; try reflexivity;
        try (vm_compute; intuition congruence);
        try (apply empty_square_bits; [exact Hcons | vm_compute; congruence
                                       | assumption]).
    - destruct K as (_ & K1 & K2 & _).
      split; [|repeat split; reflexivity].
      apply MakeMove_update_castle; try assumption; try reflexivity;
        try (vm_compute; intuition congruence);
        try (apply empty_square_bits; [exact Hcons | vm_compute; congruence
                                       | assumption]). }
  destruct X as ((W1 & B1) & Mv & Ep & Es & Nd).
  split; [rewrite Eb; exact W1|]. split.
  { intros q s Hq Hsq. unfold bb. rewrite Eb. apply B1; assumption. }
  split; [exact Mv|]. split; [exact Ep|].
  split; [exact Es|]. split; [rewrite Ec, C; reflexivity|].
  rewrite Ee, Nd. reflexivity.
Qed.

(** X25.  An accepted castling move from the generated list, on a board with
    consistent occupancies and at most one piece on a square and with the
    king and the rook of the castling side on their home squares, puts
    the king on its target and the rook on the square that the king
    crossed, leaves their home squares empty and every other square as it
    was.  The board after the move has again at most one piece on a
    square and consistent occupancies, the other side is to move and
    there is no en-passant square. *)
Theorem MakeMove_castles
    (b : ChessBoard) (st st' : Moves) (m : Z) (b2 : ChessBoard) :
  wf_board b -> occupancy_consistent b -> pieces_disjoint b ->
  List.length (moves st) = MOVES_SIZE ->
  generate_moves st b = Some st' -> In m (generated st') ->
  get_move_castling m <> 0 ->
  Z.testbit (bb b (king_of (side_to_move b))) (king_home (side_to_move b))
    = true ->
  Z.testbit (bb b (rook_of (side_to_move b))) (rook_from (get_move_target m))
    = true ->
  MakeMove b m = Some (b2, true) ->
  (forall q s, 0 <= q < 12 -> 0 <= s < 64 ->
     Z.testbit (bb b2 q) s = after_castling b m q s) /\
  pieces_disjoint b2 /\ occupancy_consistent b2 /\
  mover m = side_to_move b /\
  get_move_piece m = king_of (side_to_move b) /\
  get_move_source m = king_home (side_to_move b) /\
  color b2 = Z.lxor (color b) 1 /\
  enpassant b2 = no_sq.
Proof.
  intros Hb Hcons Hdis Hl Hg Hin Hk Hking Hrook H.
  pose proof (MakeMove_consistent b m b2 true Hcons H) as Hcons2.
  destruct (accepted_castle b st st' m b2 Hb Hcons Hdis Hl Hg Hin Hk
              Hking Hrook H) as (W2 & Bits & Mv & Ep & Es & Ec & Ee).
  split; [exact Bits|]. split.
  { apply (after_disjoint b2 (after_castling b m)).
    - exact W2.
    - exact Bits.
    - apply after_castling_unique. exact Hdis. }
  split; [exact Hcons2|]. split; [exact Mv|]. split; [exact Ep|].
  split; [exact Es|]. split; [exact Ec | exact Ee].
Qed.

Lemma MakeMove_castles_witness :
  (forall q s, 0 <= q < 12 -> 0 <= s < 64 ->
     Z.testbit (bb castle_e1g1 q) s = after_castling castle_board e1g1 q s) /\
  pieces_disjoint castle_e1g1 /\ occupancy_consistent castle_e1g1 /\
  mover e1g1 = side_to_move castle_board /\
  get_move_piece e1g1 = king_of (side_to_move castle_board) /\
  get_move_source e1g1 = king_home (side_to_move castle_board) /\
  color castle_e1g1 = Z.lxor (color castle_board) 1 /\
  enpassant castle_e1g1 = no_sq.
Proof.
  apply (MakeMove_castles castle_board (moves_filled 0) castle_moves e1g1
           castle_e1g1).
  - apply wf_boardb_spec. vm_compute. reflexivity.
  - vm_compute. repeat split; reflexivity.
  - exact castle_board_disjoint.
  - reflexivity.
  - vm_compute. reflexivity.
  - vm_compute. repeat (try (left; reflexivity); right).
  - vm_compute. discriminate.
  - vm_compute. reflexivity.
  - vm_compute. reflexivity.
  - vm_compute. reflexivity.
Defined.

(** * When [MakeMove] returns *)

(** ** The shape of a pseudo-legal move *)

Lemma pawn_victim_on_board (side f t : Z) :
  side = white \/ side = black -> 0 <= f < 64 -> 0 <= t < 64 ->
  Z.testbit (pawn_attacks side f) t = true ->
  valid_shift (victim_square side t) = true.
Proof.
  intros Hs Hf Ht.
  assert (C : forall side, side = white \/ side = black ->
            forallb (fun f => forallb (fun t =>
              implb (Z.testbit (pawn_attacks side f) t)
                    (valid_shift (victim_square side t))) squares) squares
            = true)
    by (intros s [-> | ->]; vm_compute; reflexivity).
  specialize (C side Hs). rewrite forallb_forall in C.
  specialize (C f (proj2 (In_squares f) Hf)). rewrite forallb_forall in C.
  specialize (C t (proj2 (In_squares t) Ht)).
  intros B. rewrite B in C. exact C.
Qed.

Lemma promoted_piece (side f pr : Z) :
  side = white \/ side = black ->
  promoted_ok side f pr -> pr <> 0 ->
  0 <= pr < 12 /\ pr <> king_of side /\ pr <> pawn_of side.
Proof.
  unfold promoted_ok, promotions_of, WHITE_PROMOTIONS, BLACK_PROMOTIONS.
  intros Hs H N. destruct (promotion_rank side f); [|contradiction].
  destruct Hs as [-> | ->]; cbn in H |- *;
    repeat (destruct H as [<-|H];
            [repeat split; (discriminate || (squares_unfold; lia))|]);
    contradiction.
Qed.

Lemma pseudo_legal_shape (b : ChessBoard) (side m : Z) :
  side = white \/ side = black ->
  pseudo_legal b side m ->
  mover m = side /\
  0 <= get_move_piece m < 12 /\
  (get_move_castling m = 0 ->
   Z.testbit (bb b (get_move_piece m)) (get_move_source m) = true) /\
  (get_move_castling m <> 0 -> get_move_piece m = king_of side) /\
  (get_move_promoted m <> 0 ->
   0 <= get_move_promoted m < 12 /\
   get_move_promoted m <> king_of side /\
   get_move_piece m = pawn_of side) /\
  (get_move_enpassant m <> 0 ->
   valid_shift (victim_square side (get_move_target m)) = true).
Proof.
  intros Hside H.
  assert (Hpawn : (pawn_of side <? 6) = (side =? white))
    by (destruct Hside as [-> | ->]; reflexivity).
  assert (Hoff : forall p, In p (officers side) ->
                           (p <? 6) = (side =? white)).
  { intros p Hp. unfold officers in Hp. destruct Hside as [-> | ->];
      cbn in Hp; repeat (destruct Hp as [<-|Hp]; [reflexivity|]);
      contradiction. }
  assert (Mv : forall p, (p <? 6) = (side =? white) ->
                         (if p <? 6 then white else black) = side).
  { intros p E. rewrite E. destruct Hside as [-> | ->]; reflexivity. }
  pose proof (pawn_of_range side) as Rp.
  unfold mover.
  inversion H as [f pr Hf Hb Ht He Hpr | f Hf Hb Hs H1 H2
                 | f t pr Hf Hb Ht Ha Ho Hpr | f Hf Hb He Ha
                 | p f t attacks Hp Hf Hb Ht Ha Hbit Ho | K | K]; subst m.
  - pose proof (promoted_ok_range _ _ _ Hpr).
    assert (F : fields_ok f (f + forward_step side) (pawn_of side) pr 0 0 0 0)
      by (unfold fields_ok; lia).
    rewrite get_move_source_encode, get_move_target_encode,
      get_move_piece_encode, get_move_promoted_encode,
      get_move_enpassant_encode, get_move_castling_encode by exact F.
    split; [apply Mv; exact Hpawn|]. split; [exact Rp|].
    split; [intros _; exact Hb|].
    split; [intros N; exfalso; apply N; reflexivity|].
    split.
    { intros N. destruct (promoted_piece side f pr Hside Hpr N) as (A & B & _).
      repeat split; try assumption; lia. }
    intros N. exfalso. apply N. reflexivity.
  - assert (R2 : 0 <= f + forward_step side + forward_step side < 64).
    { unfold start_rank, forward_step in *. destruct Hside as [-> | ->];
        cbn [Z.eqb white black] in *; squares_unfold; bools; lia. }
    assert (F : fields_ok f (f + forward_step side + forward_step side)
                          (pawn_of side) 0 0 1 0 0)
      by (unfold fields_ok; lia).
    rewrite get_move_source_encode, get_move_target_encode,
      get_move_piece_encode, get_move_promoted_encode,
      get_move_enpassant_encode, get_move_castling_encode by exact F.
    split; [apply Mv; exact Hpawn|]. split; [exact Rp|].
    split; [intros _; exact Hb|].
    split; [intros N; exfalso; apply N; reflexivity|].
    split; intros N; exfalso; apply N; reflexivity.
  - pose proof (promoted_ok_range _ _ _ Hpr).
    assert (F : fields_ok f t (pawn_of side) pr 1 0 0 0)
      by (unfold fields_ok; lia).
    rewrite get_move_source_encode, get_move_target_encode,
      get_move_piece_encode, get_move_promoted_encode,
      get_move_enpassant_encode, get_move_castling_encode by exact F.
    split; [apply Mv; exact Hpawn|]. split; [exact Rp|].
    split; [intros _; exact Hb|].
    split; [intros N; exfalso; apply N; reflexivity|].
    split.
    { intros N. destruct (promoted_piece side f pr Hside Hpr N) as (A & B & _).
      repeat split; try assumption; lia. }
    intros N. exfalso. apply N. reflexivity.
  - assert (F : fields_ok f (enpassant b) (pawn_of side) 0 1 0 1 0)
      by (unfold fields_ok; lia).
    rewrite get_move_source_encode, get_move_target_encode,
      get_move_piece_encode, get_move_promoted_encode,
      get_move_enpassant_encode, get_move_castling_encode by exact F.
    split; [apply Mv; exact Hpawn|]. split; [exact Rp|].
    split; [intros _; exact Hb|].
    split; [intros N; exfalso; apply N; reflexivity|].
    split; [intros N; exfalso; apply N; reflexivity|].
    intros _. apply (pawn_victim_on_board side f); assumption.
  - pose proof (officers_range _ _ Hp) as Ro.
    assert (F : fields_ok f t p 0
                  (if Z.testbit (occ b (Z.lxor side 1)) t then 1 else 0)
                  0 0 0)
      by (unfold fields_ok;
          destruct (Z.testbit (occ b (Z.lxor side 1)) t); lia).
    rewrite get_move_source_encode, get_move_target_encode,
      get_move_piece_encode, get_move_promoted_encode,
      get_move_enpassant_encode, get_move_castling_encode by exact F.
    split; [apply Mv; apply Hoff; exact Hp|]. split; [exact Ro|].
    split; [intros _; exact Hb|].
    split; [intros N; exfalso; apply N; reflexivity|].
    split; intros N; exfalso; apply N; reflexivity.
  - destruct Hside as [-> | ->]; vm_compute; intuition congruence.
  - destruct Hside as [-> | ->]; vm_compute; intuition congruence.
Qed.

(** ** The update returns, and what it does to the king's bitboard *)

Lemma lmod_amod (a : list Z) (i : Z) (f : Z -> Z) :
  0 <= i < Z.of_nat (length a) -> amod a i f = Some (lmod a i f).
Proof.
  intros Hi. unfold amod, aget, aset, lmod.
  destruct (Z.ltb_spec i 0) as [|_]; [lia|].
  destruct (nth_error a (Z.to_nat i)) as [x|] eqn:E.
  - cbn [bind].
    replace ((0 <=? i) && (i <? Z.of_nat (length a))) with true
      by (symmetry; apply andb_true_iff; split;
          [apply Z.leb_le | apply Z.ltb_lt]; lia).
    rewrite (nth_error_nth _ _ 0 E). reflexivity.
  - apply nth_error_None in E. lia.
Qed.

Lemma remove_captured_other (ps : list Z) (bbs : list Z) (t q : Z) :
  0 <= q -> (forall i, In i ps -> 0 <= i /\ i <> q) ->
  nth (Z.to_nat q) (remove_captured ps bbs t) 0 = nth (Z.to_nat q) bbs 0.
Proof.
  intros Hq. induction ps as [|i ps IH]; intros N; [reflexivity|].
  cbn [remove_captured]. destruct (get_bit _ _).
  - apply nth_list_set_neq.
    destruct (N i (or_introl eq_refl)) as [A B]. lia.
  - apply IH. intros j Hj. apply N. right. exact Hj.
Qed.

Lemma length_remove_captured (ps : list Z) (bbs : list Z) (t : Z) :
  length (remove_captured ps bbs t) = length bbs.
Proof.
  induction ps as [|i ps IH]; [reflexivity|]. cbn [remove_captured].
  destruct (get_bit _ _); [apply length_list_set | exact IH].
Qed.

Lemma nth_lmod_other (a : list Z) (i q : Z) (f : Z -> Z) :
  0 <= i -> 0 <= q -> q <> i ->
  nth (Z.to_nat q) (lmod a i f) 0 = nth (Z.to_nat q) a 0.
Proof.
  intros Hi Hq N. unfold lmod. apply nth_list_set_neq. lia.
Qed.

Lemma length_lmod (a : list Z) (i : Z) (f : Z -> Z) :
  length (lmod a i f) = length a.
Proof. apply length_list_set. Qed.

Lemma king_of_range (side : Z) : 0 <= king_of side < 12.
Proof. unfold king_of. destruct (side =? white); squares_unfold; lia. Qed.

Lemma MakeMove_update_returns (b : ChessBoard) (m : Z) :
  length (bitboards b) = 12%nat ->
  mover m = white \/ mover m = black ->
  0 <= get_move_piece m < 12 ->
  (get_move_promoted m <> 0 ->
   0 <= get_move_promoted m < 12 /\
   get_move_promoted m <> king_of (mover m) /\
   get_move_piece m <> king_of (mover m)) ->
  (get_move_enpassant m <> 0 ->
   valid_shift (victim_square (mover m) (get_move_target m)) = true) ->
  exists b1,
    MakeMove_update b m = Some b1 /\
    bb b1 (king_of (mover m)) =
      if get_move_piece m =? king_of (mover m)
      then set_bit (pop_bit (bb b (get_move_piece m)) (get_move_source m))
                   (get_move_target m)
      else bb b (king_of (mover m)).
Proof.
  intros L Hs Rp Hpr Hep.
  pose proof (king_of_range (mover m)) as Rk.
  unfold MakeMove_update. fold (mover m).
  set (f := get_move_source m). set (t := get_move_target m).
  set (p := get_move_piece m) in *. set (pr := get_move_promoted m) in *.
  set (K := king_of (mover m)) in *.
  unfold move_piece.
  rewrite lmod_amod by (cbn [bitboards copyBoard]; rewrite L; lia).
  cbn [bind].
  match goal with
  | |- context [with_occupancy (with_bitboards ?x ?y) ?z] =>
      set (v := with_occupancy (with_bitboards x y) z)
  end.
  assert (Lv : length (bitboards v) = 12%nat)
    by (subst v; cbn [bitboards with_occupancy with_bitboards copyBoard];
        rewrite length_lmod; exact L).
  assert (Bv : bb v K = if p =? K
                        then set_bit (pop_bit (bb b p) f) t else bb b K).
  { subst v. unfold bb.
    cbn [bitboards with_occupancy with_bitboards copyBoard].
    rewrite nth_lmod by (rewrite ?L; lia).
    destruct (Z.eqb_spec K p) as [E|N].
    - rewrite E, Z.eqb_refl. reflexivity.
    - destruct (Z.eqb_spec p K); [congruence | reflexivity]. }
  clearbody v.
  set (c1 := if nonzero (get_move_capture m) then capture_piece v (mover m) t
             else v).
  assert (C : length (bitboards c1) = 12%nat /\ bb c1 K = bb v K).
  { subst c1. destruct (nonzero (get_move_capture m)); [|split; auto].
    unfold capture_piece, bb.
    cbn [bitboards with_occupancy with_bitboards].
    split; [rewrite length_remove_captured; exact Lv|].
    apply remove_captured_other; [lia|].
    intros i Hi. subst K. unfold king_of.
    destruct Hs as [E|E]; rewrite E in *; cbn in Hi |- *;
      repeat (destruct Hi as [<-|Hi]; [squares_unfold; lia|]);
      contradiction. }
  clearbody c1. destruct C as [Lc Bc].
  assert (P : exists v0,
            (if nonzero pr then promote c1 p pr t else Some c1) = Some v0 /\
            length (bitboards v0) = 12%nat /\ bb v0 K = bb c1 K).
  { destruct (nonzero pr) eqn:Np; [|exists c1; auto].
    apply nonzero_true in Np. destruct (Hpr Np) as (R1 & R2 & R3).
    unfold promote. rewrite lmod_amod by (rewrite Lc; lia). cbn [bind].
    rewrite lmod_amod by (rewrite length_lmod, Lc; lia). cbn [bind].
    eexists. split; [reflexivity|]. unfold bb. cbn [bitboards with_bitboards].
    split; [rewrite !length_lmod; exact Lc|].
    rewrite !nth_lmod_other by (fold K; lia). reflexivity. }
  destruct P as (v0 & -> & L0 & B0). cbn [bind].
  assert (Q : exists v1,
            (if nonzero (get_move_enpassant m)
             then capture_enpassant v0 (mover m) t else Some v0) = Some v1 /\
            length (bitboards v1) = 12%nat /\ bb v1 K = bb v0 K).
  { destruct (nonzero (get_move_enpassant m)) eqn:Ne; [|exists v0; auto].
    apply nonzero_true in Ne. specialize (Hep Ne).
    unfold capture_enpassant. fold (victim_square (mover m) t).
    fold t in Hep. rewrite Hep.
    eexists. split; [reflexivity|]. unfold bb.
    cbn [bitboards with_enpassant with_bitboards].
    split; [rewrite length_lmod; exact L0|].
    apply nth_lmod_other; subst K; unfold king_of;
      destruct Hs as [E|E]; rewrite E in *; cbn; squares_unfold; lia. }
  destruct Q as (v1 & -> & L1 & B1). cbn [bind].
  eexists. split; [reflexivity|].
  change (bb (rebuild_occupancy (update_rights ?x f t)) K) with (bb x K).
  rewrite <- Bv, <- Bc, <- B0, <- B1.
  destruct (nonzero (get_move_castling m)); [|reflexivity].
  unfold castle_rook, bb.
  repeat match goal with
         | |- context [if ?c then _ else _] => destruct c
         end;
    cbn [bitboards with_bitboards]; try reflexivity;
    apply nth_lmod_other; subst K; unfold king_of;
    destruct (mover m =? white); squares_unfold; lia.
Qed.

Lemma isThereCheck_king (b : ChessBoard) (side : Z) :
  isThereCheck b side =
  (square <- bitScanForward (bb b (king_of side)) ;;
   isSquareAttacked b square (Z.lxor side 1)).
Proof.
  unfold isThereCheck, king_of. destruct (side =? white); reflexivity.
Qed.

Lemma bitScanForward_zero : bitScanForward 0 = None.
Proof. reflexivity. Qed.

(** X26.  For a move of the generated list, [MakeMove] returns exactly when the
    side to move has a king on the board or the move is a castling move
    (which puts a king on its target whether or not one stood on the home
    square).  With no king of the side to move on the board, every other
    generated move stops at the assertion of [bitScanForward] in the
    legality test. *)
Theorem MakeMove_returns_with_king
    (b : ChessBoard) (st st' : Moves) (m : Z) :
  wf_board b -> List.length (moves st) = MOVES_SIZE ->
  generate_moves st b = Some st' -> In m (generated st') ->
  ((exists b2 ok, MakeMove b m = Some (b2, ok)) <->
   (bb b (king_of (side_to_move b)) <> 0 \/ get_move_castling m <> 0)).
Proof.
  intros Hb Hl Hg Hin.
  pose proof (side_to_move_cases b) as Hs.
  apply generate_moves_sound in Hg; [|exact Hb].
  assert (P : pseudo_legal b (side_to_move b) m).
  { apply (adds_generated _ (reset_count st) st' m); try assumption.
    - apply reset_count_ok. exact Hl.
    - reflexivity. }
  destruct (pseudo_legal_shape b _ m Hs P)
    as (Mv & Rp & Hsrc & Hking & Hpr & Hep).
  assert (Npk : pawn_of (side_to_move b) <> king_of (side_to_move b))
    by (destruct Hs as [E|E]; rewrite E; discriminate).
  destruct (MakeMove_update_returns b m) as (b1 & U & BK).
  { destruct Hb as (L & _). exact L. }
  { rewrite Mv. exact Hs. }
  { exact Rp. }
  { intros N. destruct (Hpr N) as (A & B & C). rewrite Mv.
    split; [exact A|]. split; [exact B|]. rewrite C. exact Npk. }
  { intros N. rewrite Mv. apply Hep. exact N. }
  rewrite Mv in BK.
  destruct Hb as (L1 & L2 & F1 & F2 & Hrest).
  destruct (MakeMove_update_ok b m b1) as (((M1 & M2) & (M3 & M4)) & _);
    [split; split; assumption | exact U |].
  assert (Rk : U64.in_range (bb b1 (king_of (side_to_move b))))
    by (apply nth_in_range; exact M2).
  assert (Ro : 0 <= occ b1 both).
  { assert (X : U64.in_range (occ b1 both)) by (apply nth_in_range; exact M4).
    destruct X as [X _]. exact X. }
  unfold MakeMove. fold (mover m). cbv zeta. rewrite U, Mv. cbn [bind].
  rewrite isThereCheck_king.
  split.
  - intros (b2 & ok & H).
    destruct (Z.eq_dec (get_move_castling m) 0) as [Hk|Hk];
      [|right; exact Hk].
    left. intros Z0. specialize (Hsrc Hk).
    destruct (Z.eqb_spec (get_move_piece m) (king_of (side_to_move b)))
      as [E|N].
    + rewrite E, Z0, Z.bits_0 in Hsrc. discriminate.
    + rewrite BK, Z0, bitScanForward_zero in H. discriminate.
  - intros Hor.
    assert (Nz : bb b1 (king_of (side_to_move b)) <> 0).
    { rewrite BK.
      destruct (Z.eqb_spec (get_move_piece m) (king_of (side_to_move b)))
        as [E|N].
      - intros Z0. apply (f_equal (fun z => Z.testbit z (get_move_target m)))
          in Z0.
        pose proof (get_move_target_range m).
        rewrite testbit_set_bit, Z.eqb_refl, orb_true_r, Z.bits_0 in Z0
          by lia.
        discriminate.
      - destruct Hor as [Hor|Hor]; [exact Hor|].
        exfalso. apply N. apply Hking. exact Hor. }
    destruct (bitScanForward_spec _ Rk Nz) as (sq & -> & _).
    cbn [bind].
    destruct (isSquareAttacked_total b1 sq (Z.lxor (side_to_move b) 1) Ro)
      as (r & ->).
    cbn [bind]. destruct r; eexists; eexists; reflexivity.
Qed.

Lemma MakeMove_returns_with_king_witness :
  (exists b2 ok, MakeMove start_board e2e4 = Some (b2, ok)) <->
  (bb start_board (king_of (side_to_move start_board)) <> 0 \/
   get_move_castling e2e4 <> 0).
Proof.
  apply (MakeMove_returns_with_king start_board (moves_filled 0)
           start_moves e2e4).
  - apply wf_boardb_spec. vm_compute. reflexivity.
  - reflexivity.
  - vm_compute. reflexivity.
  - vm_compute. repeat (try (left; reflexivity); right).
Defined.

(** * The attack test finds the attackers *)

Lemma nonzero_land_exists (A X : Z) :
  U64.in_range A -> 0 <= X ->
  nonzero (Z.land A X) = true <->
  exists s, 0 <= s < 64 /\ Z.testbit A s = true /\ Z.testbit X s = true.
Proof.
  intros HA HX. rewrite nonzero_true. split.
  - intros N.
    destruct (in_range_has_bit (Z.land A X) (land_in_range A X HA HX) N)
      as (s & Hs & B).
    rewrite Z.land_spec in B. apply andb_true_iff in B.
    exists s. tauto.
  - intros (s & Hs & B1 & B2) Z0.
    apply (f_equal (fun z => Z.testbit z s)) in Z0.
    rewrite Z.land_spec, B1, B2, Z.bits_0 in Z0. discriminate.
Qed.

Lemma pawn_table_reversed (color square s : Z) :
  color = white \/ color = black -> 0 <= square < 64 -> 0 <= s < 64 ->
  Z.testbit (pawn_attacks (Z.lxor color 1) square) s
  = pawn_capture_step color s square.
Proof.
  intros [-> | ->] Hq Hs.
  - apply (agree_on_squares_spec
             (fun q s => Z.testbit (pawn_attacks black q) s)
             (fun q s => pawn_capture_step white s q));
      [vm_compute; reflexivity | exact Hq | exact Hs].
  - apply (agree_on_squares_spec
             (fun q s => Z.testbit (pawn_attacks white q) s)
             (fun q s => pawn_capture_step black s q));
      [vm_compute; reflexivity | exact Hq | exact Hs].
Qed.

Lemma knight_table_reversed (square s : Z) :
  0 <= square < 64 -> 0 <= s < 64 ->
  Z.testbit (knight_attacks square) s = knight_jump s square.
Proof.
  intros Hq Hs.
  apply (agree_on_squares_spec
           (fun q s => Z.testbit (knight_attacks q) s)
           (fun q s => knight_jump s q));
    [vm_compute; reflexivity | exact Hq | exact Hs].
Qed.

Lemma king_table_reversed (square s : Z) :
  0 <= square < 64 -> 0 <= s < 64 ->
  Z.testbit (king_attacks square) s = king_step s square.
Proof.
  intros Hq Hs.
  apply (agree_on_squares_spec
           (fun q s => Z.testbit (king_attacks q) s)
           (fun q s => king_step s q));
    [vm_compute; reflexivity | exact Hq | exact Hs].
Qed.

Lemma testbit_ray_attack (d : Dir) (square B s : Z) :
  0 <= square < 64 ->
  Z.testbit (ray_attack d square B) s
  = existsb (Z.eqb s) (until_blocker B (ray_squares d square)).
Proof.
  intros Hq. unfold ray_attack. apply testbit_of_squares.
  apply until_blocker_on_board. apply (ray_ok_on_board d).
  apply rays_ok. exact Hq.
Qed.

Lemma testbit_bishop_attacks (square B s : Z) :
  0 <= square < 64 ->
  Z.testbit (bishop_attacks square B) s = in_sight diagonal B square s.
Proof.
  intros Hq. unfold bishop_attacks, in_sight, diagonal.
  rewrite !Z.lor_spec, !testbit_ray_attack by exact Hq.
  cbn [existsb]. rewrite orb_false_r, !orb_assoc. reflexivity.
Qed.

Lemma testbit_rook_attacks (square B s : Z) :
  0 <= square < 64 ->
  Z.testbit (rook_attacks square B) s = in_sight straight B square s.
Proof.
  intros Hq. unfold rook_attacks, in_sight, straight.
  rewrite !Z.lor_spec, !testbit_ray_attack by exact Hq.
  cbn [existsb]. rewrite orb_false_r, !orb_assoc. reflexivity.
Qed.

Lemma bishop_attacks_in_range (square B : Z) :
  0 <= square < 64 -> U64.in_range (bishop_attacks square B).
Proof.
  intros Hq. unfold bishop_attacks.
  repeat apply lor_in_range; apply ray_attack_in_range; exact Hq.
Qed.

Lemma rook_attacks_in_range (square B : Z) :
  0 <= square < 64 -> U64.in_range (rook_attacks square B).
Proof.
  intros Hq. unfold rook_attacks.
  repeat apply lor_in_range; apply ray_attack_in_range; exact Hq.
Qed.

Lemma nonzero_land_existsb (A X : Z) :
  U64.in_range A -> 0 <= X ->
  nonzero (Z.land A X)
  = existsb (fun s => Z.testbit X s && Z.testbit A s) squares.
Proof.
  intros HA HX. apply eq_true_iff_eq.
  rewrite (nonzero_land_exists A X HA HX), existsb_exists. split.
  - intros (s & Hs & B1 & B2). exists s.
    split; [apply In_squares; exact Hs|]. rewrite B1, B2. reflexivity.
  - intros (s & Hs & B). apply andb_true_iff in B.
    exists s. split; [apply In_squares; exact Hs | tauto].
Qed.

Lemma existsb_orb {A : Type} (f g : A -> bool) (l : list A) :
  existsb (fun x => f x || g x) l = existsb f l || existsb g l.
Proof.
  induction l as [|x r IH]; [reflexivity|]. cbn [existsb]. rewrite IH.
  destruct (f x), (g x), (existsb f r), (existsb g r); reflexivity.
Qed.

Lemma existsb_ext_in {A : Type} (f g : A -> bool) (l : list A) :
  (forall x, In x l -> f x = g x) -> existsb f l = existsb g l.
Proof.
  induction l as [|x r IH]; intros H; [reflexivity|]. cbn [existsb].
  rewrite (H x (or_introl eq_refl)), IH; [reflexivity|].
  intros y Hy. apply H. right. exact Hy.
Qed.

Lemma bb_nonneg (b : ChessBoard) (p : Z) : wf_board b -> 0 <= bb b p.
Proof.
  intros (_ & _ & F & _).
  assert (X : U64.in_range (bb b p)) by (apply nth_in_range; exact F).
  destruct X as [X _]. exact X.
Qed.

(** X27.  [isSquareAttacked] answers true exactly when a piece of the color that
    stands on some square of the board attacks the square by the rules of
    chess: a pawn one row ahead (in its direction of play) on a
    neighbouring file, a knight a jump away, a king next to it, a bishop
    or queen on a diagonal and a rook or queen on a row or file with no
    occupied square between. *)
Theorem isSquareAttacked_finds_attackers (b : ChessBoard) (square color : Z) :
  wf_board b -> 0 <= square < 64 -> color = white \/ color = black ->
  isSquareAttacked b square color
  = Some (existsb (attacker b color square) squares).
Proof.
  intros Hb Hq Hc.
  rewrite (isSquareAttacked_spec b square color Hq (wf_board_occ_both b Hb)).
  f_equal. unfold attacked_by.
  set (B := occ b both).
  assert (E : existsb (attacker b color square) squares =
              existsb (fun s =>
                Z.testbit (bb b (pawn_of color)) s
                && Z.testbit (pawn_attacks (Z.lxor color 1) square) s) squares
              || existsb (fun s =>
                   Z.testbit (bb b (knight_of color)) s
                   && Z.testbit (knight_attacks square) s) squares
              || existsb (fun s =>
                   Z.testbit (bb b (bishop_of color)) s
                   && Z.testbit (bishop_attacks square B) s) squares
              || existsb (fun s =>
                   Z.testbit (bb b (rook_of color)) s
                   && Z.testbit (rook_attacks square B) s) squares
              || existsb (fun s =>
                   Z.testbit (bb b (queen_of color)) s
                   && Z.testbit (Z.lor (rook_attacks square B)
                                       (bishop_attacks square B)) s) squares
              || existsb (fun s =>
                   Z.testbit (bb b (king_of color)) s
                   && Z.testbit (king_attacks square) s) squares).
  { rewrite <- !existsb_orb. apply existsb_ext_in. intros s Hs.
    apply In_squares in Hs. unfold attacker. fold B.
    rewrite Z.lor_spec.
    rewrite (pawn_table_reversed color square s Hc Hq Hs),
      (knight_table_reversed square s Hq Hs),
      (king_table_reversed square s Hq Hs),
      (testbit_bishop_attacks square B s Hq),
      (testbit_rook_attacks square B s Hq).
    destruct (Z.testbit (bb b (pawn_of color)) s),
      (pawn_capture_step color s square),
      (Z.testbit (bb b (knight_of color)) s), (knight_jump s square),
      (Z.testbit (bb b (king_of color)) s), (king_step s square),
      (Z.testbit (bb b (bishop_of color)) s),
      (Z.testbit (bb b (queen_of color)) s),
      (Z.testbit (bb b (rook_of color)) s),
      (in_sight diagonal B square s), (in_sight straight B square s);
      reflexivity. }
  rewrite E.
  rewrite <- !nonzero_land_existsb;
    try (apply bb_nonneg; exact Hb);
    try apply pawn_attacks_in_range; try apply knight_attacks_in_range;
    try apply king_attacks_in_range;
    try (apply bishop_attacks_in_range; exact Hq);
    try (apply rook_attacks_in_range; exact Hq);
    try (apply lor_in_range;
         [apply rook_attacks_in_range | apply bishop_attacks_in_range];
         exact Hq).
  destruct Hc as [-> | ->]; reflexivity.
Qed.

Lemma isSquareAttacked_finds_attackers_witness :
  isSquareAttacked check_board e1 black
  = Some (existsb (attacker check_board black e1) squares).
Proof.
  apply (isSquareAttacked_finds_attackers check_board e1 black).
  - apply wf_boardb_spec. vm_compute. reflexivity.
  - unfold e1. lia.
  - right. reflexivity.
Defined.

(** * The generator emits every pseudo-legal move *)

(** ** Runs of [add_move] that contain a given move *)
Lemma adds_any (P : Z -> Prop) (st st' : Moves) :
  adds P st st' -> adds (fun _ => True) st st'.
Proof. apply adds_weaken. intros m _. exact I. Qed.

Lemma has_one (m : Z) (st : Moves) : has_added m st (add_move st m).
Proof. exists [m]. split; [reflexivity | left; reflexivity]. Qed.

Lemma has_then (P : Z -> Prop) (m : Z) (st1 st2 st3 : Moves) :
  has_added m st1 st2 -> adds P st2 st3 -> has_added m st1 st3.
Proof.
  intros (l1 & -> & H1) (l2 & _ & ->). exists (l1 ++ l2). split.
  - rewrite fold_left_app. reflexivity.
  - apply in_or_app. left. exact H1.
Qed.

Lemma then_has (P : Z -> Prop) (m : Z) (st1 st2 st3 : Moves) :
  adds P st1 st2 -> has_added m st2 st3 -> has_added m st1 st3.
Proof.
  intros (l1 & _ & ->) (l2 & -> & H2). exists (l1 ++ l2). split.
  - rewrite fold_left_app. reflexivity.
  - apply in_or_app. right. exact H2.
Qed.

(** A loop whose rounds only add moves, and whose round for [k0] adds
    [m], adds [m]. *)
Lemma foldM_has (P : Z -> Prop) (m k0 : Z)
    (body : Z -> Moves -> option Moves) (l : list Z) :
  (forall k s s', In k l -> body k s = Some s' -> adds P s s') ->
  In k0 l ->
  (forall s s', body k0 s = Some s' -> has_added m s s') ->
  forall st st', foldM body l st = Some st' -> has_added m st st'.
Proof.
  induction l as [|k l IH]; intros Hg Hin Hk st st' H; [contradiction|].
  cbn [foldM] in H. inv_bind H.
  assert (Tail : adds P v st').
  { apply (foldM_inv (adds P v) body l) with (st := v);
      [|apply adds_refl | exact H].
    intros q s s' Hq A B. eapply adds_trans; [exact A|].
    apply (Hg q s s'); [right; exact Hq | exact B]. }
  destruct (Z.eq_dec k k0) as [->|N].
  - apply (has_then P m st v st'); [apply Hk; exact E | exact Tail].
  - destruct Hin as [Hin|Hin]; [contradiction|].
    apply (then_has P m st v st').
    + apply (Hg k st v); [left; reflexivity | exact E].
    + apply IH; try assumption.
      intros q s s' Hq. apply Hg. right. exact Hq.
Qed.

Lemma for_bits_has (P : Z -> Prop) (m k0 : Z)
    (body : Z -> Moves -> option Moves) (bitboard : Z) (st st' : Moves) :
  U64.in_range bitboard ->
  (forall k s s', 0 <= k < 64 -> Z.testbit bitboard k = true ->
                  body k s = Some s' -> adds P s s') ->
  0 <= k0 < 64 -> Z.testbit bitboard k0 = true ->
  (forall s s', body k0 s = Some s' -> has_added m s s') ->
  for_bits 64 bitboard body st = Some st' -> has_added m st st'.
Proof.
  intros Hr Hg Hk0 Hbit Hk H. rewrite for_bits_fold in H by exact Hr.
  apply (foldM_has P m k0 body (bits_of bitboard)) with (st := st);
    try assumption.
  - intros k s s' Hin. apply In_bits_of in Hin. destruct Hin as [A B].
    apply Hg; assumption.
  - apply In_bits_of. split; assumption.
Qed.

Lemma add_promotions_has (st : Moves) (f t p : Z) (promotions : list Z)
    (c pr : Z) :
  In pr promotions ->
  has_added (encode_move f t p pr c 0 0 0) st
            (add_promotions st f t p promotions c).
Proof.
  intros H. unfold add_promotions.
  exists (map (fun pr => encode_move f t p pr c 0 0 0) promotions). split.
  - generalize st. clear H.
    induction promotions as [|x l IH]; intros st0; cbn; [reflexivity|].
    apply IH.
  - apply (in_map (fun pr => encode_move f t p pr c 0 0 0)). exact H.
Qed.

Section Complete.

Variable b : ChessBoard.
Hypothesis Hb : wf_board b.
Variable side : Z.
Hypothesis Hside : side = white \/ side = black.

Let PL := pseudo_legal b side.

Lemma pawn_body_adds (from : Z) (s s' : Moves) :
  0 <= from < 64 -> Z.testbit (bb b (pawn_of side)) from = true ->
  pawn_body b side (occupancy b) from s = Some s' -> adds PL s s'.
Proof.
  intros Hf Hbit H. unfold pawn_body in H. inv_bind H.
  eapply adds_trans;
    [apply (pawn_pushes_sound b side Hside from s Hf Hbit)|].
  eapply adds_trans;
    [apply (pawn_captures_sound b Hb side from _ _ Hf Hbit E)|].
  apply (pawn_enpassant_sound b side from _ _ Hf Hbit H).
Qed.

Lemma promotion_rank_spec (from : Z) :
  (if side =? white then (from >=? a7) && (from <=? h7)
   else (from >=? a2) && (from <=? h2)) = promotion_rank side from.
Proof. unfold promotion_rank. rewrite !Z.geb_leb. reflexivity. Qed.

Lemma start_rank_spec (from : Z) :
  (if side =? white then (from >=? a2) && (from <=? h2)
   else (from >=? a7) && (from <=? h7)) = start_rank side from.
Proof. unfold start_rank. rewrite !Z.geb_leb. reflexivity. Qed.

Lemma push_allowed (from : Z) :
  0 <= from + forward_step side < 64 ->
  (if side =? white then negb (from + forward_step side <? a8)
   else negb (from + forward_step side >? h1)) = true.
Proof.
  intros H. destruct (side =? white); apply negb_true_iff.
  - apply Z.ltb_ge. squares_unfold. lia.
  - rewrite Z.gtb_ltb. apply Z.ltb_ge. squares_unfold. lia.
Qed.

Lemma ranks_apart (from : Z) :
  start_rank side from = true -> promotion_rank side from = false.
Proof.
  unfold start_rank, promotion_rank.
  destruct (side =? white); squares_unfold; intros H; bools; lia.
Qed.

Lemma pawn_pushes_has_push (from pr : Z) (st : Moves) :
  0 <= from < 64 -> 0 <= from + forward_step side < 64 ->
  Z.testbit (occ b both) (from + forward_step side) = false ->
  promoted_ok side from pr ->
  has_added (encode_move from (from + forward_step side) (pawn_of side)
                         pr 0 0 0 0)
            st (pawn_pushes side (occupancy b) from st).
Proof.
  intros Hf Ht He Hpr. unfold pawn_pushes.
  change (nth 2 (occupancy b) 0) with (occ b both).
  change (if side =? white then WP else BP) with (pawn_of side).
  change (if side =? white then -8 else 8) with (forward_step side).
  rewrite promotion_rank_spec, start_rank_spec, (push_allowed from Ht).
  rewrite get_bit_spec, He by lia. cbn [negb andb].
  unfold promoted_ok in Hpr.
  destruct (promotion_rank side from).
  - apply add_promotions_has. exact Hpr.
  - subst pr.
    match goal with
    | |- has_added ?m _ (if ?c then add_move ?s ?d else _) =>
        destruct c;
        [apply (has_then (fun _ => True) m st s);
         [apply has_one | apply adds_one; exact I]
        |apply has_one]
    end.
Qed.

Lemma pawn_pushes_has_double (from : Z) (st : Moves) :
  0 <= from < 64 -> start_rank side from = true ->
  Z.testbit (occ b both) (from + forward_step side) = false ->
  Z.testbit (occ b both) (from + forward_step side + forward_step side)
    = false ->
  has_added (encode_move from (from + forward_step side + forward_step side)
                         (pawn_of side) 0 0 1 0 0)
            st (pawn_pushes side (occupancy b) from st).
Proof.
  intros Hf Hs He1 He2. unfold pawn_pushes.
  change (nth 2 (occupancy b) 0) with (occ b both).
  change (if side =? white then WP else BP) with (pawn_of side).
  change (if side =? white then -8 else 8) with (forward_step side).
  assert (Ht : 0 <= from + forward_step side < 64 /\
               0 <= from + forward_step side + forward_step side).
  { unfold start_rank, forward_step in *. destruct Hside as [-> | ->];
      cbn [Z.eqb white black] in *; squares_unfold; bools; lia. }
  rewrite promotion_rank_spec, start_rank_spec,
    (push_allowed from (proj1 Ht)).
  rewrite (ranks_apart from Hs), Hs.
  rewrite !get_bit_spec, He1, He2 by lia. cbn [negb andb].
  eapply (then_has (fun _ => True)); [apply adds_one; exact I|].
  apply has_one.
Qed.

Lemma pawn_captures_has (from t pr : Z) (st st' : Moves) :
  0 <= from < 64 -> 0 <= t < 64 ->
  Z.testbit (pawn_attacks side from) t = true ->
  Z.testbit (occ b (Z.lxor side 1)) t = true ->
  promoted_ok side from pr ->
  pawn_captures side (occupancy b) from st = Some st' ->
  has_added (encode_move from t (pawn_of side) pr 1 0 0 0) st st'.
Proof.
  intros Hf Ht Ha Ho Hpr. unfold pawn_captures.
  change (nth (Z.to_nat (Z.lxor side 1)) (occupancy b) 0)
    with (occ b (Z.lxor side 1)).
  change (if side =? white then WP else BP) with (pawn_of side).
  rewrite promotion_rank_spec.
  apply (for_bits_has (fun _ => True) _ t).
  - apply land_in_range; [apply pawn_attacks_in_range|].
    apply (occ_in_range b Hb (Z.to_nat (Z.lxor side 1))).
  - intros k s s' _ _ H. injection H as <-.
    destruct (promotion_rank side from).
    + apply add_promotions_adds_all. apply Forall_forall. intros; exact I.
    + apply adds_one. exact I.
  - exact Ht.
  - rewrite Z.land_spec, Ha, Ho. reflexivity.
  - intros s s' H. injection H as <-. unfold promoted_ok in Hpr.
    destruct (promotion_rank side from).
    + apply add_promotions_has. exact Hpr.
    + subst pr. apply has_one.
Qed.

Lemma pawn_enpassant_has (from : Z) (st st' : Moves) :
  0 <= from < 64 -> 0 <= enpassant b < 64 ->
  Z.testbit (pawn_attacks side from) (enpassant b) = true ->
  pawn_enpassant b side from st = Some st' ->
  has_added (encode_move from (enpassant b) (pawn_of side) 0 1 0 1 0) st st'.
Proof.
  intros Hf He Ha. unfold pawn_enpassant.
  change (if side =? white then WP else BP) with (pawn_of side).
  destruct (Z.eqb_spec (enpassant b) no_sq) as [E|_];
    [unfold no_sq in E; lia|]. cbn [negb].
  replace (valid_shift (enpassant b)) with true
    by (symmetry; unfold valid_shift; apply andb_true_iff; split;
        [apply Z.leb_le | apply Z.ltb_lt]; lia).
  assert (L : Z.land (pawn_attacks side from) (bit (enpassant b))
              = bit (enpassant b)).
  { apply Z.bits_inj'. intros k Hk.
    rewrite Z.land_spec, testbit_bit by lia.
    destruct (Z.eqb_spec (enpassant b) k) as [<-|_];
      [rewrite Ha; reflexivity | apply andb_false_r]. }
  rewrite L.
  assert (N : bit (enpassant b) <> 0).
  { intros Z0. apply (f_equal (fun z => Z.testbit z (enpassant b))) in Z0.
    rewrite testbit_bit, Z.eqb_refl, Z.bits_0 in Z0 by lia. discriminate. }
  rewrite (proj2 (nonzero_true _) N).
  intros H. inv_bind H. injection H as <-.
  apply bitScanForward_Some in E; [|apply bit_in_range; exact He].
  destruct E as (_ & Hbit & _).
  rewrite testbit_bit in Hbit by lia. apply Z.eqb_eq in Hbit. subst v.
  apply has_one.
Qed.

Lemma pawn_bitboard :
  (if side =? white then bb b WP else bb b BP) = bb b (pawn_of side).
Proof. unfold pawn_of. destruct (side =? white); reflexivity. Qed.

(** Each of the four kinds of pawn move is added by the loop over the
    pawns. *)
Lemma generateMovesPawns_has (m from : Z) (st st' : Moves) :
  0 <= from < 64 -> Z.testbit (bb b (pawn_of side)) from = true ->
  (forall s s', pawn_body b side (occupancy b) from s = Some s' ->
                has_added m s s') ->
  generateMovesPawns b side (occupancy b) st = Some st' ->
  has_added m st st'.
Proof.
  intros Hf Hbit Hbody. unfold generateMovesPawns. rewrite pawn_bitboard.
  apply (for_bits_has PL m from); try assumption.
  - apply (bb_in_range b Hb (Z.to_nat (pawn_of side))).
  - intros k s s' Hk Hbk. apply pawn_body_adds; assumption.
Qed.

Lemma pawn_body_push (from pr : Z) (s s' : Moves) :
  0 <= from < 64 -> Z.testbit (bb b (pawn_of side)) from = true ->
  0 <= from + forward_step side < 64 ->
  Z.testbit (occ b both) (from + forward_step side) = false ->
  promoted_ok side from pr ->
  pawn_body b side (occupancy b) from s = Some s' ->
  has_added (encode_move from (from + forward_step side) (pawn_of side)
                         pr 0 0 0 0) s s'.
Proof.
  intros Hf Hbit Ht He Hpr H. unfold pawn_body in H. inv_bind H.
  eapply has_then; [apply pawn_pushes_has_push; assumption|].
  eapply adds_trans;
    [apply (pawn_captures_sound b Hb side from _ _ Hf Hbit E)|].
  apply (pawn_enpassant_sound b side from _ _ Hf Hbit H).
Qed.

Lemma pawn_body_double (from : Z) (s s' : Moves) :
  0 <= from < 64 -> Z.testbit (bb b (pawn_of side)) from = true ->
  start_rank side from = true ->
  Z.testbit (occ b both) (from + forward_step side) = false ->
  Z.testbit (occ b both) (from + forward_step side + forward_step side)
    = false ->
  pawn_body b side (occupancy b) from s = Some s' ->
  has_added (encode_move from (from + forward_step side + forward_step side)
                         (pawn_of side) 0 0 1 0 0) s s'.
Proof.
  intros Hf Hbit Hs H1 H2 H. unfold pawn_body in H. inv_bind H.
  eapply has_then; [apply pawn_pushes_has_double; assumption|].
  eapply adds_trans;
    [apply (pawn_captures_sound b Hb side from _ _ Hf Hbit E)|].
  apply (pawn_enpassant_sound b side from _ _ Hf Hbit H).
Qed.

Lemma pawn_body_capture (from t pr : Z) (s s' : Moves) :
  0 <= from < 64 -> Z.testbit (bb b (pawn_of side)) from = true ->
  0 <= t < 64 ->
  Z.testbit (pawn_attacks side from) t = true ->
  Z.testbit (occ b (Z.lxor side 1)) t = true ->
  promoted_ok side from pr ->
  pawn_body b side (occupancy b) from s = Some s' ->
  has_added (encode_move from t (pawn_of side) pr 1 0 0 0) s s'.
Proof.
  intros Hf Hbit Ht Ha Ho Hpr H. unfold pawn_body in H. inv_bind H.
  eapply then_has;
    [apply (pawn_pushes_sound b side Hside from s Hf Hbit)|].
  eapply has_then;
    [apply (pawn_captures_has from t pr _ _ Hf Ht Ha Ho Hpr E)|].
  apply (pawn_enpassant_sound b side from _ _ Hf Hbit H).
Qed.

Lemma pawn_body_enpassant (from : Z) (s s' : Moves) :
  0 <= from < 64 -> Z.testbit (bb b (pawn_of side)) from = true ->
  0 <= enpassant b < 64 ->
  Z.testbit (pawn_attacks side from) (enpassant b) = true ->
  pawn_body b side (occupancy b) from s = Some s' ->
  has_added (encode_move from (enpassant b) (pawn_of side) 0 1 0 1 0) s s'.
Proof.
  intros Hf Hbit He Ha H. unfold pawn_body in H. inv_bind H.
  eapply then_has;
    [apply (pawn_pushes_sound b side Hside from s Hf Hbit)|].
  eapply then_has;
    [apply (pawn_captures_sound b Hb side from _ _ Hf Hbit E)|].
  apply (pawn_enpassant_has from _ _ Hf He Ha H).
Qed.

(** The inner loop over the targets of a king or a piece. *)
Lemma target_loop_has (p from attacks t : Z) (st st' : Moves) :
  U64.in_range attacks -> 0 <= t < 64 ->
  Z.testbit attacks t = true -> Z.testbit (occ b side) t = false ->
  for_bits 64 (Z.land attacks (U64.not (occ b side)))
           (target_body from p (occ b (Z.lxor side 1))) st = Some st' ->
  has_added (encode_move from t p 0
               (if Z.testbit (occ b (Z.lxor side 1)) t then 1 else 0) 0 0 0)
            st st'.
Proof.
  intros Ra Ht Ha Ho.
  apply (for_bits_has (fun _ => True) _ t).
  - apply land_in_range; [exact Ra|]. apply not_nonneg.
    apply (occ_in_range b Hb (Z.to_nat side)).
  - intros k s s' _ _ H. unfold target_body in H. injection H as <-.
    destruct (negb _); apply adds_one; exact I.
  - exact Ht.
  - rewrite Z.land_spec, testbit_lnot_u64, Ha, Ho by exact Ht. reflexivity.
  - intros s s' H. unfold target_body in H. injection H as <-.
    rewrite get_bit_spec by lia.
    destruct (Z.testbit (occ b (Z.lxor side 1)) t); cbn [negb];
      apply has_one.
Qed.

Lemma king_steps_has (from t : Z) (st st' : Moves) :
  0 <= from < 64 -> Z.testbit (bb b (king_of side)) from = true ->
  0 <= t < 64 -> Z.testbit (king_attacks from) t = true ->
  Z.testbit (occ b side) t = false ->
  king_steps b side (occupancy b) st = Some st' ->
  has_added (encode_move from t (king_of side) 0
               (if Z.testbit (occ b (Z.lxor side 1)) t then 1 else 0) 0 0 0)
            st st'.
Proof.
  intros Hf Hbit Ht Ha Ho. unfold king_steps.
  rewrite (own_occupancy b side Hside), (enemy_occupancy b side Hside).
  change (if side =? white then WK else BK) with (king_of side).
  replace (if side =? white then bb b WK else bb b BK)
    with (bb b (king_of side))
    by (unfold king_of; destruct (side =? white); reflexivity).
  assert (Hk : In (king_of side) (officers side)).
  { unfold king_of, officers. destruct (side =? white); cbn; tauto. }
  assert (Hs : forall from, attack_set (king_of side) from (occ b both)
                            = Some (king_attacks from)).
  { intros f. unfold attack_set, king_of.
    destruct (side =? white); reflexivity. }
  apply (for_bits_has PL _ from); try assumption.
  - apply (bb_in_range b Hb (Z.to_nat (king_of side))).
  - intros k s s' Hk' Hbk H.
    exact (target_body_sound b Hb side (king_of side) k _ s s'
             Hk Hk' Hbk (Hs k) H).
  - intros s s'.
    apply target_loop_has; try assumption. apply king_attacks_in_range.
Qed.

Lemma generateMovesPiece_has (p from t attacks : Z) (st st' : Moves) :
  In p (officers side) -> p <> WK -> p <> BK ->
  0 <= from < 64 -> Z.testbit (bb b p) from = true ->
  0 <= t < 64 ->
  piece_attacks p from (occ b both) = Some attacks ->
  Z.testbit attacks t = true ->
  Z.testbit (occ b side) t = false ->
  generateMovesPiece b (occupancy b) p st = Some st' ->
  has_added (encode_move from t p 0
               (if Z.testbit (occ b (Z.lxor side 1)) t then 1 else 0) 0 0 0)
            st st'.
Proof.
  intros Hp Nw Nb Hf Hbit Ht Hpa Ha Ho. unfold generateMovesPiece.
  assert (Hs : (p <? 6) = (side =? white)).
  { unfold officers in Hp. destruct Hside as [-> | ->]; cbn in Hp;
      repeat (destruct Hp as [<-|Hp]; [reflexivity|]); contradiction. }
  rewrite Hs, (own_occupancy b side Hside), (enemy_occupancy b side Hside).
  change (nth 2 (occupancy b) 0) with (occ b both).
  assert (As : forall f, attack_set p f (occ b both)
                         = piece_attacks p f (occ b both)).
  { intros f. unfold attack_set.
    destruct (Z.eqb_spec p WK); [contradiction|].
    destruct (Z.eqb_spec p BK); [contradiction|]. reflexivity. }
  apply (for_bits_has PL _ from); try assumption.
  - apply (bb_in_range b Hb (Z.to_nat p)).
  - intros k s s' Hk Hbk H. inv_bind H. rewrite <- As in E.
    exact (target_body_sound b Hb side p k v s s' Hp Hk Hbk E H).
  - intros s s' H. rewrite Hpa in H. cbn [bind] in H.
    revert H. apply target_loop_has; try assumption.
    apply piece_attacks_in_range in Hpa. exact Hpa.
Qed.

Lemma castle_kingside_has (st st' : Moves) :
  kingside_conditions b side ->
  castle_kingside b side st = Some st' ->
  has_added (kingside_castle side) st st'.
Proof.
  intros (K1 & K2 & K3 & K4 & K5). unfold castle_kingside.
  unfold kingside_castle, king_home, king_of in *.
  apply nonzero_true in K1.
  destruct Hside as [E|E]; rewrite E in *; cbn [Z.eqb white black] in *;
    rewrite K1;
    change (f1 + 1) with (e1 + 2); change (f8 + 1) with (e8 + 2);
    change (f1 - 1) with e1; change (f8 - 1) with e8;
    change f1 with (e1 + 1); change f8 with (e8 + 1);
    rewrite K2, K3, K4; cbn [negb andb bind]; rewrite K5; cbn [negb bind];
    intros H; injection H as <-; apply has_one.
Qed.

Lemma castle_queenside_has (st st' : Moves) :
  queenside_conditions b side ->
  castle_queenside b side st = Some st' ->
  has_added (queenside_castle side) st st'.
Proof.
  intros (K1 & K2 & K3 & K4 & K5 & K6). unfold castle_queenside.
  unfold queenside_castle, king_home, king_of in *.
  apply nonzero_true in K1.
  destruct Hside as [E|E]; rewrite E in *; cbn [Z.eqb white black] in *;
    rewrite K1;
    change (d1 + 1) with e1; change (d8 + 1) with e8;
    change (d1 - 1) with (e1 - 2); change (d8 - 1) with (e8 - 2);
    change (d1 - 2) with (e1 - 3); change (d8 - 2) with (e8 - 3);
    change d1 with (e1 - 1); change d8 with (e8 - 1);
    rewrite K2, K3, K4, K5; cbn [negb andb bind]; rewrite K6;
    cbn [negb bind];
    intros H; injection H as <-; apply has_one.
Qed.

End Complete.

(** ** The whole generator *)

Lemma generate_moves_parts (b : ChessBoard) (st st' : Moves) :
  generate_moves st b = Some st' ->
  exists s1 s2 s3 s4 s5,
    generateMovesPawns b (side_to_move b) (occupancy b) (reset_count st)
      = Some s1 /\
    generateMovesKings b (side_to_move b) (occupancy b) s1 = Some s2 /\
    generateMovesPiece b (occupancy b) (knight_of (side_to_move b)) s2
      = Some s3 /\
    generateMovesPiece b (occupancy b) (bishop_of (side_to_move b)) s3
      = Some s4 /\
    generateMovesPiece b (occupancy b) (rook_of (side_to_move b)) s4
      = Some s5 /\
    generateMovesPiece b (occupancy b) (queen_of (side_to_move b)) s5
      = Some st'.
Proof.
  unfold generate_moves, side_to_move. intros H.
  destruct (color b =? white);
    inv_bind H; inv_bind H; inv_bind H; inv_bind H; inv_bind H;
    exists v, v0, v1, v2, v3; repeat split; assumption.
Qed.

Lemma has_generated (m : Z) (st st' : Moves) :
  List.length (moves st) = MOVES_SIZE ->
  has_added m (reset_count st) st' -> moves_count st' < 256 ->
  In m (generated st').
Proof.
  intros Hl (ms & -> & Hin) Hc.
  pose proof (reset_count_ok st Hl) as Hok.
  pose proof (fold_add_move_ok ms _ Hok) as Hok'.
  pose proof (length_generated _ Hok') as Lg.
  rewrite fold_add_move_generated in * by exact Hok.
  change (generated (reset_count st)) with (@nil Z) in *.
  cbn [app] in *.
  rewrite length_firstn in Lg.
  destruct Hok' as [_ C0].
  rewrite firstn_all2 by lia. exact Hin.
Qed.

(** X28.  Unless the list has filled up, no pseudo-legal move of the side to
    move is missing from the generated moves. *)
Theorem generate_moves_complete
    (b : ChessBoard) (st st' : Moves) (m : Z) :
  wf_board b -> List.length (moves st) = MOVES_SIZE ->
  generate_moves st b = Some st' -> moves_count st' < 256 ->
  pseudo_legal b (side_to_move b) m ->
  In m (generated st').
Proof.
  intros Hb Hl Hg Hc P.
  assert (Hs : side_to_move b = white \/ side_to_move b = black)
    by (unfold side_to_move; destruct (color b =? white); auto).
  apply (has_generated m st st' Hl); [|exact Hc].
  destruct (generate_moves_parts b st st' Hg)
    as (s1 & s2 & s3 & s4 & s5 & G1 & G2 & G3 & G4 & G5 & G6).
  set (side := side_to_move b) in *.
  assert (Of : forall p, In p [knight_of side; bishop_of side;
                               rook_of side; queen_of side] ->
                         In p (officers side) /\ p <> WK /\ p <> BK).
  { intros p Hp. unfold knight_of, bishop_of, rook_of, queen_of, officers in *.
    destruct Hs as [E|E]; rewrite E in *; cbn in Hp |- *;
      repeat (destruct Hp as [<-|Hp];
              [split; [tauto | split; discriminate]|]);
      contradiction. }
  assert (A1 : adds (pseudo_legal b side) (reset_count st) s1)
    by exact (generateMovesPawns_sound b Hb side Hs _ _ G1).
  assert (A2 : adds (pseudo_legal b side) s1 s2)
    by exact (generateMovesKings_sound b Hb side Hs _ _ G2).
  assert (A3 : adds (pseudo_legal b side) s2 s3).
  { destruct (Of (knight_of side)) as (O1 & O2 & O3);
      [left; reflexivity|].
    exact (generateMovesPiece_sound b Hb side Hs _ _ _ O1 O2 O3 G3). }
  assert (A4 : adds (pseudo_legal b side) s3 s4).
  { destruct (Of (bishop_of side)) as (O1 & O2 & O3);
      [right; left; reflexivity|].
    exact (generateMovesPiece_sound b Hb side Hs _ _ _ O1 O2 O3 G4). }
  assert (A5 : adds (pseudo_legal b side) s4 s5).
  { destruct (Of (rook_of side)) as (O1 & O2 & O3);
      [right; right; left; reflexivity|].
    exact (generateMovesPiece_sound b Hb side Hs _ _ _ O1 O2 O3 G5). }
  assert (A6 : adds (pseudo_legal b side) s5 st').
  { destruct (Of (queen_of side)) as (O1 & O2 & O3);
      [right; right; right; left; reflexivity|].
    exact (generateMovesPiece_sound b Hb side Hs _ _ _ O1 O2 O3 G6). }
  assert (T2 : adds (pseudo_legal b side) s2 st')
    by (eapply adds_trans; [exact A3|]; eapply adds_trans; [exact A4|];
        eapply adds_trans; [exact A5 | exact A6]).
  assert (T1 : adds (pseudo_legal b side) s1 st')
    by (eapply adds_trans; [exact A2 | exact T2]).
  assert (Pawn : forall from,
            0 <= from < 64 -> Z.testbit (bb b (pawn_of side)) from = true ->
            (forall s s', pawn_body b side (occupancy b) from s = Some s' ->
                          has_added m s s') ->
            has_added m (reset_count st) st').
  { intros from Hf Hbit Hbody. eapply has_then; [|exact T1].
    exact (generateMovesPawns_has b Hb side Hs m from _ _ Hf Hbit Hbody G1). }
  inversion P as [f pr Hf Hbit Ht He Hpr | f Hf Hbit Hsr H1 H2
                 | f t pr Hf Hbit Ht Ha Ho Hpr | f Hf Hbit He Ha
                 | p f t attacks Hp Hf Hbit Ht Ha Hat Ho | K | K]; subst m.
  - apply (Pawn f Hf Hbit). intros s s'.
    apply pawn_body_push; assumption.
  - apply (Pawn f Hf Hbit). intros s s'.
    apply pawn_body_double; assumption.
  - apply (Pawn f Hf Hbit). intros s s'.
    apply pawn_body_capture; assumption.
  - apply (Pawn f Hf Hbit). intros s s'.
    apply pawn_body_enpassant; assumption.
  - assert (C : p = king_of side \/
                In p [knight_of side; bishop_of side;
                      rook_of side; queen_of side]).
    { unfold officers, king_of, knight_of, bishop_of, rook_of, queen_of
        in *.
      destruct Hs as [E|E]; rewrite E in *; cbn in Hp |- *;
        intuition congruence. }
    destruct C as [-> | C].
    + assert (attacks = king_attacks f).
      { unfold attack_set, king_of in Ha.
        destruct Hs as [E|E]; rewrite E in Ha;
          change (Some (king_attacks f) = Some attacks) in Ha; congruence. }
      subst attacks.
      unfold generateMovesKings in G2. inv_bind G2. inv_bind G2.
      eapply then_has; [exact A1|].
      eapply has_then;
        [exact (king_steps_has b Hb side Hs f t _ _ Hf Hbit Ht Hat Ho E)|].
      eapply adds_trans;
        [exact (castle_kingside_sound b side _ _ E0)|].
      eapply adds_trans;
        [exact (castle_queenside_sound b side _ _ G2) | exact T2].
    + destruct (Of p C) as (O1 & O2 & O3).
      assert (Hpa : piece_attacks p f (occ b both) = Some attacks).
      { unfold attack_set in Ha.
        destruct (Z.eqb_spec p WK); [contradiction|].
        destruct (Z.eqb_spec p BK); [contradiction|]. exact Ha. }
      pose proof (fun s s' =>
                    generateMovesPiece_has b Hb side Hs p f t attacks s s'
                      O1 O2 O3 Hf Hbit Ht Hpa Hat Ho) as Hh.
      cbn [In] in C. destruct C as [<-|[<-|[<-|[<-|[]]]]].
      * eapply then_has; [eapply adds_trans; [exact A1 | exact A2]|].
        eapply has_then; [exact (Hh _ _ G3)|].
        eapply adds_trans; [exact A4|].
        eapply adds_trans; [exact A5 | exact A6].
      * eapply then_has;
          [eapply adds_trans; [exact A1|];
           eapply adds_trans; [exact A2 | exact A3]|].
        eapply has_then; [exact (Hh _ _ G4)|].
        eapply adds_trans; [exact A5 | exact A6].
      * eapply then_has;
          [eapply adds_trans; [exact A1|];
           eapply adds_trans; [exact A2|];
           eapply adds_trans; [exact A3 | exact A4]|].
        eapply has_then; [exact (Hh _ _ G5) | exact A6].
      * eapply then_has;
          [eapply adds_trans; [exact A1|];
           eapply adds_trans; [exact A2|];
           eapply adds_trans; [exact A3|];
           eapply adds_trans; [exact A4 | exact A5]|].
        exact (Hh _ _ G6).
  - unfold generateMovesKings in G2. inv_bind G2. inv_bind G2.
    eapply then_has; [exact A1|].
    eapply then_has; [exact (king_steps_sound b Hb side Hs _ _ E)|].
    eapply has_then;
      [exact (castle_kingside_has b side Hs _ _ K E0)|].
    eapply adds_trans;
      [exact (castle_queenside_sound b side _ _ G2) | exact T2].
  - unfold generateMovesKings in G2. inv_bind G2. inv_bind G2.
    eapply then_has; [exact A1|].
    eapply then_has; [exact (king_steps_sound b Hb side Hs _ _ E)|].
    eapply then_has; [exact (castle_kingside_sound b side _ _ E0)|].
    eapply has_then;
      [exact (castle_queenside_has b side Hs _ _ K G2) | exact T2].
Qed.

Lemma generate_moves_complete_witness : In e2e4 (generated start_moves).
Proof.
  apply (generate_moves_complete start_board (moves_filled 0) start_moves
           e2e4).
  - apply wf_boardb_spec. vm_compute. reflexivity.
  - reflexivity.
  - vm_compute. reflexivity.
  - vm_compute. reflexivity.
  - apply (pl_double start_board white 52).
    + lia.
    + vm_compute. reflexivity.
    + vm_compute. reflexivity.
    + vm_compute. reflexivity.
    + vm_compute. reflexivity.
Defined.

(** * What a game keeps *)

Lemma right_squares_pow2 (i : Z) :
  0 <= i < 4 ->
  right_squares (2 ^ i) = [king_home (right_side i); right_rook_home i].
Proof.
  intros Hi.
  assert (C : i = 0 \/ i = 1 \/ i = 2 \/ i = 3) by lia.
  destruct C as [-> | [-> | [-> | ->]]]; reflexivity.
Qed.

Lemma right_pieces_range (i : Z) :
  0 <= king_of (right_side i) < 12 /\ 0 <= rook_of (right_side i) < 12 /\
  0 <= king_home (right_side i) < 64 /\ 0 <= right_rook_home i < 64 /\
  king_of (right_side i) <> WP /\ king_of (right_side i) <> BP /\
  rook_of (right_side i) <> WP /\ rook_of (right_side i) <> BP.
Proof.
  unfold king_of, rook_of, king_home, right_side, right_rook_home.
  destruct (i <? 2); cbn [Z.eqb white black];
    destruct (i =? 0); destruct (i =? 1); destruct (i =? 2);
    squares_unfold; repeat split; lia.
Qed.

(** A right that is held after an accepted move was held before it, and
    the move neither left nor reached one of the two home squares of the
    right. *)
Lemma right_kept (b : ChessBoard) (m : Z) (b2 : ChessBoard) (i : Z) :
  MakeMove b m = Some (b2, true) -> 0 <= i < 4 ->
  Z.testbit (castling b2) i = true ->
  Z.testbit (castling b) i = true /\
  get_move_source m <> king_home (right_side i) /\
  get_move_source m <> right_rook_home i /\
  get_move_target m <> king_home (right_side i) /\
  get_move_target m <> right_rook_home i.
Proof.
  intros H Hi B. rewrite (MakeMove_castling b m b2 H) in B.
  rewrite !Z.land_spec in B.
  apply andb_true_iff in B. destruct B as [B Bt].
  apply andb_true_iff in B. destruct B as [B Bf].
  pose proof (get_move_source_range m) as Rf.
  pose proof (get_move_target_range m) as Rt.
  rewrite CASTLING_RIGHTS_bits in Bf, Bt by lia.
  rewrite right_squares_pow2 in Bf, Bt by exact Hi.
  unfold among in Bf, Bt. cbn [existsb] in Bf, Bt.
  apply negb_true_iff in Bf, Bt.
  apply orb_false_iff in Bf, Bt.
  destruct Bf as [F1 F2], Bt as [T1 T2].
  apply orb_false_iff in F2, T2.
  destruct F2 as [F2 _], T2 as [T2 _].
  apply Z.eqb_neq in F1, F2, T1, T2. tauto.
Qed.

Lemma bits_empty_occ (b : ChessBoard) (s : Z) :
  occupancy_consistent b ->
  (forall q, 0 <= q < 12 -> Z.testbit (bb b q) s = false) ->
  Z.testbit (occ b both) s = false.
Proof.
  intros (Ow & Ob & Oo) H. rewrite Oo, Ow, Ob. unfold union.
  cbn [fold_left]. rewrite !Z.lor_spec, Z.bits_0.
  fold (bb b WP) (bb b WN) (bb b WB) (bb b WR) (bb b WQ) (bb b WK)
       (bb b BP) (bb b BN) (bb b BB) (bb b BR) (bb b BQ) (bb b BK).
  rewrite !H by (squares_unfold; lia). reflexivity.
Qed.

Lemma after_move_other (b : ChessBoard) (m q s : Z) :
  s <> get_move_source m -> s <> get_move_target m ->
  q <> WP -> q <> BP ->
  after_move b m q s = Z.testbit (bb b q) s.
Proof.
  intros Nf Nt Nw Nb. unfold after_move.
  destruct (Z.eqb_spec s (get_move_source m)); [contradiction|].
  destruct (Z.eqb_spec s (get_move_target m)); [contradiction|].
  assert (E : (q =? pawn_of (Z.lxor (mover m) 1)) = false).
  { apply Z.eqb_neq. unfold pawn_of. destruct (_ =? white); assumption. }
  rewrite E, andb_false_r. reflexivity.
Qed.

Lemma after_castling_other (b : ChessBoard) (m q s : Z) :
  s <> get_move_source m -> s <> rook_from (get_move_target m) ->
  s <> get_move_target m -> s <> rook_to (get_move_target m) ->
  after_castling b m q s = Z.testbit (bb b q) s.
Proof.
  intros N1 N2 N3 N4. unfold after_castling.
  destruct (Z.eqb_spec s (get_move_source m)); [contradiction|].
  destruct (Z.eqb_spec s (rook_from (get_move_target m))); [contradiction|].
  destruct (Z.eqb_spec s (get_move_target m)); [contradiction|].
  destruct (Z.eqb_spec s (rook_to (get_move_target m))); [contradiction|].
  reflexivity.
Qed.

Lemma enpassant_free (b : ChessBoard) :
  wf_board b -> occupancy_consistent b -> enpassant_sound b ->
  Z.testbit (occ b (side_to_move b)) (enpassant b) = false.
Proof.
  intros Hb Hc [E | [R B]].
  - rewrite E. apply in_range_bits_high; [|unfold no_sq; lia].
    apply nth_in_range. apply Hb.
  - apply side_empty; [apply side_to_move_cases | exact Hc | exact B].
Qed.

Lemma castle_needs_right (b : ChessBoard) (side : Z) :
  side = white \/ side = black ->
  (kingside_conditions b side ->
   Z.testbit (castling b) (if side =? white then 0 else 2) = true) /\
  (queenside_conditions b side ->
   Z.testbit (castling b) (if side =? white then 1 else 3) = true).
Proof.
  intros Hs. split.
  - intros (K & _).
    destruct Hs as [-> | ->]; cbn [Z.eqb white black] in *;
      [apply (land_pow2_nonzero _ 0) | apply (land_pow2_nonzero _ 2)];
      try lia; exact K.
  - intros (K & _).
    destruct Hs as [-> | ->]; cbn [Z.eqb white black] in *;
      [apply (land_pow2_nonzero _ 1) | apply (land_pow2_nonzero _ 3)];
      try lia; exact K.
Qed.

(** One accepted generated move keeps the position sound. *)
Lemma step_position_ok
    (b : ChessBoard) (st st' : Moves) (m : Z) (b2 : ChessBoard) :
  position_ok b -> List.length (moves st) = MOVES_SIZE ->
  generate_moves st b = Some st' -> In m (generated st') ->
  MakeMove b m = Some (b2, true) ->
  position_ok b2.
Proof.
  intros (Hok & Hcons & Hdis & Hr & He) Hl Hg Hin H.
  pose proof (MakeMove_keeps_ok b m b2 true Hok H) as Hok2.
  pose proof (MakeMove_consistent b m b2 true Hcons H) as Hcons2.
  destruct Hok as (Hb & Hcol & Hcr).
  pose proof (get_move_source_range m) as Rf.
  pose proof (get_move_target_range m) as Rt.
  destruct (Z.eq_dec (get_move_castling m) 0) as [Hk|Hk].
  - destruct (accepted_plain b st st' m b2 Hb Hcons Hdis Hl Hg Hin Hk
                (fun _ => enpassant_free b Hb Hcons He) H)
      as (W2 & Bits & Mv & Ec & Ee & Hd).
    split; [exact Hok2|]. split; [exact Hcons2|]. split.
    { apply (after_disjoint b2 (after_move b m));
        [exact W2 | exact Bits | apply after_move_unique; exact Hdis]. }
    split.
    + intros i Hi B.
      destruct (right_kept b m b2 i H Hi B) as (B0 & N1 & N2 & N3 & N4).
      destruct (Hr i Hi B0) as [K R].
      destruct (right_pieces_range i)
        as (R1 & R2 & R3 & R4 & P1 & P2 & P3 & P4).
      rewrite !Bits by assumption.
      rewrite !after_move_other by congruence. split; assumption.
    + unfold enpassant_sound. rewrite Ee.
      destruct (nonzero (get_move_double m)) eqn:Nd;
        [|left; reflexivity].
      apply nonzero_true in Nd. destruct (Hd Nd) as (Et & Ee0 & Rng & Emp).
      right. split; [exact Rng|].
      apply (bits_empty_occ b2 _ Hcons2). intros q Hq.
      rewrite Bits by assumption. unfold after_move.
      assert (Fs : forward_step (side_to_move b) <> 0)
        by (unfold forward_step; destruct (_ =? white); lia).
      destruct (Z.eqb_spec (get_move_source m + forward_step (side_to_move b))
                           (get_move_source m)) as [E|_]; [lia|].
      destruct (Z.eqb_spec (get_move_source m + forward_step (side_to_move b))
                           (get_move_target m)) as [E|_]; [lia|].
      rewrite Ee0. change (nonzero 0) with false. cbn [andb].
      apply (empty_square_bits b _ Hcons); [lia| |exact Hq].
      rewrite get_bit_spec by lia. exact Emp.
  - pose proof (generated_emitted b st st' m Hb Hl Hg Hin) as Em.
    pose proof (side_to_move_cases b) as Hs.
    destruct (castle_needs_right b _ Hs) as [NK NQ].
    assert (Home :
      Z.testbit (bb b (king_of (side_to_move b))) (king_home (side_to_move b))
        = true /\
      Z.testbit (bb b (rook_of (side_to_move b)))
                (rook_from (get_move_target m)) = true /\
      (m = kingside_castle (side_to_move b) \/
       m = queenside_castle (side_to_move b))).
    { destruct Hs as [Hs|Hs]; rewrite Hs in *;
        inversion Em as [m' H0 | K | K]; subst; try contradiction.
      - destruct (Hr 0 ltac:(lia) (NK K)) as [A B]. auto.
      - destruct (Hr 1 ltac:(lia) (NQ K)) as [A B]. auto.
      - destruct (Hr 2 ltac:(lia) (NK K)) as [A B]. auto.
      - destruct (Hr 3 ltac:(lia) (NQ K)) as [A B]. auto. }
    destruct Home as (Hking & Hrook & Hm).
    destruct (accepted_castle b st st' m b2 Hb Hcons Hdis Hl Hg Hin Hk
                Hking Hrook H) as (W2 & Bits & Mv & Ep & Es & Ec & Ee).
    split; [exact Hok2|]. split; [exact Hcons2|]. split.
    { apply (after_disjoint b2 (after_castling b m));
        [exact W2 | exact Bits | apply after_castling_unique; exact Hdis]. }
    split; [|left; exact Ee].
    intros i Hi B.
    destruct (right_kept b m b2 i H Hi B) as (B0 & N1 & N2 & N3 & N4).
    destruct (Hr i Hi B0) as [K R].
    destruct (right_pieces_range i)
      as (R1 & R2 & R3 & R4 & P1 & P2 & P3 & P4).
    rewrite !Bits by assumption.
    assert (C : i = 0 \/ i = 1 \/ i = 2 \/ i = 3) by lia.
    destruct Hs as [Hs|Hs]; rewrite Hs in *;
      destruct Hm as [-> | ->];
      destruct C as [-> | [-> | [-> | ->]]];
      first [ exfalso; apply N1; reflexivity
            | rewrite !after_castling_other by (vm_compute; discriminate);
              split; assumption ].
Qed.

(** X29.  Every board of a game from a sound position is sound: the arrays and
    fields have their sizes and ranges, the occupancies are the unions of
    the piece bitboards, no square holds two pieces, every castling right
    that is held has its king and rook on their home squares, and the
    en-passant square, when there is one, is an empty square of the
    board. *)
Theorem game_keeps_position_ok (b b' : ChessBoard) :
  position_ok b -> game b b' -> position_ok b'.
Proof.
  intros Hb G. induction G as [|b1 st st' m b2 G IH Hl Hg Hin H].
  - exact Hb.
  - exact (step_position_ok b1 st st' m b2 IH Hl Hg Hin H).
Qed.

Lemma game_keeps_position_ok_witness : position_ok start_e2e4.
Proof.
  apply (game_keeps_position_ok start_board start_e2e4).
  - split; [|split; [|split; [|split]]].
    + split; [apply wf_boardb_spec; vm_compute; reflexivity|].
      split; [left; reflexivity|].
      vm_compute. split; [discriminate | reflexivity].
    + vm_compute. repeat split; reflexivity.
    + apply (parseFEN_ok empty_board start_fen). vm_compute. reflexivity.
    + intros i Hi _.
      assert (C : i = 0 \/ i = 1 \/ i = 2 \/ i = 3) by lia.
      destruct C as [-> | [-> | [-> | ->]]]; vm_compute; split; reflexivity.
    + left. reflexivity.
  - apply (game_move start_board start_board (moves_filled 0) start_moves
             e2e4 start_e2e4).
    + apply game_start.
    + reflexivity.
    + vm_compute. reflexivity.
    + vm_compute. repeat (try (left; reflexivity); right).
    + vm_compute. reflexivity.
Defined.

From Stdlib Require Import Permutation.

(** * The search when the clock runs out *)

Lemma aget_defined (a : list Z) (i : Z) :
  0 <= i < Z.of_nat (length a) -> exists v, aget a i = Some v.
Proof.
  intros H. unfold aget. destruct (Z.ltb_spec i 0); [lia|].
  destruct (nth_error a (Z.to_nat i)) eqn:E; [eauto|].
  apply nth_error_None in E. lia.
Qed.

Lemma aget2_defined (rows cols : nat) (a : list (list Z)) (i j : Z) :
  grid rows cols a -> 0 <= i < Z.of_nat rows -> 0 <= j < Z.of_nat cols ->
  exists v, aget2 a i j = Some v.
Proof.
  intros [L F] Hi Hj. unfold aget2. destruct (Z.ltb_spec i 0); [lia|].
  destruct (nth_error a (Z.to_nat i)) as [row|] eqn:E.
  - apply aget_defined. rewrite Forall_forall in F.
    rewrite (F row (nth_error_In _ _ E)). exact Hj.
  - apply nth_error_None in E. lia.
Qed.

Lemma scoreMove_defined (MVV_LVA : Z -> Z -> Z) (g : SearchTables)
    (board : ChessBoard) (m : Z) :
  grid 2 64 (killer_moves g) -> grid 12 64 (history_moves g) ->
  0 <= ply g < 64 -> 0 <= get_move_piece m < 12 ->
  exists s, scoreMove MVV_LVA g board m = Some s.
Proof.
  intros Hk Hh Hp Hm. unfold scoreMove.
  destruct (nonzero (get_move_capture m)); [eauto|].
  destruct (aget2_defined 2 64 _ 0 (ply g) Hk ltac:(lia) ltac:(lia))
    as (k0 & ->). cbn [bind].
  destruct (k0 =? m); [eauto|].
  destruct (aget2_defined 2 64 _ 1 (ply g) Hk ltac:(lia) ltac:(lia))
    as (k1 & ->). cbn [bind].
  destruct (k1 =? m); [eauto|].
  apply (aget2_defined 12 64); [exact Hh | lia|].
  pose proof (get_move_target_range m). lia.
Qed.

Lemma mapM_defined {A B : Type} (f : A -> option B) (l : list A) :
  (forall x, In x l -> exists y, f x = Some y) ->
  exists ys, mapM f l = Some ys.
Proof.
  induction l as [|x l IH]; intros H; cbn [mapM]; [eauto|].
  destruct (H x (or_introl eq_refl)) as (y & ->). cbn [bind].
  destruct IH as (ys & ->); [|cbn [bind]; eauto].
  intros z Hz. apply H. right. exact Hz.
Qed.

(** [sortMoves] returns with the count unchanged when every generated
    move has a score. *)
Lemma sortMoves_defined (MVV_LVA : Z -> Z -> Z) (g : SearchTables)
    (board : ChessBoard) (st : Moves) :
  moves_ok st ->
  (forall m, In m (generated st) ->
             exists s, scoreMove MVV_LVA g board m = Some s) ->
  exists st', sortMoves MVV_LVA g board st = Some st' /\
              moves_count st' = moves_count st /\
              length (moves st') = length (moves st) /\
              log st' = log st.
Proof.
  intros [L C] H. unfold sortMoves, sort_by.
  destruct (mapM_defined _ _ H) as (sc & E).
  unfold generated in E. rewrite E. cbn [bind].
  assert (Hn : (Z.to_nat (moves_count st) <= length (moves st))%nat)
    by (rewrite L; unfold MOVES_SIZE; lia).
  pose proof (sort_loops_sorted (scoreMove MVV_LVA g board)
                (Z.to_nat (moves_count st)) (moves st) Hn sc E)
    as (Len & _).
  destruct (sort_loops _ _) as [scores sorted]. cbn [snd] in Len.
  eexists. split; [reflexivity|]. cbn. auto.
Qed.

Lemma aset_defined (a : list Z) (i v : Z) :
  0 <= i < Z.of_nat (length a) ->
  aset a i v = Some (list_set a (Z.to_nat i) v).
Proof.
  intros H. unfold aset.
  replace ((0 <=? i) && (i <? Z.of_nat (length a))) with true; [reflexivity|].
  symmetry. apply andb_true_iff. split; [apply Z.leb_le | apply Z.ltb_lt]; lia.
Qed.

Section Timeout.

Variable Clock : Type.
Variable now : Clock -> Z * Clock.
Variable T : EvalTables.
Variable MVV_LVA : Z -> Z -> Z.

(** X30.  If the clock has run out when [NegaMax] (at a depth other than 0)
    comes to the first move of its loop, it tries no move and answers as
    if the side to move had none: the checkmate score -49000 + ply, with
    the ply already raised by one, when the side is in check, and the
    stalemate score 0 otherwise.  The ply is left one higher than at the
    call; the node has been counted and [pv_length[ply]] set. *)
Theorem NegaMax_timeout_reports_no_moves
    (fuel : nat) (w : World Clock) (timer : Timer) (board : ChessBoard)
    (st st1 : Moves) (alpha beta depth : Z) (in_check : bool) (c : Clock) :
  wf_board board -> List.length (moves st) = MOVES_SIZE ->
  search_arrays_ok w -> 0 <= ply (tables w) < 64 ->
  depth <> 0 ->
  isThereCheck board (color board) = Some in_check ->
  generate_moves (mkMoves (moves st) (moves_count st) (output w)) board
    = Some st1 ->
  0 < moves_count st1 ->
  IsTimeOut now timer (clock w) = (true, c) ->
  NegaMax now T MVV_LVA (S fuel) w timer board st alpha beta depth =
  Some (if in_check then -49000 + (ply (tables w) + 1) else 0,
        mkWorld (mkSearchTables (ply (tables w) + 1)
                                (killer_moves (tables w))
                                (history_moves (tables w)))
                (U64.wrap (num_nodes w + 1))
                (list_set (pv_length w) (Z.to_nat (ply (tables w)))
                          (ply (tables w)))
                (pv_table w) c (log st1)).
Proof.
  intros Hb Hl (Hk & Hh & Hpl & Hpt) Hp Hd Hc Hg Hn Ht.
  cbn [NegaMax].
  rewrite aset_defined by (rewrite Hpl; lia). cbn [bind].
  destruct (Z.eqb_spec depth 0) as [|_]; [contradiction|].
  rewrite Hc. cbn [bind].
  unfold generate_in. cbn [tables output with_pv_length].
  rewrite Hg. cbn [bind].
  assert (Hl1 : length (moves (mkMoves (moves st) (moves_count st)
                                       (output w))) = MOVES_SIZE)
    by exact Hl.
  destruct (generate_moves_ok board _ st1 Hb Hl1 Hg) as [Hok _].
  assert (Hsc : forall m, In m (generated st1) ->
                  exists s, scoreMove MVV_LVA (tables w) board m = Some s).
  { intros m Hin. apply scoreMove_defined; try assumption.
    pose proof (generate_moves_sound board _ st1 Hb Hg) as A.
    assert (P : pseudo_legal board (side_to_move board) m).
    { apply (adds_generated _ _ st1 m) in A; try assumption.
      - apply reset_count_ok. exact Hl1.
      - reflexivity. }
    destruct (pseudo_legal_shape board _ m (side_to_move_cases board) P)
      as (_ & R & _). exact R. }
  destruct (sortMoves_defined MVV_LVA (tables w) board st1 Hok Hsc)
    as (st2 & E2 & C2 & L2 & _).
  cbn [clock with_nodes with_ply with_tables with_output with_pv_length
       tables ply killer_moves history_moves num_nodes pv_length pv_table
       output].
  rewrite E2. cbn [bind].
  assert (G : exists m rest, generated st2 = m :: rest).
  { unfold generated. rewrite C2.
    destruct Hok as [L1 C1].
    destruct (Z.to_nat (moves_count st1)) as [|n] eqn:En; [lia|].
    destruct (moves st2) as [|m r] eqn:Em.
    - rewrite L1 in L2. cbn in L2. unfold MOVES_SIZE in L2. lia.
    - cbn [firstn]. eauto. }
  destruct G as (m & rest & ->).
  cbn [clock with_nodes with_ply with_tables with_output with_pv_length
       tables ply killer_moves history_moves num_nodes pv_length pv_table
       output].
  rewrite Ht.
  unfold negamax_result.
  cbn [Z.eqb with_clock with_nodes with_ply with_tables with_output
       with_pv_length tables ply killer_moves history_moves num_nodes
       pv_length pv_table output clock].
  assert (A1 : I32.add (ply (tables w)) 1 = ply (tables w) + 1).
  { unfold I32.add. apply I32_wrap_small. lia. }
  rewrite A1.
  assert (A2 : I32.add (-49000) (ply (tables w) + 1)
               = -49000 + (ply (tables w) + 1)).
  { unfold I32.add. apply I32_wrap_small. lia. }
  rewrite A2.
  destruct in_check; reflexivity.
Qed.

End Timeout.

Lemma NegaMax_timeout_reports_no_moves_witness :
  NegaMax late_clock sample_tables sample_MVV_LVA 1 sample_world short_timer
          start_board (moves_filled 0) (-50000) 50000 1 =
  Some (if false then -49000 + (ply (tables sample_world) + 1) else 0,
        mkWorld (mkSearchTables (ply (tables sample_world) + 1)
                                (killer_moves (tables sample_world))
                                (history_moves (tables sample_world)))
                (U64.wrap (num_nodes sample_world + 1))
                (list_set (pv_length sample_world)
                          (Z.to_nat (ply (tables sample_world)))
                          (ply (tables sample_world)))
                (pv_table sample_world) 200000 (log start_moves)).
Proof.
  apply (NegaMax_timeout_reports_no_moves Z late_clock sample_tables
           sample_MVV_LVA 0 sample_world short_timer start_board
           (moves_filled 0) start_moves (-50000) 50000 1 false 200000).
  - apply wf_boardb_spec. vm_compute. reflexivity.
  - reflexivity.
  - repeat split; try reflexivity;
      repeat (apply Forall_cons; [reflexivity|]); apply Forall_nil.
  - vm_compute. split; [discriminate | reflexivity].
  - discriminate.
  - vm_compute. reflexivity.
  - vm_compute. reflexivity.
  - vm_compute. reflexivity.
  - vm_compute. reflexivity.
Defined.

(** * Move strings against the generated moves *)

(** No pseudo-legal move is encoded as 0: 0 reads as a white pawn that
    goes from a8 to a8 without any flag. *)
Lemma pseudo_legal_nonzero (b : ChessBoard) (side m : Z) :
  side = white \/ side = black ->
  pseudo_legal b side m -> m <> 0.
Proof.
  intros Hside H E.
  pose proof (pawn_of_range side) as Rp.
  assert (Es : get_move_source m = 0) by (rewrite E; reflexivity).
  assert (Et : get_move_target m = 0) by (rewrite E; reflexivity).
  assert (Ep : get_move_piece m = 0) by (rewrite E; reflexivity).
  assert (Ec : get_move_capture m = 0) by (rewrite E; reflexivity).
  assert (Ed : get_move_double m = 0) by (rewrite E; reflexivity).
  assert (Ek : get_move_castling m = 0) by (rewrite E; reflexivity).
  clear E.
  inversion H as [f pr Hf Hb Ht He Hpr | f Hf Hb Hs H1 H2
                 | f t pr Hf Hb Ht Ha Ho Hpr | f Hf Hb He Ha
                 | p f t attacks Hp Hf Hb Ht Ha Hbit Ho | K | K]; subst m.
  - pose proof (promoted_ok_range _ _ _ Hpr).
    assert (F : fields_ok f (f + forward_step side) (pawn_of side) pr 0 0 0 0)
      by (unfold fields_ok; lia).
    rewrite get_move_source_encode in Es by exact F.
    rewrite get_move_target_encode in Et by exact F.
    unfold forward_step in Et. destruct (side =? white); lia.
  - assert (Hr : 0 <= f + forward_step side + forward_step side < 64).
    { unfold start_rank in Hs. unfold forward_step.
      destruct (side =? white); apply andb_true_iff in Hs;
        destruct Hs as [L1 L2]; apply Z.leb_le in L1; apply Z.leb_le in L2;
        unfold a2, h2, a7, h7 in *; lia. }
    assert (F : fields_ok f (f + forward_step side + forward_step side)
                  (pawn_of side) 0 0 1 0 0) by (unfold fields_ok; lia).
    rewrite get_move_double_encode in Ed by exact F. discriminate Ed.
  - pose proof (promoted_ok_range _ _ _ Hpr).
    assert (F : fields_ok f t (pawn_of side) pr 1 0 0 0)
      by (unfold fields_ok; lia).
    rewrite get_move_capture_encode in Ec by exact F. discriminate Ec.
  - assert (F : fields_ok f (enpassant b) (pawn_of side) 0 1 0 1 0)
      by (unfold fields_ok; lia).
    rewrite get_move_capture_encode in Ec by exact F. discriminate Ec.
  - pose proof (officers_range _ _ Hp) as Ro.
    assert (F : fields_ok f t p 0
                  (if Z.testbit (occ b (Z.lxor side 1)) t then 1 else 0)
                  0 0 0)
      by (unfold fields_ok;
          destruct (Z.testbit (occ b (Z.lxor side 1)) t); lia).
    rewrite get_move_piece_encode in Ep by exact F. subst p.
    unfold officers in Hp. destruct (side =? white); cbn in Hp;
      repeat (destruct Hp as [Hp|Hp]; [discriminate Hp|]); contradiction.
  - destruct Hside as [-> | ->]; vm_compute in Ek; discriminate Ek.
  - destruct Hside as [-> | ->]; vm_compute in Ek; discriminate Ek.
Qed.

(** Among the first [n] elements, if one of them is found. *)
Lemma find_in_firstn {A : Type} (f : A -> bool) (l : list A) (n : nat) (x : A) :
  In x (firstn n l) -> f x = true -> find f (firstn n l) = find f l.
Proof.
  revert n. induction l as [|a l IH]; intros n Hin Hx.
  - rewrite firstn_nil. reflexivity.
  - destruct n as [|n]; [contradiction|]. cbn [firstn find] in *.
    destruct (f a) eqn:Fa; [reflexivity|].
    destruct Hin as [->|Hin]; [congruence|].
    exact (IH n Hin Hx).
Qed.

(** X18.  When one of the generated moves fits the move string, [parseMove]
    returns the first generated move that fits it.  The slots behind the
    generated moves, which the loop also visits, are not reached.  On a
    board of 64-bit bitboards and with the move list of its declared
    size, the result is not 0, the value that stands for no move. *)
Theorem parseMove_finds_generated
    (st : Moves) (b : ChessBoard) (st' : Moves) (s : string)
    (c0 c1 c2 c3 c4 m : Z) :
  generate_moves st b = Some st' ->
  char_at s 0 = Some c0 -> char_at s 1 = Some c1 ->
  char_at s 2 = Some c2 -> char_at s 3 = Some c3 ->
  char_at s 4 = Some c4 ->
  In m (generated st') ->
  fits (square_of_chars c0 c1) (square_of_chars c2 c3) c4 m = true ->
  exists m',
    parseMove st b s = Some (st', m') /\
    find (fits (square_of_chars c0 c1) (square_of_chars c2 c3) c4)
         (generated st') = Some m' /\
    In m' (generated st') /\
    fits (square_of_chars c0 c1) (square_of_chars c2 c3) c4 m' = true /\
    (wf_board b -> List.length (moves st) = MOVES_SIZE -> m' <> 0).
Proof.
  intros Hg H0 H1 H2 H3 H4 Hin Hf.
  unfold parseMove. rewrite Hg. cbn [bind]. rewrite H0, H1, H2, H3.
  cbn [bind].
  change ((c0 - ch "a") + (8 - (c1 - ch "0")) * 8)
    with (square_of_chars c0 c1).
  change ((c2 - ch "a") + (8 - (c3 - ch "0")) * 8)
    with (square_of_chars c2 c3).
  rewrite (match_move_find _ s _ _ c4 H4). cbn [bind].
  pose proof Hin as Hin'. unfold generated in Hin'.
  destruct (find_firstn _ _ _ m Hin' Hf) as (y & E & Hy & Fy).
  rewrite E. exists y. split; [reflexivity|].
  split; [unfold generated; rewrite (find_in_firstn _ _ _ m Hin' Hf); exact E|].
  split; [exact Hy|]. split; [exact Fy|].
  intros Hb Hl.
  apply (pseudo_legal_nonzero b (side_to_move b)).
  - unfold side_to_move. destruct (color b =? white); auto.
  - apply generate_moves_sound in Hg; [|exact Hb].
    apply (adds_generated _ (reset_count st) st' y); try assumption.
    + apply reset_count_ok. exact Hl.
    + reflexivity.
Qed.

Lemma parseMove_finds_generated_witness :
  exists m',
    parseMove (moves_filled 0) start_board "e2e4" = Some (start_moves, m') /\
    find (fits 52 36 0) (generated start_moves) = Some m' /\
    In m' (generated start_moves) /\
    fits 52 36 0 m' = true /\
    (wf_board start_board ->
     List.length (moves (moves_filled 0)) = MOVES_SIZE -> m' <> 0).
Proof.
  apply (parseMove_finds_generated (moves_filled 0) start_board start_moves
           "e2e4" (ch "e") (ch "2") (ch "e") (ch "4") 0 e2e4);
    try reflexivity.
  vm_compute. repeat (try (left; reflexivity); right).
Defined.

(** The characters are read as signed values: the byte 255 reads as -1,
    and with [+] behind it the two give the square
    (-1 - 97) + (8 - (43 - 48)) * 8 = 6, which is g8.  After e2e4 the
    string of the bytes 255, [+], [f] and [6] is read as the knight move
    g8f6. *)
Example parseMove_reads_signed_chars :
  char_at high_g8f6 0 = Some (-1) /\
  parseMove (moves_filled 0) start_e2e4 high_g8f6
    = Some (moves_of start_e2e4, encode_move 6 21 BN 0 0 0 0 0).
Proof. split; vm_compute; reflexivity. Qed.
